(** * HyperDisk: shards, write-ahead log and disk supervisor

    A shallow embedding of [hyperdisk/shard.cc] and [hyperdisk/disk.cc].
    Machine integers are [Z] with their wrap-around written out, buffers are
    lists of bytes, and a shard is the byte image of its memory-mapped file
    together with the two offsets the C++ object keeps. *)

From Stdlib Require Import String Ascii ZArith List Lia Bool DecimalString.
From coqutil Require Import Byte Word.LittleEndianList.
Import ListNotations.

Local Open Scope Z_scope.

(** ** Machine integers *)

Definition UINT32_MAX : Z := 4294967295.
Definition INT32_MAX : Z := 2147483647.

(** Conversion to [uint32_t], [uint16_t], [uint64_t]. *)
Definition u32 (z : Z) : Z := z mod 2 ^ 32.
Definition u16 (z : Z) : Z := z mod 2 ^ 16.
Definition u64 (z : Z) : Z := z mod 2 ^ 64.

(** Conversion to [int32_t] (two's complement). *)
Definition s32 (z : Z) : Z := (z + 2 ^ 31) mod 2 ^ 32 - 2 ^ 31.

Definition is_u32 (z : Z) : Prop := 0 <= z < 2 ^ 32.
Definition is_s32 (z : Z) : Prop := - 2 ^ 31 <= z < 2 ^ 31.

(** ** Bit selection for a split: [which_to_split] (disk.cc) *)

(** [arr[i]] for a [const int*]; the callers pass [int[32]]. *)
Definition int_at (arr : list Z) (i : Z) : Z := nth (Z.to_nat i) arr 0.

(** [(x < 0) ? (-x) : x] on [int]. *)
Definition int_abs (x : Z) : Z := if x <? 0 then s32 (- x) else x.

(** One iteration of the [for] loop; the state is [(pos, diff)]. *)
Definition which_to_split_body (mask : Z) (zeros ones : list Z)
           (st : Z * Z) (i : Z) : Z * Z :=
  let '(pos, diff) := st in
  if Z.land mask (u32 (s32 (Z.shiftl 1 i))) =? 0 then
    let tmpdiff := s32 (int_at ones i - int_at zeros i) in
    let tmpdiff := int_abs tmpdiff in
    if tmpdiff <? diff then (i, tmpdiff) else (pos, diff)
  else (pos, diff).

(** The loop counter takes the values 1, 2, ..., 31. *)
Definition split_positions : list Z := map Z.of_nat (seq 1 31).

Definition which_to_split (mask : Z) (zeros ones : list Z) : Z :=
  let diff := INT32_MAX in
  let pos := 0 in
  let diff := int_abs diff in
  fst (fold_left (which_to_split_body mask zeros ones) split_positions (pos, diff)).

(** ** Result codes ([hyperdisk/returncode.h]) *)

Inductive returncode : Type :=
| SUCCESS | NOTFOUND | WRONGARITY | DATAFULL | HASHFULL | SEARCHFULL
| SYNCFAILED | DROPFAILED | SPLITFAILED | MISSINGDISK.

Definition returncode_eqb (a b : returncode) : bool :=
  match a, b with
  | SUCCESS, SUCCESS | NOTFOUND, NOTFOUND | WRONGARITY, WRONGARITY
  | DATAFULL, DATAFULL | HASHFULL, HASHFULL | SEARCHFULL, SEARCHFULL
  | SYNCFAILED, SYNCFAILED | DROPFAILED, DROPFAILED
  | SPLITFAILED, SPLITFAILED | MISSINGDISK, MISSINGDISK => true
  | _, _ => false
  end.

(** ** Buffers *)

(** [e::buffer]: a string of bytes. *)
Definition buffer : Type := list byte.

Fixpoint buffer_eqb (a b : buffer) : bool :=
  match a, b with
  | [], [] => true
  | x :: a', y :: b' => Byte.eqb x y && buffer_eqb a' b'
  | _, _ => false
  end.

(** [buf.size()] *)
Definition size (b : buffer) : Z := Z.of_nat (length b).

(** ** Coordinates *)

Record coordinate : Type := mk_coordinate {
  primary_mask : Z;
  primary_hash : Z;
  secondary_mask : Z;
  secondary_hash : Z
}.

(** Modelled from the spec: [coordinate.h] is not part of the sources at hand.
    "Coordinate A contains coordinate B iff
    (A.pm & (A.ph ^ B.ph)) == 0 and (A.sm & (A.sh ^ B.sh)) == 0";
    "primary_contains uses only the primary half". *)
Definition primary_contains (a b : coordinate) : bool :=
  Z.land (primary_mask a) (Z.lxor (primary_hash a) (primary_hash b)) =? 0.

(** Modelled from the spec: the secondary half of [contains]. *)
Definition secondary_contains (a b : coordinate) : bool :=
  Z.land (secondary_mask a) (Z.lxor (secondary_hash a) (secondary_hash b)) =? 0.

(** Modelled from the spec: [coordinate::contains], both halves. *)
Definition contains (a b : coordinate) : bool :=
  primary_contains a b && secondary_contains a b.

(** Modelled from the spec: "intersects is the symmetric variant": only the
    bits fixed by both masks have to agree. *)
Definition intersects (a b : coordinate) : bool :=
  (Z.land (Z.land (primary_mask a) (primary_mask b))
          (Z.lxor (primary_hash a) (primary_hash b)) =? 0)
  && (Z.land (Z.land (secondary_mask a) (secondary_mask b))
             (Z.lxor (secondary_hash a) (secondary_hash b)) =? 0).

(** ** The memory mapping of a shard file *)

(** [m_data]: the byte at every address of the mapping. *)
Definition memory : Type := Z -> byte.

Definition zero_memory : memory := fun _ => Byte.x00.

Definition load_bytes (m : memory) (a : Z) (n : nat) : list byte :=
  map (fun i => m (a + Z.of_nat i)) (seq 0 n).

(** [memmove(m_data + a, src, |src|)] *)
Definition store_bytes (m : memory) (a : Z) (src : list byte) : memory :=
  fun x =>
    if (a <=? x) && (x <? a + Z.of_nat (length src))
    then nth (Z.to_nat (x - a)) src Byte.x00
    else m x.

(** Loads and stores of little-endian words (host order). *)
Definition load16 (m : memory) (a : Z) : Z := le_combine (load_bytes m a 2).
Definition load32 (m : memory) (a : Z) : Z := le_combine (load_bytes m a 4).
Definition load64 (m : memory) (a : Z) : Z := le_combine (load_bytes m a 8).
Definition store16 (m : memory) (a w : Z) : memory := store_bytes m a (le_split 2 w).
Definition store32 (m : memory) (a w : Z) : memory := store_bytes m a (le_split 4 w).
Definition store64 (m : memory) (a w : Z) : memory := store_bytes m a (le_split 8 w).

(** The upper and lower halves of a 64-bit table word,
    [static_cast<uint32_t>(w >> 32)] and [static_cast<uint32_t>(w)]. *)
Definition hi32 (w : Z) : Z := u32 (Z.shiftr w 32).
Definition lo32 (w : Z) : Z := u32 w.

(** [(static_cast<uint64_t>(hi) << 32) | static_cast<uint64_t>(lo)] *)
Definition pack64 (hi lo : Z) : Z := Z.lor (u64 (Z.shiftl hi 32)) lo.

(** [(x + 7) & ~7] on [uint32_t]: [~7] is the [int] -8, converted to
    [uint32_t] for the conjunction. *)
Definition align8 (x : Z) : Z := Z.land (u32 (x + 7)) (u32 (Z.lnot 7)).

(** ** Shard constants *)

(** [shard_constants.h] is not part of the sources at hand: its constants
    are parameters of the development. *)
Class shard_constants : Type := {
  HASH_TABLE_ENTRIES : Z;
  HASH_TABLE_SIZE : Z;
  SEARCH_INDEX_ENTRIES : Z;
  SEARCH_INDEX_SIZE : Z;
  INDEX_SEGMENT_SIZE : Z;
  DATA_SEGMENT_SIZE : Z;
  FILE_SIZE : Z;
  HASH_OFFSET_INVALID : Z
}.

(** Modelled from the spec: the layout of section 3. The hash table has
    [HASH_TABLE_ENTRIES] 64-bit slots at offset 0, the search log has
    [SEARCH_INDEX_ENTRIES] 16-byte entries behind it, the data segment fills
    the rest of the file, and the tombstone flag is [1 << 31]. *)
Record constants_ok (K : shard_constants) : Prop := {
  hash_entries_pos : 0 < HASH_TABLE_ENTRIES;
  search_entries_pos : 0 < SEARCH_INDEX_ENTRIES;
  hash_table_size_eq : HASH_TABLE_SIZE = 8 * HASH_TABLE_ENTRIES;
  search_index_size_eq : SEARCH_INDEX_SIZE = 16 * SEARCH_INDEX_ENTRIES;
  index_segment_size_eq : INDEX_SEGMENT_SIZE = HASH_TABLE_SIZE + SEARCH_INDEX_SIZE;
  file_size_eq : FILE_SIZE = INDEX_SEGMENT_SIZE + DATA_SEGMENT_SIZE;
  data_segment_pos : 0 < DATA_SEGMENT_SIZE;
  file_size_aligned : FILE_SIZE mod 8 = 0;
  file_size_bound : FILE_SIZE < 2 ^ 31;
  hash_offset_invalid_eq : HASH_OFFSET_INVALID = 2 ^ 31
}.

(** The values the spec gives as an example: 65536 slots and log entries in
    a file of 256 MiB. *)
Definition example_constants : shard_constants := {|
  HASH_TABLE_ENTRIES := 65536;
  HASH_TABLE_SIZE := 524288;
  SEARCH_INDEX_ENTRIES := 65536;
  SEARCH_INDEX_SIZE := 1048576;
  INDEX_SEGMENT_SIZE := 1572864;
  DATA_SEGMENT_SIZE := 266862592;
  FILE_SIZE := 268435456;
  HASH_OFFSET_INVALID := 2147483648
|}.

(** ** Shards ([hyperdisk/shard.cc]) *)

Module Shard.

(** A shard object: the mapping of its file and the two append positions.
    [m_hash_table] and [m_search_log] are pointers into [m_data], so the
    tables are read from and written to the same bytes. *)
Record shard : Type := mk_shard {
  m_data : memory;
  m_data_offset : Z;
  m_search_offset : Z
}.

(** Assertions are compiled out ([NDEBUG]) and do not appear below. Where the
    source can only go on by reading a variable nothing has written, the
    model has no result ([None]). *)

Section ShardOperations.
Context {K : shard_constants}.

(** Modelled from the spec: [HASH_INTO_TABLE] is a macro of
    [shard_constants.h]; probing starts "at primary_hash mod H". *)
Definition HASH_INTO_TABLE (x : Z) : Z := x mod HASH_TABLE_ENTRIES.

(** [m_hash_table[i]], with [m_hash_table = (uint64_t* ) m_data]. *)
Definition m_hash_table (m : memory) (i : Z) : Z := load64 m (8 * i).

(** [m_search_log[i]], with [m_search_log = (uint64_t* ) (m_data + HASH_TABLE_SIZE)]. *)
Definition m_search_log (m : memory) (i : Z) : Z := load64 m (HASH_TABLE_SIZE + 8 * i).

Definition set_hash_table (m : memory) (i w : Z) : memory := store64 m (8 * i) w.

Definition set_search_log (m : memory) (i w : Z) : memory :=
  store64 m (HASH_TABLE_SIZE + 8 * i) w.

(** The constructor [shard::shard(fd)] on the file [shard::create] has just
    filled with [FILE_SIZE] zero bytes. *)
Definition create : shard := mk_shard zero_memory INDEX_SEGMENT_SIZE 0.

(** [shard::data_size]: a sum of [size_t]; the summands are sizes of objects
    held in memory at once, so it does not wrap. *)
Definition data_size (key : buffer) (value : list buffer) : Z :=
  fold_left (fun hypothetical_size v => hypothetical_size + size v) value
            (8 + 4 + 2 + size key + 4 * Z.of_nat (length value)).

Definition data_version (m : memory) (offset : Z) : Z := load64 m offset.

Definition data_key_size (m : memory) (offset : Z) : Z := load32 m (offset + 8).

(** Modelled from the spec: [data_key_offset] is declared in [shard.h]; the
    key bytes follow [version:u64, key_size:u32]. *)
Definition data_key_offset (offset : Z) : Z := offset + 8 + 4.

Definition data_key (m : memory) (offset keysize : Z) : buffer :=
  let cur_offset := u32 (offset + 8 + 4) in
  load_bytes m cur_offset (Z.to_nat keysize).

(** The loop of [data_value] over [i < num_dims]. *)
Fixpoint data_value_loop (m : memory) (num_dims : nat) (cur_offset : Z) : list buffer :=
  match num_dims with
  | O => []
  | S n =>
      let size := load32 m cur_offset in
      let cur_offset := u32 (cur_offset + 4) in
      let buf := load_bytes m cur_offset (Z.to_nat size) in
      buf :: data_value_loop m n (u32 (cur_offset + size))
  end.

Definition data_value (m : memory) (offset keysize : Z) : list buffer :=
  let cur_offset := u32 (offset + 8 + 4 + keysize) in
  let num_dims := load16 m cur_offset in
  let cur_offset := u32 (cur_offset + 2) in
  data_value_loop m (Z.to_nat num_dims) cur_offset.

(** [key_size == key.size() && memcmp(m_data + data_key_offset(this_offset),
    key.get(), key_size) == 0] *)
Definition key_at (m : memory) (this_offset : Z) (key : buffer) : bool :=
  let key_size := data_key_size m this_offset in
  (key_size =? size key)
  && buffer_eqb (load_bytes m (data_key_offset this_offset) (Z.to_nat key_size)) key.

(** The loop of [hash_lookup(primary_hash, key, entry, value)]; [remaining]
    counts the iterations left before [off] reaches [HASH_TABLE_ENTRIES].
    Leaving the loop, the source writes neither [*entry] nor [*value]. *)
Fixpoint hash_lookup_loop (m : memory) (primary_hash : Z) (key : buffer)
         (start : Z) (remaining : nat) (off : Z) : option (Z * Z) :=
  match remaining with
  | O => None
  | S remaining' =>
      let bucket := HASH_INTO_TABLE (start + off) in
      let this_entry := m_hash_table m bucket in
      let this_hash := lo32 this_entry in
      let this_offset := Z.land (hi32 this_entry) (HASH_OFFSET_INVALID - 1) in
      if (this_hash =? primary_hash) && key_at m this_offset key
      then Some (bucket, this_entry)
      else if hi32 this_entry =? 0
      then Some (bucket, this_entry)
      else hash_lookup_loop m primary_hash key start remaining' (off + 1)
  end.

Definition hash_lookup (m : memory) (primary_hash : Z) (key : buffer) : option (Z * Z) :=
  let start := HASH_INTO_TABLE primary_hash in
  hash_lookup_loop m primary_hash key start (Z.to_nat HASH_TABLE_ENTRIES) 0.

(** The loop of [hash_lookup(primary_hash, entry)], which looks for an empty
    slot only. *)
Fixpoint hash_lookup_empty_loop (m : memory) (start : Z) (remaining : nat) (off : Z)
  : option Z :=
  match remaining with
  | O => None
  | S remaining' =>
      let bucket := HASH_INTO_TABLE (start + off) in
      let this_entry := m_hash_table m bucket in
      if hi32 this_entry =? 0
      then Some bucket
      else hash_lookup_empty_loop m start remaining' (off + 1)
  end.

Definition hash_lookup_empty (m : memory) (primary_hash : Z) : option Z :=
  let start := HASH_INTO_TABLE primary_hash in
  hash_lookup_empty_loop m start (Z.to_nat HASH_TABLE_ENTRIES) 0.

(** The binary search of [invalidate_search_log]. [low] and [high] are
    [int64_t]; every turn of the loop that does not return shrinks
    [high - low], so [fuel] beyond [high - low + 1] is never used. *)
Fixpoint invalidate_search_log_loop (m : memory) (to_invalidate invalidate_with : Z)
         (fuel : nat) (low high : Z) : memory :=
  match fuel with
  | O => m
  | S fuel' =>
      if low <=? high then
        let mid := low + Z.quot (high - low) 2 in
        let mid_offset := u32 (Z.land (m_search_log m (mid * 2 + 1)) 4294967295) in
        if (mid_offset =? 0) || (mid_offset >? to_invalidate) then
          invalidate_search_log_loop m to_invalidate invalidate_with fuel' low (mid - 1)
        else if mid_offset <? to_invalidate then
          invalidate_search_log_loop m to_invalidate invalidate_with fuel' (mid + 1) high
        else if mid_offset =? to_invalidate then
          set_search_log m (mid * 2 + 1) (pack64 invalidate_with to_invalidate)
        else
          invalidate_search_log_loop m to_invalidate invalidate_with fuel' low high
      else m
  end.

Definition invalidate_search_log (m : memory) (to_invalidate invalidate_with : Z) : memory :=
  let low := 0 in
  let high := SEARCH_INDEX_ENTRIES in
  invalidate_search_log_loop m to_invalidate invalidate_with
                             (Z.to_nat (SEARCH_INDEX_ENTRIES + 2)) low high.

(** [shard::get]. The out-parameters [*value] and [*version] are passed in
    and handed back; they are written on [SUCCESS] only. *)
Definition get (s : shard) (primary_hash : Z) (key : buffer)
           (value : list buffer) (version : Z)
  : option (returncode * list buffer * Z) :=
  match hash_lookup (m_data s) primary_hash key with
  | None => None
  | Some (table_entry, table_value) =>
      let table_offset := hi32 table_value in
      if (table_offset =? 0) || (table_offset >=? HASH_OFFSET_INVALID)
      then Some (NOTFOUND, value, version)
      else
        let version := data_version (m_data s) table_offset in
        let value := data_value (m_data s) table_offset (size key) in
        Some (SUCCESS, value, version)
  end.

(** The loop of [put] that packs the attributes behind the record header. *)
Fixpoint pack_value (m : memory) (curr_offset : Z) (value : list buffer) : memory * Z :=
  match value with
  | [] => (m, curr_offset)
  | v :: rest =>
      let size_ := u32 (size v) in
      let m := store32 m curr_offset size_ in
      let curr_offset := u32 (curr_offset + 4) in
      let m := store_bytes m curr_offset v in
      let curr_offset := u32 (curr_offset + size v) in
      pack_value m curr_offset rest
  end.

(** [shard::put]. The third component of the result tells whether [async()]
    was called, that is whether an [msync(MS_ASYNC)] was issued. *)
Definition put (s : shard) (primary_hash secondary_hash : Z) (key : buffer)
           (value : list buffer) (version : Z)
  : option (returncode * shard * bool) :=
  if data_size key value + m_data_offset s >? FILE_SIZE then Some (DATAFULL, s, false)
  else if m_search_offset s =? SEARCH_INDEX_ENTRIES then Some (SEARCHFULL, s, false)
  else
    match hash_lookup (m_data s) primary_hash key with
    | None => None
    | Some (entry, table_value) =>
        let table_offset := hi32 table_value in
        let key_size := u32 (size key) in
        let value_arity := u16 (Z.of_nat (length value)) in
        let curr_offset := m_data_offset s in
        let m := store64 (m_data s) curr_offset version in
        let curr_offset := u32 (curr_offset + 8) in
        let m := store32 m curr_offset key_size in
        let curr_offset := u32 (curr_offset + 4) in
        let m := store_bytes m curr_offset key in
        let curr_offset := u32 (curr_offset + size key) in
        let m := store16 m curr_offset value_arity in
        let curr_offset := u32 (curr_offset + 2) in
        let '(m, curr_offset) := pack_value m curr_offset value in
        let m := if table_offset <? HASH_OFFSET_INVALID
                 then invalidate_search_log m table_offset (m_data_offset s)
                 else m in
        let m := set_search_log m (m_search_offset s * 2)
                                (pack64 secondary_hash primary_hash) in
        let m := set_search_log m (m_search_offset s * 2 + 1) (u64 (m_data_offset s)) in
        let m := set_hash_table m entry (pack64 (m_data_offset s) primary_hash) in
        let search_offset := u32 (m_search_offset s + 1) in
        let new_data_offset := align8 curr_offset in
        let flushed :=
          negb (Z.land (m_data_offset s) (u32 (Z.lnot (Z.shiftl 1 22)))
                =? Z.land new_data_offset (u32 (Z.lnot (Z.shiftl 1 22)))) in
        Some (SUCCESS, mk_shard m new_data_offset search_offset, flushed)
    end.

(** [shard::del] *)
Definition del (s : shard) (primary_hash : Z) (key : buffer)
  : option (returncode * shard) :=
  match hash_lookup (m_data s) primary_hash key with
  | None => None
  | Some (table_entry, table_value) =>
      let table_offset := hi32 table_value in
      if (table_offset =? 0) || (table_offset >=? HASH_OFFSET_INVALID)
      then Some (NOTFOUND, s)
      else if m_data_offset s + 8 >? FILE_SIZE then Some (DATAFULL, s)
      else
        let m := invalidate_search_log (m_data s) table_offset (m_data_offset s) in
        let data_offset := u32 (m_data_offset s + 8) in
        let m := set_hash_table m table_entry
                   (Z.lor (Z.lor (u64 (Z.shiftl table_offset 32))
                                 (u64 (Z.shiftl HASH_OFFSET_INVALID 32)))
                          primary_hash) in
        Some (SUCCESS, mk_shard m data_offset (m_search_offset s))
  end.

(** The [for] loop of [stale_space]; [remaining] counts the iterations left
    before [i] reaches [SEARCH_INDEX_ENTRIES]. The result is
    [(i, start, end, stale_data, stale_num)] on leaving the loop. The
    difference [end - start] is taken on [uint32_t]. *)
Fixpoint stale_space_loop (s : shard) (remaining : nat)
         (i start end_ stale_data stale_num : Z) : Z * Z * Z * Z * Z :=
  match remaining with
  | O => (i, start, end_, stale_data, stale_num)
  | S remaining' =>
      let end_ := lo32 (m_search_log (m_data s) (2 * i + 1)) in
      if end_ =? 0 then (i, start, m_data_offset s, stale_data, stale_num)
      else
        let '(stale_data, stale_num) :=
          if hi32 (m_search_log (m_data s) (2 * i + 1)) >? 0
          then (stale_data + u32 (end_ - start), stale_num + 1)
          else (stale_data, stale_num) in
        let start := end_ in
        stale_space_loop s remaining' (i + 1) start end_ stale_data stale_num
  end.

(** [shard::stale_space]. The source divides in [double] and converts the
    larger quotient to [int]; the operands are integers far below 2^53 and
    the quotients are not negative, so the result is the larger of the two
    integer quotients. [end] is not initialised before the loop; it is
    assigned before it is read whenever [SEARCH_INDEX_ENTRIES] is positive. *)
Definition stale_space (s : shard) : Z :=
  let stale_data := 0 in
  let stale_num := 0 in
  let start := lo32 (m_search_log (m_data s) 1) in
  let '(i, start, end_, stale_data, stale_num) :=
    stale_space_loop s (Z.to_nat (SEARCH_INDEX_ENTRIES - 1)) 1 start 0
                     stale_data stale_num in
  let end_ := if i =? SEARCH_INDEX_ENTRIES then m_data_offset s else end_ in
  let stale_data := stale_data + u32 (end_ - start) in
  let stale_num := stale_num + (if u32 (end_ - start) =? 0 then 0 else 1) in
  let data := 100 * stale_data / DATA_SEGMENT_SIZE in
  let num := 100 * stale_num / SEARCH_INDEX_ENTRIES in
  Z.max data num.

(** [memset(m_data + a, 0, n)] *)
Definition zero_bytes (m : memory) (a n : Z) : memory :=
  fun x => if (a <=? x) && (x <? a + n) then Byte.x00 else m x.

(** The [for] loop of [copy_to] over the entries [ent] of the source's
    search log; [src] is [this], [dst] the shard copied into. *)
Fixpoint copy_to_loop (src : shard) (c : coordinate) (remaining : nat) (ent : Z)
         (dst : shard) : option shard :=
  match remaining with
  | O => Some dst
  | S remaining' =>
      if negb (hi32 (m_search_log (m_data src) (ent * 2 + 1)) =? 0)
      then copy_to_loop src c remaining' (ent + 1) dst
      else
        let primary_hash := lo32 (m_search_log (m_data src) (ent * 2)) in
        let secondary_hash := hi32 (m_search_log (m_data src) (ent * 2)) in
        if negb (intersects c (mk_coordinate UINT32_MAX primary_hash
                                             UINT32_MAX secondary_hash))
        then copy_to_loop src c remaining' (ent + 1) dst
        else
          let entry_start := lo32 (m_search_log (m_data src) (ent * 2 + 1)) in
          if entry_start =? 0 then Some dst
          else
            let entry_end :=
              if (ent <? SEARCH_INDEX_ENTRIES - 1)
                 && negb (m_search_log (m_data src) ((ent + 1) * 2 + 1) =? 0)
              then lo32 (m_search_log (m_data src) ((ent + 1) * 2 + 1))
              else m_data_offset src in
            let len := u32 (entry_end - entry_start) in
            let m := store_bytes (m_data dst) (m_data_offset dst)
                                 (load_bytes (m_data src) entry_start (Z.to_nat len)) in
            let m := set_search_log m (m_search_offset dst * 2)
                                    (pack64 secondary_hash primary_hash) in
            let m := set_search_log m (m_search_offset dst * 2 + 1)
                                    (u64 (m_data_offset dst)) in
            match hash_lookup_empty m primary_hash with
            | None => None
            | Some bucket =>
                let m := set_hash_table m bucket
                                        (pack64 (m_data_offset dst) primary_hash) in
                let dst' := mk_shard m (align8 (m_data_offset dst + len))
                                     (u32 (m_search_offset dst + 1)) in
                copy_to_loop src c remaining' (ent + 1) dst'
            end
  end.

(** [shard::copy_to]: the result is the state of the target [s]. *)
Definition copy_to (src : shard) (c : coordinate) (s : shard) : option shard :=
  let m := zero_bytes (m_data s) 0 HASH_TABLE_SIZE in
  let m := zero_bytes m HASH_TABLE_SIZE SEARCH_INDEX_SIZE in
  copy_to_loop src c (Z.to_nat SEARCH_INDEX_ENTRIES) 0 (mk_shard m INDEX_SEGMENT_SIZE 0).

(** Modelled from the spec: [shard_snapshot] is not part of the sources at
    hand. A snapshot "captures the current m_search_offset and iterates live
    search-log entries in append order"; the list holds the primary and the
    secondary hash of each entry it yields. *)
Definition make_snapshot (s : shard) : list (Z * Z) :=
  flat_map (fun ent =>
              let ent := Z.of_nat ent in
              if hi32 (m_search_log (m_data s) (ent * 2 + 1)) =? 0
              then [(lo32 (m_search_log (m_data s) (ent * 2)),
                     hi32 (m_search_log (m_data s) (ent * 2)))]
              else [])
           (seq 0 (Z.to_nat (m_search_offset s))).

(** [shard::used_space]. As in [stale_space] the quotients are taken in
    [double] and the larger one is converted to [int]; the operands are
    integers far below 2^53, so the result is the larger of the two integer
    quotients. The difference is taken on [uint32_t]. *)
Definition used_space (s : shard) : Z :=
  let data := 100 * u32 (m_data_offset s - INDEX_SEGMENT_SIZE) / DATA_SEGMENT_SIZE in
  let num := 100 * m_search_offset s / SEARCH_INDEX_ENTRIES in
  Z.max data num.

(** The [while] loop of [shard::open] over the search log; [remaining]
    counts the entries it has not looked at. The result is
    [(m_data_offset, m_search_offset)]. *)
Fixpoint open_loop (m : memory) (remaining : nat) (data_offset search_offset : Z) : Z * Z :=
  match remaining with
  | O => (data_offset, search_offset)
  | S remaining' =>
      if (search_offset <? SEARCH_INDEX_ENTRIES)
         && negb (lo32 (m_search_log m (search_offset * 2 + 1)) =? 0)
      then open_loop m remaining' (lo32 (m_search_log m (search_offset * 2 + 1)))
                     (search_offset + 1)
      else (data_offset, search_offset)
  end.

(** [shard::open] on a file that [openat] finds; [m] is the mapping of the
    file. The constructor starts at [INDEX_SEGMENT_SIZE] and 0, the loop
    walks the log, and the end of the last record is computed on [size_t]
    and stored in the [uint32_t] [m_data_offset]. *)
Definition open (m : memory) : shard :=
  let '(data_offset, search_offset) :=
    open_loop m (Z.to_nat SEARCH_INDEX_ENTRIES) INDEX_SEGMENT_SIZE 0 in
  let data_offset :=
    if search_offset >? 0 then
      let key_size := data_key_size m data_offset in
      let key := data_key m data_offset key_size in
      let value := data_value m data_offset key_size in
      let entry_size := data_size key value in
      u32 (Z.land (u64 (data_offset + entry_size + 7)) (u64 (Z.lnot 7)))
    else data_offset in
  mk_shard m data_offset search_offset.

(** One turn of the loop of [shard::fsck] over the search log, on the
    flags [ret] and [zero]. What goes to the stream [err] is no part of the
    result. *)
Definition fsck_entry (m : memory) (search_log_entries : Z) (ret zero : bool)
  : option (bool * bool) :=
  let hashes := m_search_log m (search_log_entries * 2) in
  let offsets := m_search_log m (search_log_entries * 2 + 1) in
  let zero := if lo32 offsets =? 0 then true else zero in
  let ret := if zero && negb (offsets =? 0) then false else ret in
  let ret := if zero && negb (hashes =? 0) then false else ret in
  if negb zero then
    let offset := lo32 offsets in
    let key_size := data_key_size m offset in
    let key := data_key m offset key_size in
    match hash_lookup m (lo32 hashes) key with
    | None => None
    | Some (table_entry, table_value) =>
        let table_hash := lo32 table_value in
        let table_offset := hi32 table_value in
        if table_hash =? lo32 hashes then
          if (offsets <? HASH_OFFSET_INVALID) && negb (lo32 offsets =? table_offset)
          then Some (false, zero)
          else Some (ret, zero)
        else
          let details := false in
          let details := if negb (table_offset =? 0) then true else details in
          let details := if hi32 offsets =? 0 then true else details in
          Some (if details then false else ret, zero)
    end
  else Some (ret, zero).

Fixpoint fsck_loop (m : memory) (remaining : nat) (search_log_entries : Z)
         (ret zero : bool) : option bool :=
  match remaining with
  | O => Some ret
  | S remaining' =>
      match fsck_entry m search_log_entries ret zero with
      | None => None
      | Some (ret, zero) => fsck_loop m remaining' (search_log_entries + 1) ret zero
      end
  end.

(** [shard::fsck]: [true] when the search log and the hash table agree. *)
Definition fsck (s : shard) : option bool :=
  fsck_loop (m_data s) (Z.to_nat SEARCH_INDEX_ENTRIES) 0 true false.

End ShardOperations.

End Shard.

(** ** The disk ([hyperdisk/disk.cc]) *)

Module Disk.

(** *** The directory of shard files *)

(** The directory behind [m_base]: the file, if any, each name refers to.
    Files are told apart by a number given to them at creation. *)
Definition directory : Type := string -> option nat.

Definition empty_directory : directory := fun _ => None.

Definition bind_name (dir : directory) (name : string) (f : option nat) : directory :=
  fun n => if String.eqb n name then f else dir n.

(** [renameat(base, from, base, to)]: fails ([None]) when [from] does not
    exist, and otherwise makes [to] refer to the file of [from]. *)
Definition renameat (dir : directory) (from to : string) : option directory :=
  match dir from with
  | None => None
  | Some f => Some (bind_name (bind_name dir from None) to (Some f))
  end.

(** [unlink(name)]: fails ([None]) when the name does not exist. *)
Definition unlink (dir : directory) (name : string) : option directory :=
  match dir name with
  | None => None
  | Some _ => Some (bind_name dir name None)
  end.

(** *** Shard file names *)

Definition hex_digit (d : Z) : ascii :=
  nth (Z.to_nat d)
      ["0"; "1"; "2"; "3"; "4"; "5"; "6"; "7"; "8"; "9"; "a"; "b"; "c"; "d"; "e"; "f"]%char
      "0"%char.

(** The digits [std::hex] prints for an unsigned number, most significant
    first; a [uint32_t] has at most 8 of them. *)
Fixpoint hex_digits (fuel : nat) (z : Z) (acc : string) : string :=
  match fuel with
  | O => acc
  | S fuel' =>
      let acc := String (hex_digit (z mod 16)) acc in
      if z / 16 =? 0 then acc else hex_digits fuel' (z / 16) acc
  end.

Fixpoint fill (n : nat) (c : ascii) (s : string) : string :=
  match n with
  | O => s
  | S n' => String c (fill n' c s)
  end.

(** [ostr << std::hex << std::setfill('0') << std::setw(16) << x] for a
    [uint32_t] [x]. *)
Definition hex16 (x : Z) : string :=
  let digits := hex_digits 8 x EmptyString in
  fill (16 - String.length digits) "0"%char digits.

Definition shard_filename (c : coordinate) : string :=
  (hex16 (primary_mask c) ++ "-" ++ hex16 (primary_hash c) ++ "-"
   ++ hex16 (secondary_mask c) ++ "-" ++ hex16 (secondary_hash c))%string.

Definition shard_tmp_filename (c : coordinate) : string :=
  (hex16 (primary_mask c) ++ "-" ++ hex16 (primary_hash c) ++ "-"
   ++ hex16 (secondary_mask c) ++ "-" ++ hex16 (secondary_hash c) ++ "-tmp")%string.

(** *** State of the disk *)

(** [e::intrusive_ptr<shard>]: a shard object and the file it maps. *)
Record shard_ptr : Type := mk_shard_ptr {
  file : nat;
  target : Shard.shard
}.

(** Modelled from the spec: [log_entry.h] is not part of the sources at
    hand. A WAL entry is "(coord, key, value, version) for a put; (coord, key)
    for a delete". *)
Record log_entry : Type := mk_log_entry {
  coord : coordinate;
  key : buffer;
  value : list buffer;
  version : Z
}.

(** Modelled from the spec: the constructor [log_entry(coord, key)] of a
    delete carries no value and no version. *)
Definition delete_entry (c : coordinate) (k : buffer) : log_entry :=
  mk_log_entry c k [] 0.

(** Modelled from the spec: [shard_vector.h] is not part of the sources at
    hand. A shard vector is "an ordered sequence of (Coordinate, Shard)
    pairs". *)
Definition shard_vector : Type := list (coordinate * shard_ptr).

(** Modelled from the spec: [replace(i, new_shard)]: "identical coords,
    S_i swapped". *)
Fixpoint replace (v : shard_vector) (i : nat) (s : shard_ptr) : shard_vector :=
  match v, i with
  | [], _ => []
  | (c, _) :: rest, O => (c, s) :: rest
  | e :: rest, S i' => e :: replace rest i' s
  end.

(** Modelled from the spec: [replace(i, a, b, c, d)]: "removes slot i,
    appends four new pairs at the end". *)
Definition replace4 (v : shard_vector) (i : nat)
           (a b c d : coordinate * shard_ptr) : shard_vector :=
  firstn i v ++ skipn (S i) v ++ [a; b; c; d].

(** The fields of [hyperdisk::disk] (the locks aside). [m_log] is the WAL,
    oldest entry first. [m_base] stands for the directory the descriptor
    refers to and [files_created] counts the files created in it, which
    gives every new file a number of its own. *)
Record disk : Type := mk_disk {
  m_arity : Z;
  m_shards : shard_vector;
  m_log : list log_entry;
  m_base : directory;
  files_created : nat;
  m_spare_shards : list (string * shard_ptr);
  m_spare_shard_counter : Z
}.

Definition set_shards (d : disk) (v : shard_vector) : disk :=
  mk_disk (m_arity d) v (m_log d) (m_base d) (files_created d)
          (m_spare_shards d) (m_spare_shard_counter d).

Definition set_log (d : disk) (l : list log_entry) : disk :=
  mk_disk (m_arity d) (m_shards d) l (m_base d) (files_created d)
          (m_spare_shards d) (m_spare_shard_counter d).

Definition set_base (d : disk) (dir : directory) : disk :=
  mk_disk (m_arity d) (m_shards d) (m_log d) dir (files_created d)
          (m_spare_shards d) (m_spare_shard_counter d).

Definition set_spare_shards (d : disk) (q : list (string * shard_ptr)) : disk :=
  mk_disk (m_arity d) (m_shards d) (m_log d) (m_base d) (files_created d)
          q (m_spare_shard_counter d).

(** How a member function of the disk ends: it returns, a [po6::error]
    leaves it, or a shard operation it called has no result. *)
Inductive outcome (A : Type) : Type :=
| Returns (a : A) (d : disk)
| Throws (d : disk)
| Undefined.

Arguments Returns {A} a d.
Arguments Throws {A} d.
Arguments Undefined {A}.

Section DiskOperations.
Context {K : shard_constants}.

(** The hash functions of [hashing.h] and [bithacks.h]: [CityHash64] of a
    buffer, [CityHash64] of every buffer of a vector, [lower_interlace]. *)
Variable CityHash64 : buffer -> Z.
Variable CityHash64_each : list buffer -> list Z.
Variable lower_interlace : list Z -> Z.

(** [shard::create(m_base, name)]: any file of that name is unlinked, a new
    file of [FILE_SIZE] zero bytes is created and mapped. Failures of the
    file system itself (no space, no permission) are left out. *)
Definition create_file (d : disk) (name : string) : shard_ptr * disk :=
  let f := files_created d in
  (mk_shard_ptr f Shard.create,
   mk_disk (m_arity d) (m_shards d) (m_log d)
           (bind_name (m_base d) name (Some f)) (S f)
           (m_spare_shards d) (m_spare_shard_counter d)).

(** The name [preallocate] gives a spare file:
    [ostr << "spare-" << m_spare_shard_counter]. *)
Definition spare_name (counter : Z) : string :=
  ("spare-" ++ NilZero.string_of_uint (N.to_uint (Z.to_N counter)))%string.

(** One iteration of the second loop of [disk::preallocate]: the next spare
    file is named, the counter goes up, the file is created and pushed on
    the FIFO. How many iterations there are depends on [shard::free_space],
    which is not part of the sources at hand. *)
Definition preallocate_one (d : disk) : disk :=
  let sparepath := spare_name (m_spare_shard_counter d) in
  let d := mk_disk (m_arity d) (m_shards d) (m_log d) (m_base d) (files_created d)
                   (m_spare_shards d) (m_spare_shard_counter d + 1) in
  let '(spareshard, d) := create_file d sparepath in
  set_spare_shards d (m_spare_shards d ++ [(sparepath, spareshard)]).

(** [disk::get_coordinate(key)] *)
Definition get_coordinate (key : buffer) : coordinate :=
  let key_hash := CityHash64 key in
  mk_coordinate UINT32_MAX (u32 key_hash) 0 0.

(** [disk::get_coordinate(key, value)] *)
Definition get_coordinate_value (key : buffer) (value : list buffer) : coordinate :=
  let key_hash := CityHash64 key in
  let value_hashes := CityHash64_each value in
  let value_hash := lower_interlace value_hashes in
  mk_coordinate UINT32_MAX (u32 key_hash) UINT32_MAX (u32 value_hash).

(** [disk::create_shard] *)
Definition create_shard (d : disk) (c : coordinate) : outcome shard_ptr :=
  match m_spare_shards d with
  | (spareshard_fn, spareshard) :: rest =>
      let d := set_spare_shards d rest in
      match renameat (m_base d) spareshard_fn (shard_filename c) with
      | None => Throws d
      | Some dir => Returns spareshard (set_base d dir)
      end
  | [] =>
      let path := shard_filename c in
      let '(newshard, d) := create_file d path in
      Returns newshard d
  end.

(** [disk::create_tmp_shard] *)
Definition create_tmp_shard (d : disk) (c : coordinate) : outcome shard_ptr :=
  match m_spare_shards d with
  | (spareshard_fn, spareshard) :: rest =>
      let d := set_spare_shards d rest in
      match renameat (m_base d) spareshard_fn (shard_filename c) with
      | None => Throws d
      | Some dir => Returns spareshard (set_base d dir)
      end
  | [] =>
      let path := shard_tmp_filename c in
      let '(newshard, d) := create_file d path in
      Returns newshard d
  end.

(** [disk::drop_shard] *)
Definition drop_shard (d : disk) (c : coordinate) : returncode * disk :=
  match unlink (m_base d) (shard_filename c) with
  | None => (DROPFAILED, d)
  | Some dir => (SUCCESS, set_base d dir)
  end.

(** [disk::drop_tmp_shard] *)
Definition drop_tmp_shard (d : disk) (c : coordinate) : returncode * disk :=
  match unlink (m_base d) (shard_tmp_filename c) with
  | None => (DROPFAILED, d)
  | Some dir => (SUCCESS, set_base d dir)
  end.

(** The constructor [disk::disk(directory, arity)], given what the directory
    holds when it is opened. *)
Definition new (dir : directory) (files : nat) (arity : Z) : outcome unit :=
  let d := mk_disk arity [] [] dir files [] 0 in
  let start := mk_coordinate 0 0 0 0 in
  match create_shard d start with
  | Returns s d => Returns tt (set_shards d [(start, s)])
  | Throws d => Throws d
  | Undefined => Undefined
  end.

(** The loop of [disk::get] over the shards. *)
Fixpoint get_shards (shards : shard_vector) (c : coordinate) (k : buffer)
         (shard_res : returncode) (val : list buffer) (ver : Z)
  : option (returncode * list buffer * Z) :=
  match shards with
  | [] => Some (shard_res, val, ver)
  | (ci, si) :: rest =>
      if negb (primary_contains ci c) then get_shards rest c k shard_res val ver
      else
        match Shard.get (target si) (primary_hash c) k val ver with
        | None => None
        | Some (shard_res, val, ver) =>
            if returncode_eqb shard_res SUCCESS then Some (shard_res, val, ver)
            else get_shards rest c k shard_res val ver
        end
  end.

(** The body of the loop of [disk::get] over the WAL; the state is
    [(found, wal_res, *value, *version)]. *)
Definition get_wal_step (c : coordinate) (k : buffer)
           (st : bool * returncode * list buffer * Z) (it : log_entry)
  : bool * returncode * list buffer * Z :=
  let '(found, wal_res, val, ver) := st in
  if primary_contains (coord it) c && buffer_eqb (key it) k then
    if secondary_mask (coord it) =? UINT32_MAX
    then (true, SUCCESS, value it, version it)
    else (true, NOTFOUND, val, ver)
  else st.

(** [disk::get]; [val] and [ver] are what [*value] and [*version] hold on
    entry, the result carries what they hold on return. *)
Definition get (d : disk) (k : buffer) (val : list buffer) (ver : Z)
  : option (returncode * list buffer * Z) :=
  let c := get_coordinate k in
  let shard_res := NOTFOUND in
  let it := m_log d in
  let shards := m_shards d in
  match get_shards shards c k shard_res val ver with
  | None => None
  | Some (shard_res, val, ver) =>
      let found := false in
      let wal_res := NOTFOUND in
      let '(found, wal_res, val, ver) :=
        fold_left (get_wal_step c k) it (found, wal_res, val, ver) in
      if found then Some (wal_res, val, ver) else Some (shard_res, val, ver)
  end.

(** [disk::put] *)
Definition put (d : disk) (k : buffer) (val : list buffer) (ver : Z)
  : returncode * disk :=
  if negb (Z.of_nat (length val) + 1 =? m_arity d) then (WRONGARITY, d)
  else
    let c := get_coordinate_value k val in
    (SUCCESS, set_log d (m_log d ++ [mk_log_entry c k val ver])).

(** [disk::del] *)
Definition del (d : disk) (k : buffer) : returncode * disk :=
  let c := get_coordinate k in
  (SUCCESS, set_log d (m_log d ++ [delete_entry c k])).

(** [disk::clean_shard]. The guard on [drop_tmp_shard] runs on the way out
    unless it has been dismissed. *)
Definition clean_shard (d : disk) (shard_num : nat) : outcome returncode :=
  match nth_error (m_shards d) shard_num with
  | None => Undefined
  | Some (c, s) =>
      match create_tmp_shard d c with
      | Undefined => Undefined
      | Throws d => Throws d
      | Returns newshard d =>
          match Shard.copy_to (target s) c (target newshard) with
          | None => Undefined
          | Some copied =>
              let newshard := mk_shard_ptr (file newshard) copied in
              let newshard_vector := replace (m_shards d) shard_num newshard in
              match renameat (m_base d) (shard_tmp_filename c) (shard_filename c) with
              | None =>
                  let '(_, d) := drop_tmp_shard d c in
                  Returns DROPFAILED d
              | Some dir =>
                  Returns SUCCESS (set_shards (set_base d dir) newshard_vector)
              end
          end
      end
  end.

(** [++arr[j]] on an [int] array. *)
Fixpoint bump (arr : list Z) (j : nat) : list Z :=
  match arr, j with
  | [], _ => []
  | x :: rest, O => s32 (x + 1) :: rest
  | x :: rest, S j' => x :: bump rest j'
  end.

(** The inner loop of the first pass of [split_shard] for one snapshot
    entry: [i = 1 << j] runs over the 32 bit positions. *)
Definition count_secondary (c : coordinate) (cnt : list Z * list Z) (entry : Z * Z)
  : list Z * list Z :=
  fold_left
    (fun (cnt : list Z * list Z) (j : nat) =>
       let '(zeros, ones) := cnt in
       let i := Z.shiftl 1 (Z.of_nat j) in
       if negb (Z.land (secondary_mask c) i =? 0) then cnt
       else if negb (Z.land (snd entry) i =? 0) then (zeros, bump ones j)
       else (bump zeros j, ones))
    (seq 0 32) cnt.

(** The inner loop of the second pass; the state is
    [(zeros_lower, ones_lower, zeros_upper, ones_upper)]. *)
Definition count_primary (c : coordinate) (secondary_bit : Z)
           (cnt : list Z * list Z * list Z * list Z) (entry : Z * Z)
  : list Z * list Z * list Z * list Z :=
  fold_left
    (fun (cnt : list Z * list Z * list Z * list Z) (j : nat) =>
       let '(zeros_lower, ones_lower, zeros_upper, ones_upper) := cnt in
       let i := Z.shiftl 1 (Z.of_nat j) in
       if negb (Z.land (primary_mask c) i =? 0) then cnt
       else if negb (Z.land (snd entry) secondary_bit =? 0) then
         if negb (Z.land (fst entry) i =? 0)
         then (zeros_lower, ones_lower, zeros_upper, bump ones_upper j)
         else (zeros_lower, ones_lower, bump zeros_upper j, ones_upper)
       else
         if negb (Z.land (fst entry) i =? 0)
         then (zeros_lower, bump ones_lower j, zeros_upper, ones_upper)
         else (bump zeros_lower j, ones_lower, zeros_upper, ones_upper))
    (seq 0 32) cnt.

(** [create_shard(c)] followed by [s->copy_to(c, child)]. *)
Definition create_and_copy (d : disk) (s : Shard.shard) (c : coordinate)
  : outcome shard_ptr :=
  match create_shard d c with
  | Undefined => Undefined
  | Throws d => Throws d
  | Returns child d =>
      match Shard.copy_to s c (target child) with
      | None => Undefined
      | Some copied => Returns (mk_shard_ptr (file child) copied) d
      end
  end.

(** The guards of [split_shard] that are still armed run [drop_shard],
    youngest first. *)
Definition run_guards (d : disk) (guards : list coordinate) : disk :=
  fold_left (fun d c => snd (drop_shard d c)) guards d.

(** [disk::split_shard]; a [po6::error] is a [std::exception] and is caught. *)
Definition split_shard (d : disk) (shard_num : nat) : outcome returncode :=
  match nth_error (m_shards d) shard_num with
  | None => Undefined
  | Some (c, sp) =>
      let s := target sp in
      let snap := Shard.make_snapshot s in
      let zeros := repeat 0 32 in
      let ones := repeat 0 32 in
      let '(zeros, ones) := fold_left (count_secondary c) snap (zeros, ones) in
      let secondary_split := which_to_split (secondary_mask c) zeros ones in
      let secondary_bit := u32 (s32 (Z.shiftl 1 secondary_split)) in
      let snap := Shard.make_snapshot s in
      let '(zeros_lower, ones_lower, zeros_upper, ones_upper) :=
        fold_left (count_primary c secondary_bit) snap
                  (repeat 0 32, repeat 0 32, repeat 0 32, repeat 0 32) in
      let primary_lower_split := which_to_split (primary_mask c) zeros_lower ones_lower in
      let primary_lower_bit := u32 (s32 (Z.shiftl 1 primary_lower_split)) in
      let primary_upper_split := which_to_split (primary_mask c) zeros_upper ones_upper in
      let primary_upper_bit := u32 (s32 (Z.shiftl 1 primary_upper_split)) in
      let zero_zero_coord :=
        mk_coordinate (Z.lor (primary_mask c) primary_lower_bit) (primary_hash c)
                      (Z.lor (secondary_mask c) secondary_bit) (secondary_hash c) in
      let zero_one_coord :=
        mk_coordinate (Z.lor (primary_mask c) primary_upper_bit) (primary_hash c)
                      (Z.lor (secondary_mask c) secondary_bit)
                      (Z.lor (secondary_hash c) secondary_bit) in
      let one_zero_coord :=
        mk_coordinate (Z.lor (primary_mask c) primary_lower_bit)
                      (Z.lor (primary_hash c) primary_lower_bit)
                      (Z.lor (secondary_mask c) secondary_bit) (secondary_hash c) in
      let one_one_coord :=
        mk_coordinate (Z.lor (primary_mask c) primary_upper_bit)
                      (Z.lor (primary_hash c) primary_upper_bit)
                      (Z.lor (secondary_mask c) secondary_bit)
                      (Z.lor (secondary_hash c) secondary_bit) in
      match create_and_copy d s zero_zero_coord with
      | Undefined => Undefined
      | Throws d => Returns SPLITFAILED d
      | Returns zero_zero d =>
      match create_and_copy d s zero_one_coord with
      | Undefined => Undefined
      | Throws d => Returns SPLITFAILED (run_guards d [zero_zero_coord])
      | Returns zero_one d =>
      match create_and_copy d s one_zero_coord with
      | Undefined => Undefined
      | Throws d =>
          Returns SPLITFAILED (run_guards d [zero_one_coord; zero_zero_coord])
      | Returns one_zero d =>
      match create_and_copy d s one_one_coord with
      | Undefined => Undefined
      | Throws d =>
          Returns SPLITFAILED
                  (run_guards d [one_zero_coord; zero_one_coord; zero_zero_coord])
      | Returns one_one d =>
          let newshard_vector :=
            replace4 (m_shards d) shard_num
                     (zero_zero_coord, zero_zero) (zero_one_coord, zero_one)
                     (one_zero_coord, one_zero) (one_one_coord, one_one) in
          let d := set_shards d newshard_vector in
          let '(_, d) := drop_shard d c in
          Returns SUCCESS d
      end end end end
  end.

(** [disk::deal_with_full_shard] *)
Definition deal_with_full_shard (d : disk) (shard_num : nat) : outcome returncode :=
  match nth_error (m_shards d) shard_num with
  | None => Undefined
  | Some (c, s) =>
      if Shard.stale_space (target s) >=? 30 then
        clean_shard d shard_num
      else if (primary_mask c =? UINT32_MAX) || (secondary_mask c =? UINT32_MAX) then
        Returns SPLITFAILED d
      else
        split_shard d shard_num
  end.

(** How a loop inside [flush] ends: it runs to its end, or [flush] returns
    from within it. *)
Inductive loop_exit : Type :=
| Falls_through (d : disk)
| Leaves (o : outcome returncode).

(** The first inner loop of [flush]: the key of the oldest WAL entry is
    deleted from the shards, front to back; [remaining] counts the shards
    not yet visited. A shard is changed in place. *)
Fixpoint flush_del (d : disk) (e : log_entry) (remaining : nat) (i : nat) : loop_exit :=
  match remaining with
  | O => Falls_through d
  | S remaining' =>
      match nth_error (m_shards d) i with
      | None => Falls_through d
      | Some (ci, si) =>
          if negb (primary_contains ci (coord e)) then flush_del d e remaining' (S i)
          else
            match Shard.del (target si) (primary_hash (coord e)) (key e) with
            | None => Leaves Undefined
            | Some (rc, s') =>
                let d := set_shards d (replace (m_shards d) i (mk_shard_ptr (file si) s')) in
                match rc with
                | SUCCESS => Falls_through d
                | NOTFOUND => flush_del d e remaining' (S i)
                | DATAFULL => Leaves (deal_with_full_shard d i)
                | _ => flush_del d e remaining' (S i)
                end
            end
      end
  end.

(** The second inner loop of [flush]: the oldest WAL entry is put into the
    last shard whose coordinate contains it; [n] is [i + 1]. *)
Fixpoint flush_put (d : disk) (e : log_entry) (n : nat) : loop_exit :=
  match n with
  | O => Falls_through d
  | S i =>
      match nth_error (m_shards d) i with
      | None => Leaves Undefined
      | Some (ci, si) =>
          if negb (contains ci (coord e)) then flush_put d e i
          else
            match Shard.put (target si) (primary_hash (coord e)) (secondary_hash (coord e))
                            (key e) (value e) (version e) with
            | None => Leaves Undefined
            | Some (rc, s', _) =>
                let d := set_shards d (replace (m_shards d) i (mk_shard_ptr (file si) s')) in
                match rc with
                | SUCCESS => Falls_through d
                | DATAFULL | HASHFULL | SEARCHFULL => Leaves (deal_with_full_shard d i)
                | _ => flush_put d e i
                end
            end
      end
  end.

(** The outer loop of [flush], at most 100 entries of the WAL. *)
Fixpoint flush_loop (d : disk) (remaining : nat) : outcome returncode :=
  match remaining with
  | O => Returns SUCCESS d
  | S remaining' =>
      match m_log d with
      | [] => Returns SUCCESS d
      | oldest :: rest =>
          match flush_del d oldest (length (m_shards d)) 0 with
          | Leaves o => o
          | Falls_through d =>
              let after_put :=
                if secondary_mask (coord oldest) =? UINT32_MAX
                then flush_put d oldest (length (m_shards d))
                else Falls_through d in
              match after_put with
              | Leaves o => o
              | Falls_through d => flush_loop (set_log d rest) remaining'
              end
          end
      end
  end.

(** [disk::flush]; with one thread the [trylock] succeeds. *)
Definition flush (d : disk) : outcome returncode := flush_loop d 100.

End DiskOperations.

End Disk.

(** * Specification-side definitions *)

(** ** What [which_to_split] is to return *)

(** The position [b] is open in [mask]: it is one of 1..31 and
    [(mask >> b) & 1 == 0]. *)
Definition unmasked (mask b : Z) : Prop :=
  1 <= b <= 31 /\ Z.land (Z.shiftr mask b) 1 = 0.

(** [|ones[b] - zeros[b]|] *)
Definition imbalance (zeros ones : list Z) (b : Z) : Z :=
  Z.abs (int_at ones b - int_at zeros b).

(** What the spec promises of the value [p] returned for [mask], [zeros]
    and [ones]: an open position (so not 0) of least imbalance, the lowest
    such. *)
Definition best_split (mask : Z) (zeros ones : list Z) (p : Z) : Prop :=
  unmasked mask p
  /\ (forall b, unmasked mask b -> imbalance zeros ones p <= imbalance zeros ones b)
  /\ (forall b, unmasked mask b ->
                imbalance zeros ones b = imbalance zeros ones p -> p <= b)
  /\ p <> 0.

(** Arrays of 32 counts, each a non-negative [int]. *)
Definition counts (arr : list Z) : Prop :=
  length arr = 32%nat /\ Forall (fun x => 0 <= x <= INT32_MAX) arr.

(** The loop invariant of [which_to_split] once the positions below [n] have
    been visited. *)
Definition split_inv (mask : Z) (zeros ones : list Z) (n : Z) (st : Z * Z) : Prop :=
  let '(pos, diff) := st in
  (forall b, 1 <= b < n -> Z.testbit mask b = false -> diff <= imbalance zeros ones b)
  /\ ((pos = 0 /\ diff = INT32_MAX)
      \/ (1 <= pos < n /\ Z.testbit mask pos = false
          /\ diff = imbalance zeros ones pos
          /\ forall b, 1 <= b < pos -> Z.testbit mask b = false ->
                       diff < imbalance zeros ones b)).


(** What a lookup yields for its caller: the spec's [Found(value, version)]
    and [NotFound]. *)
Inductive lookup : Type :=
| Found (val : list buffer) (ver : Z)
| NotFound.

Definition as_lookup (r : returncode * list buffer * Z) : lookup :=
  let '(rc, val, ver) := r in
  if returncode_eqb rc SUCCESS then Found val ver else NotFound.

(** A WAL entry concerns the key [k] with coordinate [c]. *)
Definition wal_matches (c : coordinate) (k : buffer) (e : Disk.log_entry) : bool :=
  primary_contains (Disk.coord e) c && buffer_eqb (Disk.key e) k.

(** The last entry of the WAL, in append order, that concerns [k]. *)
Definition last_match (c : coordinate) (k : buffer) (log : list Disk.log_entry)
  : option Disk.log_entry :=
  find (wal_matches c k) (rev log).

(** ** Slots of the hash table and sequences of shard operations *)

Section ShardSlots.
Context {K : shard_constants}.

(** The word in slot [b] of the hash table. *)
Definition slot_word (s : Shard.shard) (b : Z) : Z :=
  Shard.m_hash_table (Shard.m_data s) b.

(** A slot is assigned once the offset half of its word is not zero: this
    is the test [hash_lookup] uses for "empty". *)
Definition assigned (s : Shard.shard) (b : Z) : Prop := hi32 (slot_word s b) <> 0.

Definition slot_hash (s : Shard.shard) (b : Z) : Z := lo32 (slot_word s b).

(** The offset of the record a slot refers to, without the tombstone flag. *)
Definition slot_offset (s : Shard.shard) (b : Z) : Z :=
  Z.land (hi32 (slot_word s b)) (HASH_OFFSET_INVALID - 1).

(** The key of the record a slot refers to. *)
Definition slot_key (s : Shard.shard) (b : Z) : buffer :=
  Shard.data_key (Shard.m_data s) (slot_offset s b)
                 (Shard.data_key_size (Shard.m_data s) (slot_offset s b)).

(** The [(primary_hash, key)] pair a slot is assigned to. *)
Definition slot_pair (s : Shard.shard) (b : Z) : Z * buffer :=
  (slot_hash s b, slot_key s b).

(** A call of [shard::put] or [shard::del]. *)
Inductive operation : Type :=
| Put (primary_hash secondary_hash : Z) (key : buffer) (value : list buffer) (version : Z)
| Del (primary_hash : Z) (key : buffer).

(** The hashes of a call are [uint32_t]. *)
Definition well_typed (op : operation) : Prop :=
  match op with
  | Put primary_hash secondary_hash _ _ _ => is_u32 primary_hash /\ is_u32 secondary_hash
  | Del primary_hash _ => is_u32 primary_hash
  end.

(** The shard after a call, whatever the call returned. *)
Definition apply (s : Shard.shard) (op : operation) : option Shard.shard :=
  match op with
  | Put primary_hash secondary_hash key value version =>
      match Shard.put s primary_hash secondary_hash key value version with
      | Some (_, s', _) => Some s'
      | None => None
      end
  | Del primary_hash key =>
      match Shard.del s primary_hash key with
      | Some (_, s') => Some s'
      | None => None
      end
  end.

Fixpoint run (s : Shard.shard) (ops : list operation) : option Shard.shard :=
  match ops with
  | [] => Some s
  | op :: rest =>
      match apply s op with
      | Some s' => run s' rest
      | None => None
      end
  end.

(** The low half of the second word of entry [j] of the search log: the
    offset of the record the entry stands for. *)
Definition log_offset (m : memory) (j : Z) : Z :=
  lo32 (Shard.m_search_log m (2 * j + 1)).

(** What holds of a shard that has only been changed by [put] and [del]. *)
Record shard_inv (s : Shard.shard) : Prop := {
  inv_data_offset : INDEX_SEGMENT_SIZE <= Shard.m_data_offset s <= FILE_SIZE;
  inv_search_offset : 0 <= Shard.m_search_offset s <= SEARCH_INDEX_ENTRIES;
  inv_record :
    forall b, 0 <= b < HASH_TABLE_ENTRIES -> assigned s b ->
      INDEX_SEGMENT_SIZE <= slot_offset s b
      /\ slot_offset s b + 12 + Shard.data_key_size (Shard.m_data s) (slot_offset s b)
         <= Shard.m_data_offset s;
  inv_chain :
    forall b, 0 <= b < HASH_TABLE_ENTRIES -> assigned s b ->
      forall off, 0 <= off < (b - slot_hash s b) mod HASH_TABLE_ENTRIES ->
        assigned s ((slot_hash s b + off) mod HASH_TABLE_ENTRIES);
  inv_unique :
    forall b b', 0 <= b < HASH_TABLE_ENTRIES -> 0 <= b' < HASH_TABLE_ENTRIES ->
      assigned s b -> assigned s b' -> slot_pair s b = slot_pair s b' -> b = b';
  inv_log_tail :
    forall j, Shard.m_search_offset s <= j < SEARCH_INDEX_ENTRIES ->
      log_offset (Shard.m_data s) j = 0;
  inv_log_last :
    forall b, 0 <= b < HASH_TABLE_ENTRIES -> assigned s b ->
      0 < Shard.m_search_offset s
      /\ slot_offset s b <= log_offset (Shard.m_data s) (Shard.m_search_offset s - 1)
}.

End ShardSlots.

(** The bytes the attributes of a record take: a length word and the
    bytes of each. *)
Definition attrs_size (value : list buffer) : Z :=
  fold_right (fun v acc => 4 + size v + acc) 0 value.

(** The part of [put] that packs the record at [offset]: the memory it
    leaves and the value of [curr_offset] behind the record. *)
Definition written_record (m : memory) (offset : Z) (key : buffer)
           (value : list buffer) (version : Z) : memory * Z :=
  let curr_offset := offset in
  let m := store64 m curr_offset version in
  let curr_offset := u32 (curr_offset + 8) in
  let m := store32 m curr_offset (u32 (size key)) in
  let curr_offset := u32 (curr_offset + 4) in
  let m := store_bytes m curr_offset key in
  let curr_offset := u32 (curr_offset + size key) in
  let m := store16 m curr_offset (u16 (Z.of_nat (length value))) in
  let curr_offset := u32 (curr_offset + 2) in
  Shard.pack_value m curr_offset value.

Section ShardEffects.
Context {K : shard_constants}.

(** What a successful [put] has done to the shard; [e] is the slot
    [hash_lookup] returned. *)
Definition put_effect (s : Shard.shard) (ph : Z) (key : buffer) (value : list buffer)
           (s' : Shard.shard) (flushed : bool) (e : Z) : Prop :=
  Shard.m_data_offset s + Shard.data_size key value <= FILE_SIZE
  /\ Shard.m_search_offset s < SEARCH_INDEX_ENTRIES
  /\ Shard.m_data_offset s' = align8 (Shard.m_data_offset s + Shard.data_size key value)
  /\ Shard.m_search_offset s' = Shard.m_search_offset s + 1
  /\ (forall x, INDEX_SEGMENT_SIZE <= x < Shard.m_data_offset s ->
                Shard.m_data s' x = Shard.m_data s x)
  /\ (forall b, 0 <= b < HASH_TABLE_ENTRIES -> b <> e -> slot_word s' b = slot_word s b)
  /\ slot_word s' e = Shard.m_data_offset s * 2 ^ 32 + ph
  /\ Shard.data_key_size (Shard.m_data s') (Shard.m_data_offset s) = size key
  /\ load_bytes (Shard.m_data s') (Shard.m_data_offset s + 12) (length key) = key
  /\ (forall j, 0 <= j < SEARCH_INDEX_ENTRIES ->
        log_offset (Shard.m_data s') j
        = if j =? Shard.m_search_offset s then Shard.m_data_offset s
          else log_offset (Shard.m_data s) j)
  /\ flushed = negb (Z.land (Shard.m_data_offset s) (u32 (Z.lnot (Z.shiftl 1 22)))
                     =? Z.land (Shard.m_data_offset s') (u32 (Z.lnot (Z.shiftl 1 22))))
  /\ Shard.m_search_log (Shard.m_data s') (2 * Shard.m_search_offset s + 1)
     = Shard.m_data_offset s.

(** What a successful [del] has done to the shard; [e] is the slot and [w]
    the word [hash_lookup] returned. *)
Definition del_effect (s : Shard.shard) (ph : Z) (s' : Shard.shard) (e w : Z) : Prop :=
  hi32 w <> 0 /\ hi32 w < 2 ^ 31
  /\ Shard.m_data_offset s + 8 <= FILE_SIZE
  /\ Shard.m_data_offset s' = Shard.m_data_offset s + 8
  /\ Shard.m_search_offset s' = Shard.m_search_offset s
  /\ (forall x, INDEX_SEGMENT_SIZE <= x -> Shard.m_data s' x = Shard.m_data s x)
  /\ (forall b, 0 <= b < HASH_TABLE_ENTRIES -> b <> e -> slot_word s' b = slot_word s b)
  /\ slot_word s' e = (hi32 w + 2 ^ 31) * 2 ^ 32 + ph
  /\ (forall j, 0 <= j -> log_offset (Shard.m_data s') j = log_offset (Shard.m_data s) j).

(** Every slot assigned in [s] is assigned in [s'], to the same pair. *)
Definition keeps_slots (s s' : Shard.shard) : Prop :=
  forall b, 0 <= b < HASH_TABLE_ENTRIES -> assigned s b ->
            assigned s' b /\ slot_pair s' b = slot_pair s b.

End ShardEffects.

(** ** Concrete inputs for the examples *)

Definition key_a : buffer := [Byte.x61].
Definition value_1 : list buffer := [[Byte.x31]].
Definition value_2 : list buffer := [[Byte.x32]].

Definition is_some {A : Type} (o : option A) : bool :=
  match o with Some _ => true | None => false end.

(** The shard an option holds, a fresh one for [None]. *)
Definition shard_of `{shard_constants} (o : option Shard.shard) : Shard.shard :=
  match o with Some s => s | None => Shard.create end.

(** ** States a disk goes through *)

Section DiskSteps.
Context {K : shard_constants}.
Variable CityHash64 : buffer -> Z.
Variable CityHash64_each : list buffer -> list Z.
Variable lower_interlace : list Z -> Z.

(** One change of the disk that is not a split: a [put] or [del] of the
    client; inside [flush], a [del] or a [put] of the oldest WAL entry on one
    shard, or the removal of that entry; a [clean_shard], whether it returns
    or throws; or a spare shard added by [preallocate]. *)
Inductive quiet_step : Disk.disk -> Disk.disk -> Prop :=
| step_put d k val ver :
    quiet_step d (snd (Disk.put CityHash64 CityHash64_each lower_interlace d k val ver))
| step_del d k :
    quiet_step d (snd (Disk.del CityHash64 d k))
| step_shard_del d oldest rest i c sp rc s' :
    Disk.m_log d = oldest :: rest ->
    nth_error (Disk.m_shards d) i = Some (c, sp) ->
    Shard.del (Disk.target sp) (primary_hash (Disk.coord oldest)) (Disk.key oldest)
    = Some (rc, s') ->
    quiet_step d (Disk.set_shards d (Disk.replace (Disk.m_shards d) i
                                                  (Disk.mk_shard_ptr (Disk.file sp) s')))
| step_shard_put d oldest rest i c sp rc s' flushed :
    Disk.m_log d = oldest :: rest ->
    nth_error (Disk.m_shards d) i = Some (c, sp) ->
    Shard.put (Disk.target sp) (primary_hash (Disk.coord oldest))
              (secondary_hash (Disk.coord oldest)) (Disk.key oldest)
              (Disk.value oldest) (Disk.version oldest)
    = Some (rc, s', flushed) ->
    quiet_step d (Disk.set_shards d (Disk.replace (Disk.m_shards d) i
                                                  (Disk.mk_shard_ptr (Disk.file sp) s')))
| step_remove_oldest d oldest rest :
    Disk.m_log d = oldest :: rest ->
    quiet_step d (Disk.set_log d rest)
| step_clean_returns d i rc d' :
    Disk.clean_shard d i = Disk.Returns rc d' -> quiet_step d d'
| step_clean_throws d i d' :
    Disk.clean_shard d i = Disk.Throws d' -> quiet_step d d'
| step_spare d :
    quiet_step d (Disk.preallocate_one d).

(** One change of the disk: a quiet one, or what [deal_with_full_shard]
    makes of a full shard. *)
Inductive step : Disk.disk -> Disk.disk -> Prop :=
| step_quiet d d' : quiet_step d d' -> step d d'
| step_full_returns d i rc d' :
    Disk.deal_with_full_shard d i = Disk.Returns rc d' -> step d d'
| step_full_throws d i d' :
    Disk.deal_with_full_shard d i = Disk.Throws d' -> step d d'.

(** The disks reached from [d0] by steps of [R]. *)
Inductive reached (R : Disk.disk -> Disk.disk -> Prop) (d0 : Disk.disk)
  : Disk.disk -> Prop :=
| reached_start : reached R d0 d0
| reached_step d d' : reached R d0 d -> R d d' -> reached R d0 d'.

(** A disk the program can be in: it was constructed and has changed by
    steps since. *)
Definition reachable (d : Disk.disk) : Prop :=
  exists dir files arity d0,
    Disk.new dir files arity = Disk.Returns tt d0 /\ reached step d0 d.

(** The coordinates of the shards of a disk, in order. *)
Definition coordinates (d : Disk.disk) : list coordinate := map fst (Disk.m_shards d).

End DiskSteps.

(** Stand-ins for the hash functions in the examples: any functions will
    do, the theorems hold for all of them. *)
Definition sample_hash (b : buffer) : Z := le_combine b.
Definition sample_hash_each (v : list buffer) : list Z := map sample_hash v.
Definition sample_interlace (l : list Z) : Z := fold_left Z.lxor l 0.

(** The disk an outcome leaves, an empty one when there is none. *)
Definition disk_of {A : Type} (o : Disk.outcome A) : Disk.disk :=
  match o with
  | Disk.Returns _ d => d
  | Disk.Throws d => d
  | Disk.Undefined => Disk.mk_disk 0 [] [] Disk.empty_directory 0 [] 0
  end.

(** What an outcome returns, if it returns. *)
Definition returned {A : Type} (o : Disk.outcome A) : option A :=
  match o with
  | Disk.Returns a _ => Some a
  | _ => None
  end.

(** A disk of arity 2 constructed on an empty directory. *)
Definition fresh_disk `{shard_constants} : Disk.disk :=
  disk_of (Disk.new Disk.empty_directory 0 2).

(** ** Stale space and msync, as the spec words them *)

Section StaleSpaceSpec.
Context {K : shard_constants}.

(** Entry [j] of the search log is stale: the upper half of its second
    word, the invalidator, is not zero. *)
Definition stale_entry (s : Shard.shard) (j : Z) : bool :=
  negb (hi32 (Shard.m_search_log (Shard.m_data s) (2 * j + 1)) =? 0).

(** The length of the record of entry [j]: the offset of its successor, or
    the end of the data for the last entry, minus its own offset. *)
Definition record_length (s : Shard.shard) (j : Z) : Z :=
  (if j + 1 <? Shard.m_search_offset s
   then log_offset (Shard.m_data s) (j + 1)
   else Shard.m_data_offset s)
  - log_offset (Shard.m_data s) j.

(** The entries of the search log in use. *)
Definition log_entries (s : Shard.shard) : list Z :=
  map Z.of_nat (seq 0 (Z.to_nat (Shard.m_search_offset s))).

(** The stale space the spec describes: the record lengths of the stale
    entries and their number, as percentages of the data segment and of the
    search log. *)
Definition stale_space_spec (s : Shard.shard) : Z :=
  let stale := filter (stale_entry s) (log_entries s) in
  let stale_bytes := fold_right Z.add 0 (map (record_length s) stale) in
  let stale_count := Z.of_nat (length stale) in
  Z.max (100 * stale_bytes / DATA_SEGMENT_SIZE) (100 * stale_count / SEARCH_INDEX_ENTRIES).

(** Two data offsets lie on opposite sides of a 4 MiB boundary. *)
Definition crosses_4MiB (before after : Z) : bool :=
  negb (before / 2 ^ 22 =? after / 2 ^ 22).

End StaleSpaceSpec.

(** One attribute of 3 MiB. *)
Definition value_3MiB : list buffer := [repeat Byte.x00 (Z.to_nat 3145728)].

(** A disk with one spare shard, as [preallocate] leaves it after creating
    [spare-0]: the file exists and the FIFO holds it. *)
Definition disk_with_spare `{shard_constants} : Disk.disk :=
  Disk.preallocate_one fresh_disk.

(** ** Coordinates of reachable disks *)

(** The number of bits set in a 32-bit mask. *)
Definition popcount (m : Z) : nat :=
  length (filter (Z.testbit m) (map Z.of_nat (seq 0 32))).

(** A coordinate whose two masks fix the same number of bits. Every split
    fixes one more bit of each mask. *)
Definition balanced (c : coordinate) : Prop :=
  is_u32 (primary_mask c) /\ is_u32 (secondary_mask c)
  /\ popcount (primary_mask c) = popcount (secondary_mask c).

(** An array of 32 counters, each between 0 and [n]. *)
Definition counters (n : Z) (arr : list Z) : Prop :=
  length arr = 32%nat /\ Forall (fun x => 0 <= x <= n) arr.

(** While the positions below [j] are visited, the counters at these
    positions have grown by one at most and the others not at all. *)
Definition grown (j : nat) (a a' : list Z) : Prop :=
  length a' = length a
  /\ forall k, (nth k a 0 <= nth k a' 0 <= nth k a 0 + 1)
               /\ ((j <= k)%nat -> nth k a' 0 = nth k a 0).

Section DiskInvariant.
Context {K : shard_constants}.

(** The search log of a shard is not longer than the log can be. *)
Definition short_log (s : Shard.shard) : Prop :=
  0 <= Shard.m_search_offset s <= SEARCH_INDEX_ENTRIES.

(** What holds of the shard vector of every disk the program can be in. *)
Definition disk_inv (d : Disk.disk) : Prop :=
  Forall (fun cs => balanced (fst cs) /\ short_log (Disk.target (snd cs)))
         (Disk.m_shards d).

(** What a split that succeeds leaves: the shard [i] has made room for four
    children, each with one more bit fixed in either mask. *)
Definition split_result (d d' : Disk.disk) (i : nat) : Prop :=
  exists c1 s1 c2 s2 c3 s3 c4 s4,
    Disk.m_shards d' = Disk.replace4 (Disk.m_shards d) i (c1, s1) (c2, s2) (c3, s3) (c4, s4)
    /\ (balanced c1 /\ short_log (Disk.target s1))
    /\ (balanced c2 /\ short_log (Disk.target s2))
    /\ (balanced c3 /\ short_log (Disk.target s3))
    /\ (balanced c4 /\ short_log (Disk.target s4)).

End DiskInvariant.

(** The next [create_and_copy] of a goal, taken apart by its outcome, with
    what [spec] says of it. *)
Ltac next_child spec Hcc child d1 :=
  match goal with
  | |- context [Disk.create_and_copy ?d0 ?s0 ?c0] =>
      pose proof (spec d0 s0 c0) as Hcc;
      destruct (Disk.create_and_copy d0 s0 c0) as [child d1|d1|]
  end.

(** ** When the probing of a shard ends *)

(** Some slot of the hash table of the shard has never been assigned. *)
Definition has_empty_slot `{shard_constants} (s : Shard.shard) : Prop :=
  exists b, 0 <= b < HASH_TABLE_ENTRIES
            /\ hi32 (Shard.m_hash_table (Shard.m_data s) b) = 0.

(** ** A shard as a map from keys to values *)

Section ShardContents.
Context {K : shard_constants}.

(** The attributes of a record, as [data_value] reads them from [c] on: a
    length word and the bytes of each. *)
Fixpoint attrs_at (m : memory) (c : Z) (value : list buffer) : Prop :=
  match value with
  | [] => True
  | v :: rest =>
      load32 m c = size v
      /\ load_bytes m (c + 4) (length v) = v
      /\ attrs_at m (c + 4 + size v) rest
  end.

(** The record of [key], [value] and [version] lies at [off]:
    [version:u64, key_size:u32, key, arity:u16, attributes]. *)
Definition record_at (m : memory) (off : Z) (key : buffer) (value : list buffer)
           (version : Z) : Prop :=
  Shard.data_version m off = version
  /\ Shard.data_key_size m off = size key
  /\ load_bytes m (off + 12) (length key) = key
  /\ load16 m (off + 12 + size key) = Z.of_nat (length value)
  /\ attrs_at m (off + 14 + size key) value.

(** What a shard holds: the value and the version of the keys that are
    there, by primary hash and key. *)
Definition contents : Type := Z -> buffer -> option (list buffer * Z).

Definition empty_contents : contents := fun _ _ => None.

Definition update (M : contents) (ph : Z) (key : buffer) (r : option (list buffer * Z))
  : contents :=
  fun ph' key' => if (ph' =? ph) && buffer_eqb key' key then r else M ph' key'.

(** The shard [s] holds [M]: a slot that is assigned refers to the record
    of its key; the key is there when the slot carries no tombstone; a key
    that no slot is assigned to is not there. *)
Record refines (s : Shard.shard) (M : contents) : Prop := {
  ref_inv : shard_inv s;
  ref_record :
    forall b, 0 <= b < HASH_TABLE_ENTRIES -> assigned s b ->
      exists value version,
        record_at (Shard.m_data s) (slot_offset s b) (slot_key s b) value version
        /\ slot_offset s b + Shard.data_size (slot_key s b) value <= Shard.m_data_offset s
        /\ M (slot_hash s b) (slot_key s b)
           = if hi32 (slot_word s b) <? HASH_OFFSET_INVALID
             then Some (value, version) else None;
  ref_absent :
    forall ph key,
      (forall b, 0 <= b < HASH_TABLE_ENTRIES -> assigned s b -> slot_pair s b <> (ph, key)) ->
      M ph key = None
}.

(** A call with arguments of the types of the source: hashes are
    [uint32_t], the version is a [uint64_t]; the number of attributes of a
    [put] fits the [uint16_t] it is stored in. *)
Definition proper (op : operation) : Prop :=
  match op with
  | Put primary_hash secondary_hash _ value version =>
      is_u32 primary_hash /\ is_u32 secondary_hash
      /\ 0 <= version < 2 ^ 64 /\ Z.of_nat (length value) < 2 ^ 16
  | Del primary_hash _ => is_u32 primary_hash
  end.

(** What a call returns and the shard it leaves. *)
Definition call (s : Shard.shard) (op : operation) : option (returncode * Shard.shard) :=
  match op with
  | Put primary_hash secondary_hash key value version =>
      match Shard.put s primary_hash secondary_hash key value version with
      | Some (rc, s', _) => Some (rc, s')
      | None => None
      end
  | Del primary_hash key => Shard.del s primary_hash key
  end.

(** What the call does to the map: a [put] that succeeds binds the key, a
    [del] that succeeds removes it, a call that fails changes nothing. *)
Definition model_step (M : contents) (op : operation) (rc : returncode) : contents :=
  match op with
  | Put primary_hash _ key value version =>
      if returncode_eqb rc SUCCESS then update M primary_hash key (Some (value, version))
      else M
  | Del primary_hash key =>
      if returncode_eqb rc SUCCESS then update M primary_hash key None else M
  end.

(** A sequence of calls on a shard, and on the map beside it. *)
Fixpoint simulate (s : Shard.shard) (M : contents) (ops : list operation)
  : option (Shard.shard * contents) :=
  match ops with
  | [] => Some (s, M)
  | op :: rest =>
      match call s op with
      | Some (rc, s') => simulate s' (model_step M op rc) rest
      | None => None
      end
  end.

(** What [get] answers for a key the map binds or does not bind; [value]
    and [version] are what the out-parameters held. *)
Definition answer (M : contents) (ph : Z) (key : buffer) (value : list buffer)
           (version : Z) : returncode * list buffer * Z :=
  match M ph key with
  | Some (v, ver) => (SUCCESS, v, ver)
  | None => (NOTFOUND, value, version)
  end.

End ShardContents.

(** ** Shards reached by calls *)

Section ShardRuns.
Context {K : shard_constants}.

(** The shard [s] is what proper calls [ops] leave of a shard fresh from
    [create], and [M] is the map these calls leave. *)
Definition shard_after (ops : list operation) (s : Shard.shard) (M : contents) : Prop :=
  Forall proper ops /\ simulate Shard.create empty_contents ops = Some (s, M).

(** The primary hash and the key a call is about. *)
Definition target_of (op : operation) : Z * buffer :=
  match op with
  | Put primary_hash _ key _ _ => (primary_hash, key)
  | Del primary_hash key => (primary_hash, key)
  end.

(** The state a run ends in, a fresh shard when it has none. *)
Definition state_of (o : option (Shard.shard * contents)) : Shard.shard * contents :=
  match o with Some st => st | None => (Shard.create, empty_contents) end.

End ShardRuns.

(** Three calls on one key: a put, a delete and a put again. *)
Definition sample_calls : list operation :=
  [Put 5 7 key_a value_1 1; Del 5 key_a; Put 5 7 key_a value_2 2].

(** A second key. *)
Definition key_b : buffer := [Byte.x62].

(** ** Reading a file name back *)

(** The value of a hexadecimal digit, 0 for any other character. *)
Definition digit_value (c : ascii) : Z :=
  match index 0 (String c EmptyString) "0123456789abcdef" with
  | Some i => Z.of_nat i
  | None => 0
  end.

(** The number a string of hexadecimal digits stands for. *)
Fixpoint hex_value (s : string) : Z :=
  match s with
  | EmptyString => 0
  | String c rest => digit_value c * 16 ^ Z.of_nat (String.length rest) + hex_value rest
  end.

(** The masks and hashes of a coordinate are [uint32_t]. *)
Definition coordinate_ok (c : coordinate) : Prop :=
  is_u32 (primary_mask c) /\ is_u32 (primary_hash c)
  /\ is_u32 (secondary_mask c) /\ is_u32 (secondary_hash c).

(** ** A disk that has not split yet *)

Section ShardSlotCount.
Context {K : shard_constants}.

(** The slots assigned in [s] are among the slots of a list without
    repetitions that is not longer than the search log: every slot was
    assigned by a [put] that took a log entry. *)
Definition slots_bounded (s : Shard.shard) : Prop :=
  exists slots : list Z,
    NoDup slots
    /\ (forall b, 0 <= b < HASH_TABLE_ENTRIES -> assigned s b -> In b slots)
    /\ Z.of_nat (length slots) <= Shard.m_search_offset s.

End ShardSlotCount.

Section UnsplitDisk.
Context {K : shard_constants}.
Variable CityHash64 : buffer -> Z.
Variable CityHash64_each : list buffer -> list Z.
Variable lower_interlace : list Z -> Z.

(** An entry of the WAL as [put] or [del] appends it to a disk of arity
    [arity]; the version of a [put] is a [uint64_t]. *)
Definition entry_ok (arity : Z) (e : Disk.log_entry) : Prop :=
  (Disk.coord e
   = Disk.get_coordinate_value CityHash64 CityHash64_each lower_interlace
                               (Disk.key e) (Disk.value e)
   /\ Z.of_nat (length (Disk.value e)) + 1 = arity
   /\ 0 <= Disk.version e < 2 ^ 64)
  \/ Disk.coord e = Disk.get_coordinate CityHash64 (Disk.key e).

(** The bytes of the data segment the entries of a WAL can take when they
    are flushed: eight for the delete and the record, aligned, of a put. *)
Definition wal_cost (log : list Disk.log_entry) : Z :=
  fold_right (fun e acc => 8 + Shard.data_size (Disk.key e) (Disk.value e) + 7 + acc) 0 log.

(** A disk with the one shard it was constructed with, which holds [M];
    the WAL is as [put] and [del] leave it and the arity is a [uint16_t]. *)
Definition unsplit (d : Disk.disk) (M : contents) : Prop :=
  (exists sp, Disk.m_shards d = [(mk_coordinate 0 0 0 0, sp)]
              /\ refines (Disk.target sp) M
              /\ slots_bounded (Disk.target sp)
              /\ Shard.m_data_offset (Disk.target sp) + wal_cost (Disk.m_log d) <= FILE_SIZE
              /\ Shard.m_search_offset (Disk.target sp) + Z.of_nat (length (Disk.m_log d))
                 < SEARCH_INDEX_ENTRIES)
  /\ Forall (entry_ok (Disk.m_arity d)) (Disk.m_log d)
  /\ 0 <= Disk.m_arity d < 2 ^ 16.

(** What an entry of the WAL does to the map when it is flushed. *)
Definition apply_entry (M : contents) (e : Disk.log_entry) : contents :=
  update M (primary_hash (Disk.coord e)) (Disk.key e)
         (if secondary_mask (Disk.coord e) =? UINT32_MAX
          then Some (Disk.value e, Disk.version e) else None).

(** What [get] answers for [k] on a disk whose shard holds [M] and whose
    WAL is [log]. *)
Definition disk_lookup (M : contents) (log : list Disk.log_entry) (k : buffer) : lookup :=
  match last_match (Disk.get_coordinate CityHash64 k) k log with
  | Some e =>
      if secondary_mask (Disk.coord e) =? UINT32_MAX
      then Found (Disk.value e) (Disk.version e) else NotFound
  | None =>
      match M (u32 (CityHash64 k)) k with
      | Some (v, ver) => Found v ver
      | None => NotFound
      end
  end.

End UnsplitDisk.

(** ** The search log of a shard *)

Section ShardLog.
Context {K : shard_constants}.

(** The two words of entry [j] of the search log: the hashes and the
    offsets. *)
Definition log_hashes (m : memory) (j : Z) : Z := Shard.m_search_log m (2 * j).

Definition log_word (m : memory) (j : Z) : Z := Shard.m_search_log m (2 * j + 1).

(** The key of the record entry [j] stands for. *)
Definition log_key (m : memory) (j : Z) : buffer :=
  Shard.data_key m (log_offset m j) (Shard.data_key_size m (log_offset m j)).

(** What holds of the search log of a shard that has only been changed by
    [put] and [del]: the offsets of its entries go up; every entry stands
    for a record in the data segment; the pair of an entry has its slot in
    the hash table, and the slot refers to the record of the entry as long
    as the entry has not been invalidated; behind the entries the log is
    zero; the record a slot without tombstone refers to has its entry, which
    has not been invalidated; offsets are multiples of 8; the record of an
    entry ends before the next one begins; the data offset lies behind the
    end of the record of the last entry, and no record a slot refers to
    ends behind that one. *)
Record log_inv (s : Shard.shard) : Prop := {
  log_sorted :
    forall i j, 0 <= i -> i < j -> j < Shard.m_search_offset s ->
      log_offset (Shard.m_data s) i < log_offset (Shard.m_data s) j;
  log_filled :
    forall j, 0 <= j < Shard.m_search_offset s ->
      INDEX_SEGMENT_SIZE <= log_offset (Shard.m_data s) j
      /\ log_offset (Shard.m_data s) j + 12
         + Shard.data_key_size (Shard.m_data s) (log_offset (Shard.m_data s) j)
         <= Shard.m_data_offset s;
  log_held :
    forall j, 0 <= j < Shard.m_search_offset s ->
      exists b, 0 <= b < HASH_TABLE_ENTRIES /\ assigned s b
                /\ slot_pair s b
                   = (lo32 (log_hashes (Shard.m_data s) j), log_key (Shard.m_data s) j)
                /\ (hi32 (log_word (Shard.m_data s) j) = 0 ->
                    hi32 (slot_word s b) = log_offset (Shard.m_data s) j);
  log_zero :
    forall j, Shard.m_search_offset s <= j < SEARCH_INDEX_ENTRIES ->
      log_hashes (Shard.m_data s) j = 0 /\ log_word (Shard.m_data s) j = 0;
  log_live :
    forall b, 0 <= b < HASH_TABLE_ENTRIES -> assigned s b ->
      hi32 (slot_word s b) < HASH_OFFSET_INVALID ->
      exists j, 0 <= j < Shard.m_search_offset s
                /\ log_offset (Shard.m_data s) j = hi32 (slot_word s b)
                /\ hi32 (log_word (Shard.m_data s) j) = 0
                /\ lo32 (log_hashes (Shard.m_data s) j) = slot_hash s b;
  log_aligned :
    Shard.m_data_offset s mod 8 = 0
    /\ forall j, 0 <= j < Shard.m_search_offset s ->
         log_offset (Shard.m_data s) j mod 8 = 0;
  log_record :
    forall j, 0 <= j < Shard.m_search_offset s ->
      exists key value version,
        record_at (Shard.m_data s) (log_offset (Shard.m_data s) j) key value version
        /\ log_offset (Shard.m_data s) j + Shard.data_size key value
           <= (if j + 1 <? Shard.m_search_offset s
               then log_offset (Shard.m_data s) (j + 1) else Shard.m_data_offset s);
  log_last :
    0 < Shard.m_search_offset s ->
    exists key value version,
      let last := log_offset (Shard.m_data s) (Shard.m_search_offset s - 1) in
      record_at (Shard.m_data s) last key value version
      /\ last + Shard.data_size key value <= FILE_SIZE
      /\ align8 (last + Shard.data_size key value) <= Shard.m_data_offset s
      /\ forall b, 0 <= b < HASH_TABLE_ENTRIES -> assigned s b ->
           exists v ver,
             record_at (Shard.m_data s) (slot_offset s b) (slot_key s b) v ver
             /\ slot_offset s b + Shard.data_size (slot_key s b) v
                <= last + Shard.data_size key value
}.

End ShardLog.

(** ** The regions of the shards *)

(** The hash bits of a coordinate lie under its masks: a bit that is not
    fixed is zero. *)
Definition normal (c : coordinate) : Prop :=
  Z.land (primary_hash c) (primary_mask c) = primary_hash c
  /\ Z.land (secondary_hash c) (secondary_mask c) = secondary_hash c.

(** The coordinates among [v] that contain [p]. *)
Definition holders (p : coordinate) (v : list coordinate) : list coordinate :=
  filter (fun c => contains c p) v.

(** The coordinates [split_shard] gives the four children of [c] when it
    splits the secondary hash at bit [sb], and the primary hash at bit [lb]
    where the secondary bit is 0 and at bit [ub] where it is 1:
    [zero_zero_coord], [zero_one_coord], [one_zero_coord], [one_one_coord]. *)
Definition children (c : coordinate) (sb lb ub : Z) : list coordinate :=
  [mk_coordinate (Z.lor (primary_mask c) (2 ^ lb)) (primary_hash c)
                 (Z.lor (secondary_mask c) (2 ^ sb)) (secondary_hash c);
   mk_coordinate (Z.lor (primary_mask c) (2 ^ ub)) (primary_hash c)
                 (Z.lor (secondary_mask c) (2 ^ sb)) (Z.lor (secondary_hash c) (2 ^ sb));
   mk_coordinate (Z.lor (primary_mask c) (2 ^ lb)) (Z.lor (primary_hash c) (2 ^ lb))
                 (Z.lor (secondary_mask c) (2 ^ sb)) (secondary_hash c);
   mk_coordinate (Z.lor (primary_mask c) (2 ^ ub)) (Z.lor (primary_hash c) (2 ^ ub))
                 (Z.lor (secondary_mask c) (2 ^ sb)) (Z.lor (secondary_hash c) (2 ^ sb))].

(** The hash space is divided among the shards of the disk: the
    coordinates are normal and every coordinate is contained in one of
    them, and in one only. *)
Definition partitioned `{shard_constants} (d : Disk.disk) : Prop :=
  Forall normal (coordinates d)
  /\ forall p, length (holders p (coordinates d)) = 1%nat.

(** ** What [copy_to] copies *)

(** The coordinate [copy_to] makes of the hashes of a log entry:
    [coordinate(UINT32_MAX, primary_hash, UINT32_MAX, secondary_hash)]. *)
Definition point (ph sh : Z) : coordinate := mk_coordinate UINT32_MAX ph UINT32_MAX sh.

Section ShardCopy.
Context {K : shard_constants}.

(** Entry [j] of the search log of [s] has not been invalidated and stands
    for a record of [key], put with the hashes [ph] and [sh]. *)
Definition logged_at (s : Shard.shard) (j ph sh : Z) (key : buffer) : Prop :=
  0 <= j < Shard.m_search_offset s
  /\ hi32 (log_word (Shard.m_data s) j) = 0
  /\ lo32 (log_hashes (Shard.m_data s) j) = ph
  /\ hi32 (log_hashes (Shard.m_data s) j) = sh
  /\ log_key (Shard.m_data s) j = key.

Definition logged (s : Shard.shard) (ph sh : Z) (key : buffer) : Prop :=
  exists j, logged_at s j ph sh key.

(** No slot of the shard carries a tombstone. *)
Definition no_tombstone (s : Shard.shard) : Prop :=
  forall b, 0 <= b < HASH_TABLE_ENTRIES -> assigned s b ->
            hi32 (slot_word s b) < HASH_OFFSET_INVALID.

(** Where the data of entry [ent] of the log of [src] ends: at the next
    entry, or at the data offset. *)
Definition entry_end (src : Shard.shard) (ent : Z) : Z :=
  if ent + 1 <? Shard.m_search_offset src
  then log_offset (Shard.m_data src) (ent + 1) else Shard.m_data_offset src.

(** The state of [copy_to] in front of entry [ent] of the log of [src],
    which holds [M]: the target [dst] holds [M'], the records of the
    entries before [ent] that are live and intersect [c]. *)
Record copied (src : Shard.shard) (M : contents) (c : coordinate) (ent : Z)
       (dst : Shard.shard) (M' : contents) : Prop := {
  cp_ref : refines dst M';
  cp_log : log_inv dst;
  cp_slots : slots_bounded dst;
  cp_live : no_tombstone dst;
  cp_within :
    forall j ph sh key, logged_at dst j ph sh key -> intersects c (point ph sh) = true;
  cp_search :
    Shard.m_search_offset dst <= ent
    /\ Shard.m_search_offset dst <= Shard.m_search_offset src;
  cp_data :
    Shard.m_data_offset dst mod 8 = 0
    /\ Shard.m_data_offset dst
       <= (if ent <? Shard.m_search_offset src
           then log_offset (Shard.m_data src) ent else Shard.m_data_offset src);
  cp_sub :
    forall ph key r, M' ph key = Some r ->
      M ph key = Some r
      /\ exists j sh, j < ent /\ logged_at src j ph sh key
                      /\ intersects c (point ph sh) = true;
  cp_sup :
    forall j ph sh key, j < ent -> logged_at src j ph sh key ->
      intersects c (point ph sh) = true -> M' ph key = M ph key
}.

End ShardCopy.

(** ** What the shards of a disk hold *)

Section DiskContents.
Context {K : shard_constants}.
Variable CityHash64 : buffer -> Z.
Variable CityHash64_each : list buffer -> list Z.
Variable lower_interlace : list Z -> Z.

(** Every record of [s] that is live was put with hashes in the region of
    [c]. *)
Definition within (c : coordinate) (s : Shard.shard) : Prop :=
  forall j ph sh key, logged_at s j ph sh key -> contains c (point ph sh) = true.

(** The shard [s] of the region [c] holds the map [M]. *)
Record sound (c : coordinate) (s : Shard.shard) (M : contents) : Prop := {
  sound_refines : refines s M;
  sound_log : log_inv s;
  sound_slots : slots_bounded s;
  sound_within : within c s
}.

(** [N] is the share of the region [c] in the map [M] of the shard [src]:
    the keys of [M] whose record was put with hashes in [c]. *)
Definition share (src : Shard.shard) (M : contents) (c : coordinate) (N : contents) : Prop :=
  (forall ph key r, N ph key = Some r ->
     M ph key = Some r
     /\ exists sh, logged src ph sh key /\ contains c (point ph sh) = true)
  /\ (forall ph sh key, logged src ph sh key -> contains c (point ph sh) = true ->
                        N ph key = M ph key).

(** The maps among [Ms] that bind [key] under [ph]. *)
Definition binders (ph : Z) (key : buffer) (Ms : list contents) : list contents :=
  filter (fun M => is_some (M ph key)) Ms.

(** No key is bound in two of the maps. *)
Definition apart (Ms : list contents) : Prop :=
  forall ph key, (length (binders ph key Ms) <= 1)%nat.

(** What the shards hold together: a key has the record of the first map
    that binds it. *)
Fixpoint joint (Ms : list contents) : contents :=
  match Ms with
  | [] => empty_contents
  | M :: rest =>
      fun ph key => match M ph key with Some r => Some r | None => joint rest ph key end
  end.

(** The shards of [d] hold the maps [Ms], one each and in order: every
    shard is sound for its region, no key is in two shards, the regions
    divide the hash space, the two masks of a region fix as many bits, and
    the WAL is as [put] and [del] leave it. *)
Record holds (d : Disk.disk) (Ms : list contents) : Prop := {
  holds_shards :
    Forall2 (fun cs M => sound (fst cs) (Disk.target (snd cs)) M) (Disk.m_shards d) Ms;
  holds_apart : apart Ms;
  holds_regions : partitioned d;
  holds_masks : Forall balanced (coordinates d);
  holds_log : Forall (entry_ok CityHash64 CityHash64_each lower_interlace (Disk.m_arity d))
                     (Disk.m_log d);
  holds_arity : 0 <= Disk.m_arity d < 2 ^ 16
}.

(** The disk [d'] a call has left of the disk [d], whose shards held [Ms]:
    its shards hold together what those of [d] held, and the WAL is as it
    was. *)
Definition kept (d : Disk.disk) (Ms : list contents) (d' : Disk.disk) : Prop :=
  exists Ms', holds d' Ms' /\ Disk.m_log d' = Disk.m_log d
              /\ forall ph key, joint Ms' ph key = joint Ms ph key.

(** The disk [d'] answers every [get] as the disk [d], whose shards held
    [Ms], by what its WAL and its shards hold. *)
Definition answers_as (d : Disk.disk) (Ms : list contents) (d' : Disk.disk) : Prop :=
  exists Ms',
    holds d' Ms'
    /\ forall k, disk_lookup CityHash64 (joint Ms') (Disk.m_log d') k
                 = disk_lookup CityHash64 (joint Ms) (Disk.m_log d) k.

(** The shard of [cs] has a record for [key] under [ph]: [get] on the shard
    returns [SUCCESS]. *)
Definition has_key (ph : Z) (key : buffer) (cs : coordinate * Disk.shard_ptr) : bool :=
  match Shard.get (Disk.target (snd cs)) ph key [] 0 with
  | Some (rc, _, _) => returncode_eqb rc SUCCESS
  | None => false
  end.

End DiskContents.

(** ** A disk along the calls of its client *)

(** A call on the disk: [put], [del], [flush], or one turn of the loop of
    [preallocate] that adds a spare shard. *)
Inductive disk_call : Type :=
| Call_put (k : buffer) (v : list buffer) (ver : Z)
| Call_del (k : buffer)
| Call_flush
| Call_preallocate.

(** The version of a [put] is a [uint64_t]. *)
Definition disk_call_ok (c : disk_call) : Prop :=
  match c with
  | Call_put _ _ ver => 0 <= ver < 2 ^ 64
  | _ => True
  end.

(** What the calls so far say of a key: [f] with the call [c] recorded. A
    [put] of the wrong arity is refused and records nothing. *)
Definition record_call (arity : Z) (f : buffer -> lookup) (c : disk_call) : buffer -> lookup :=
  match c with
  | Call_put k v ver =>
      if Z.of_nat (length v) + 1 =? arity
      then fun k' => if buffer_eqb k k' then Found v ver else f k'
      else f
  | Call_del k => fun k' => if buffer_eqb k k' then NotFound else f k'
  | Call_flush => f
  | Call_preallocate => f
  end.

(** What the calls [h], oldest first, say of every key: the value and the
    version of the last [put], unless a [del] came after it. *)
Definition expected (arity : Z) (h : list disk_call) : buffer -> lookup :=
  fold_left (record_call arity) h (fun _ => NotFound).

Section DiskCalls.
Context {K : shard_constants}.
Variable CityHash64 : buffer -> Z.
Variable CityHash64_each : list buffer -> list Z.
Variable lower_interlace : list Z -> Z.

(** The disk a call leaves, when the call comes back: [flush] may return
    or throw. *)
Definition call_on (d : Disk.disk) (c : disk_call) : option Disk.disk :=
  match c with
  | Call_put k v ver => Some (snd (Disk.put CityHash64 CityHash64_each lower_interlace d k v ver))
  | Call_del k => Some (snd (Disk.del CityHash64 d k))
  | Call_flush =>
      match Disk.flush d with
      | Disk.Returns _ d' => Some d'
      | Disk.Throws d' => Some d'
      | Disk.Undefined => None
      end
  | Call_preallocate => Some (Disk.preallocate_one d)
  end.

(** The disk the calls [h], oldest first, leave. *)
Fixpoint after_calls (d : Disk.disk) (h : list disk_call) : option Disk.disk :=
  match h with
  | [] => Some d
  | c :: rest =>
      match call_on d c with
      | Some d' => after_calls d' rest
      | None => None
      end
  end.

(** A disk in service: it was constructed with an arity that is a
    [uint16_t], and calls have come back on it since. *)
Definition served (d : Disk.disk) : Prop :=
  exists dir files arity d0 h,
    0 <= arity < 2 ^ 16
    /\ Disk.new dir files arity = Disk.Returns tt d0
    /\ Forall disk_call_ok h
    /\ after_calls d0 h = Some d.

End DiskCalls.

(** Constants with a search log shorter than the hash table: 65536 slots
    and 32768 log entries in a file of 256 MiB. *)
Definition roomy_constants : shard_constants := {|
  HASH_TABLE_ENTRIES := 65536;
  HASH_TABLE_SIZE := 524288;
  SEARCH_INDEX_ENTRIES := 32768;
  SEARCH_INDEX_SIZE := 524288;
  INDEX_SEGMENT_SIZE := 1048576;
  DATA_SEGMENT_SIZE := 267386880;
  FILE_SIZE := 268435456;
  HASH_OFFSET_INVALID := 2147483648
|}.

(** Calls for the examples: a key is put, flushed, deleted, flushed again
    with a spare shard at hand, and put once more. *)
Definition sample_disk_calls : list disk_call :=
  [Call_put key_a value_1 1; Call_flush; Call_del key_a; Call_preallocate; Call_flush;
   Call_put key_a value_2 2].

(** The disk these calls leave of a disk of arity 2 constructed on an
    empty directory. *)
Definition sample_served_disk `{shard_constants} : Disk.disk :=
  match after_calls sample_hash sample_hash_each sample_interlace fresh_disk
                    sample_disk_calls with
  | Some d => d
  | None => fresh_disk
  end.

(** ** The files of the shards *)

Section DiskFiles.
Context {K : shard_constants}.

(** The coordinate and the file of every shard of the vector, in order. *)
Definition placement (d : Disk.disk) : list (coordinate * nat) :=
  map (fun cs => (fst cs, Disk.file (snd cs))) (Disk.m_shards d).

(** The directory of a disk that has never had a spare shard: the
    canonical name of every shard refers to the file of the shard, no name
    of a temporary file is in use, the files of the shards were created by
    the disk and differ from one another; the regions of the shards divide
    the hash space and their masks fix as many bits. *)
Record tidy (d : Disk.disk) : Prop := {
  tidy_masks : disk_inv d;
  tidy_regions : partitioned d;
  tidy_names :
    forall c f, In (c, f) (placement d) -> Disk.m_base d (Disk.shard_filename c) = Some f;
  tidy_tmp : forall c, Disk.m_base d (Disk.shard_tmp_filename c) = None;
  tidy_spares : Disk.m_spare_shards d = [];
  tidy_count : forall c f, In (c, f) (placement d) -> (f < Disk.files_created d)%nat;
  tidy_files : NoDup (map snd (placement d))
}.

End DiskFiles.

(** Calls for the examples, none of them a turn of [preallocate], and the
    disk they leave of a disk of arity 2 constructed on an empty
    directory. *)
Definition sample_plain_calls : list disk_call :=
  [Call_put key_a value_1 1; Call_flush; Call_del key_a; Call_flush;
   Call_put key_a value_2 2].

Definition sample_plain_disk `{shard_constants} : Disk.disk :=
  match after_calls sample_hash sample_hash_each sample_interlace fresh_disk
                    sample_plain_calls with
  | Some d => d
  | None => fresh_disk
  end.

(** ** Small shards for the examples *)

(** The constants of [shard_constants.h] are not part of the sources at
    hand; the shard is modelled for any constants that fit its layout. These
    give a shard of 2000 bytes with 16 slots in the hash table and 8 entries
    in the search log, which a handful of calls fills. *)
Definition small_constants : shard_constants := {|
  HASH_TABLE_ENTRIES := 16;
  HASH_TABLE_SIZE := 128;
  SEARCH_INDEX_ENTRIES := 8;
  SEARCH_INDEX_SIZE := 128;
  INDEX_SEGMENT_SIZE := 256;
  DATA_SEGMENT_SIZE := 1744;
  FILE_SIZE := 2000;
  HASH_OFFSET_INVALID := 2147483648
|}.

(** A shard of 256 bytes with as many slots in the hash table as entries
    in the search log, two of each, as the constants the spec suggests have
    65536 of each. *)
Definition tight_constants : shard_constants := {|
  HASH_TABLE_ENTRIES := 2;
  HASH_TABLE_SIZE := 16;
  SEARCH_INDEX_ENTRIES := 2;
  SEARCH_INDEX_SIZE := 32;
  INDEX_SEGMENT_SIZE := 48;
  DATA_SEGMENT_SIZE := 208;
  FILE_SIZE := 256;
  HASH_OFFSET_INVALID := 2147483648
|}.

(** A third key. *)
Definition key_c : buffer := [Byte.x63].

(** The disk the calls [h] leave of a disk of arity 2 constructed on an
    empty directory, that disk itself when a call has no result. *)
Definition disk_after `{shard_constants} (h : list disk_call) : Disk.disk :=
  match after_calls sample_hash sample_hash_each sample_interlace fresh_disk h with
  | Some d => d
  | None => fresh_disk
  end.

(** Nine keys, [a] to [i], each put with itself as its only attribute, and
    two calls of [flush]: the ninth put does not fit the search log of a
    small shard. *)
Definition nine_keys : list buffer :=
  map (fun b => [b])
      [Byte.x61; Byte.x62; Byte.x63; Byte.x64; Byte.x65; Byte.x66; Byte.x67; Byte.x68;
       Byte.x69].

Definition nine_puts_flushed : list disk_call :=
  map (fun k => Call_put k [k] 1) nine_keys ++ [Call_flush; Call_flush].

(** The first eight of them put and flushed: the search log of a small
    shard is full. *)
Definition eight_puts_flushed : list disk_call :=
  map (fun k => Call_put k [k] 1) (firstn 8 nine_keys) ++ [Call_flush].

(** The disk the eight puts leave, with its one shard full, and what a
    split of that shard makes of it. *)
Definition full_small_disk `{shard_constants} : Disk.disk := disk_after eight_puts_flushed.

Definition split_small_disk `{shard_constants} : Disk.disk :=
  disk_of (Disk.split_shard full_small_disk 0).

(** Two keys put and flushed: the hash table of a tight shard is full. *)
Definition two_puts_flushed : list disk_call :=
  [Call_put key_a value_1 1; Call_put key_b value_1 1; Call_flush].

(** A value of one attribute of 600 bytes. *)
Definition long_value (b : byte) : list buffer := [repeat b 600].

(** A key is put twice and flushed, which leaves the first record stale in
    a small shard, a third of its data segment; the third put does not fit
    the file. *)
Definition three_long_puts : list disk_call :=
  [Call_put key_a (long_value Byte.x31) 1; Call_put key_a (long_value Byte.x32) 2;
   Call_flush; Call_put key_a (long_value Byte.x33) 3].

(** What the examples look at in a shard of the vector: the file it maps,
    the number of entries in its search log, its data offset, and whether
    its stale space is 30 percent or more. *)
Definition shard_view `{shard_constants} (cs : coordinate * Disk.shard_ptr)
  : nat * Z * Z * bool :=
  (Disk.file (snd cs), Shard.m_search_offset (Disk.target (snd cs)),
   Shard.m_data_offset (Disk.target (snd cs)),
   Shard.stale_space (Disk.target (snd cs)) >=? 30).

(** Every slot of the hash table of [s] has been assigned, and none of them
    to the key [key] under the hash [ph]: the loop of [hash_lookup] for
    [ph] and [key] stops at no slot. *)
Definition full_without `{shard_constants} (s : Shard.shard) (ph : Z) (key : buffer) : bool :=
  forallb (fun b =>
             let w := Shard.m_hash_table (Shard.m_data s) b in
             negb (hi32 w =? 0)
             && negb ((lo32 w =? ph)
                      && Shard.key_at (Shard.m_data s)
                                      (Z.land (hi32 w) (HASH_OFFSET_INVALID - 1)) key))
          (map Z.of_nat (seq 0 (Z.to_nat HASH_TABLE_ENTRIES))).

(** The disk these calls leave: its shard is a third stale and the record
    in the WAL does not fit the file. *)
Definition stale_small_disk `{shard_constants} : Disk.disk := disk_after three_long_puts.

(** * Theorems *)

(** * Facts about machine integers *)

Lemma u32_small z : is_u32 z -> u32 z = z.
Proof. unfold is_u32, u32. intros. apply Z.mod_small. lia. Qed.

Lemma u32_range z : is_u32 (u32 z).
Proof. unfold is_u32, u32. apply Z.mod_pos_bound. lia. Qed.

Lemma s32_small z : is_s32 z -> s32 z = z.
Proof. unfold is_s32, s32. intros. rewrite Z.mod_small; lia. Qed.

(** [1 << i] as an [int], read back as [uint32_t], is the bit [i]. *)
Lemma one_shifted i : 0 <= i <= 31 -> u32 (s32 (Z.shiftl 1 i)) = 2 ^ i.
Proof.
  intros Hi. rewrite Z.shiftl_1_l.
  destruct (Z.eq_dec i 31) as [->|Hne].
  - reflexivity.
  - assert (2 ^ i < 2 ^ 31) by (apply Z.pow_lt_mono_r; lia).
    assert (0 < 2 ^ i) by (apply Z.pow_pos_nonneg; lia).
    rewrite s32_small by (unfold is_s32; lia).
    apply u32_small. unfold is_u32. lia.
Qed.

Lemma land_pow2_testbit mask i :
  0 <= i -> (Z.land mask (2 ^ i) =? 0) = negb (Z.testbit mask i).
Proof.
  intros Hi.
  destruct (Z.testbit mask i) eqn:Hb; simpl.
  - apply Z.eqb_neq. intros H0.
    assert (Z.testbit (Z.land mask (2 ^ i)) i = true).
    { rewrite Z.land_spec, Hb, Z.pow2_bits_true by lia. reflexivity. }
    rewrite H0, Z.bits_0 in H. discriminate.
  - apply Z.eqb_eq. apply Z.bits_inj'. intros n Hn.
    rewrite Z.land_spec, Z.bits_0.
    destruct (Z.eq_dec n i) as [->|Hne].
    + rewrite Hb. reflexivity.
    + rewrite Z.pow2_bits_false by lia. apply andb_false_r.
Qed.

Lemma shiftr_land_1_testbit mask b :
  0 <= b -> (Z.land (Z.shiftr mask b) 1 = 0 <-> Z.testbit mask b = false).
Proof.
  intros Hb. rewrite Z.land_comm.
  change 1 with (Z.ones 1). rewrite Z.land_comm, Z.land_ones by lia.
  rewrite <- Z.bit0_mod, Z.shiftr_spec by lia. simpl.
  replace (0 + b) with b by lia.
  destruct (Z.testbit mask b); simpl; split; intros; congruence.
Qed.

(** * [which_to_split] *)

Lemma counts_at arr i : counts arr -> 0 <= int_at arr i <= INT32_MAX.
Proof.
  intros [Hlen Hall]. unfold int_at.
  destruct (nth_in_or_default (Z.to_nat i) arr 0) as [Hin | ->].
  - rewrite Forall_forall in Hall. apply Hall, Hin.
  - unfold INT32_MAX. lia.
Qed.

Lemma tmpdiff_abs zeros ones i :
  counts zeros -> counts ones ->
  int_abs (s32 (int_at ones i - int_at zeros i)) = imbalance zeros ones i.
Proof.
  intros Hz Ho. unfold imbalance.
  pose proof (counts_at zeros i Hz). pose proof (counts_at ones i Ho).
  unfold INT32_MAX in *.
  rewrite s32_small by (unfold is_s32; lia).
  unfold int_abs. destruct (Z.ltb_spec (int_at ones i - int_at zeros i) 0).
  - rewrite s32_small by (unfold is_s32; lia). lia.
  - lia.
Qed.

Lemma split_inv_step mask zeros ones n st :
  counts zeros -> counts ones -> 1 <= n <= 31 ->
  split_inv mask zeros ones n st ->
  split_inv mask zeros ones (n + 1) (which_to_split_body mask zeros ones st n).
Proof.
  intros Hz Ho Hn. destruct st as [pos diff]. unfold split_inv, which_to_split_body.
  intros [Hmin Hpos].
  rewrite one_shifted, land_pow2_testbit by lia.
  rewrite tmpdiff_abs by assumption.
  destruct (Z.testbit mask n) eqn:Hbit; simpl.
  - split.
    + intros b Hb Hclear. assert (b <> n) by congruence. apply Hmin; [lia|assumption].
    + destruct Hpos as [?|(?&?&?&?)]; [left; assumption|right; repeat split; try lia; assumption].
  - destruct (Z.ltb_spec (imbalance zeros ones n) diff) as [Hlt|Hge].
    + split.
      * intros b Hb Hclear. destruct (Z.eq_dec b n) as [->|Hne]; [lia|].
        specialize (Hmin b ltac:(lia) Hclear). lia.
      * right. repeat split; try lia; try assumption.
        intros b Hb Hclear. specialize (Hmin b ltac:(lia) Hclear). lia.
    + split.
      * intros b Hb Hclear. destruct (Z.eq_dec b n) as [->|Hne]; [lia|].
        apply Hmin; [lia|assumption].
      * destruct Hpos as [?|(?&?&?&?)]; [left; assumption|right; repeat split; try lia; assumption].
Qed.

Lemma split_inv_loop mask zeros ones k : forall n st,
  counts zeros -> counts ones -> (1 <= n)%nat -> (n + k <= 32)%nat ->
  split_inv mask zeros ones (Z.of_nat n) st ->
  split_inv mask zeros ones (Z.of_nat (n + k))
            (fold_left (which_to_split_body mask zeros ones) (map Z.of_nat (seq n k)) st).
Proof.
  induction k as [|k IH]; intros n st Hz Ho Hn Hk Hinv.
  - simpl. replace (n + 0)%nat with n by lia. assumption.
  - simpl. replace (n + S k)%nat with (S n + k)%nat by lia.
    apply IH; try assumption; try lia.
    replace (Z.of_nat (S n)) with (Z.of_nat n + 1) by lia.
    apply split_inv_step; try assumption. lia.
Qed.

Lemma which_to_split_inv mask zeros ones :
  counts zeros -> counts ones ->
  exists diff, split_inv mask zeros ones 32 (which_to_split mask zeros ones, diff).
Proof.
  intros Hz Ho. unfold which_to_split, split_positions.
  pose proof (split_inv_loop mask zeros ones 31 1 (0, INT32_MAX) Hz Ho
                             ltac:(lia) ltac:(lia)) as H.
  change (int_abs INT32_MAX) with INT32_MAX.
  destruct (fold_left _ _ _) as [pos diff] eqn:E.
  exists diff. simpl fst. apply H. unfold split_inv. split.
  - intros b Hb. lia.
  - left. split; reflexivity.
Qed.

(** [which_to_split] returns the open position of least imbalance, the
    lowest one on ties, as soon as some open position has an imbalance below
    the [INT32_MAX] the loop starts from. *)
Lemma which_to_split_least (mask : Z) (zeros ones : list Z) :
  counts zeros -> counts ones ->
  (exists b, unmasked mask b /\ imbalance zeros ones b < INT32_MAX) ->
  best_split mask zeros ones (which_to_split mask zeros ones).
Proof.
  intros Hz Ho (b0 & [Hb0 Hopen0] & Hsmall).
  destruct (which_to_split_inv mask zeros ones Hz Ho) as (diff & Hmin & Hpos).
  apply shiftr_land_1_testbit in Hopen0; [|lia].
  destruct Hpos as [[_ ->]|(Hp & Hclear & -> & Hfirst)].
  - specialize (Hmin b0 ltac:(lia) Hopen0). lia.
  - unfold best_split, unmasked. repeat split; try lia.
    + apply shiftr_land_1_testbit; [lia|assumption].
    + intros b [Hb Hopen]. apply shiftr_land_1_testbit in Hopen; [|lia].
      apply Hmin; [lia|assumption].
    + intros b [Hb Hopen] Heq. apply shiftr_land_1_testbit in Hopen; [|lia].
      destruct (Z.le_gt_cases (which_to_split mask zeros ones) b) as [|Hlt]; [assumption|].
      specialize (Hfirst b ltac:(lia) Hopen). lia.
Qed.

Lemma counters_at n arr i : counters n arr -> 0 <= int_at arr i <= n.
Proof.
  intros [Hlen Hall]. unfold int_at.
  destruct (nth_in_or_default (Z.to_nat i) arr 0) as [Hin | Hd].
  - rewrite Forall_forall in Hall. apply Hall, Hin.
  - rewrite Hd. destruct arr as [|x arr]; [discriminate|].
    apply Forall_inv in Hall. lia.
Qed.

(** C8: for a mask with an open position among 1..31 and two arrays of 32
    counts, [which_to_split] returns the open position of least
    [|ones[b] - zeros[b]|], the lowest one on ties, and never position 0.
    The counts are those of [split_shard], its only caller: every one lies
    between 0 and the number [n] of entries counted, which is at most
    [SEARCH_INDEX_ENTRIES] and so below [INT32_MAX]. *)
Theorem which_to_split_minimises (mask : Z) (zeros ones : list Z) (n : Z) :
  is_u32 mask -> (exists b, unmasked mask b) ->
  n < INT32_MAX -> counters n zeros -> counters n ones ->
  best_split mask zeros ones (which_to_split mask zeros ones).
Proof.
  intros _ [b Hb] Hn Hz Ho.
  assert (Hcz : counts zeros).
  { destruct Hz as [Hlen Hall]. split; [exact Hlen|].
    eapply Forall_impl; [|exact Hall]. cbv beta. intros x Hx. lia. }
  assert (Hco : counts ones).
  { destruct Ho as [Hlen Hall]. split; [exact Hlen|].
    eapply Forall_impl; [|exact Hall]. cbv beta. intros x Hx. lia. }
  apply (which_to_split_least mask zeros ones Hcz Hco).
  exists b. split; [exact Hb|]. unfold imbalance.
  pose proof (counters_at n zeros b Hz). pose proof (counters_at n ones b Ho). lia.
Qed.

Lemma which_to_split_minimises_witness :
  best_split 5 (repeat 0 32) (0 :: 7 :: 3 :: 2 :: 2 :: repeat 9 27)
             (which_to_split 5 (repeat 0 32) (0 :: 7 :: 3 :: 2 :: 2 :: repeat 9 27)).
Proof.
  apply (which_to_split_minimises 5 (repeat 0 32) (0 :: 7 :: 3 :: 2 :: 2 :: repeat 9 27) 9).
  - unfold is_u32. lia.
  - exists 1. split; [lia|reflexivity].
  - unfold INT32_MAX. lia.
  - split; [reflexivity|]. apply Forall_forall. intros x Hx.
    apply repeat_spec in Hx. subst. lia.
  - split; [reflexivity|].
    repeat (apply Forall_cons; [lia|]). apply Forall_nil.
Defined.

(** The bound on the counts is what keeps the imbalances below the
    [INT32_MAX] the loop starts from: were bit 1 the only open position and
    [ones[1] - zeros[1] = INT32_MAX], no imbalance would be below the initial
    [diff] and the initial position 0 would be returned. *)
Lemma which_to_split_needs_bound :
  let mask := 4294967293 in
  let zeros := repeat 0 32 in
  let ones := 0 :: 2147483647 :: repeat 0 30 in
  which_to_split mask zeros ones = 0.
Proof. vm_compute. reflexivity. Qed.

(** * Buffers and coordinates *)

Lemma buffer_eqb_refl (b : buffer) : buffer_eqb b b = true.
Proof.
  induction b as [|x b IH]; simpl; [reflexivity|].
  rewrite IH, andb_true_r. apply Byte.byte_dec_lb. reflexivity.
Qed.

Lemma buffer_eqb_eq (a b : buffer) : buffer_eqb a b = true <-> a = b.
Proof.
  split.
  - revert b. induction a as [|x a IH]; intros [|y b]; simpl; try congruence.
    intros H. apply andb_prop in H as [Hxy Hab].
    apply Byte.byte_dec_bl in Hxy. apply IH in Hab. congruence.
  - intros ->. apply buffer_eqb_refl.
Qed.

Lemma primary_contains_same_hash pm h sm1 sh1 sm2 sh2 :
  primary_contains (mk_coordinate pm h sm1 sh1) (mk_coordinate pm h sm2 sh2) = true.
Proof.
  unfold primary_contains. simpl.
  rewrite Z.lxor_nilpotent, Z.land_0_r. reflexivity.
Qed.

(** * The disk: [put], [del] and [get] over the WAL *)

Section DiskWal.
Context {K : shard_constants}.
Variable CityHash64 : buffer -> Z.
Variable CityHash64_each : list buffer -> list Z.
Variable lower_interlace : list Z -> Z.

Local Abbreviation get := (Disk.get CityHash64).
Local Abbreviation put := (Disk.put CityHash64 CityHash64_each lower_interlace).
Local Abbreviation del := (Disk.del CityHash64).
Local Abbreviation get_coordinate := (Disk.get_coordinate CityHash64).
Local Abbreviation get_coordinate_value :=
  (Disk.get_coordinate_value CityHash64 CityHash64_each lower_interlace).

(** With the right number of attributes [put] appends one entry to the
    WAL. *)
Lemma put_appends (d : Disk.disk) (k : buffer) (val : list buffer) (ver : Z) :
  Z.of_nat (length val) + 1 = Disk.m_arity d ->
  put d k val ver
  = (SUCCESS,
     Disk.set_log d (Disk.m_log d
                     ++ [Disk.mk_log_entry (get_coordinate_value k val) k val ver])).
Proof.
  intros Harity. unfold Disk.put.
  destruct (Z.eqb_spec (Z.of_nat (length val) + 1) (Disk.m_arity d)) as [_|Hne];
    [reflexivity|contradiction].
Qed.

(** C5: [put] answers [WRONGARITY] exactly when the number of attributes
    plus one differs from the arity of the disk, and then changes nothing;
    otherwise it answers [SUCCESS] and its only effect is one more entry at the
    end of the WAL. [del] always answers [SUCCESS] with the same single
    effect. Neither touches a shard, the directory or the spare shards. *)
Theorem put_del_only_append (d : Disk.disk) (k : buffer) (val : list buffer) (ver : Z) :
  (fst (put d k val ver) = WRONGARITY <-> Z.of_nat (length val) + 1 <> Disk.m_arity d)
  /\ (Z.of_nat (length val) + 1 <> Disk.m_arity d -> put d k val ver = (WRONGARITY, d))
  /\ (Z.of_nat (length val) + 1 = Disk.m_arity d ->
      put d k val ver
      = (SUCCESS,
         Disk.set_log d (Disk.m_log d
                         ++ [Disk.mk_log_entry (get_coordinate_value k val) k val ver])))
  /\ del d k
     = (SUCCESS,
        Disk.set_log d (Disk.m_log d ++ [Disk.delete_entry (get_coordinate k) k]))
  /\ Disk.m_shards (snd (put d k val ver)) = Disk.m_shards d
  /\ Disk.m_shards (snd (del d k)) = Disk.m_shards d
  /\ Disk.m_base (snd (put d k val ver)) = Disk.m_base d
  /\ Disk.m_base (snd (del d k)) = Disk.m_base d
  /\ Disk.m_spare_shards (snd (put d k val ver)) = Disk.m_spare_shards d
  /\ Disk.m_spare_shards (snd (del d k)) = Disk.m_spare_shards d.
Proof.
  unfold Disk.put, Disk.del.
  destruct (Z.eqb_spec (Z.of_nat (length val) + 1) (Disk.m_arity d)) as [Heq|Hne]; simpl.
  - repeat split; intros; try reflexivity; try congruence; try contradiction.
  - repeat split; intros; try reflexivity; try congruence; try contradiction.
Qed.

(** The state of the loop of [get] over the WAL, told from the last entry
    that matches. *)
Lemma get_wal_loop c k log val0 ver0 :
  let '(found, wal_res, val, ver) :=
    fold_left (Disk.get_wal_step c k) log (false, NOTFOUND, val0, ver0) in
  match last_match c k log with
  | Some e =>
      found = true
      /\ (if secondary_mask (Disk.coord e) =? UINT32_MAX
          then wal_res = SUCCESS /\ val = Disk.value e /\ ver = Disk.version e
          else wal_res = NOTFOUND)
  | None => found = false /\ val = val0 /\ ver = ver0
  end.
Proof.
  unfold last_match.
  induction log as [|e log IH] using rev_ind.
  - simpl. repeat split.
  - rewrite fold_left_app, rev_app_distr. simpl.
    destruct (fold_left _ log _) as [[[found wal_res] val] ver].
    unfold Disk.get_wal_step at 1. unfold wal_matches at 1.
    destruct (primary_contains (Disk.coord e) c && buffer_eqb (Disk.key e) k) eqn:Hm.
    + destruct (secondary_mask (Disk.coord e) =? UINT32_MAX) eqn:Hs.
      * repeat split.
      * split; reflexivity.
    + exact IH.
Qed.


Lemma last_match_app_match c k log e :
  wal_matches c k e = true -> last_match c k (log ++ [e]) = Some e.
Proof.
  intros H. unfold last_match. rewrite rev_app_distr. simpl. rewrite H. reflexivity.
Qed.

(** The WAL side of [get] after [put]: when the walk of [get] over the
    shards comes back, a [get] that follows [put(k, v, ver)] with nothing in
    between returns [SUCCESS] with [v] and [ver], whatever the shards
    hold. *)
Lemma get_after_put (d : Disk.disk) (k : buffer) (v : list buffer) (ver : Z)
        (val0 : list buffer) (ver0 : Z) (shard_result : returncode * list buffer * Z) :
  Z.of_nat (length v) + 1 = Disk.m_arity d ->
  Disk.get_shards (Disk.m_shards d) (get_coordinate k) k NOTFOUND val0 ver0
  = Some shard_result ->
  fst (put d k v ver) = SUCCESS
  /\ get (snd (put d k v ver)) k val0 ver0 = Some (SUCCESS, v, ver).
Proof.
  intros Harity Hwalk.
  rewrite (put_appends d k v ver Harity). simpl. split; [reflexivity|].
  unfold Disk.get. simpl. rewrite Hwalk.
  destruct shard_result as [[shard_res val1] ver1].
  rewrite fold_left_app. simpl.
  destruct (fold_left _ (Disk.m_log d) _) as [[[found wal_res] val] ver'].
  unfold Disk.get_wal_step, Disk.get_coordinate_value, Disk.get_coordinate.
  cbn [Disk.coord Disk.key Disk.value Disk.version secondary_mask].
  rewrite primary_contains_same_hash, buffer_eqb_refl. reflexivity.
Qed.

End DiskWal.

(** * The memory of a shard *)

Lemma store_bytes_outside m a src x :
  x < a \/ a + Z.of_nat (length src) <= x -> store_bytes m a src x = m x.
Proof.
  intros H. unfold store_bytes.
  destruct (Z.leb_spec a x), (Z.ltb_spec x (a + Z.of_nat (length src))); simpl;
    try reflexivity; lia.
Qed.

Lemma store_bytes_inside m a src x :
  a <= x < a + Z.of_nat (length src) ->
  store_bytes m a src x = nth (Z.to_nat (x - a)) src Byte.x00.
Proof.
  intros H. unfold store_bytes.
  destruct (Z.leb_spec a x), (Z.ltb_spec x (a + Z.of_nat (length src))); simpl;
    try reflexivity; lia.
Qed.

Lemma load_bytes_length m a n : length (load_bytes m a n) = n.
Proof. unfold load_bytes. rewrite length_map, length_seq. reflexivity. Qed.

(** Two memories that agree on [a, a + n) load the same [n] bytes at [a]. *)
Lemma load_bytes_ext m m' a n :
  (forall x, a <= x < a + Z.of_nat n -> m' x = m x) ->
  load_bytes m' a n = load_bytes m a n.
Proof.
  intros H. unfold load_bytes. apply map_ext_in.
  intros i Hi. apply in_seq in Hi. apply H. lia.
Qed.

Lemma map_nth_seq {A : Type} (l : list A) (d : A) :
  map (fun i => nth i l d) (seq 0 (length l)) = l.
Proof.
  induction l as [|x l IH]; simpl; [reflexivity|].
  f_equal. rewrite <- seq_shift, map_map. exact IH.
Qed.

Lemma load_bytes_store_bytes m a src :
  load_bytes (store_bytes m a src) a (length src) = src.
Proof.
  unfold load_bytes.
  transitivity (map (fun i => nth i src Byte.x00) (seq 0 (length src)));
    [|apply map_nth_seq].
  apply map_ext_in. intros i Hi. apply in_seq in Hi.
  rewrite store_bytes_inside by lia.
  f_equal. lia.
Qed.

Lemma load64_ext m m' a :
  (forall x, a <= x < a + 8 -> m' x = m x) -> load64 m' a = load64 m a.
Proof. intros H. unfold load64. f_equal. apply load_bytes_ext. exact H. Qed.

Lemma load32_ext m m' a :
  (forall x, a <= x < a + 4 -> m' x = m x) -> load32 m' a = load32 m a.
Proof. intros H. unfold load32. f_equal. apply load_bytes_ext. exact H. Qed.

Lemma load64_store64 m a w : load64 (store64 m a w) a = w mod 2 ^ 64.
Proof.
  unfold load64, store64.
  pose proof (load_bytes_store_bytes m a (le_split 8 w)) as H.
  rewrite length_le_split in H. rewrite H.
  rewrite le_combine_split. reflexivity.
Qed.

Lemma load32_store32 m a w : load32 (store32 m a w) a = w mod 2 ^ 32.
Proof.
  unfold load32, store32.
  pose proof (load_bytes_store_bytes m a (le_split 4 w)) as H.
  rewrite length_le_split in H. rewrite H.
  rewrite le_combine_split. reflexivity.
Qed.

Lemma store64_outside m a w x : x < a \/ a + 8 <= x -> store64 m a w x = m x.
Proof.
  intros H. unfold store64. apply store_bytes_outside.
  rewrite length_le_split. lia.
Qed.

Lemma store32_outside m a w x : x < a \/ a + 4 <= x -> store32 m a w x = m x.
Proof.
  intros H. unfold store32. apply store_bytes_outside.
  rewrite length_le_split. lia.
Qed.

Lemma store16_outside m a w x : x < a \/ a + 2 <= x -> store16 m a w x = m x.
Proof.
  intros H. unfold store16. apply store_bytes_outside.
  rewrite length_le_split. lia.
Qed.

Lemma load64_range m a : 0 <= load64 m a < 2 ^ 64.
Proof.
  unfold load64. pose proof (le_combine_bound (load_bytes m a 8)) as H.
  rewrite load_bytes_length in H. exact H.
Qed.

Lemma load32_range m a : 0 <= load32 m a < 2 ^ 32.
Proof.
  unfold load32. pose proof (le_combine_bound (load_bytes m a 4)) as H.
  rewrite load_bytes_length in H. exact H.
Qed.

Lemma load64_zero a : load64 zero_memory a = 0.
Proof. reflexivity. Qed.

(** * Halves of table words *)

Lemma hi32_range w : 0 <= hi32 w < 2 ^ 32.
Proof. unfold hi32, u32. apply Z.mod_pos_bound. lia. Qed.

Lemma lo32_range w : 0 <= lo32 w < 2 ^ 32.
Proof. unfold lo32, u32. apply Z.mod_pos_bound. lia. Qed.

Lemma pack64_eq hi lo :
  0 <= hi < 2 ^ 32 -> 0 <= lo < 2 ^ 32 -> pack64 hi lo = hi * 2 ^ 32 + lo.
Proof.
  intros Hhi Hlo. unfold pack64, u64.
  rewrite Z.shiftl_mul_pow2 by lia.
  rewrite Z.mod_small by lia.
  rewrite <- Z.shiftl_mul_pow2 by lia.
  assert (Hdisj : Z.land (Z.shiftl hi 32) lo = 0).
  { apply Z.bits_inj'. intros n Hn. rewrite Z.land_spec, Z.bits_0.
    destruct (Z.ltb_spec n 32).
    - rewrite Z.shiftl_spec_low by lia. reflexivity.
    - destruct (Z.eq_dec lo 0) as [->|]; [rewrite Z.bits_0; apply andb_false_r|].
      rewrite (Z.bits_above_log2 lo n); [apply andb_false_r|lia|].
      apply Z.lt_le_trans with 32; [|lia]. apply Z.log2_lt_pow2; lia. }
  rewrite <- Z.lxor_lor by exact Hdisj.
  rewrite <- Z.add_nocarry_lxor by exact Hdisj.
  reflexivity.
Qed.

Lemma hi32_split hi lo :
  0 <= hi < 2 ^ 32 -> 0 <= lo < 2 ^ 32 -> hi32 (hi * 2 ^ 32 + lo) = hi.
Proof.
  intros Hhi Hlo. unfold hi32, u32.
  rewrite Z.shiftr_div_pow2 by lia.
  rewrite Z.div_add_l by lia. rewrite (Z.div_small lo) by lia.
  rewrite Z.add_0_r. apply Z.mod_small. lia.
Qed.

Lemma lo32_split hi lo :
  0 <= lo < 2 ^ 32 -> lo32 (hi * 2 ^ 32 + lo) = lo.
Proof.
  intros Hlo. unfold lo32, u32.
  rewrite Z.add_comm, Z.mod_add by lia. apply Z.mod_small. lia.
Qed.

Lemma lo32_land w : u32 (Z.land w 4294967295) = lo32 w.
Proof.
  unfold lo32, u32. change 4294967295 with (Z.ones 32).
  rewrite Z.land_ones by lia. apply Z.mod_mod. lia.
Qed.

(** [x & (HASH_OFFSET_INVALID - 1)] for the flag [1 << 31]. *)
Lemma mask_offset_low x : 0 <= x < 2 ^ 31 -> Z.land x (2 ^ 31 - 1) = x.
Proof.
  intros H. change (2 ^ 31 - 1) with (Z.ones 31).
  rewrite Z.land_ones by lia. apply Z.mod_small. lia.
Qed.

Lemma mask_offset_flagged x : 0 <= x < 2 ^ 31 -> Z.land (x + 2 ^ 31) (2 ^ 31 - 1) = x.
Proof.
  intros H. change (2 ^ 31 - 1) with (Z.ones 31).
  rewrite Z.land_ones by lia.
  replace (x + 2 ^ 31) with (x + 1 * 2 ^ 31) by lia.
  rewrite Z.mod_add by lia. apply Z.mod_small. lia.
Qed.

Lemma mask_offset_range x : 0 <= Z.land x (2 ^ 31 - 1) < 2 ^ 31.
Proof.
  change (2 ^ 31 - 1) with (Z.ones 31).
  rewrite Z.land_ones by lia. apply Z.mod_pos_bound. lia.
Qed.

(** [(x + 7) & ~7] rounds up to the next multiple of 8. *)
Lemma align8_eq x : 0 <= x -> x + 7 < 2 ^ 32 -> align8 x = 8 * ((x + 7) / 8).
Proof.
  intros H0 H1. unfold align8, u32.
  rewrite (Z.mod_small (x + 7)) by lia.
  change (Z.lnot 7 mod 2 ^ 32) with (Z.ones 32 - Z.ones 3).
  replace (Z.ones 32 - Z.ones 3) with (Z.ldiff (Z.ones 32) (Z.ones 3)).
  2:{ reflexivity. }
  rewrite Z.land_comm.
  assert (Hd : Z.land (Z.ldiff (Z.ones 32) (Z.ones 3)) (x + 7)
               = Z.ldiff (x + 7) (Z.ones 3)).
  { apply Z.bits_inj'. intros n Hn.
    rewrite Z.land_spec, !Z.ldiff_spec.
    destruct (Z.ltb_spec n 32).
    - rewrite (Z.ones_spec_low 32 n) by lia. simpl.
      rewrite andb_comm. reflexivity.
    - rewrite (Z.ones_spec_high 32 n) by lia. simpl.
      rewrite (Z.bits_above_log2 (x + 7) n); [reflexivity|lia|].
      apply Z.log2_lt_pow2; [lia|].
      apply Z.lt_le_trans with (2 ^ 32); [lia|]. apply Z.pow_le_mono_r; lia. }
  rewrite Hd.
  rewrite Z.ldiff_ones_r by lia.
  rewrite Z.shiftr_div_pow2, Z.shiftl_mul_pow2 by lia.
  change (2 ^ 3) with 8. lia.
Qed.

Lemma align8_bounds x :
  0 <= x -> x + 7 < 2 ^ 32 -> x <= align8 x < x + 8 /\ align8 x mod 8 = 0.
Proof.
  intros H0 H1. rewrite align8_eq by assumption.
  pose proof (Z.div_mod (x + 7) 8 ltac:(lia)).
  pose proof (Z.mod_pos_bound (x + 7) 8 ltac:(lia)).
  split; [lia|].
  rewrite Z.mul_comm. apply Z.mod_mul. lia.
Qed.

(** * Shards: the hash table *)

Section ShardFacts.
Context {K : shard_constants}.
Hypothesis HK : constants_ok K.

Lemma layout :
  0 < HASH_TABLE_ENTRIES /\ 0 < SEARCH_INDEX_ENTRIES
  /\ HASH_TABLE_SIZE = 8 * HASH_TABLE_ENTRIES
  /\ INDEX_SEGMENT_SIZE = 8 * HASH_TABLE_ENTRIES + 16 * SEARCH_INDEX_ENTRIES
  /\ INDEX_SEGMENT_SIZE < FILE_SIZE /\ FILE_SIZE < 2 ^ 31
  /\ FILE_SIZE mod 8 = 0 /\ HASH_OFFSET_INVALID = 2 ^ 31.
Proof.
  destruct HK. repeat split; try assumption; lia.
Qed.

Lemma key_at_true m o key :
  Shard.key_at m o key = true
  <-> Shard.data_key_size m o = size key
      /\ load_bytes m (o + 12) (length key) = key.
Proof.
  unfold Shard.key_at, Shard.data_key_offset. rewrite andb_true_iff, Z.eqb_eq, buffer_eqb_eq.
  replace (o + 8 + 4) with (o + 12) by lia.
  split; intros [Hsz Hk]; split; try assumption.
  - rewrite Hsz in Hk. unfold size in Hk. rewrite Nat2Z.id in Hk. exact Hk.
  - rewrite Hsz. unfold size. rewrite Nat2Z.id. exact Hk.
Qed.

(** What [hash_lookup] has seen when it returns the slot [e] with the word
    [w]: it started at [primary_hash mod H], passed over slots that were
    neither empty nor a match, and stopped at a match or at an empty slot. *)
Lemma hash_lookup_loop_spec m ph key start remaining : forall off e w,
  0 <= start -> 0 <= off ->
  Shard.hash_lookup_loop m ph key start remaining off = Some (e, w) ->
  exists off',
    off <= off' < off + Z.of_nat remaining
    /\ e = (start + off') mod HASH_TABLE_ENTRIES
    /\ w = Shard.m_hash_table m e
    /\ (forall o, off <= o < off' ->
          let w' := Shard.m_hash_table m ((start + o) mod HASH_TABLE_ENTRIES) in
          hi32 w' <> 0
          /\ ~ (lo32 w' = ph
                /\ Shard.key_at m (Z.land (hi32 w') (HASH_OFFSET_INVALID - 1)) key = true))
    /\ ((lo32 w = ph
         /\ Shard.key_at m (Z.land (hi32 w) (HASH_OFFSET_INVALID - 1)) key = true)
        \/ hi32 w = 0).
Proof.
  induction remaining as [|n IH]; intros off e w Hstart Hoff Hl; [discriminate|].
  cbn [Shard.hash_lookup_loop] in Hl. unfold Shard.HASH_INTO_TABLE in Hl.
  set (bucket := (start + off) mod HASH_TABLE_ENTRIES) in *.
  set (this := Shard.m_hash_table m bucket) in *.
  destruct ((lo32 this =? ph)
            && Shard.key_at m (Z.land (hi32 this) (HASH_OFFSET_INVALID - 1)) key) eqn:Hmatch.
  - inversion Hl; subst e w. exists off.
    split; [lia|]. split; [reflexivity|]. split; [reflexivity|]. split; [intros; lia|].
    left. apply andb_prop in Hmatch as [H1 H2]. apply Z.eqb_eq in H1. split; assumption.
  - destruct (Z.eqb_spec (hi32 this) 0) as [Hz|Hnz].
    + inversion Hl; subst e w. exists off.
      split; [lia|]. split; [reflexivity|]. split; [reflexivity|]. split; [intros; lia|].
      right. exact Hz.
    + apply IH in Hl; try lia.
      destruct Hl as (off' & Hrange & He & Hw & Hpassed & Hstop).
      exists off'. split; [lia|]. split; [exact He|]. split; [exact Hw|].
      split; [|exact Hstop].
      intros o Ho. destruct (Z.eq_dec o off) as [->|Hne].
      * fold bucket. fold this. cbv zeta. split; [exact Hnz|].
        intros [H1 H2].
        rewrite H2, andb_true_r in Hmatch. apply Z.eqb_neq in Hmatch. contradiction.
      * apply Hpassed. lia.
Qed.

Lemma hash_lookup_spec m ph key e w :
  Shard.hash_lookup m ph key = Some (e, w) ->
  exists off,
    0 <= off < HASH_TABLE_ENTRIES
    /\ e = (ph + off) mod HASH_TABLE_ENTRIES
    /\ 0 <= e < HASH_TABLE_ENTRIES
    /\ w = Shard.m_hash_table m e
    /\ (forall o, 0 <= o < off ->
          let w' := Shard.m_hash_table m ((ph + o) mod HASH_TABLE_ENTRIES) in
          hi32 w' <> 0
          /\ ~ (lo32 w' = ph
                /\ Shard.key_at m (Z.land (hi32 w') (HASH_OFFSET_INVALID - 1)) key = true))
    /\ ((lo32 w = ph
         /\ Shard.key_at m (Z.land (hi32 w) (HASH_OFFSET_INVALID - 1)) key = true)
        \/ hi32 w = 0).
Proof.
  destruct layout as (HH & _).
  unfold Shard.hash_lookup, Shard.HASH_INTO_TABLE. intros Hl.
  apply hash_lookup_loop_spec in Hl; try lia.
  2:{ apply Z.mod_pos_bound. lia. }
  destruct Hl as (off & Hrange & He & Hw & Hpassed & Hstop).
  rewrite Z2Nat.id in Hrange by lia.
  assert (Hmod : forall o, (ph mod HASH_TABLE_ENTRIES + o) mod HASH_TABLE_ENTRIES
                           = (ph + o) mod HASH_TABLE_ENTRIES).
  { intros o. rewrite Z.add_mod_idemp_l by lia. reflexivity. }
  exists off. rewrite Hmod in He.
  split; [lia|]. split; [exact He|].
  split; [subst e; apply Z.mod_pos_bound; lia|].
  split; [exact Hw|]. split; [|exact Hstop].
  intros o Ho. specialize (Hpassed o ltac:(lia)). rewrite Hmod in Hpassed. exact Hpassed.
Qed.

End ShardFacts.

(** * Shards: the search log *)

Section SearchLog.
Context {K : shard_constants}.
Hypothesis HK : constants_ok K.

(** The binary search either leaves the memory alone or rewrites the second
    word of one entry [mid] of the log whose offset is [to_invalidate],
    keeping that offset. It stays inside the log as long as the last entry is
    empty or not below [to_invalidate]. *)
Lemma invalidate_loop_spec m ti iw fuel : forall low high,
  0 <= low <= SEARCH_INDEX_ENTRIES - 1 -> high <= SEARCH_INDEX_ENTRIES ->
  ~ (log_offset m (SEARCH_INDEX_ENTRIES - 1) <> 0
     /\ log_offset m (SEARCH_INDEX_ENTRIES - 1) < ti) ->
  Shard.invalidate_search_log_loop m ti iw fuel low high = m
  \/ exists mid,
      0 <= mid <= SEARCH_INDEX_ENTRIES - 1
      /\ log_offset m mid = ti /\ ti <> 0
      /\ Shard.invalidate_search_log_loop m ti iw fuel low high
         = Shard.set_search_log m (2 * mid + 1) (pack64 iw ti).
Proof.
  induction fuel as [|fuel IH]; intros low high Hlow Hhigh Hlast; [left; reflexivity|].
  cbn [Shard.invalidate_search_log_loop].
  destruct (Z.leb_spec low high) as [Hle|Hgt]; [|left; reflexivity].
  rewrite Z.quot_div_nonneg by lia.
  set (mid := low + (high - low) / 2).
  assert (Hmid : low <= mid <= high /\ mid <= SEARCH_INDEX_ENTRIES - 1).
  { unfold mid. pose proof (Z.div_mod (high - low) 2 ltac:(lia)).
    pose proof (Z.mod_pos_bound (high - low) 2 ltac:(lia)). lia. }
  replace (mid * 2 + 1) with (2 * mid + 1) by lia.
  rewrite lo32_land. fold (log_offset m mid).
  destruct (Z.eqb_spec (log_offset m mid) 0) as [Hz|Hnz]; simpl.
  { apply IH; lia || assumption. }
  destruct (Z.gtb_spec (log_offset m mid) ti) as [Hg|Hng]; simpl.
  { apply IH; lia || assumption. }
  destruct (Z.ltb_spec (log_offset m mid) ti) as [Hl|Hnl].
  { apply IH; try assumption.
    assert (mid <> SEARCH_INDEX_ENTRIES - 1) by (intros E; apply Hlast; rewrite <- E; split; assumption).
    lia. }
  destruct (Z.eqb_spec (log_offset m mid) ti) as [He|Hne]; [|lia].
  right. exists mid. split; [lia|]. split; [exact He|]. split; [lia|reflexivity].
Qed.

Lemma invalidate_search_log_spec m ti iw :
  ~ (log_offset m (SEARCH_INDEX_ENTRIES - 1) <> 0
     /\ log_offset m (SEARCH_INDEX_ENTRIES - 1) < ti) ->
  Shard.invalidate_search_log m ti iw = m
  \/ exists mid,
      0 <= mid <= SEARCH_INDEX_ENTRIES - 1
      /\ log_offset m mid = ti /\ ti <> 0
      /\ Shard.invalidate_search_log m ti iw
         = Shard.set_search_log m (2 * mid + 1) (pack64 iw ti).
Proof.
  destruct (layout HK) as (_ & HS & _).
  intros Hlast. unfold Shard.invalidate_search_log.
  apply invalidate_loop_spec; try assumption; lia.
Qed.

(** The fuel of the binary search is enough: every turn that goes on
    narrows [high - low], so more fuel does not change the result. *)
Lemma invalidate_loop_fuel m ti iw : forall fuel fuel' low high,
  (Z.to_nat (high - low + 1) <= fuel)%nat -> (Z.to_nat (high - low + 1) <= fuel')%nat ->
  Shard.invalidate_search_log_loop m ti iw fuel low high
  = Shard.invalidate_search_log_loop m ti iw fuel' low high.
Proof.
  induction fuel as [|fuel IH]; intros fuel' low high Hf Hf'.
  - assert (high < low) by lia.
    destruct fuel'; cbn [Shard.invalidate_search_log_loop]; [reflexivity|].
    destruct (Z.leb_spec low high); [lia|reflexivity].
  - destruct fuel' as [|fuel'].
    + assert (high < low) by lia. cbn [Shard.invalidate_search_log_loop].
      destruct (Z.leb_spec low high); [lia|reflexivity].
    + cbn [Shard.invalidate_search_log_loop].
      destruct (Z.leb_spec low high) as [Hle|Hgt]; [|reflexivity].
      rewrite Z.quot_div_nonneg by lia.
      set (mid := low + (high - low) / 2).
      assert (Hmid : low <= mid <= high).
      { unfold mid. pose proof (Z.div_mod (high - low) 2 ltac:(lia)).
        pose proof (Z.mod_pos_bound (high - low) 2 ltac:(lia)). lia. }
      set (mo := u32 (Z.land (Shard.m_search_log m (mid * 2 + 1)) 4294967295)).
      destruct (Z.eqb_spec mo 0); simpl; [apply IH; lia|].
      destruct (Z.gtb_spec mo ti); simpl; [apply IH; lia|].
      destruct (Z.ltb_spec mo ti); [apply IH; lia|].
      destruct (Z.eqb_spec mo ti); [reflexivity|lia].
Qed.

End SearchLog.

(** * Shards: what [put] writes *)

Lemma size_nonneg (b : buffer) : 0 <= size b.
Proof. unfold size. lia. Qed.

Lemma attrs_size_nonneg value : 0 <= attrs_size value.
Proof.
  induction value as [|v value IH]; unfold attrs_size; cbn [fold_right]; [lia|].
  fold (attrs_size value). pose proof (size_nonneg v). lia.
Qed.

Section Records.
Context {K : shard_constants}.

Lemma data_size_eq key value :
  Shard.data_size key value = 14 + size key + attrs_size value.
Proof.
  unfold Shard.data_size.
  assert (H : forall l a, fold_left (fun h v => h + size v) l a
                          = a - 4 * Z.of_nat (length l) + attrs_size l).
  { induction l as [|v l IH]; intros a; unfold attrs_size; cbn [fold_left fold_right length].
    - lia.
    - fold (attrs_size l). rewrite IH. lia. }
  rewrite H. lia.
Qed.

Lemma pack_value_spec value : forall m c,
  0 <= c -> c + attrs_size value < 2 ^ 32 ->
  snd (Shard.pack_value m c value) = c + attrs_size value
  /\ forall x, x < c \/ c + attrs_size value <= x ->
               fst (Shard.pack_value m c value) x = m x.
Proof.
  induction value as [|v value IH]; intros m c Hc Hfit;
    unfold attrs_size in *; cbn [fold_right Shard.pack_value fst snd] in *.
  - split; [lia|reflexivity].
  - fold (attrs_size value) in *. pose proof (size_nonneg v). pose proof (attrs_size_nonneg value).
    rewrite (u32_small (c + 4)) by (unfold is_u32; lia).
    rewrite (u32_small (c + 4 + size v)) by (unfold is_u32; lia).
    destruct (IH (store_bytes (store32 m c (u32 (size v))) (c + 4) v) (c + 4 + size v)
                 ltac:(lia) ltac:(lia)) as [Hc' Hm'].
    split; [lia|].
    intros x Hx. rewrite Hm' by lia.
    rewrite store_bytes_outside by (fold (size v); lia).
    apply store32_outside. lia.
Qed.

Lemma written_record_spec m offset key value version :
  0 <= offset -> offset + Shard.data_size key value < 2 ^ 32 ->
  snd (written_record m offset key value version) = offset + Shard.data_size key value
  /\ (forall x, x < offset \/ offset + Shard.data_size key value <= x ->
                fst (written_record m offset key value version) x = m x)
  /\ load32 (fst (written_record m offset key value version)) (offset + 8) = size key
  /\ load_bytes (fst (written_record m offset key value version)) (offset + 12) (length key)
     = key.
Proof.
  intros Hoff Hfit. rewrite data_size_eq in *.
  pose proof (size_nonneg key). pose proof (attrs_size_nonneg value).
  unfold written_record.
  rewrite (u32_small (offset + 8)) by (unfold is_u32; lia).
  rewrite (u32_small (offset + 8 + 4)) by (unfold is_u32; lia).
  rewrite (u32_small (offset + 8 + 4 + size key)) by (unfold is_u32; lia).
  rewrite (u32_small (offset + 8 + 4 + size key + 2)) by (unfold is_u32; lia).
  rewrite (u32_small (size key)) by (unfold is_u32; lia).
  set (m1 := store64 m offset version).
  set (m2 := store32 m1 (offset + 8) (size key)).
  set (m3 := store_bytes m2 (offset + 8 + 4) key).
  set (m4 := store16 m3 (offset + 8 + 4 + size key) (u16 (Z.of_nat (length value)))).
  destruct (pack_value_spec value m4 (offset + 8 + 4 + size key + 2) ltac:(lia) ltac:(lia))
    as [Hc Hm].
  assert (H4 : forall x, x < offset + 8 + 4 + size key -> m4 x = m3 x).
  { intros x Hx. unfold m4. apply store16_outside. lia. }
  split; [lia|]. split; [|split].
  - intros x Hx. rewrite Hm by lia. unfold m4, m3, m2, m1.
    rewrite store16_outside by lia.
    rewrite store_bytes_outside by (fold (size key); lia).
    rewrite store32_outside by lia.
    apply store64_outside. lia.
  - transitivity (load32 m2 (offset + 8)).
    + apply load32_ext. intros x Hx. rewrite Hm, H4 by lia.
      unfold m3. apply store_bytes_outside. lia.
    + unfold m2. rewrite load32_store32. apply Z.mod_small. lia.
  - transitivity (load_bytes m3 (offset + 12) (length key)).
    + apply load_bytes_ext. intros x Hx. fold (size key) in Hx.
      rewrite Hm, H4 by lia. reflexivity.
    + unfold m3. replace (offset + 8 + 4) with (offset + 12) by lia.
      apply load_bytes_store_bytes.
Qed.

End Records.

(** * Shards: the tables are apart from each other and from the data *)

Section Frames.
Context {K : shard_constants}.
Hypothesis HK : constants_ok K.

Lemma set_search_log_hash m i w b :
  0 <= i -> 0 <= b < HASH_TABLE_ENTRIES ->
  Shard.m_hash_table (Shard.set_search_log m i w) b = Shard.m_hash_table m b.
Proof.
  destruct (layout HK) as (HH & HS & HT & _).
  intros Hi Hb. unfold Shard.m_hash_table, Shard.set_search_log.
  apply load64_ext. intros x Hx. apply store64_outside. lia.
Qed.

Lemma set_search_log_same m i w :
  Shard.m_search_log (Shard.set_search_log m i w) i = w mod 2 ^ 64.
Proof. unfold Shard.m_search_log, Shard.set_search_log. apply load64_store64. Qed.

Lemma set_search_log_other m i w i' :
  i <> i' -> Shard.m_search_log (Shard.set_search_log m i w) i' = Shard.m_search_log m i'.
Proof.
  intros Hne. unfold Shard.m_search_log, Shard.set_search_log.
  apply load64_ext. intros x Hx. apply store64_outside. lia.
Qed.

Lemma set_search_log_data m i w x :
  0 <= i < 2 * SEARCH_INDEX_ENTRIES -> INDEX_SEGMENT_SIZE <= x ->
  Shard.set_search_log m i w x = m x.
Proof.
  destruct (layout HK) as (HH & HS & HT & HI & _).
  intros Hi Hx. unfold Shard.set_search_log. apply store64_outside. lia.
Qed.

Lemma set_hash_table_same m e w :
  Shard.m_hash_table (Shard.set_hash_table m e w) e = w mod 2 ^ 64.
Proof. unfold Shard.m_hash_table, Shard.set_hash_table. apply load64_store64. Qed.

Lemma set_hash_table_other m e w b :
  b <> e -> Shard.m_hash_table (Shard.set_hash_table m e w) b = Shard.m_hash_table m b.
Proof.
  intros Hne. unfold Shard.m_hash_table, Shard.set_hash_table.
  apply load64_ext. intros x Hx. apply store64_outside. lia.
Qed.

Lemma set_hash_table_log m e w i :
  0 <= e < HASH_TABLE_ENTRIES -> 0 <= i ->
  Shard.m_search_log (Shard.set_hash_table m e w) i = Shard.m_search_log m i.
Proof.
  destruct (layout HK) as (HH & HS & HT & _).
  intros He Hi. unfold Shard.m_search_log, Shard.set_hash_table.
  apply load64_ext. intros x Hx. apply store64_outside. lia.
Qed.

Lemma set_hash_table_data m e w x :
  0 <= e < HASH_TABLE_ENTRIES -> INDEX_SEGMENT_SIZE <= x ->
  Shard.set_hash_table m e w x = m x.
Proof.
  destruct (layout HK) as (HH & HS & HT & HI & _).
  intros He Hx. unfold Shard.set_hash_table. apply store64_outside. lia.
Qed.

(** Memories that agree below the data segment have the same tables. *)
Lemma same_index_hash m m' b :
  (forall x, x < INDEX_SEGMENT_SIZE -> m' x = m x) ->
  0 <= b < HASH_TABLE_ENTRIES ->
  Shard.m_hash_table m' b = Shard.m_hash_table m b.
Proof.
  destruct (layout HK) as (HH & HS & HT & HI & _).
  intros Hsame Hb. unfold Shard.m_hash_table.
  apply load64_ext. intros x Hx. apply Hsame. lia.
Qed.

Lemma same_index_log m m' i :
  (forall x, x < INDEX_SEGMENT_SIZE -> m' x = m x) ->
  0 <= i < 2 * SEARCH_INDEX_ENTRIES ->
  Shard.m_search_log m' i = Shard.m_search_log m i.
Proof.
  destruct (layout HK) as (HH & HS & HT & HI & _).
  intros Hsame Hi. unfold Shard.m_search_log.
  apply load64_ext. intros x Hx. apply Hsame. lia.
Qed.

Lemma log_offset_range m j : 0 <= log_offset m j < 2 ^ 32.
Proof. apply lo32_range. Qed.

(** [invalidate_search_log] changes neither the hash table, nor the data
    segment, nor the offset of any entry of the log. *)
Lemma invalidate_search_log_frame m ti iw :
  0 <= iw < 2 ^ 32 ->
  ~ (log_offset m (SEARCH_INDEX_ENTRIES - 1) <> 0
     /\ log_offset m (SEARCH_INDEX_ENTRIES - 1) < ti) ->
  let m' := Shard.invalidate_search_log m ti iw in
  (forall b, 0 <= b < HASH_TABLE_ENTRIES -> Shard.m_hash_table m' b = Shard.m_hash_table m b)
  /\ (forall x, INDEX_SEGMENT_SIZE <= x -> m' x = m x)
  /\ (forall j, log_offset m' j = log_offset m j).
Proof.
  intros Hiw Hlast m'.
  destruct (invalidate_search_log_spec HK m ti iw Hlast) as [Hsame|(mid & Hmid & Hoff & Hnz & Hset)];
    subst m'.
  - rewrite Hsame. repeat split.
  - rewrite Hset. split; [|split].
    + intros b Hb. apply set_search_log_hash; lia.
    + intros x Hx. apply set_search_log_data; lia.
    + intros j. unfold log_offset.
      destruct (Z.eq_dec j mid) as [->|Hne].
      * rewrite set_search_log_same. fold (log_offset m mid). rewrite Hoff.
        pose proof (log_offset_range m mid) as Hr. rewrite Hoff in Hr.
        rewrite pack64_eq by lia.
        rewrite Z.mod_small by lia.
        apply lo32_split. lia.
      * rewrite set_search_log_other by lia. reflexivity.
Qed.

End Frames.

(** * Shards: the effect of [put] and [del] *)

Section PutDel.
Context {K : shard_constants}.
Hypothesis HK : constants_ok K.

Local Abbreviation mdo := Shard.m_data_offset.
Local Abbreviation mso := Shard.m_search_offset.
Local Abbreviation mem := Shard.m_data.

Lemma put_result s ph sh key value version rc s' f :
  shard_inv s -> is_u32 ph ->
  Shard.put s ph sh key value version = Some (rc, s', f) ->
  (rc <> SUCCESS /\ s' = s /\ f = false)
  \/ (rc = SUCCESS
      /\ exists e w, Shard.hash_lookup (mem s) ph key = Some (e, w)
                     /\ put_effect s ph key value s' f e).
Proof.
  destruct (layout HK) as (HH & HS & HT & HI & HF & HF31 & HF8 & HINV).
  intros Hinv Hph Hput. destruct Hinv as [Hmdo Hmso _ _ _ Htail _].
  unfold Shard.put in Hput.
  destruct (Z.gtb_spec (Shard.data_size key value + mdo s) FILE_SIZE) as [|Hfit].
  { inversion Hput; subst. left. repeat split. discriminate. }
  destruct (Z.eqb_spec (mso s) SEARCH_INDEX_ENTRIES) as [|Hroom].
  { inversion Hput; subst. left. repeat split. discriminate. }
  destruct (Shard.hash_lookup (mem s) ph key) as [[e w]|] eqn:Hl; [|discriminate].
  right.
  destruct (hash_lookup_spec HK _ _ _ _ _ Hl) as (_ & _ & _ & He & _).
  pose proof (written_record_spec (mem s) (mdo s) key value version
                                  ltac:(lia) ltac:(lia)) as Hrec.
  unfold written_record in Hrec. cbv zeta in Hrec, Hput.
  destruct (Shard.pack_value _ _ value) as [m5 c5].
  cbn [fst snd] in Hrec. destruct Hrec as (Hc5 & Hm5 & Hksz & Hkey).
  set (m6 := if hi32 w <? HASH_OFFSET_INVALID
             then Shard.invalidate_search_log m5 (hi32 w) (mdo s) else m5) in *.
  assert (Hlog5 : forall j, 0 <= j < SEARCH_INDEX_ENTRIES ->
                            log_offset m5 j = log_offset (mem s) j).
  { intros j Hj. unfold log_offset. f_equal.
    apply (same_index_log HK); [|lia]. intros x Hx. apply Hm5. lia. }
  assert (H6 : (forall b, 0 <= b < HASH_TABLE_ENTRIES ->
                          Shard.m_hash_table m6 b = Shard.m_hash_table m5 b)
               /\ (forall x, INDEX_SEGMENT_SIZE <= x -> m6 x = m5 x)
               /\ (forall j, log_offset m6 j = log_offset m5 j)).
  { unfold m6. destruct (hi32 w <? HASH_OFFSET_INVALID); [|repeat split].
    apply (invalidate_search_log_frame HK); [lia|].
    rewrite Hlog5 by lia. rewrite Htail by lia. lia. }
  destruct H6 as (H6h & H6d & H6l).
  set (m7 := Shard.set_search_log m6 (mso s * 2) (pack64 sh ph)) in *.
  set (m8 := Shard.set_search_log m7 (mso s * 2 + 1) (u64 (mdo s))) in *.
  set (m9 := Shard.set_hash_table m8 e (pack64 (mdo s) ph)) in *.
  assert (Hdata : forall x, INDEX_SEGMENT_SIZE <= x -> m9 x = m5 x).
  { intros x Hx. unfold m9, m8, m7.
    rewrite (set_hash_table_data HK) by lia.
    rewrite !(set_search_log_data HK) by lia.
    apply H6d. exact Hx. }
  inversion Hput; subst rc s' f. clear Hput.
  split; [reflexivity|]. exists e, w. split; [reflexivity|].
  unfold put_effect, slot_word. cbn [Shard.m_data Shard.m_data_offset Shard.m_search_offset].
  fold m9.
  rewrite (u32_small (mso s + 1)) by (unfold is_u32; lia).
  split; [lia|]. split; [lia|]. split; [rewrite Hc5; reflexivity|]. split; [reflexivity|].
  assert (Hnew : Shard.m_search_log m9 (2 * mso s + 1) = mdo s).
  { unfold m9. rewrite (set_hash_table_log HK) by lia.
    unfold m8. replace (2 * mso s + 1) with (mso s * 2 + 1) by lia.
    rewrite set_search_log_same. unfold u64. rewrite Z.mod_mod by lia.
    apply Z.mod_small. lia. }
  split; [|split; [|split; [|split; [|split; [|split; [|split]]]]]].
  - intros x Hx. rewrite Hdata by lia. apply Hm5. lia.
  - intros b Hb Hne. unfold m9, m8, m7.
    rewrite set_hash_table_other by exact Hne.
    rewrite !(set_search_log_hash HK) by lia.
    rewrite H6h by lia.
    apply (same_index_hash HK); [|lia]. intros x Hx. apply Hm5. lia.
  - unfold m9. rewrite set_hash_table_same.
    unfold is_u32 in Hph. rewrite pack64_eq by lia.
    apply Z.mod_small. lia.
  - unfold Shard.data_key_size. rewrite <- Hksz.
    apply load32_ext. intros x Hx. apply Hdata. lia.
  - rewrite <- Hkey at 2.
    apply load_bytes_ext. intros x Hx. apply Hdata. lia.
  - intros j Hj. unfold log_offset at 1. unfold m9.
    rewrite (set_hash_table_log HK) by lia.
    destruct (Z.eqb_spec j (mso s)) as [->|Hne].
    + unfold m8. replace (2 * mso s + 1) with (mso s * 2 + 1) by lia.
      rewrite set_search_log_same. unfold u64. rewrite Z.mod_mod by lia.
      rewrite Z.mod_small by lia. unfold lo32. apply u32_small. unfold is_u32. lia.
    + unfold m8, m7. rewrite !set_search_log_other by lia.
      fold (log_offset m6 j). rewrite H6l. apply Hlog5. exact Hj.
  - reflexivity.
  - exact Hnew.
Qed.

(** [put] succeeds when the record fits, the log has room and
    [hash_lookup] comes back. *)
Lemma put_succeeds s ph sh key value version e w :
  Shard.data_size key value + mdo s <= FILE_SIZE ->
  mso s <> SEARCH_INDEX_ENTRIES ->
  Shard.hash_lookup (mem s) ph key = Some (e, w) ->
  exists s' f, Shard.put s ph sh key value version = Some (SUCCESS, s', f).
Proof.
  intros Hfit Hroom Hl. unfold Shard.put.
  destruct (Z.gtb_spec (Shard.data_size key value + mdo s) FILE_SIZE); [lia|].
  destruct (Z.eqb_spec (mso s) SEARCH_INDEX_ENTRIES); [contradiction|].
  rewrite Hl. cbv zeta. destruct (Shard.pack_value _ _ value) as [m5 c5].
  eexists. eexists. reflexivity.
Qed.

Lemma lor_flag x : 0 <= x < 2 ^ 31 -> Z.lor x (2 ^ 31) = x + 2 ^ 31.
Proof.
  intros Hx.
  assert (Hdisj : Z.land x (2 ^ 31) = 0).
  { apply Z.eqb_eq. rewrite land_pow2_testbit by lia.
    destruct (Z.eq_dec x 0) as [->|]; [reflexivity|].
    rewrite Z.bits_above_log2; [reflexivity|lia|].
    apply Z.log2_lt_pow2; lia. }
  rewrite <- Z.lxor_lor by exact Hdisj.
  rewrite <- Z.add_nocarry_lxor by exact Hdisj. reflexivity.
Qed.

Lemma u64_shift32 x : 0 <= x < 2 ^ 32 -> u64 (Z.shiftl x 32) = Z.shiftl x 32.
Proof.
  intros Hx. unfold u64. rewrite Z.shiftl_mul_pow2 by lia. apply Z.mod_small. lia.
Qed.

Lemma tombstone_word t ph :
  0 <= t < 2 ^ 31 -> 0 <= ph < 2 ^ 32 ->
  Z.lor (Z.lor (u64 (Z.shiftl t 32)) (u64 (Z.shiftl (2 ^ 31) 32))) ph
  = (t + 2 ^ 31) * 2 ^ 32 + ph.
Proof.
  intros Ht Hph.
  rewrite !u64_shift32 by lia.
  rewrite <- Z.shiftl_lor, lor_flag by lia.
  rewrite <- (u64_shift32 (t + 2 ^ 31)) by lia.
  apply (pack64_eq (t + 2 ^ 31) ph); lia.
Qed.

Lemma del_result s ph key rc s' :
  shard_inv s -> is_u32 ph ->
  Shard.del s ph key = Some (rc, s') ->
  (rc <> SUCCESS /\ s' = s)
  \/ (rc = SUCCESS
      /\ exists e w, Shard.hash_lookup (mem s) ph key = Some (e, w)
                     /\ del_effect s ph s' e w).
Proof.
  destruct (layout HK) as (HH & HS & HT & HI & HF & HF31 & HF8 & HINV).
  intros Hinv Hph Hdel. destruct Hinv as [Hmdo Hmso _ _ _ Htail Hlast].
  unfold Shard.del in Hdel.
  destruct (Shard.hash_lookup (mem s) ph key) as [[e w]|] eqn:Hl; [|discriminate].
  destruct (hash_lookup_spec HK _ _ _ _ _ Hl) as (_ & _ & _ & He & Hw & _).
  destruct (Z.eqb_spec (hi32 w) 0) as [|Hnz]; cbn [orb] in Hdel.
  { inversion Hdel; subst. left. split; [discriminate|reflexivity]. }
  destruct (Z.geb_spec (hi32 w) HASH_OFFSET_INVALID) as [|Hvalid].
  { inversion Hdel; subst. left. split; [discriminate|reflexivity]. }
  destruct (Z.gtb_spec (mdo s + 8) FILE_SIZE) as [|Hfit].
  { inversion Hdel; subst. left. split; [discriminate|reflexivity]. }
  right.
  remember (Z.lor (Z.lor (u64 (Z.shiftl (hi32 w) 32))
                         (u64 (Z.shiftl HASH_OFFSET_INVALID 32))) ph) as word eqn:Hword.
  injection Hdel as Hrc Hs'. subst rc s' word. rewrite HINV in Hvalid.
  split; [reflexivity|]. exists e, w. split; [reflexivity|].
  pose proof (hi32_range w) as Hhi.
  assert (Hassigned : assigned s e) by (unfold assigned, slot_word; rewrite <- Hw; exact Hnz).
  destruct (Hlast e He Hassigned) as [Hpos Hdom].
  assert (Hoff : slot_offset s e = hi32 w).
  { unfold slot_offset, slot_word. rewrite <- Hw, HINV. apply mask_offset_low. lia. }
  rewrite Hoff in Hdom.
  destruct (invalidate_search_log_frame HK (mem s) (hi32 w) (mdo s) ltac:(lia))
    as (H6h & H6d & H6l).
  { destruct (Z.eq_dec (mso s) SEARCH_INDEX_ENTRIES) as [Hfull|Hroom].
    - rewrite <- Hfull. lia.
    - rewrite Htail by lia. lia. }
  set (m6 := Shard.invalidate_search_log (mem s) (hi32 w) (mdo s)) in *.
  unfold del_effect, slot_word. cbn [Shard.m_data Shard.m_data_offset Shard.m_search_offset].
  rewrite (u32_small (mdo s + 8)) by (unfold is_u32; lia).
  split; [exact Hnz|]. split; [lia|]. split; [lia|]. split; [reflexivity|].
  split; [reflexivity|]. split; [|split; [|split]].
  - intros x Hx. rewrite (set_hash_table_data HK) by lia. apply H6d. exact Hx.
  - intros b Hb Hne. rewrite set_hash_table_other by exact Hne. apply H6h. exact Hb.
  - rewrite set_hash_table_same, HINV. unfold is_u32 in Hph.
    rewrite tombstone_word by lia. apply Z.mod_small. lia.
  - intros j Hj. unfold log_offset. rewrite (set_hash_table_log HK) by lia.
    apply H6l.
Qed.

End PutDel.

(** * Shards: slots keep their pair *)

Section Slots.
Context {K : shard_constants}.
Hypothesis HK : constants_ok K.

Local Abbreviation mdo := Shard.m_data_offset.
Local Abbreviation mso := Shard.m_search_offset.
Local Abbreviation mem := Shard.m_data.

Lemma slot_offset_range s b : 0 <= slot_offset s b < 2 ^ 31.
Proof.
  destruct (layout HK) as (_ & _ & _ & _ & _ & _ & _ & HINV).
  unfold slot_offset. rewrite HINV. apply mask_offset_range.
Qed.

Lemma data_key_size_range m o : 0 <= Shard.data_key_size m o < 2 ^ 32.
Proof. apply load32_range. Qed.

(** A slot whose word is [o * 2^32 + h], with or without the tombstone
    flag on [o]. *)
Lemma slot_of_word s b o h :
  0 < o < 2 ^ 31 -> 0 <= h < 2 ^ 32 ->
  slot_word s b = o * 2 ^ 32 + h \/ slot_word s b = (o + 2 ^ 31) * 2 ^ 32 + h ->
  assigned s b /\ slot_hash s b = h /\ slot_offset s b = o.
Proof.
  destruct (layout HK) as (_ & _ & _ & _ & _ & _ & _ & HINV).
  intros Ho Hh Hw. unfold assigned, slot_hash, slot_offset. rewrite HINV.
  destruct Hw as [-> | ->].
  - rewrite hi32_split, lo32_split by lia.
    rewrite mask_offset_low by lia. repeat split; lia.
  - rewrite hi32_split, lo32_split by lia.
    rewrite mask_offset_flagged by lia. repeat split; lia.
Qed.

(** The key of a record is read the same from two memories that agree on
    the record. *)
Lemma record_kept (m m' : memory) o lim :
  0 <= o < 2 ^ 31 ->
  o + 12 + Shard.data_key_size m o <= lim ->
  (forall x, o <= x < lim -> m' x = m x) ->
  Shard.data_key_size m' o = Shard.data_key_size m o
  /\ Shard.data_key m' o (Shard.data_key_size m' o)
     = Shard.data_key m o (Shard.data_key_size m o).
Proof.
  intros Ho Hlim Hsame.
  pose proof (data_key_size_range m o) as Hk.
  assert (Hsz : Shard.data_key_size m' o = Shard.data_key_size m o).
  { unfold Shard.data_key_size. apply load32_ext. intros x Hx. apply Hsame. lia. }
  split; [exact Hsz|]. rewrite Hsz. unfold Shard.data_key.
  rewrite u32_small by (unfold is_u32; lia).
  apply load_bytes_ext. intros x Hx. rewrite Z2Nat.id in Hx by lia. apply Hsame. lia.
Qed.

(** A slot holds the pair [(ph, key)] exactly when [hash_lookup] takes it
    for a match. *)
Lemma holds_pair s b ph key :
  slot_pair s b = (ph, key)
  <-> slot_hash s b = ph /\ Shard.key_at (mem s) (slot_offset s b) key = true.
Proof.
  pose proof (slot_offset_range s b) as Ho.
  pose proof (data_key_size_range (mem s) (slot_offset s b)) as Hk.
  unfold slot_pair, slot_key, Shard.data_key.
  rewrite u32_small by (unfold is_u32; lia).
  replace (slot_offset s b + 8 + 4) with (slot_offset s b + 12) by lia.
  rewrite key_at_true. split.
  - intros Hp. apply pair_equal_spec in Hp as [Hh Hkey]. split; [exact Hh|].
    assert (Hlen : Shard.data_key_size (mem s) (slot_offset s b) = size key).
    { apply (f_equal (@length byte)) in Hkey. rewrite load_bytes_length in Hkey.
      unfold size. lia. }
    split; [exact Hlen|]. rewrite Hlen in Hkey. unfold size in Hkey.
    rewrite Nat2Z.id in Hkey. exact Hkey.
  - intros (Hh & Hlen & Hkey). rewrite Hh, Hlen. unfold size. rewrite Nat2Z.id, Hkey.
    reflexivity.
Qed.

Lemma probe_offset ph off :
  0 <= off < HASH_TABLE_ENTRIES ->
  ((ph + off) mod HASH_TABLE_ENTRIES - ph) mod HASH_TABLE_ENTRIES = off.
Proof.
  intros Hoff. rewrite Zminus_mod_idemp_l.
  replace (ph + off - ph) with off by lia. apply Z.mod_small. lia.
Qed.

Lemma probe_reaches ph b :
  0 <= b < HASH_TABLE_ENTRIES ->
  (ph + (b - ph) mod HASH_TABLE_ENTRIES) mod HASH_TABLE_ENTRIES = b.
Proof.
  intros Hb. rewrite Zplus_mod_idemp_r.
  replace (ph + (b - ph)) with b by lia. apply Z.mod_small. lia.
Qed.

(** When [hash_lookup] stops at an empty slot, no slot holds the pair it
    was looking for. *)
Lemma lookup_empty_no_holder s ph key e w b :
  shard_inv s ->
  Shard.hash_lookup (mem s) ph key = Some (e, w) -> hi32 w = 0 ->
  0 <= b < HASH_TABLE_ENTRIES -> assigned s b -> slot_pair s b = (ph, key) -> False.
Proof.
  destruct (layout HK) as (HH & _).
  intros Hinv Hl Hempty Hb Hassigned Hpair.
  destruct (hash_lookup_spec HK _ _ _ _ _ Hl) as (off & Hoff & He & Hrange & Hw & Hpassed & _).
  apply holds_pair in Hpair as [Hhash Hkey].
  pose proof (inv_chain s Hinv b Hb Hassigned) as Hchain. rewrite Hhash in Hchain.
  set (d := (b - ph) mod HASH_TABLE_ENTRIES) in *.
  assert (Hd : 0 <= d < HASH_TABLE_ENTRIES) by (apply Z.mod_pos_bound; lia).
  assert (Hbd : (ph + d) mod HASH_TABLE_ENTRIES = b) by (apply probe_reaches; exact Hb).
  destruct (Z.lt_trichotomy off d) as [Hlt|[Heq|Hgt]].
  - specialize (Hchain off ltac:(lia)). rewrite <- He in Hchain.
    unfold assigned, slot_word in Hchain. rewrite <- Hw in Hchain. contradiction.
  - subst off. rewrite Hbd in He. subst e.
    unfold assigned, slot_word in Hassigned. rewrite <- Hw in Hassigned. contradiction.
  - destruct (Hpassed d ltac:(lia)) as [_ Hnomatch]. rewrite Hbd in Hnomatch.
    apply Hnomatch. split; [exact Hhash|exact Hkey].
Qed.

(** The slots as [put] leaves them. *)
Lemma put_slots s ph key value s' f e w :
  shard_inv s -> is_u32 ph ->
  Shard.hash_lookup (mem s) ph key = Some (e, w) ->
  put_effect s ph key value s' f e ->
  (assigned s' e /\ slot_hash s' e = ph /\ slot_offset s' e = mdo s
   /\ slot_pair s' e = (ph, key))
  /\ (forall b, 0 <= b < HASH_TABLE_ENTRIES -> b <> e ->
        (assigned s' b <-> assigned s b)
        /\ slot_hash s' b = slot_hash s b
        /\ slot_offset s' b = slot_offset s b
        /\ (assigned s b ->
            Shard.data_key_size (mem s') (slot_offset s b)
            = Shard.data_key_size (mem s) (slot_offset s b)
            /\ slot_pair s' b = slot_pair s b))
  /\ (assigned s e -> slot_pair s e = (ph, key)).
Proof.
  destruct (layout HK) as (HH & HS & HT & HI & HF & HF31 & HF8 & HINV).
  intros Hinv Hph Hl Heff.
  destruct Heff as (Hfit & Hroom & Hmdo' & Hmso' & Hdata & Hother & Hword & Hksz & Hkey & _).
  pose proof (inv_data_offset s Hinv) as Hmdo.
  destruct (hash_lookup_spec HK _ _ _ _ _ Hl) as (off & Hoff & He & Hrange & Hw & Hpassed & Hstop).
  unfold is_u32 in Hph.
  destruct (slot_of_word s' e (mdo s) ph ltac:(lia) ltac:(lia) (or_introl Hword))
    as (Ha & Hh & Ho).
  split; [|split].
  - split; [exact Ha|]. split; [exact Hh|]. split; [exact Ho|].
    apply holds_pair. split; [exact Hh|]. rewrite Ho. apply key_at_true.
    split; assumption.
  - intros b Hb Hne. specialize (Hother b Hb Hne).
    unfold assigned, slot_hash, slot_offset. rewrite Hother.
    split; [reflexivity|]. split; [reflexivity|]. split; [reflexivity|].
    intros Hab. fold (slot_offset s b).
    destruct (inv_record s Hinv b Hb Hab) as [Hlo Hhi].
    pose proof (slot_offset_range s b) as Hr.
    destruct (record_kept (mem s) (mem s') (slot_offset s b) (mdo s) Hr Hhi) as [Hsz Hk].
    { intros x Hx. apply Hdata. lia. }
    split; [exact Hsz|].
    unfold slot_pair, slot_hash, slot_key, slot_offset. rewrite Hother.
    fold (slot_offset s b). rewrite Hk. reflexivity.
  - intros Hae. unfold assigned, slot_word in Hae. rewrite <- Hw in Hae.
    destruct Hstop as [[Hh' Hk']|Hz]; [|contradiction].
    apply holds_pair. unfold slot_hash, slot_offset, slot_word. rewrite <- Hw.
    split; assumption.
Qed.

Lemma align8_le_file x :
  0 <= x <= FILE_SIZE -> x <= align8 x <= FILE_SIZE.
Proof.
  destruct (layout HK) as (HH & HS & HT & HI & HF & HF31 & HF8 & HINV).
  intros Hx. rewrite align8_eq by lia.
  pose proof (Z.div_mod (x + 7) 8 ltac:(lia)).
  pose proof (Z.mod_pos_bound (x + 7) 8 ltac:(lia)).
  pose proof (Z.div_mod FILE_SIZE 8 ltac:(lia)).
  assert ((x + 7) / 8 < FILE_SIZE / 8 + 1).
  { apply Z.div_lt_upper_bound; lia. }
  lia.
Qed.

(** [put] keeps the invariant and the pair of every assigned slot. *)
Lemma put_preserves s ph sh key value version rc s' f :
  shard_inv s -> is_u32 ph ->
  Shard.put s ph sh key value version = Some (rc, s', f) ->
  shard_inv s' /\ keeps_slots s s'.
Proof.
  destruct (layout HK) as (HH & HS & HT & HI & HF & HF31 & HF8 & HINV).
  intros Hinv Hph Hput.
  destruct (put_result HK _ _ _ _ _ _ _ _ _ Hinv Hph Hput)
    as [(_ & -> & _)|(_ & e & w & Hl & Heff)].
  { split; [exact Hinv|]. intros b Hb Hab. split; [exact Hab|reflexivity]. }
  destruct (put_slots _ _ _ _ _ _ _ _ Hinv Hph Hl Heff)
    as ((Hae & Hhe & Hoe & Hpe) & Hothers & Hold).
  destruct (hash_lookup_spec HK _ _ _ _ _ Hl) as (off & Hoff & He & Hrange & Hw & Hpassed & Hstop).
  destruct Heff as (Hfit & Hroom & Hmdo' & Hmso' & Hdata & Hother & Hword & Hksz & Hkey & Hlog & _).
  pose proof (inv_data_offset s Hinv) as Hmdo.
  pose proof (inv_search_offset s Hinv) as Hmso.
  pose proof (size_nonneg key) as Hsk. pose proof (attrs_size_nonneg value) as Hav.
  pose proof (data_size_eq key value) as Hds.
  pose proof (align8_le_file (mdo s + Shard.data_size key value) ltac:(lia)) as Hal.
  rewrite <- Hmdo' in Hal.
  assert (Hmono : forall b, 0 <= b < HASH_TABLE_ENTRIES -> assigned s b -> assigned s' b).
  { intros b Hb Hab. destruct (Z.eq_dec b e) as [->|Hne]; [exact Hae|].
    apply (Hothers b Hb Hne). exact Hab. }
  assert (Hkeeps : keeps_slots s s').
  { intros b Hb Hab. split; [apply Hmono; assumption|].
    destruct (Z.eq_dec b e) as [->|Hne].
    - rewrite Hpe. symmetry. apply Hold. exact Hab.
    - apply (Hothers b Hb Hne). exact Hab. }
  split; [|exact Hkeeps].
  constructor.
  - lia.
  - lia.
  - intros b Hb Hab. destruct (Z.eq_dec b e) as [->|Hne].
    + rewrite Hoe, Hksz. lia.
    + destruct (Hothers b Hb Hne) as (Hiff & _ & Ho & Hrec).
      apply Hiff in Hab. destruct (Hrec Hab) as [Hsz _].
      rewrite Ho, Hsz. destruct (inv_record s Hinv b Hb Hab). lia.
  - intros b Hb Hab o Ho.
    assert (Hbound : 0 <= (slot_hash s' b + o) mod HASH_TABLE_ENTRIES < HASH_TABLE_ENTRIES)
      by (apply Z.mod_pos_bound; lia).
    destruct (Z.eq_dec b e) as [->|Hne].
    + rewrite Hhe in *.
      destruct (Z.eqb_spec (hi32 w) 0) as [Hempty|Hfull].
      * rewrite He in Ho. rewrite probe_offset in Ho by lia.
        apply Hmono; [exact Hbound|].
        unfold assigned, slot_word. apply (Hpassed o). lia.
      * assert (Hae0 : assigned s e) by (unfold assigned, slot_word; rewrite <- Hw; exact Hfull).
        apply Hmono; [exact Hbound|].
        pose proof (Hold Hae0) as Hp0. apply holds_pair in Hp0 as [Hh0 _].
        pose proof (inv_chain s Hinv e Hrange Hae0 o) as Hc. rewrite Hh0 in Hc.
        apply Hc. exact Ho.
    + destruct (Hothers b Hb Hne) as (Hiff & Hh & _).
      apply Hiff in Hab. rewrite Hh in *.
      apply Hmono; [exact Hbound|].
      apply (inv_chain s Hinv b Hb Hab). exact Ho.
  - intros b b' Hb Hb' Hab Hab' Hpair.
    destruct (Z.eq_dec b e) as [->|Hne]; destruct (Z.eq_dec b' e) as [->|Hne'];
      try reflexivity.
    + exfalso. destruct (Hothers b' Hb' Hne') as (Hiff & _ & _ & Hrec).
      apply Hiff in Hab'. destruct (Hrec Hab') as [_ Hp]. rewrite Hp, Hpe in Hpair.
      destruct (Z.eqb_spec (hi32 w) 0) as [Hempty|Hfull].
      * apply (lookup_empty_no_holder s ph key e w b' Hinv Hl Hempty Hb' Hab').
        symmetry. exact Hpair.
      * assert (Hae0 : assigned s e) by (unfold assigned, slot_word; rewrite <- Hw; exact Hfull).
        apply Hne'. apply (inv_unique s Hinv b' e Hb' Hrange Hab' Hae0).
        rewrite (Hold Hae0). symmetry. exact Hpair.
    + exfalso. destruct (Hothers b Hb Hne) as (Hiff & _ & _ & Hrec).
      apply Hiff in Hab. destruct (Hrec Hab) as [_ Hp]. rewrite Hp, Hpe in Hpair.
      destruct (Z.eqb_spec (hi32 w) 0) as [Hempty|Hfull].
      * apply (lookup_empty_no_holder s ph key e w b Hinv Hl Hempty Hb Hab).
        exact Hpair.
      * assert (Hae0 : assigned s e) by (unfold assigned, slot_word; rewrite <- Hw; exact Hfull).
        apply Hne. apply (inv_unique s Hinv b e Hb Hrange Hab Hae0).
        rewrite (Hold Hae0). exact Hpair.
    + destruct (Hothers b Hb Hne) as (Hiff & _ & _ & Hrec).
      destruct (Hothers b' Hb' Hne') as (Hiff' & _ & _ & Hrec').
      apply Hiff in Hab. apply Hiff' in Hab'.
      destruct (Hrec Hab) as [_ Hp]. destruct (Hrec' Hab') as [_ Hp'].
      rewrite Hp, Hp' in Hpair.
      apply (inv_unique s Hinv b b' Hb Hb' Hab Hab' Hpair).
  - intros j Hj. rewrite Hlog by lia.
    destruct (Z.eqb_spec j (mso s)); [lia|].
    apply (inv_log_tail s Hinv). lia.
  - intros b Hb Hab. split; [lia|].
    rewrite Hmso'. replace (mso s + 1 - 1) with (mso s) by lia.
    rewrite Hlog by lia. rewrite Z.eqb_refl.
    destruct (Z.eq_dec b e) as [->|Hne].
    + rewrite Hoe. lia.
    + destruct (Hothers b Hb Hne) as (Hiff & _ & Ho & _).
      apply Hiff in Hab. rewrite Ho.
      destruct (inv_record s Hinv b Hb Hab) as [_ Hhi].
      pose proof (data_key_size_range (mem s) (slot_offset s b)). lia.
Qed.

Lemma word_split w : 0 <= w < 2 ^ 64 -> w = hi32 w * 2 ^ 32 + lo32 w.
Proof.
  intros Hw. unfold hi32, lo32, u32. rewrite Z.shiftr_div_pow2 by lia.
  assert (0 <= w / 2 ^ 32 < 2 ^ 32).
  { split; [apply Z.div_pos; lia|]. apply Z.div_lt_upper_bound; lia. }
  rewrite (Z.mod_small (w / 2 ^ 32)) by lia.
  pose proof (Z.div_mod w (2 ^ 32) ltac:(lia)). lia.
Qed.

(** The slots as [del] leaves them: the flag aside, all is as it was. *)
Lemma del_slots s ph s' e w :
  shard_inv s -> is_u32 ph ->
  0 <= e < HASH_TABLE_ENTRIES -> w = slot_word s e -> lo32 w = ph ->
  del_effect s ph s' e w ->
  forall b, 0 <= b < HASH_TABLE_ENTRIES ->
    (assigned s' b <-> assigned s b)
    /\ slot_hash s' b = slot_hash s b
    /\ slot_offset s' b = slot_offset s b
    /\ (assigned s b ->
        Shard.data_key_size (mem s') (slot_offset s b)
        = Shard.data_key_size (mem s) (slot_offset s b)
        /\ slot_pair s' b = slot_pair s b).
Proof.
  intros Hinv Hph He Hw Hlo Heff b Hb.
  destruct Heff as (Hnz & Hvalid & Hfit & Hmdo' & Hmso' & Hdata & Hother & Hword & Hlog).
  pose proof (hi32_range w) as Hhi. unfold is_u32 in Hph.
  assert (Hviews : (assigned s' b <-> assigned s b)
                   /\ slot_hash s' b = slot_hash s b
                   /\ slot_offset s' b = slot_offset s b).
  { destruct (Z.eq_dec b e) as [->|Hne].
    - assert (Hws : slot_word s e = hi32 w * 2 ^ 32 + ph).
      { rewrite <- Hlo, <- Hw. apply word_split. rewrite Hw. apply load64_range. }
      destruct (slot_of_word s e (hi32 w) ph ltac:(lia) ltac:(lia) (or_introl Hws))
        as (Ha & Hh & Ho).
      destruct (slot_of_word s' e (hi32 w) ph ltac:(lia) ltac:(lia) (or_intror Hword))
        as (Ha' & Hh' & Ho').
      rewrite Hh, Hh', Ho, Ho'. repeat split; trivial.
    - unfold assigned, slot_hash, slot_offset. rewrite (Hother b Hb Hne).
      repeat split; trivial. }
  destruct Hviews as (Hiff & Hh & Ho).
  split; [exact Hiff|]. split; [exact Hh|]. split; [exact Ho|].
  intros Hab. destruct (inv_record s Hinv b Hb Hab) as [Hlow Hhigh].
  pose proof (slot_offset_range s b) as Hr.
  destruct (record_kept (mem s) (mem s') (slot_offset s b) (mdo s) Hr Hhigh) as [Hsz Hk].
  { intros x Hx. apply Hdata. lia. }
  split; [exact Hsz|].
  unfold slot_pair, slot_key. rewrite Hh, Ho, Hk. reflexivity.
Qed.

(** [del] keeps the invariant and the pair of every assigned slot. *)
Lemma del_preserves s ph key rc s' :
  shard_inv s -> is_u32 ph ->
  Shard.del s ph key = Some (rc, s') ->
  shard_inv s' /\ keeps_slots s s'.
Proof.
  destruct (layout HK) as (HH & HS & HT & HI & HF & HF31 & HF8 & HINV).
  intros Hinv Hph Hdel.
  destruct (del_result HK _ _ _ _ _ Hinv Hph Hdel) as [(_ & ->)|(_ & e & w & Hl & Heff)].
  { split; [exact Hinv|]. intros b Hb Hab. split; [exact Hab|reflexivity]. }
  destruct (hash_lookup_spec HK _ _ _ _ _ Hl) as (off & Hoff & He & Hrange & Hw & Hpassed & Hstop).
  assert (Hlo : lo32 w = ph).
  { destruct Hstop as [[Hh _]|Hz]; [exact Hh|]. destruct Heff as (Hnz & _). contradiction. }
  pose proof (del_slots s ph s' e w Hinv Hph Hrange Hw Hlo Heff) as Hslots.
  destruct Heff as (Hnz & Hvalid & Hfit & Hmdo' & Hmso' & Hdata & Hother & Hword & Hlog).
  pose proof (inv_data_offset s Hinv) as Hmdo.
  pose proof (inv_search_offset s Hinv) as Hmso.
  split.
  - constructor.
    + lia.
    + lia.
    + intros b Hb Hab. destruct (Hslots b Hb) as (Hiff & _ & Ho & Hrec).
      apply Hiff in Hab. destruct (Hrec Hab) as [Hsz _]. rewrite Ho, Hsz.
      destruct (inv_record s Hinv b Hb Hab). lia.
    + intros b Hb Hab o Ho. destruct (Hslots b Hb) as (Hiff & Hh & _).
      apply Hiff in Hab. rewrite Hh in *.
      assert (Hbound : 0 <= (slot_hash s b + o) mod HASH_TABLE_ENTRIES < HASH_TABLE_ENTRIES)
        by (apply Z.mod_pos_bound; lia).
      apply (Hslots _ Hbound). apply (inv_chain s Hinv b Hb Hab). exact Ho.
    + intros b b' Hb Hb' Hab Hab' Hpair.
      destruct (Hslots b Hb) as (Hiff & _ & _ & Hrec).
      destruct (Hslots b' Hb') as (Hiff' & _ & _ & Hrec').
      apply Hiff in Hab. apply Hiff' in Hab'.
      destruct (Hrec Hab) as [_ Hp]. destruct (Hrec' Hab') as [_ Hp'].
      rewrite Hp, Hp' in Hpair.
      apply (inv_unique s Hinv b b' Hb Hb' Hab Hab' Hpair).
    + intros j Hj. rewrite Hlog by lia. apply (inv_log_tail s Hinv). lia.
    + intros b Hb Hab. destruct (Hslots b Hb) as (Hiff & _ & Ho & _).
      apply Hiff in Hab. destruct (inv_log_last s Hinv b Hb Hab) as [Hpos Hdom].
      split; [lia|]. rewrite Hmso', Ho, Hlog by lia. exact Hdom.
  - intros b Hb Hab. destruct (Hslots b Hb) as (Hiff & _ & _ & Hrec).
    split; [apply Hiff; exact Hab|]. apply Hrec. exact Hab.
Qed.

(** A shard fresh from [shard::create] satisfies the invariant: no slot is
    assigned and the log is empty. *)
Lemma create_inv : shard_inv Shard.create.
Proof.
  destruct (layout HK) as (HH & HS & HT & HI & HF & HF31 & HF8 & HINV).
  assert (Hfree : forall b, ~ assigned Shard.create b).
  { intros b Hab. apply Hab. reflexivity. }
  constructor; cbn [Shard.create Shard.m_data_offset Shard.m_search_offset Shard.m_data].
  - lia.
  - lia.
  - intros b _ Hab. destruct (Hfree b Hab).
  - intros b _ Hab. destruct (Hfree b Hab).
  - intros b b' _ _ Hab. destruct (Hfree b Hab).
  - intros j _. reflexivity.
  - intros b _ Hab. destruct (Hfree b Hab).
Qed.

Lemma keeps_slots_refl s : keeps_slots s s.
Proof. intros b Hb Hab. split; [exact Hab|reflexivity]. Qed.

Lemma keeps_slots_trans s1 s2 s3 :
  keeps_slots s1 s2 -> keeps_slots s2 s3 -> keeps_slots s1 s3.
Proof.
  intros H12 H23 b Hb Hab. destruct (H12 b Hb Hab) as [Hab2 Hp2].
  destruct (H23 b Hb Hab2) as [Hab3 Hp3]. split; [exact Hab3|congruence].
Qed.

Lemma apply_preserves s op s' :
  shard_inv s -> well_typed op -> apply s op = Some s' ->
  shard_inv s' /\ keeps_slots s s'.
Proof.
  intros Hinv Hwt Happ. destruct op as [ph sh key value version|ph key]; simpl in Hwt.
  - unfold apply in Happ.
    destruct (Shard.put s ph sh key value version) as [[[rc s0] f]|] eqn:Hput; [|discriminate].
    assert (s0 = s') by congruence. subst s0.
    apply (put_preserves _ _ _ _ _ _ _ _ _ Hinv (proj1 Hwt) Hput).
  - unfold apply in Happ.
    destruct (Shard.del s ph key) as [[rc s0]|] eqn:Hdel; [|discriminate].
    assert (s0 = s') by congruence. subst s0.
    apply (del_preserves _ _ _ _ _ Hinv Hwt Hdel).
Qed.

Lemma run_preserves ops : forall s s',
  shard_inv s -> Forall well_typed ops -> run s ops = Some s' ->
  shard_inv s' /\ keeps_slots s s'.
Proof.
  induction ops as [|op ops IH]; intros s s' Hinv Hwt Hrun.
  - cbn [run] in Hrun. assert (s = s') by congruence. subst s'.
    split; [exact Hinv|apply keeps_slots_refl].
  - cbn [run] in Hrun. destruct (apply s op) as [s1|] eqn:Happ; [|discriminate].
    apply Forall_cons_iff in Hwt as [Hop Hops].
    destruct (apply_preserves s op s1 Hinv Hop Happ) as [Hinv1 Hk1].
    destruct (IH s1 s' Hinv1 Hops Hrun) as [Hinv' Hk'].
    split; [exact Hinv'|]. apply (keeps_slots_trans _ _ _ Hk1 Hk').
Qed.

End Slots.

Lemma example_constants_ok : constants_ok example_constants.
Proof. constructor; cbn; lia. Qed.

Lemma shard_of_some `{shard_constants} (o : option Shard.shard) :
  is_some o = true -> o = Some (shard_of o).
Proof. destruct o; [reflexivity|discriminate]. Qed.

(** C4: along any sequence of [put] and [del] calls on a shard fresh from
    [create], a slot of the hash table that has been assigned stays assigned
    to its [(primary_hash, key)] pair, through tombstones and reinserts, and
    no other slot is ever assigned to that pair. *)
Theorem hash_slots_stable (K : shard_constants) (ops1 ops2 : list operation)
        (s1 s2 : Shard.shard) (b : Z) :
  constants_ok K ->
  Forall well_typed ops1 -> Forall well_typed ops2 ->
  run Shard.create ops1 = Some s1 -> run s1 ops2 = Some s2 ->
  0 <= b < HASH_TABLE_ENTRIES -> assigned s1 b ->
  assigned s2 b
  /\ slot_pair s2 b = slot_pair s1 b
  /\ forall b', 0 <= b' < HASH_TABLE_ENTRIES -> assigned s2 b' ->
                slot_pair s2 b' = slot_pair s2 b -> b' = b.
Proof.
  intros HK Hwt1 Hwt2 Hrun1 Hrun2 Hb Hab.
  destruct (run_preserves HK ops1 _ _ (create_inv HK) Hwt1 Hrun1) as [Hinv1 _].
  destruct (run_preserves HK ops2 _ _ Hinv1 Hwt2 Hrun2) as [Hinv2 Hkeeps].
  destruct (Hkeeps b Hb Hab) as [Hab2 Hpair].
  split; [exact Hab2|]. split; [exact Hpair|].
  intros b' Hb' Hab' Heq. apply (inv_unique s2 Hinv2 b' b Hb' Hb Hab' Hab2 Heq).
Qed.

Lemma hash_slots_stable_witness :
  let K := example_constants in
  let ops1 := [Put 5 7 key_a value_1 1] in
  let ops2 := [Del 5 key_a; Put 5 7 key_a value_2 2] in
  let s1 := shard_of (run Shard.create ops1) in
  let s2 := shard_of (run s1 ops2) in
  assigned s1 5 /\ assigned s2 5 /\ slot_pair s2 5 = slot_pair s1 5
  /\ forall b', 0 <= b' < HASH_TABLE_ENTRIES -> assigned s2 b' ->
                slot_pair s2 b' = slot_pair s2 5 -> b' = 5.
Proof.
  intros K ops1 ops2 s1 s2.
  assert (Ha : assigned s1 5).
  { unfold assigned. apply Z.eqb_neq. vm_compute. reflexivity. }
  split; [exact Ha|].
  apply (hash_slots_stable K ops1 ops2 s1 s2 5).
  - exact example_constants_ok.
  - repeat constructor; unfold is_u32; lia.
  - repeat constructor; unfold is_u32; lia.
  - apply shard_of_some. vm_compute. reflexivity.
  - apply shard_of_some. vm_compute. reflexivity.
  - cbn. lia.
  - exact Ha.
Defined.

(** * Shards: when [put] calls [async] *)

Lemma clear_bit22 x :
  0 <= x < 2 ^ 32 ->
  Z.land x (u32 (Z.lnot (Z.shiftl 1 22))) + Z.land x (2 ^ 22) = x.
Proof.
  intros Hx.
  change (u32 (Z.lnot (Z.shiftl 1 22))) with (Z.ldiff (Z.ones 32) (2 ^ 22)).
  assert (Hdisj : Z.land (Z.land x (Z.ldiff (Z.ones 32) (2 ^ 22))) (Z.land x (2 ^ 22)) = 0).
  { apply Z.bits_inj'. intros n Hn.
    rewrite !Z.land_spec, Z.ldiff_spec, Z.bits_0.
    destruct (Z.testbit (2 ^ 22) n), (Z.testbit x n), (Z.testbit (Z.ones 32) n);
      reflexivity. }
  rewrite Z.add_nocarry_lxor by exact Hdisj.
  rewrite Z.lxor_lor by exact Hdisj.
  rewrite <- Z.land_lor_distr_r.
  assert (Hall : Z.lor (Z.ldiff (Z.ones 32) (2 ^ 22)) (2 ^ 22) = Z.ones 32) by reflexivity.
  rewrite Hall, Z.land_ones by lia. apply Z.mod_small. lia.
Qed.

Lemma land_bit22 x : Z.land x (2 ^ 22) = 0 \/ Z.land x (2 ^ 22) = 2 ^ 22.
Proof.
  pose proof (land_pow2_testbit x 22 ltac:(lia)) as H.
  destruct (Z.testbit x 22) eqn:Hb; simpl in H.
  - right. apply Z.bits_inj'. intros n Hn. rewrite Z.land_spec.
    destruct (Z.eq_dec n 22) as [->|Hne].
    + rewrite Hb. reflexivity.
    + rewrite Z.pow2_bits_false by lia. apply andb_false_r.
  - left. apply Z.eqb_eq. exact H.
Qed.

(** Two offsets less than 4 MiB apart differ in a bit other than bit 22. *)
Lemma differ_beyond_bit22 a b :
  0 <= a -> a < b -> b < a + 2 ^ 22 -> b < 2 ^ 32 ->
  (Z.land a (u32 (Z.lnot (Z.shiftl 1 22))) =? Z.land b (u32 (Z.lnot (Z.shiftl 1 22))))
  = false.
Proof.
  intros Ha Hab Hnear Hb. apply Z.eqb_neq. intros Heq.
  pose proof (clear_bit22 a ltac:(lia)). pose proof (clear_bit22 b ltac:(lia)).
  destruct (land_bit22 a), (land_bit22 b); lia.
Qed.

Section Async.
Context {K : shard_constants}.
Hypothesis HK : constants_ok K.

(** What the code does where C7 speaks of 4 MiB boundaries: every
    successful [put] of a record of less than 4 MiB calls [async], wherever
    the offsets lie. *)
Lemma put_calls_async s ph sh key value version s' flushed :
  shard_inv s -> is_u32 ph ->
  Shard.data_size key value + 7 < 2 ^ 22 ->
  Shard.put s ph sh key value version = Some (SUCCESS, s', flushed) ->
  flushed = true.
Proof.
  destruct (layout HK) as (HH & HS & HT & HI & HF & HF31 & HF8 & HINV).
  intros Hinv Hph Hsmall Hput.
  destruct (put_result HK _ _ _ _ _ _ _ _ _ Hinv Hph Hput)
    as [(Hrc & _)|(_ & e & w & Hl & Heff)]; [congruence|].
  destruct Heff as (Hfit & _ & Hmdo' & _ & _ & _ & _ & _ & _ & _ & Hf & _).
  pose proof (inv_data_offset s Hinv) as Hmdo.
  pose proof (data_size_eq key value) as Hds.
  pose proof (size_nonneg key). pose proof (attrs_size_nonneg value).
  pose proof (align8_bounds (Shard.m_data_offset s + Shard.data_size key value)
                            ltac:(lia) ltac:(lia)) as [Hal _].
  rewrite <- Hmdo' in Hal.
  rewrite Hf, differ_beyond_bit22 by lia. reflexivity.
Qed.

End Async.

Section AsyncExample.
#[local] Existing Instance example_constants.

(** C7 fails on the code: the first [put] into a fresh shard moves the data
    offset from 1572864 to 1572888, inside one 4 MiB block, and calls [async]
    all the same. *)
Theorem put_async_without_crossing :
  match Shard.put Shard.create 5 7 key_a value_1 1 with
  | Some (rc, s', flushed) =>
      rc = SUCCESS /\ flushed = true
      /\ crosses_4MiB (Shard.m_data_offset Shard.create) (Shard.m_data_offset s') = false
  | None => False
  end.
Proof. vm_compute. repeat split. Qed.

End AsyncExample.

(** * Shards: [stale_space] *)

Lemma hi32_small x : 0 <= x < 2 ^ 32 -> hi32 x = 0.
Proof.
  intros Hx. unfold hi32, u32. rewrite Z.shiftr_div_pow2 by lia.
  rewrite Z.div_small by lia. reflexivity.
Qed.

Section StaleSpace.
Context {K : shard_constants}.
Hypothesis HK : constants_ok K.

(** After the first [put] into a fresh shard the log holds one entry, which
    is live. [stale_space] nevertheless takes the whole record for stale,
    where the formula of the spec gives 0. *)
Lemma first_put_stale_space ph sh key value version s' f :
  is_u32 ph ->
  Shard.put Shard.create ph sh key value version = Some (SUCCESS, s', f) ->
  Shard.m_data_offset s' = align8 (INDEX_SEGMENT_SIZE + Shard.data_size key value)
  /\ Shard.stale_space s'
     = Z.max (100 * (Shard.m_data_offset s' - INDEX_SEGMENT_SIZE) / DATA_SEGMENT_SIZE)
             (100 * 1 / SEARCH_INDEX_ENTRIES)
  /\ stale_space_spec s' = 0.
Proof.
  destruct (layout HK) as (HH & HS & HT & HI & HF & HF31 & HF8 & HINV).
  intros Hph Hput.
  destruct (put_result HK _ _ _ _ _ _ _ _ _ (create_inv HK) Hph Hput)
    as [(Hrc & _)|(_ & e & w & Hl & Heff)]; [congruence|].
  destruct Heff as (Hfit & _ & Hmdo' & Hmso' & _ & _ & _ & _ & _ & Hlog & _ & Hnew).
  cbn [Shard.create Shard.m_data_offset Shard.m_search_offset Shard.m_data] in *.
  pose proof (data_size_eq key value) as Hds.
  pose proof (size_nonneg key). pose proof (attrs_size_nonneg value).
  assert (Hx0 : 0 <= INDEX_SEGMENT_SIZE + Shard.data_size key value) by lia.
  assert (Hx32 : INDEX_SEGMENT_SIZE + Shard.data_size key value + 7 < 2 ^ 32) by lia.
  pose proof (align8_bounds _ Hx0 Hx32) as [Hal _].
  pose proof (align8_le_file HK _ (conj Hx0 Hfit)) as Hal'.
  rewrite <- Hmdo' in Hal, Hal'.
  replace (2 * 0 + 1) with 1 in Hnew by lia.
  split; [exact Hmdo'|]. split.
  - unfold Shard.stale_space. rewrite Hnew.
    assert (Hstart : lo32 INDEX_SEGMENT_SIZE = INDEX_SEGMENT_SIZE)
      by (apply u32_small; unfold is_u32; lia).
    rewrite Hstart.
    assert (Hloop : exists i,
               Shard.stale_space_loop s' (Z.to_nat (SEARCH_INDEX_ENTRIES - 1)) 1
                                      INDEX_SEGMENT_SIZE 0 0 0
               = (i, INDEX_SEGMENT_SIZE,
                  if i =? SEARCH_INDEX_ENTRIES then 0 else Shard.m_data_offset s', 0, 0)
               /\ i = 1).
    { exists 1. split; [|reflexivity].
      destruct (Z.to_nat (SEARCH_INDEX_ENTRIES - 1)) as [|n] eqn:Hn.
      - cbn [Shard.stale_space_loop].
        destruct (Z.eqb_spec 1 SEARCH_INDEX_ENTRIES); [reflexivity|lia].
      - cbn [Shard.stale_space_loop].
        fold (log_offset (Shard.m_data s') 1). rewrite Hlog by lia.
        change (1 =? 0) with false. cbv iota.
        change (log_offset zero_memory 1) with 0. change (0 =? 0) with true. cbv iota.
        destruct (Z.eqb_spec 1 SEARCH_INDEX_ENTRIES); [lia|reflexivity]. }
    destruct Hloop as (i & -> & ->).
    assert (Hend : (if 1 =? SEARCH_INDEX_ENTRIES then Shard.m_data_offset s'
                    else if 1 =? SEARCH_INDEX_ENTRIES then 0 else Shard.m_data_offset s')
                   = Shard.m_data_offset s')
      by (destruct (1 =? SEARCH_INDEX_ENTRIES); reflexivity).
    rewrite Hend.
    rewrite (u32_small (Shard.m_data_offset s' - INDEX_SEGMENT_SIZE))
      by (unfold is_u32; lia).
    destruct (Z.eqb_spec (Shard.m_data_offset s' - INDEX_SEGMENT_SIZE) 0); [lia|].
    reflexivity.
  - unfold stale_space_spec, log_entries. rewrite Hmso'.
    change (map Z.of_nat (seq 0 (Z.to_nat (0 + 1)))) with [0].
    assert (Hlive : stale_entry s' 0 = false).
    { unfold stale_entry. replace (2 * 0 + 1) with 1 by lia. rewrite Hnew.
      rewrite hi32_small by lia. reflexivity. }
    cbn [filter]. rewrite Hlive. cbn [map fold_right length Z.of_nat].
    rewrite !Z.mul_0_r, !Zdiv_0_l. reflexivity.
Qed.

End StaleSpace.

Section StaleSpaceExample.
#[local] Existing Instance example_constants.

Lemma data_size_3MiB `{shard_constants} : Shard.data_size key_a value_3MiB = 3145747.
Proof.
  rewrite data_size_eq. unfold value_3MiB, attrs_size, key_a, size.
  cbn [fold_right length]. rewrite repeat_length, Z2Nat.id by lia. reflexivity.
Qed.

(** C6 fails on the code: after a single [put] of a record with a 3 MiB
    attribute into a fresh shard no entry of the search log is stale, so the
    formula of the spec gives 0, yet [stale_space] counts the record and
    returns 1. *)
Theorem stale_space_counts_live_record :
  match Shard.put Shard.create 5 7 key_a value_3MiB 1 with
  | Some (rc, s', _) =>
      rc = SUCCESS /\ Shard.stale_space s' = 1 /\ stale_space_spec s' = 0
  | None => False
  end.
Proof.
  destruct (put_succeeds Shard.create 5 7 key_a value_3MiB 1 5 0)
    as (s' & f & Hput).
  - rewrite data_size_3MiB. cbn. lia.
  - cbn. lia.
  - vm_compute. reflexivity.
  - rewrite Hput. cbv beta iota.
    destruct (first_put_stale_space example_constants_ok 5 7 key_a value_3MiB 1 s' f)
      as (Hmdo & Hcode & Hspec).
    + unfold is_u32. lia.
    + exact Hput.
    + split; [reflexivity|]. split; [|exact Hspec].
      rewrite Hcode, Hmdo, data_size_3MiB. vm_compute. reflexivity.
Qed.

End StaleSpaceExample.

(** * The disk: shard files *)

Lemma bind_name_same dir name f : Disk.bind_name dir name f name = f.
Proof. unfold Disk.bind_name. rewrite String.eqb_refl. reflexivity. Qed.

Lemma bind_name_other dir name f n :
  n <> name -> Disk.bind_name dir name f n = dir n.
Proof.
  intros Hne. unfold Disk.bind_name.
  destruct (String.eqb_spec n name); [contradiction|reflexivity].
Qed.

Lemma string_append_assoc (a b c : string) : ((a ++ b) ++ c = a ++ (b ++ c))%string.
Proof. induction a as [|x a IH]; simpl; [reflexivity|]. rewrite IH. reflexivity. Qed.

Lemma string_length_append (a b : string) :
  String.length (a ++ b) = (String.length a + String.length b)%nat.
Proof. induction a as [|x a IH]; simpl; [reflexivity|]. rewrite IH. reflexivity. Qed.

(** The temporary name is the canonical name with [-tmp] behind it. *)
Lemma shard_tmp_filename_suffix c :
  Disk.shard_tmp_filename c = (Disk.shard_filename c ++ "-tmp")%string.
Proof.
  unfold Disk.shard_tmp_filename, Disk.shard_filename.
  rewrite !string_append_assoc. reflexivity.
Qed.

Lemma shard_tmp_filename_differs c : Disk.shard_tmp_filename c <> Disk.shard_filename c.
Proof.
  rewrite shard_tmp_filename_suffix. intros Heq.
  apply (f_equal String.length) in Heq. rewrite string_length_append in Heq.
  simpl in Heq. lia.
Qed.

Section ShardFiles.
Context {K : shard_constants}.

(** Without a spare shard, [create_tmp_shard] creates a new file under the
    temporary name. *)
Lemma create_tmp_shard_fresh d c :
  Disk.m_spare_shards d = [] ->
  exists sp d',
    Disk.create_tmp_shard d c = Disk.Returns sp d'
    /\ Disk.file sp = Disk.files_created d
    /\ Disk.m_base d' (Disk.shard_tmp_filename c) = Some (Disk.file sp)
    /\ Disk.m_base d' (Disk.shard_filename c) = Disk.m_base d (Disk.shard_filename c).
Proof.
  intros Hnone. unfold Disk.create_tmp_shard. rewrite Hnone.
  unfold Disk.create_file. eexists. eexists. split; [reflexivity|].
  cbn [Disk.file Disk.m_base]. split; [reflexivity|]. split.
  - apply bind_name_same.
  - apply bind_name_other. intros Heq. symmetry in Heq.
    apply (shard_tmp_filename_differs c Heq).
Qed.

(** With a spare shard at hand, [create_tmp_shard] gives the spare file the
    canonical name of the coordinate, not the temporary one: the name of the
    live shard now refers to the spare file, and the temporary name refers to
    what it did before. *)
Lemma create_tmp_shard_from_spare d c name sp rest f :
  Disk.m_spare_shards d = (name, sp) :: rest ->
  Disk.m_base d name = Some f ->
  exists d',
    Disk.create_tmp_shard d c = Disk.Returns sp d'
    /\ Disk.m_base d' (Disk.shard_filename c) = Some f
    /\ (name <> Disk.shard_tmp_filename c ->
        Disk.m_base d' (Disk.shard_tmp_filename c)
        = Disk.m_base d (Disk.shard_tmp_filename c)).
Proof.
  intros Hspare Hfile. unfold Disk.create_tmp_shard. rewrite Hspare.
  unfold Disk.renameat. cbn [Disk.set_spare_shards Disk.m_base]. rewrite Hfile.
  eexists. split; [reflexivity|]. cbn [Disk.set_base Disk.m_base]. split.
  - apply bind_name_same.
  - intros Hne. rewrite bind_name_other by apply shard_tmp_filename_differs.
    apply bind_name_other. intros Heq. apply Hne. symmetry. exact Heq.
Qed.

End ShardFiles.

Section ShardFilesExample.
#[local] Existing Instance example_constants.

(** C9 fails on the code: with [spare-0] in the FIFO, [create_tmp_shard] for
    the coordinate (0, 0, 0, 0) renames the spare file to the canonical name;
    no file carries the temporary name, and the rename in [clean_shard] fails
    with [DROPFAILED]. *)
Theorem create_tmp_shard_spare_is_not_tmp :
  let c := mk_coordinate 0 0 0 0 in
  match Disk.create_tmp_shard disk_with_spare c with
  | Disk.Returns sp d' =>
      Disk.m_base d' (Disk.shard_tmp_filename c) = None
      /\ Disk.m_base d' (Disk.shard_filename c) = Some (Disk.file sp)
      /\ returned (Disk.clean_shard disk_with_spare 0) = Some DROPFAILED
  | _ => False
  end.
Proof. vm_compute. repeat split. Qed.

End ShardFilesExample.

(** * The disk: the shard vector and its coordinates *)

Lemma replace_coordinates v : forall i s, map fst (Disk.replace v i s) = map fst v.
Proof.
  induction v as [|[c s0] v IH]; intros i s; [reflexivity|].
  destruct i as [|i]; cbn [Disk.replace map fst]; [reflexivity|].
  rewrite IH. reflexivity.
Qed.

Lemma replace_length v : forall i s, length (Disk.replace v i s) = length v.
Proof.
  intros i s. rewrite <- (length_map fst), replace_coordinates, length_map. reflexivity.
Qed.

(** The coordinate (0, 0, 0, 0) of the first shard contains every
    coordinate. *)
Lemma start_contains c :
  contains (mk_coordinate 0 0 0 0) c = true
  /\ primary_contains (mk_coordinate 0 0 0 0) c = true.
Proof.
  unfold contains, primary_contains, secondary_contains.
  cbn [primary_mask secondary_mask]. rewrite !Z.land_0_l. split; reflexivity.
Qed.

Section Coordinates.
Context {K : shard_constants}.
Variable CityHash64 : buffer -> Z.
Variable CityHash64_each : list buffer -> list Z.
Variable lower_interlace : list Z -> Z.

Lemma create_tmp_shard_shards d c :
  match Disk.create_tmp_shard d c with
  | Disk.Returns _ d' | Disk.Throws d' => Disk.m_shards d' = Disk.m_shards d
  | Disk.Undefined => True
  end.
Proof.
  unfold Disk.create_tmp_shard.
  destruct (Disk.m_spare_shards d) as [|[name sp] rest].
  - reflexivity.
  - destruct (Disk.renameat _ _ _); reflexivity.
Qed.

Lemma create_shard_shards d c :
  match Disk.create_shard d c with
  | Disk.Returns _ d' | Disk.Throws d' => Disk.m_shards d' = Disk.m_shards d
  | Disk.Undefined => True
  end.
Proof.
  unfold Disk.create_shard.
  destruct (Disk.m_spare_shards d) as [|[name sp] rest].
  - reflexivity.
  - destruct (Disk.renameat _ _ _); reflexivity.
Qed.

(** [clean_shard] leaves the coordinates of the shards as they are. *)
Lemma clean_shard_coordinates d i :
  match Disk.clean_shard d i with
  | Disk.Returns _ d' | Disk.Throws d' => coordinates d' = coordinates d
  | Disk.Undefined => True
  end.
Proof.
  unfold Disk.clean_shard, coordinates.
  destruct (nth_error (Disk.m_shards d) i) as [[c s]|]; [|exact I].
  pose proof (create_tmp_shard_shards d c) as Hsame.
  destruct (Disk.create_tmp_shard d c) as [newshard d1|d1|]; [|congruence|exact I].
  destruct (Shard.copy_to _ _ _) as [copied|]; [|exact I].
  destruct (Disk.renameat _ _ _) as [dir|].
  - cbn [Disk.set_shards Disk.set_base Disk.m_shards].
    rewrite replace_coordinates. congruence.
  - unfold Disk.drop_tmp_shard. destruct (Disk.unlink _ _); cbn; congruence.
Qed.

(** No quiet step changes the coordinates of the shards. *)
Lemma quiet_step_coordinates d d' :
  quiet_step CityHash64 CityHash64_each lower_interlace d d' ->
  coordinates d' = coordinates d.
Proof.
  intros Hstep. destruct Hstep.
  - unfold Disk.put. destruct (negb _); reflexivity.
  - reflexivity.
  - unfold coordinates. cbn [Disk.set_shards Disk.m_shards]. apply replace_coordinates.
  - unfold coordinates. cbn [Disk.set_shards Disk.m_shards]. apply replace_coordinates.
  - reflexivity.
  - pose proof (clean_shard_coordinates d i) as Hc. rewrite H in Hc. exact Hc.
  - pose proof (clean_shard_coordinates d i) as Hc. rewrite H in Hc. exact Hc.
  - reflexivity.
Qed.

Lemma reached_quiet_coordinates d0 d :
  reached (quiet_step CityHash64 CityHash64_each lower_interlace) d0 d ->
  coordinates d = coordinates d0.
Proof.
  induction 1 as [|d d' _ IH Hstep]; [reflexivity|].
  rewrite (quiet_step_coordinates _ _ Hstep). exact IH.
Qed.

(** C10: the constructor leaves a disk with one shard, of coordinate
    (0, 0, 0, 0), which contains and primary-contains every coordinate; until
    the first split the shard vector keeps this one coordinate, so that the
    loops of [get] and of [flush] find a shard for every coordinate. *)
Theorem new_disk_covers (dir : Disk.directory) (files : nat) (arity : Z) :
  exists s d0,
    Disk.new dir files arity = Disk.Returns tt d0
    /\ Disk.m_shards d0 = [(mk_coordinate 0 0 0 0, s)]
    /\ (forall c, contains (mk_coordinate 0 0 0 0) c = true
                  /\ primary_contains (mk_coordinate 0 0 0 0) c = true)
    /\ forall d, reached (quiet_step CityHash64 CityHash64_each lower_interlace) d0 d ->
         coordinates d = [mk_coordinate 0 0 0 0]
         /\ forall c, exists i ci si,
              nth_error (Disk.m_shards d) i = Some (ci, si)
              /\ primary_contains ci c = true /\ contains ci c = true.
Proof.
  unfold Disk.new, Disk.create_shard. cbn [Disk.m_spare_shards Disk.create_file].
  eexists. eexists. split; [reflexivity|]. split; [reflexivity|].
  split; [exact start_contains|].
  intros d Hreached. apply reached_quiet_coordinates in Hreached.
  unfold coordinates in Hreached at 2. cbn in Hreached.
  split; [exact Hreached|]. intros c.
  unfold coordinates in Hreached.
  destruct (Disk.m_shards d) as [|[ci si] [|x rest]]; try discriminate.
  cbn in Hreached. injection Hreached as ->.
  exists 0%nat, (mk_coordinate 0 0 0 0), si. split; [reflexivity|].
  destruct (start_contains c). split; assumption.
Qed.

End Coordinates.

(** * Masks: counting the bits set *)

Lemma filter_length_le {A : Type} (f : A -> bool) (l : list A) :
  (length (filter f l) <= length l)%nat.
Proof.
  induction l as [|x l IH]; simpl; [lia|]. destruct (f x); simpl; lia.
Qed.

Lemma filter_length_all {A : Type} (f : A -> bool) (l : list A) :
  length (filter f l) = length l -> forall x, In x l -> f x = true.
Proof.
  induction l as [|y l IH]; simpl; intros Hlen x Hin; [contradiction|].
  pose proof (filter_length_le f l).
  destruct (f y) eqn:Hy; simpl in Hlen; [|lia].
  destruct Hin as [->|Hin]; [exact Hy|]. apply IH; [lia|exact Hin].
Qed.

(** Setting one more element of a duplicate-free list adds one to the
    count. *)
Lemma filter_length_one_more (f g : Z -> bool) (p : Z) (l : list Z) :
  NoDup l -> In p l -> f p = false -> g p = true ->
  (forall x, x <> p -> g x = f x) ->
  length (filter g l) = S (length (filter f l)).
Proof.
  intros Hnd Hin Hfp Hgp Hsame.
  assert (Hout : forall l', ~ In p l' -> filter g l' = filter f l').
  { induction l' as [|y l' IH]; intros Hni; [reflexivity|]. simpl.
    rewrite Hsame by (intros ->; apply Hni; left; reflexivity).
    rewrite IH by (intros Hp; apply Hni; right; exact Hp). reflexivity. }
  induction l as [|y l IH]; [contradiction|].
  apply NoDup_cons_iff in Hnd as [Hny Hnd]. simpl.
  destruct Hin as [->|Hin].
  - rewrite Hfp, Hgp. simpl. rewrite (Hout l Hny). reflexivity.
  - assert (y <> p) by (intros ->; contradiction).
    rewrite Hsame by assumption. destruct (f y); simpl; rewrite IH by assumption; reflexivity.
Qed.

Lemma positions_nodup : NoDup (map Z.of_nat (seq 0 32)).
Proof.
  apply NoDup_map_NoDup_ForallPairs; [|apply seq_NoDup].
  intros a b _ _ Hab. lia.
Qed.

Lemma positions_in p : 0 <= p <= 31 -> In p (map Z.of_nat (seq 0 32)).
Proof.
  intros Hp. apply in_map_iff. exists (Z.to_nat p). split; [lia|].
  apply in_seq. lia.
Qed.

Lemma popcount_set_bit m p :
  0 <= p <= 31 -> Z.testbit m p = false ->
  popcount (Z.lor m (2 ^ p)) = S (popcount m).
Proof.
  intros Hp Hclear. unfold popcount.
  apply (filter_length_one_more _ _ p).
  - exact positions_nodup.
  - apply positions_in. exact Hp.
  - exact Hclear.
  - rewrite Z.lor_spec, Z.pow2_bits_true by lia. apply orb_true_r.
  - intros x Hx. rewrite Z.lor_spec.
    destruct (Z.ltb_spec x 0).
    + rewrite !Z.testbit_neg_r by lia. reflexivity.
    + rewrite Z.pow2_bits_false by lia. apply orb_false_r.
Qed.

Lemma popcount_le m : (popcount m <= 32)%nat.
Proof.
  unfold popcount. pose proof (filter_length_le (Z.testbit m) (map Z.of_nat (seq 0 32))) as H.
  rewrite length_map, length_seq in H. exact H.
Qed.

(** A 32-bit mask with all of its 32 bits set is [UINT32_MAX]. *)
Lemma all_bits_set m :
  is_u32 m -> (forall p, 0 <= p <= 31 -> Z.testbit m p = true) -> m = UINT32_MAX.
Proof.
  intros Hm Hall. apply Z.bits_inj'. intros n Hn.
  destruct (Z.ltb_spec n 32).
  - rewrite Hall by lia. change UINT32_MAX with (Z.ones 32).
    rewrite Z.ones_spec_low by lia. reflexivity.
  - change UINT32_MAX with (Z.ones 32). rewrite Z.ones_spec_high by lia.
    unfold is_u32 in Hm. destruct (Z.eq_dec m 0) as [->|]; [apply Z.bits_0|].
    apply Z.bits_above_log2; [lia|].
    apply Z.lt_le_trans with 32; [|lia]. apply Z.log2_lt_pow2; lia.
Qed.

Lemma popcount_full m : is_u32 m -> popcount m = 32%nat -> m = UINT32_MAX.
Proof.
  intros Hm Hcount. apply all_bits_set; [exact Hm|].
  intros p Hp.
  assert (Hlen : length (map Z.of_nat (seq 0 32)) = 32%nat)
    by (rewrite length_map, length_seq; reflexivity).
  remember (map Z.of_nat (seq 0 32)) as l eqn:Hl.
  assert (Hall : length (filter (Z.testbit m) l) = length l).
  { rewrite Hlen. rewrite <- Hcount. unfold popcount. rewrite Hl. reflexivity. }
  apply (filter_length_all (Z.testbit m) l Hall).
  rewrite Hl. apply positions_in. exact Hp.
Qed.

Lemma popcount_max : popcount UINT32_MAX = 32%nat.
Proof. reflexivity. Qed.

(** For a balanced coordinate, one mask is full exactly when the other is. *)
Lemma balanced_full c :
  balanced c ->
  (primary_mask c = UINT32_MAX <-> secondary_mask c = UINT32_MAX).
Proof.
  intros (Hp & Hs & Heq). split; intros Hfull.
  - apply popcount_full; [exact Hs|]. rewrite <- Heq, Hfull. exact popcount_max.
  - apply popcount_full; [exact Hp|]. rewrite Heq, Hfull. exact popcount_max.
Qed.

Lemma lor_bit_u32 m p : is_u32 m -> 0 <= p <= 31 -> is_u32 (Z.lor m (2 ^ p)).
Proof.
  unfold is_u32. intros Hm Hp.
  assert (H0 : 0 <= Z.lor m (2 ^ p)) by (apply Z.lor_nonneg; split; [lia|apply Z.pow_nonneg; lia]).
  split; [exact H0|].
  destruct (Z.eq_dec (Z.lor m (2 ^ p)) 0) as [->|Hnz]; [lia|].
  apply Z.log2_lt_pow2; [lia|].
  rewrite Z.log2_lor by (try lia; apply Z.pow_nonneg; lia).
  apply Z.max_lub_lt.
  - destruct (Z.eq_dec m 0) as [->|]; [simpl; lia|]. apply Z.log2_lt_pow2; lia.
  - rewrite Z.log2_pow2 by lia. lia.
Qed.

(** * [which_to_split] on the counts of a shard *)

(** With counters that stay below [INT32_MAX], [which_to_split] returns a
    position that is clear in the mask, whenever the mask is not full. *)
Lemma which_to_split_clear mask zeros ones n :
  is_u32 mask -> mask <> UINT32_MAX -> n < INT32_MAX ->
  counters n zeros -> counters n ones ->
  let p := which_to_split mask zeros ones in
  0 <= p <= 31 /\ Z.testbit mask p = false.
Proof.
  intros Hmask Hnotfull Hn [Hlz Hz] [Hlo Ho] p.
  assert (Hcz : counts zeros).
  { split; [exact Hlz|]. eapply Forall_impl; [|exact Hz]. simpl. intros. lia. }
  assert (Hco : counts ones).
  { split; [exact Hlo|]. eapply Forall_impl; [|exact Ho]. simpl. intros. lia. }
  assert (Hsmall : forall b, imbalance zeros ones b < INT32_MAX).
  { intros b. unfold imbalance, int_at.
    assert (Hb : forall arr, Forall (fun x => 0 <= x <= n) arr ->
                             0 <= nth (Z.to_nat b) arr 0 <= n).
    { intros arr Harr. destruct (nth_in_or_default (Z.to_nat b) arr 0) as [Hin | ->].
      - rewrite Forall_forall in Harr. apply Harr, Hin.
      - rewrite Forall_forall in Hz. destruct zeros as [|z0 zs]; [discriminate|].
        specialize (Hz z0 (or_introl eq_refl)). lia. }
    pose proof (Hb zeros Hz). pose proof (Hb ones Ho). lia. }
  destruct (which_to_split_inv mask zeros ones Hcz Hco) as (diff & Hmin & Hpos).
  fold p in Hpos.
  destruct Hpos as [[Hp0 Hdiff]|(Hp & Hclear & _)].
  - rewrite Hp0. split; [lia|].
    destruct (Z.testbit mask 0) eqn:Hb0; [|reflexivity].
    exfalso. apply Hnotfull. apply all_bits_set; [exact Hmask|].
    intros q Hq. destruct (Z.eq_dec q 0) as [->|Hne]; [exact Hb0|].
    destruct (Z.testbit mask q) eqn:Hbq; [reflexivity|].
    specialize (Hmin q ltac:(lia) Hbq). specialize (Hsmall q). lia.
  - split; [lia|exact Hclear].
Qed.

(** * The counters of [split_shard] *)

Lemma bump_length arr : forall j, length (Disk.bump arr j) = length arr.
Proof.
  induction arr as [|x arr IH]; intros [|j]; cbn [Disk.bump length]; try reflexivity.
  rewrite IH. reflexivity.
Qed.

Lemma nth_bump_same arr : forall j,
  (j < length arr)%nat -> nth j (Disk.bump arr j) 0 = s32 (nth j arr 0 + 1).
Proof.
  induction arr as [|x arr IH]; intros [|j] Hj; cbn [Disk.bump length nth] in *;
    try lia; try reflexivity.
  apply IH. lia.
Qed.

Lemma nth_bump_other arr : forall j k,
  k <> j -> nth k (Disk.bump arr j) 0 = nth k arr 0.
Proof.
  induction arr as [|x arr IH]; intros [|j] [|k] Hne; cbn [Disk.bump nth];
    try reflexivity; try congruence.
  apply IH. congruence.
Qed.

Lemma grown_start a : grown 0 a a.
Proof. split; [reflexivity|]. intros k. split; [lia|reflexivity]. Qed.

Lemma grown_keep j a a' : grown j a a' -> grown (S j) a a'.
Proof.
  intros [Hlen Hk]. split; [exact Hlen|].
  intros k. destruct (Hk k) as [Hb Hsame]. split; [exact Hb|].
  intros Hle. apply Hsame. lia.
Qed.

Lemma grown_bump j a a' :
  grown j a a' -> (j < length a)%nat -> 0 <= nth j a 0 < INT32_MAX ->
  grown (S j) a (Disk.bump a' j).
Proof.
  intros [Hlen Hk] Hj Hsmall. split; [rewrite bump_length; exact Hlen|].
  intros k. destruct (Hk k) as [Hb Hsame].
  destruct (Nat.eq_dec k j) as [->|Hne].
  - rewrite nth_bump_same by lia. rewrite Hsame by lia.
    rewrite s32_small by (unfold is_s32, INT32_MAX in *; lia).
    split; [lia|]. intros Hle. lia.
  - rewrite nth_bump_other by exact Hne. split; [exact Hb|].
    intros Hle. apply Hsame. lia.
Qed.

Lemma counters_nth n arr k : counters n arr -> 0 <= nth k arr 0 <= n.
Proof.
  intros [Hlen Hall].
  destruct (nth_in_or_default k arr 0) as [Hin|Hd].
  - rewrite Forall_forall in Hall. apply Hall, Hin.
  - rewrite Hd. destruct arr as [|x arr]; [discriminate|].
    apply Forall_inv in Hall. lia.
Qed.

Lemma counters_grown n j a a' :
  counters n a -> grown j a a' -> counters (n + 1) a'.
Proof.
  intros Ha [Hlen Hk]. split; [destruct Ha; congruence|].
  apply Forall_forall. intros x Hin.
  destruct (In_nth a' x 0 Hin) as (k & _ & <-).
  destruct (Hk k) as [Hb _]. pose proof (counters_nth n a k Ha). lia.
Qed.

Lemma counters_zero : counters 0 (repeat 0 32).
Proof.
  split; [reflexivity|]. apply Forall_forall. intros x Hin.
  apply repeat_spec in Hin. lia.
Qed.

Lemma counts_of_counters n arr : n < INT32_MAX -> counters n arr -> counts arr.
Proof.
  intros Hn [Hlen Hall]. split; [exact Hlen|].
  eapply Forall_impl; [|exact Hall]. cbv beta. unfold INT32_MAX in *. intros. lia.
Qed.

(** A loop over the positions [j0 .. j0 + len - 1] keeps what every
    iteration keeps. *)
Lemma fold_positions {A : Type} (f : A -> nat -> A) (P : nat -> A -> Prop) :
  forall len j0 a,
    (forall j x, (j0 <= j < j0 + len)%nat -> P j x -> P (S j) (f x j)) ->
    P j0 a -> P (j0 + len)%nat (fold_left f (seq j0 len) a).
Proof.
  induction len as [|len IH]; intros j0 a Hstep Hstart.
  - rewrite Nat.add_0_r. exact Hstart.
  - replace (j0 + S len)%nat with (S j0 + len)%nat by lia.
    change (fold_left f (seq j0 (S len)) a)
      with (fold_left f (seq (S j0) len) (f a j0)).
    apply IH.
    + intros j x Hj. apply Hstep. lia.
    + apply Hstep; [lia|exact Hstart].
Qed.

Section Counting.
Variable c : coordinate.
Variable n : Z.
Hypothesis Hn : n < INT32_MAX.

(** One snapshot entry adds one at most to each counter of the first pass. *)
Lemma count_secondary_counters zeros ones entry :
  counters n zeros -> counters n ones ->
  counters (n + 1) (fst (Disk.count_secondary c (zeros, ones) entry))
  /\ counters (n + 1) (snd (Disk.count_secondary c (zeros, ones) entry)).
Proof.
  intros Hz Ho.
  assert (Hg : grown 32 zeros (fst (Disk.count_secondary c (zeros, ones) entry))
               /\ grown 32 ones (snd (Disk.count_secondary c (zeros, ones) entry))).
  { unfold Disk.count_secondary.
    apply (fold_positions _ (fun j cnt => grown j zeros (fst cnt) /\ grown j ones (snd cnt))
                          32 0 (zeros, ones)).
    - intros j [z o] Hj [Hgz Hgo]. cbn [fst snd] in Hgz, Hgo.
      pose proof (counters_nth n zeros j Hz).
      pose proof (counters_nth n ones j Ho).
      destruct Hz as [Hlz _], Ho as [Hlo _].
      destruct (negb (Z.land (secondary_mask c) _ =? 0)); cbn [fst snd].
      + split; apply grown_keep; assumption.
      + destruct (negb (Z.land (snd entry) _ =? 0)); cbn [fst snd].
        * split; [apply grown_keep; assumption|apply grown_bump; [assumption|lia|lia]].
        * split; [apply grown_bump; [assumption|lia|lia]|apply grown_keep; assumption].
    - split; apply grown_start. }
  destruct Hg as [Hgz Hgo].
  split; [exact (counters_grown _ _ _ _ Hz Hgz)|exact (counters_grown _ _ _ _ Ho Hgo)].
Qed.

(** One snapshot entry adds one at most to each counter of the second
    pass. *)
Lemma count_primary_counters bit zl ol zu ou entry :
  counters n zl -> counters n ol -> counters n zu -> counters n ou ->
  match Disk.count_primary c bit (zl, ol, zu, ou) entry with
  | (zl', ol', zu', ou') =>
      counters (n + 1) zl' /\ counters (n + 1) ol'
      /\ counters (n + 1) zu' /\ counters (n + 1) ou'
  end.
Proof.
  intros Hzl Hol Hzu Hou.
  assert (Hg : match Disk.count_primary c bit (zl, ol, zu, ou) entry with
               | (zl', ol', zu', ou') =>
                   grown 32 zl zl' /\ grown 32 ol ol' /\ grown 32 zu zu' /\ grown 32 ou ou'
               end).
  { unfold Disk.count_primary.
    apply (fold_positions _ (fun j (cnt : list Z * list Z * list Z * list Z) =>
                               match cnt with
                               | (a1, a2, a3, a4) =>
                                   grown j zl a1 /\ grown j ol a2
                                   /\ grown j zu a3 /\ grown j ou a4
                               end)
                          32 0 (zl, ol, zu, ou)).
    - intros j [[[a1 a2] a3] a4] Hj (G1 & G2 & G3 & G4).
      pose proof (counters_nth n zl j Hzl).
      pose proof (counters_nth n ol j Hol).
      pose proof (counters_nth n zu j Hzu).
      pose proof (counters_nth n ou j Hou).
      destruct Hzl as [L1 _], Hol as [L2 _], Hzu as [L3 _], Hou as [L4 _].
      destruct (negb (Z.land (primary_mask c) _ =? 0)).
      + split; [|split; [|split]]; apply grown_keep; assumption.
      + destruct (negb (Z.land (snd entry) bit =? 0));
          destruct (negb (Z.land (fst entry) _ =? 0));
          (split; [|split; [|split]]); try (apply grown_keep; assumption);
          (apply grown_bump; [assumption|lia|lia]).
    - split; [|split; [|split]]; apply grown_start. }
  destruct (Disk.count_primary c bit (zl, ol, zu, ou) entry) as [[[zl' ol'] zu'] ou'].
  destruct Hg as (G1 & G2 & G3 & G4).
  split; [exact (counters_grown _ _ _ _ Hzl G1)|].
  split; [exact (counters_grown _ _ _ _ Hol G2)|].
  split; [exact (counters_grown _ _ _ _ Hzu G3)|exact (counters_grown _ _ _ _ Hou G4)].
Qed.

End Counting.

Lemma fold_left_step {A B : Type} (f : A -> B -> A) (x : B) (l : list B) (a : A) :
  fold_left f (x :: l) a = fold_left f l (f a x).
Proof. reflexivity. Qed.

(** After the first pass over a snapshot no counter exceeds the number of
    its entries. *)
Lemma first_pass_counters c snap : forall n zeros ones,
  0 <= n -> n + Z.of_nat (length snap) < INT32_MAX ->
  counters n zeros -> counters n ones ->
  counters (n + Z.of_nat (length snap))
           (fst (fold_left (Disk.count_secondary c) snap (zeros, ones)))
  /\ counters (n + Z.of_nat (length snap))
              (snd (fold_left (Disk.count_secondary c) snap (zeros, ones))).
Proof.
  induction snap as [|e snap IH]; intros n zeros ones Hn0 Hn Hz Ho.
  - cbn [fold_left length fst snd]. rewrite Z.add_0_r. split; assumption.
  - rewrite fold_left_step.
    assert (Hn1 : n < INT32_MAX) by (cbn [length] in Hn; lia).
    destruct (count_secondary_counters c n Hn1 zeros ones e Hz Ho) as [Hz1 Ho1].
    destruct (Disk.count_secondary c (zeros, ones) e) as [z1 o1].
    cbn [fst snd] in Hz1, Ho1.
    replace (n + Z.of_nat (length (e :: snap))) with (n + 1 + Z.of_nat (length snap))
      by (cbn [length]; lia).
    apply IH; [lia|cbn [length] in Hn; lia|assumption|assumption].
Qed.

Lemma second_pass_counters c bit snap : forall n zl ol zu ou,
  0 <= n -> n + Z.of_nat (length snap) < INT32_MAX ->
  counters n zl -> counters n ol -> counters n zu -> counters n ou ->
  match fold_left (Disk.count_primary c bit) snap (zl, ol, zu, ou) with
  | (zl', ol', zu', ou') =>
      counters (n + Z.of_nat (length snap)) zl'
      /\ counters (n + Z.of_nat (length snap)) ol'
      /\ counters (n + Z.of_nat (length snap)) zu'
      /\ counters (n + Z.of_nat (length snap)) ou'
  end.
Proof.
  induction snap as [|e snap IH]; intros n zl ol zu ou Hn0 Hn H1 H2 H3 H4.
  - cbn [fold_left length]. rewrite Z.add_0_r.
    split; [|split; [|split]]; assumption.
  - rewrite fold_left_step.
    assert (Hn1 : n < INT32_MAX) by (cbn [length] in Hn; lia).
    pose proof (count_primary_counters c n Hn1 bit zl ol zu ou e H1 H2 H3 H4) as Hc.
    destruct (Disk.count_primary c bit (zl, ol, zu, ou) e) as [[[a1 a2] a3] a4].
    destruct Hc as (G1 & G2 & G3 & G4).
    replace (n + Z.of_nat (length (e :: snap))) with (n + 1 + Z.of_nat (length snap))
      by (cbn [length]; lia).
    apply IH; try assumption; [lia|cbn [length] in Hn; lia].
Qed.

(** * The search-log length of a shard *)

Section ShortLog.
Context {K : shard_constants}.
Hypothesis HK : constants_ok K.

Lemma search_entries_small : 0 < SEARCH_INDEX_ENTRIES < 2 ^ 27.
Proof. destruct HK. lia. Qed.

Lemma make_snapshot_length s :
  short_log s ->
  Z.of_nat (length (Shard.make_snapshot s)) <= SEARCH_INDEX_ENTRIES.
Proof.
  intros [Hlo Hhi]. unfold Shard.make_snapshot.
  assert (Hle : forall (f : nat -> list (Z * Z)) l,
             (forall x, (length (f x) <= 1)%nat) ->
             (length (flat_map f l) <= length l)%nat).
  { intros f l Hf. induction l as [|x l IH]; [reflexivity|].
    cbn [flat_map]. rewrite length_app. cbn [length]. specialize (Hf x). lia. }
  match goal with
  | |- Z.of_nat (length (flat_map ?f ?l)) <= _ =>
      assert (Hlen : (length (flat_map f l) <= length l)%nat)
  end.
  { apply Hle. intros x. destruct (_ =? 0); cbn [length]; lia. }
  rewrite length_seq in Hlen. lia.
Qed.

Lemma create_short_log : short_log Shard.create.
Proof.
  unfold short_log, Shard.create. cbn [Shard.m_search_offset].
  pose proof search_entries_small. lia.
Qed.

Lemma put_short_log s ph sh key value version rc s' flushed :
  short_log s ->
  Shard.put s ph sh key value version = Some (rc, s', flushed) ->
  short_log s'.
Proof.
  intros Hs Hput. unfold Shard.put in Hput.
  destruct (_ >? _); [injection Hput as _ <- _; exact Hs|].
  destruct (Z.eqb_spec (Shard.m_search_offset s) SEARCH_INDEX_ENTRIES) as [|Hne];
    [injection Hput as _ <- _; exact Hs|].
  destruct (Shard.hash_lookup _ _ _) as [[entry table_value]|]; [|discriminate].
  destruct (Shard.pack_value _ _ _) as [m curr_offset].
  apply (f_equal (fun o => option_map (fun r => Shard.m_search_offset (snd (fst r))) o)) in Hput.
  cbn [option_map fst snd Shard.m_search_offset] in Hput.
  injection Hput as Hmso.
  unfold short_log in *. rewrite <- Hmso.
  pose proof search_entries_small.
  rewrite u32_small by (unfold is_u32; lia). lia.
Qed.

Lemma del_short_log s ph key rc s' :
  short_log s -> Shard.del s ph key = Some (rc, s') -> short_log s'.
Proof.
  intros Hs Hdel. unfold Shard.del in Hdel.
  destruct (Shard.hash_lookup _ _ _) as [[entry table_value]|]; [|discriminate].
  destruct (_ || _); [injection Hdel as _ <-; exact Hs|].
  destruct (_ >? _); [injection Hdel as _ <-; exact Hs|].
  apply (f_equal (fun o => option_map (fun r => Shard.m_search_offset (snd r)) o)) in Hdel.
  cbn [option_map fst snd Shard.m_search_offset] in Hdel.
  injection Hdel as Hmso. unfold short_log in *. rewrite <- Hmso. exact Hs.
Qed.

Lemma copy_to_loop_short_log src c : forall remaining ent dst r,
  0 <= Shard.m_search_offset dst ->
  Shard.m_search_offset dst + Z.of_nat remaining <= SEARCH_INDEX_ENTRIES ->
  Shard.copy_to_loop src c remaining ent dst = Some r ->
  short_log r.
Proof.
  pose proof search_entries_small as HS.
  induction remaining as [|remaining IH]; intros ent dst r Hlo Hhi Hloop.
  - cbn [Shard.copy_to_loop] in Hloop. injection Hloop as <-.
    unfold short_log. lia.
  - cbn [Shard.copy_to_loop] in Hloop.
    destruct (negb (hi32 _ =? 0)); [apply (IH _ _ _ Hlo ltac:(lia) Hloop)|].
    destruct (negb (intersects _ _)); [apply (IH _ _ _ Hlo ltac:(lia) Hloop)|].
    destruct (lo32 _ =? 0); [injection Hloop as <-; unfold short_log; lia|].
    destruct (Shard.hash_lookup_empty _ _) as [bucket|]; [|discriminate].
    apply IH in Hloop; [exact Hloop| |]; cbn [Shard.m_search_offset];
      rewrite u32_small by (unfold is_u32; lia); lia.
Qed.

Lemma copy_to_short_log src c s r :
  Shard.copy_to src c s = Some r -> short_log r.
Proof.
  pose proof search_entries_small as HS.
  unfold Shard.copy_to. apply copy_to_loop_short_log; cbn [Shard.m_search_offset]; lia.
Qed.

End ShortLog.

(** * The disk: what every step keeps *)

Lemma Forall_firstn {A : Type} (P : A -> Prop) (l : list A) :
  forall n, Forall P l -> Forall P (firstn n l).
Proof.
  induction l as [|x l IH]; intros [|n] Hall; cbn [firstn]; try constructor.
  - apply (Forall_inv Hall).
  - apply IH. apply (Forall_inv_tail Hall).
Qed.

Lemma Forall_skipn {A : Type} (P : A -> Prop) (l : list A) :
  forall n, Forall P l -> Forall P (skipn n l).
Proof.
  induction l as [|x l IH]; intros [|n] Hall; cbn [skipn]; try assumption.
  apply IH. apply (Forall_inv_tail Hall).
Qed.

Lemma replace_Forall (P : coordinate * Disk.shard_ptr -> Prop) v :
  forall i c sp s',
    Forall P v -> nth_error v i = Some (c, sp) -> P (c, s') ->
    Forall P (Disk.replace v i s').
Proof.
  induction v as [|[c0 s0] v IH]; intros [|i] c sp s' Hall Hnth Hnew;
    cbn [Disk.replace nth_error] in *; try discriminate.
  - assert (c0 = c) as -> by congruence.
    constructor; [exact Hnew|apply (Forall_inv_tail Hall)].
  - constructor; [apply (Forall_inv Hall)|].
    apply (IH i c sp s'); [apply (Forall_inv_tail Hall)|exact Hnth|exact Hnew].
Qed.

Lemma balanced_child c p q ph sh :
  balanced c ->
  0 <= p <= 31 -> Z.testbit (primary_mask c) p = false ->
  0 <= q <= 31 -> Z.testbit (secondary_mask c) q = false ->
  balanced (mk_coordinate (Z.lor (primary_mask c) (2 ^ p)) ph
                          (Z.lor (secondary_mask c) (2 ^ q)) sh).
Proof.
  intros (Hup & Hus & Hpop) Hp Hpc Hq Hqc. unfold balanced.
  cbn [primary_mask secondary_mask].
  split; [apply lor_bit_u32; assumption|].
  split; [apply lor_bit_u32; assumption|].
  rewrite !popcount_set_bit by assumption. rewrite Hpop. reflexivity.
Qed.

Section DiskInvariantFacts.
Context {K : shard_constants}.
Hypothesis HK : constants_ok K.
Variable CityHash64 : buffer -> Z.
Variable CityHash64_each : list buffer -> list Z.
Variable lower_interlace : list Z -> Z.

Lemma disk_inv_same_shards d d' :
  Disk.m_shards d' = Disk.m_shards d -> disk_inv d -> disk_inv d'.
Proof. unfold disk_inv. intros ->. exact (fun H => H). Qed.

Lemma disk_inv_nth d i c sp :
  disk_inv d -> nth_error (Disk.m_shards d) i = Some (c, sp) ->
  balanced c /\ short_log (Disk.target sp).
Proof.
  unfold disk_inv. intros Hall Hnth. rewrite Forall_forall in Hall.
  apply (Hall (c, sp)). eapply nth_error_In. exact Hnth.
Qed.

Lemma disk_inv_replace d i c sp f s' :
  disk_inv d -> nth_error (Disk.m_shards d) i = Some (c, sp) -> short_log s' ->
  Forall (fun cs => balanced (fst cs) /\ short_log (Disk.target (snd cs)))
         (Disk.replace (Disk.m_shards d) i (Disk.mk_shard_ptr f s')).
Proof.
  intros Hinv Hnth Hs'. apply (replace_Forall _ _ i c sp); [exact Hinv|exact Hnth|].
  cbn [fst snd Disk.target]. split; [|exact Hs'].
  apply (disk_inv_nth d i c sp Hinv Hnth).
Qed.

Lemma drop_shard_shards d c :
  Disk.m_shards (snd (Disk.drop_shard d c)) = Disk.m_shards d.
Proof. unfold Disk.drop_shard. destruct (Disk.unlink _ _); reflexivity. Qed.

Lemma drop_tmp_shard_shards d c :
  Disk.m_shards (snd (Disk.drop_tmp_shard d c)) = Disk.m_shards d.
Proof. unfold Disk.drop_tmp_shard. destruct (Disk.unlink _ _); reflexivity. Qed.

Lemma run_guards_shards guards : forall d,
  Disk.m_shards (Disk.run_guards d guards) = Disk.m_shards d.
Proof.
  unfold Disk.run_guards.
  induction guards as [|g guards IH]; intros d; [reflexivity|].
  cbn [fold_left]. rewrite IH. apply drop_shard_shards.
Qed.

(** [clean_shard] keeps the invariant, whether it returns or throws. *)
Lemma clean_shard_inv d i :
  disk_inv d ->
  match Disk.clean_shard d i with
  | Disk.Returns _ d' | Disk.Throws d' => disk_inv d'
  | Disk.Undefined => True
  end.
Proof.
  intros Hinv. unfold Disk.clean_shard.
  destruct (nth_error (Disk.m_shards d) i) as [[c s]|] eqn:Hnth; [|exact I].
  pose proof (create_tmp_shard_shards d c) as Hsame.
  destruct (Disk.create_tmp_shard d c) as [newshard d1|d1|];
    [|exact (disk_inv_same_shards _ _ Hsame Hinv)|exact I].
  destruct (Shard.copy_to _ _ _) as [copied|] eqn:Hcopy; [|exact I].
  apply (copy_to_short_log HK) in Hcopy.
  destruct (Disk.renameat _ _ _) as [dir|].
  - unfold disk_inv. cbn [Disk.set_shards Disk.set_base Disk.m_shards].
    rewrite Hsame. apply (disk_inv_replace d i c s); assumption.
  - pose proof (drop_tmp_shard_shards d1 c) as Hdrop.
    destruct (Disk.drop_tmp_shard d1 c) as [rc d2]. cbn [snd] in Hdrop.
    apply (disk_inv_same_shards d). { congruence. } exact Hinv.
Qed.

(** A child of a split is created with the shard vector left alone, and the
    copy it holds has a search log of a possible length. *)
Lemma create_and_copy_spec d s c :
  match Disk.create_and_copy d s c with
  | Disk.Returns child d' =>
      Disk.m_shards d' = Disk.m_shards d /\ short_log (Disk.target child)
  | Disk.Throws d' => Disk.m_shards d' = Disk.m_shards d
  | Disk.Undefined => True
  end.
Proof.
  unfold Disk.create_and_copy.
  pose proof (create_shard_shards d c) as Hsame.
  destruct (Disk.create_shard d c) as [child d1|d1|]; [|exact Hsame|exact I].
  destruct (Shard.copy_to _ _ _) as [copied|] eqn:Hcopy; [|exact I].
  split; [exact Hsame|]. cbn [Disk.target]. apply (copy_to_short_log HK _ _ _ _ Hcopy).
Qed.

End DiskInvariantFacts.

Section SplitFacts.
Context {K : shard_constants}.
Hypothesis HK : constants_ok K.

(** The three positions [split_shard] picks are positions of bits that are
    clear, when neither mask is full. *)
Lemma split_positions_clear c s :
  balanced c -> short_log s ->
  primary_mask c <> UINT32_MAX -> secondary_mask c <> UINT32_MAX ->
  let snap := Shard.make_snapshot s in
  let cnt := fold_left (Disk.count_secondary c) snap (repeat 0 32, repeat 0 32) in
  let secondary_split := which_to_split (secondary_mask c) (fst cnt) (snd cnt) in
  (0 <= secondary_split <= 31 /\ Z.testbit (secondary_mask c) secondary_split = false)
  /\ forall bit,
      match fold_left (Disk.count_primary c bit) snap
                      (repeat 0 32, repeat 0 32, repeat 0 32, repeat 0 32) with
      | (zeros_lower, ones_lower, zeros_upper, ones_upper) =>
          let lower := which_to_split (primary_mask c) zeros_lower ones_lower in
          let upper := which_to_split (primary_mask c) zeros_upper ones_upper in
          (0 <= lower <= 31 /\ Z.testbit (primary_mask c) lower = false)
          /\ (0 <= upper <= 31 /\ Z.testbit (primary_mask c) upper = false)
      end.
Proof.
  intros (Hup & Hus & _) Hshort Hpm Hsm snap cnt secondary_split.
  pose proof (make_snapshot_length s Hshort) as Hlen. fold snap in Hlen.
  pose proof (search_entries_small HK) as HS.
  assert (Hn : 0 + Z.of_nat (length snap) < INT32_MAX) by (unfold INT32_MAX; lia).
  split.
  - destruct (first_pass_counters c snap 0 (repeat 0 32) (repeat 0 32)
                                  ltac:(lia) Hn counters_zero counters_zero) as [Hz Ho].
    fold cnt in Hz, Ho.
    apply (which_to_split_clear _ _ _ (0 + Z.of_nat (length snap))); assumption.
  - intros bit.
    pose proof (second_pass_counters c bit snap 0 (repeat 0 32) (repeat 0 32)
                                     (repeat 0 32) (repeat 0 32)
                                     ltac:(lia) Hn counters_zero counters_zero
                                     counters_zero counters_zero) as Hc.
    destruct (fold_left (Disk.count_primary c bit) snap _) as [[[zl ol] zu] ou].
    destruct Hc as (H1 & H2 & H3 & H4).
    split; apply (which_to_split_clear _ _ _ (0 + Z.of_nat (length snap))); assumption.
Qed.


(** [split_shard] on a shard whose masks are not full: it does not throw;
    when it fails the shard vector is as before, when it succeeds the shard
    has made room for four children, each with one more bit fixed in either
    mask. *)
Lemma split_shard_spec d i c sp :
  nth_error (Disk.m_shards d) i = Some (c, sp) ->
  balanced c -> short_log (Disk.target sp) ->
  primary_mask c <> UINT32_MAX -> secondary_mask c <> UINT32_MAX ->
  match Disk.split_shard d i with
  | Disk.Returns rc d' =>
      (rc = SPLITFAILED /\ Disk.m_shards d' = Disk.m_shards d)
      \/ (rc = SUCCESS /\ split_result d d' i)
  | Disk.Throws _ => False
  | Disk.Undefined => True
  end.
Proof.
  intros Hnth Hc Hshort Hpm Hsm.
  destruct (split_positions_clear c (Disk.target sp) Hc Hshort Hpm Hsm) as [[Hsr Hsc] Hprimary].
  unfold Disk.split_shard. rewrite Hnth. cbv zeta.
  remember (fold_left (Disk.count_secondary c) (Shard.make_snapshot (Disk.target sp))
                      (repeat 0 32, repeat 0 32)) as cnt eqn:Hcnt.
  destruct cnt as [zeros ones]. cbn [fst snd] in Hsr, Hsc.
  remember (which_to_split (secondary_mask c) zeros ones) as secondary_split eqn:Hss.
  rewrite (one_shifted secondary_split Hsr).
  specialize (Hprimary (2 ^ secondary_split)).
  remember (fold_left (Disk.count_primary c (2 ^ secondary_split))
                      (Shard.make_snapshot (Disk.target sp))
                      (repeat 0 32, repeat 0 32, repeat 0 32, repeat 0 32)) as cnt4 eqn:Hcnt4.
  destruct cnt4 as [[[zeros_lower ones_lower] zeros_upper] ones_upper].
  cbv zeta in Hprimary. destruct Hprimary as [[Hlr Hlc] [Hur Huc]].
  remember (which_to_split (primary_mask c) zeros_lower ones_lower) as lower eqn:Hlower.
  remember (which_to_split (primary_mask c) zeros_upper ones_upper) as upper eqn:Hupper.
  rewrite (one_shifted lower Hlr), (one_shifted upper Hur).
  clear Hcnt Hcnt4 Hss Hlower Hupper.
  next_child (create_and_copy_spec HK) H1 zero_zero d1; [|left; split; [reflexivity|exact H1]|exact I].
  destruct H1 as [E1 S1].
  next_child (create_and_copy_spec HK) H2 zero_one d2;
    [|left; split; [reflexivity|rewrite run_guards_shards; congruence]|exact I].
  destruct H2 as [E2 S2].
  next_child (create_and_copy_spec HK) H3 one_zero d3;
    [|left; split; [reflexivity|rewrite run_guards_shards; congruence]|exact I].
  destruct H3 as [E3 S3].
  next_child (create_and_copy_spec HK) H4 one_one d4;
    [|left; split; [reflexivity|rewrite run_guards_shards; congruence]|exact I].
  destruct H4 as [E4 S4].
  match goal with
  | |- context [Disk.drop_shard ?d0 ?c0] =>
      pose proof (drop_shard_shards d0 c0) as Hdrop;
      destruct (Disk.drop_shard d0 c0) as [rc d5]
  end.
  cbn [snd Disk.set_shards Disk.m_shards] in Hdrop.
  right. split; [reflexivity|].
  unfold split_result. do 8 eexists.
  split; [rewrite Hdrop; replace (Disk.m_shards d4) with (Disk.m_shards d) by congruence;
          reflexivity|].
  split; [split; [apply balanced_child; assumption|exact S1]|].
  split; [split; [apply balanced_child; assumption|exact S2]|].
  split; [split; [apply balanced_child; assumption|exact S3]|].
  split; [apply balanced_child; assumption|exact S4].
Qed.

Lemma split_result_inv d d' i :
  disk_inv d -> split_result d d' i -> disk_inv d'.
Proof.
  intros Hinv (c1 & s1 & c2 & s2 & c3 & s3 & c4 & s4 & Hv & H1 & H2 & H3 & H4).
  unfold disk_inv. rewrite Hv. unfold Disk.replace4.
  apply Forall_app. split; [apply Forall_firstn; exact Hinv|].
  apply Forall_app. split; [apply Forall_skipn; exact Hinv|].
  apply Forall_cons; [exact H1|]. apply Forall_cons; [exact H2|].
  apply Forall_cons; [exact H3|]. apply Forall_cons; [exact H4|]. apply Forall_nil.
Qed.

(** [deal_with_full_shard] keeps the invariant. *)
Lemma deal_with_full_shard_inv d i :
  disk_inv d ->
  match Disk.deal_with_full_shard d i with
  | Disk.Returns _ d' | Disk.Throws d' => disk_inv d'
  | Disk.Undefined => True
  end.
Proof.
  intros Hinv. unfold Disk.deal_with_full_shard.
  destruct (nth_error (Disk.m_shards d) i) as [[c sp]|] eqn:Hnth; [|exact I].
  destruct (disk_inv_nth d i c sp Hinv Hnth) as [Hc Hshort].
  destruct (Shard.stale_space _ >=? 30); [apply (clean_shard_inv HK); exact Hinv|].
  destruct (Z.eqb_spec (primary_mask c) UINT32_MAX) as [|Hpm]; [exact Hinv|].
  destruct (Z.eqb_spec (secondary_mask c) UINT32_MAX) as [|Hsm]; [exact Hinv|].
  cbn [orb].
  pose proof (split_shard_spec d i c sp Hnth Hc Hshort Hpm Hsm) as Hsplit.
  destruct (Disk.split_shard d i) as [rc d'|d'|]; [|contradiction|exact I].
  destruct Hsplit as [[_ Hsame]|[_ Hres]].
  - exact (disk_inv_same_shards _ _ Hsame Hinv).
  - exact (split_result_inv d d' i Hinv Hres).
Qed.

End SplitFacts.

(** * Reachable disks *)

Lemma reached_trans (R : Disk.disk -> Disk.disk -> Prop) d0 d1 d2 :
  reached R d0 d1 -> reached R d1 d2 -> reached R d0 d2.
Proof.
  intros H01 H12. induction H12 as [|d d' _ IH Hstep]; [exact H01|].
  exact (reached_step R d0 d d' IH Hstep).
Qed.

Lemma reached_one (R : Disk.disk -> Disk.disk -> Prop) d0 d1 :
  R d0 d1 -> reached R d0 d1.
Proof. intros H. exact (reached_step R d0 d0 d1 (reached_start R d0) H). Qed.

Lemma reached_mono (R R' : Disk.disk -> Disk.disk -> Prop) d0 d :
  (forall a b, R a b -> R' a b) -> reached R d0 d -> reached R' d0 d.
Proof.
  intros Hsub H. induction H as [|d d' _ IH Hstep]; [apply reached_start|].
  exact (reached_step R' d0 d d' IH (Hsub _ _ Hstep)).
Qed.

Section Reachable.
Context {K : shard_constants}.
Hypothesis HK : constants_ok K.
Variable CityHash64 : buffer -> Z.
Variable CityHash64_each : list buffer -> list Z.
Variable lower_interlace : list Z -> Z.

Local Abbreviation quiet := (quiet_step CityHash64 CityHash64_each lower_interlace).
Local Abbreviation steps := (step CityHash64 CityHash64_each lower_interlace).

Lemma quiet_step_inv d d' : disk_inv d -> quiet d d' -> disk_inv d'.
Proof.
  intros Hinv Hstep. destruct Hstep.
  - unfold Disk.put. destruct (negb _); exact Hinv.
  - exact Hinv.
  - unfold disk_inv. cbn [Disk.set_shards Disk.m_shards].
    apply (disk_inv_replace d i c sp); [exact Hinv|assumption|].
    apply (del_short_log _ _ _ _ _ (proj2 (disk_inv_nth d i c sp Hinv H0)) H1).
  - unfold disk_inv. cbn [Disk.set_shards Disk.m_shards].
    apply (disk_inv_replace d i c sp); [exact Hinv|assumption|].
    apply (put_short_log HK _ _ _ _ _ _ _ _ _ (proj2 (disk_inv_nth d i c sp Hinv H0)) H1).
  - exact Hinv.
  - pose proof (clean_shard_inv HK d i Hinv) as Hc. rewrite H in Hc. exact Hc.
  - pose proof (clean_shard_inv HK d i Hinv) as Hc. rewrite H in Hc. exact Hc.
  - exact Hinv.
Qed.

Lemma step_inv d d' : disk_inv d -> steps d d' -> disk_inv d'.
Proof.
  intros Hinv Hstep. destruct Hstep as [d d' Hq|d i rc d' Hfull|d i d' Hfull].
  - exact (quiet_step_inv d d' Hinv Hq).
  - pose proof (deal_with_full_shard_inv HK d i Hinv) as Hd. rewrite Hfull in Hd. exact Hd.
  - pose proof (deal_with_full_shard_inv HK d i Hinv) as Hd. rewrite Hfull in Hd. exact Hd.
Qed.

(** The constructor returns, with the one shard of coordinate (0, 0, 0, 0). *)
Lemma new_returns dir files arity :
  exists s d0,
    Disk.new dir files arity = Disk.Returns tt d0
    /\ Disk.m_shards d0 = [(mk_coordinate 0 0 0 0, s)]
    /\ Disk.target s = Shard.create.
Proof.
  unfold Disk.new, Disk.create_shard. cbn [Disk.m_spare_shards Disk.create_file].
  eexists. eexists. split; [reflexivity|]. split; reflexivity.
Qed.

Lemma new_inv dir files arity d0 :
  Disk.new dir files arity = Disk.Returns tt d0 -> disk_inv d0.
Proof.
  intros Hnew. destruct (new_returns dir files arity) as (s & d1 & Hret & Hshards & Hs).
  assert (d1 = d0) as -> by congruence.
  unfold disk_inv. rewrite Hshards. apply Forall_cons; [|apply Forall_nil].
  cbn [fst snd]. split.
  - unfold balanced, is_u32. cbn [primary_mask secondary_mask].
    split; [lia|]. split; [lia|reflexivity].
  - rewrite Hs. apply (create_short_log HK).
Qed.

(** On every disk the program can be in, the masks of every coordinate fix
    the same number of bits, and no search log is too long. *)
Lemma reachable_inv d :
  reachable CityHash64 CityHash64_each lower_interlace d -> disk_inv d.
Proof.
  intros (dir & files & arity & d0 & Hnew & Hreached).
  induction Hreached as [|d d' _ IH Hstep].
  - exact (new_inv dir files arity d0 Hnew).
  - exact (step_inv d d' IH Hstep).
Qed.

(** ** [flush] goes through steps *)

(** The first inner loop of [flush] goes through quiet steps, and where it
    leaves for [deal_with_full_shard] it has gone through quiet steps. *)
Lemma flush_del_steps e rest : forall remaining d i,
  Disk.m_log d = e :: rest ->
  match Disk.flush_del d e remaining i with
  | Disk.Falls_through d' => reached quiet d d' /\ Disk.m_log d' = e :: rest
  | Disk.Leaves o =>
      o = Disk.Undefined
      \/ exists d' j, reached quiet d d' /\ o = Disk.deal_with_full_shard d' j
  end.
Proof.
  induction remaining as [|remaining IH]; intros d i Hlog; cbn [Disk.flush_del].
  - split; [apply reached_start|exact Hlog].
  - destruct (nth_error (Disk.m_shards d) i) as [[ci si]|] eqn:Hnth;
      [|split; [apply reached_start|exact Hlog]].
    destruct (negb (primary_contains ci (Disk.coord e))); [apply IH; exact Hlog|].
    destruct (Shard.del _ _ _) as [[rc s']|] eqn:Hdel; [|left; reflexivity].
    pose proof (step_shard_del CityHash64 CityHash64_each lower_interlace
                               d e rest i ci si rc s' Hlog Hnth Hdel) as Hstep.
    remember (Disk.set_shards d (Disk.replace (Disk.m_shards d) i
                                              (Disk.mk_shard_ptr (Disk.file si) s')))
      as d1 eqn:Hd1.
    assert (Hlog1 : Disk.m_log d1 = e :: rest) by (rewrite Hd1; exact Hlog).
    assert (Hnext : match Disk.flush_del d1 e remaining (S i) with
                    | Disk.Falls_through d' =>
                        reached quiet d d' /\ Disk.m_log d' = e :: rest
                    | Disk.Leaves o =>
                        o = Disk.Undefined
                        \/ exists d' j, reached quiet d d' /\ o = Disk.deal_with_full_shard d' j
                    end).
    { specialize (IH d1 (S i) Hlog1).
      destruct (Disk.flush_del d1 e remaining (S i)) as [d2|o].
      - destruct IH as [Hr Hl]. split; [|exact Hl].
        exact (reached_trans _ _ _ _ (reached_one _ _ _ Hstep) Hr).
      - destruct IH as [Hu|(d2 & j & Hr & Ho)]; [left; exact Hu|right].
        exists d2, j. split; [|exact Ho].
        exact (reached_trans _ _ _ _ (reached_one _ _ _ Hstep) Hr). }
    destruct rc; try exact Hnext.
    + split; [apply reached_one; exact Hstep|exact Hlog1].
    + right. exists d1, i. split; [apply reached_one; exact Hstep|reflexivity].
Qed.

(** So does the second inner loop. *)
Lemma flush_put_steps e rest : forall n d,
  Disk.m_log d = e :: rest ->
  match Disk.flush_put d e n with
  | Disk.Falls_through d' => reached quiet d d' /\ Disk.m_log d' = e :: rest
  | Disk.Leaves o =>
      o = Disk.Undefined
      \/ exists d' j, reached quiet d d' /\ o = Disk.deal_with_full_shard d' j
  end.
Proof.
  induction n as [|i IH]; intros d Hlog; cbn [Disk.flush_put].
  - split; [apply reached_start|exact Hlog].
  - destruct (nth_error (Disk.m_shards d) i) as [[ci si]|] eqn:Hnth; [|left; reflexivity].
    destruct (negb (contains ci (Disk.coord e))); [apply IH; exact Hlog|].
    destruct (Shard.put _ _ _ _ _ _) as [[[rc s'] flushed]|] eqn:Hput; [|left; reflexivity].
    pose proof (step_shard_put CityHash64 CityHash64_each lower_interlace
                               d e rest i ci si rc s' flushed Hlog Hnth Hput) as Hstep.
    remember (Disk.set_shards d (Disk.replace (Disk.m_shards d) i
                                              (Disk.mk_shard_ptr (Disk.file si) s')))
      as d1 eqn:Hd1.
    assert (Hlog1 : Disk.m_log d1 = e :: rest) by (rewrite Hd1; exact Hlog).
    assert (Hnext : match Disk.flush_put d1 e i with
                    | Disk.Falls_through d' =>
                        reached quiet d d' /\ Disk.m_log d' = e :: rest
                    | Disk.Leaves o =>
                        o = Disk.Undefined
                        \/ exists d' j, reached quiet d d' /\ o = Disk.deal_with_full_shard d' j
                    end).
    { specialize (IH d1 Hlog1).
      destruct (Disk.flush_put d1 e i) as [d2|o].
      - destruct IH as [Hr Hl]. split; [|exact Hl].
        exact (reached_trans _ _ _ _ (reached_one _ _ _ Hstep) Hr).
      - destruct IH as [Hu|(d2 & j & Hr & Ho)]; [left; exact Hu|right].
        exists d2, j. split; [|exact Ho].
        exact (reached_trans _ _ _ _ (reached_one _ _ _ Hstep) Hr). }
    destruct rc; try exact Hnext;
      try (right; exists d1, i; split; [apply reached_one; exact Hstep|reflexivity]).
    split; [apply reached_one; exact Hstep|exact Hlog1].
Qed.

(** What a step leaves of an outcome of [deal_with_full_shard]. *)
Lemma full_shard_step d j :
  match Disk.deal_with_full_shard d j with
  | Disk.Returns _ d' | Disk.Throws d' => steps d d'
  | Disk.Undefined => True
  end.
Proof.
  destruct (Disk.deal_with_full_shard d j) as [rc d'|d'|] eqn:Hfull.
  - exact (step_full_returns _ _ _ d j rc d' Hfull).
  - exact (step_full_throws _ _ _ d j d' Hfull).
  - exact I.
Qed.

Lemma leaves_steps d o :
  (o = Disk.Undefined
   \/ exists d' j, reached quiet d d' /\ o = Disk.deal_with_full_shard d' j) ->
  match o with
  | Disk.Returns _ d' | Disk.Throws d' => reached steps d d'
  | Disk.Undefined => True
  end.
Proof.
  intros [->|(d1 & j & Hr & ->)]; [exact I|].
  pose proof (full_shard_step d1 j) as Hs.
  apply (reached_mono quiet steps) in Hr; [|intros a b Hq; exact (step_quiet _ _ _ a b Hq)].
  destruct (Disk.deal_with_full_shard d1 j) as [rc d'|d'|]; [| |exact I];
    exact (reached_step _ _ _ _ Hr Hs).
Qed.

(** Whatever [flush] leaves has been reached by steps; in particular every
    call of [deal_with_full_shard] inside [flush] is a step from a disk
    reached by steps. *)
Lemma flush_loop_steps : forall remaining d,
  match Disk.flush_loop d remaining with
  | Disk.Returns _ d' | Disk.Throws d' => reached steps d d'
  | Disk.Undefined => True
  end.
Proof.
  assert (Hsub : forall a b, quiet a b -> steps a b)
    by (intros a b Hq; exact (step_quiet _ _ _ a b Hq)).
  induction remaining as [|remaining IH]; intros d; cbn [Disk.flush_loop].
  - apply reached_start.
  - destruct (Disk.m_log d) as [|oldest rest] eqn:Hlog; [apply reached_start|].
    pose proof (flush_del_steps oldest rest (length (Disk.m_shards d)) d 0%nat Hlog) as Hdel.
    destruct (Disk.flush_del d oldest (length (Disk.m_shards d)) 0) as [d1|o];
      [|exact (leaves_steps d o Hdel)].
    destruct Hdel as [Hr1 Hlog1].
    assert (Hafter : match (if secondary_mask (Disk.coord oldest) =? UINT32_MAX
                            then Disk.flush_put d1 oldest (length (Disk.m_shards d1))
                            else Disk.Falls_through d1) with
                     | Disk.Falls_through d' =>
                         reached quiet d d' /\ Disk.m_log d' = oldest :: rest
                     | Disk.Leaves o =>
                         o = Disk.Undefined
                         \/ exists d' j, reached quiet d d'
                                         /\ o = Disk.deal_with_full_shard d' j
                     end).
    { destruct (secondary_mask (Disk.coord oldest) =? UINT32_MAX).
      - pose proof (flush_put_steps oldest rest (length (Disk.m_shards d1)) d1 Hlog1) as Hput.
        destruct (Disk.flush_put d1 oldest (length (Disk.m_shards d1))) as [d2|o].
        + destruct Hput as [Hr2 Hlog2]. split; [|exact Hlog2].
          exact (reached_trans _ _ _ _ Hr1 Hr2).
        + destruct Hput as [Hu|(d2 & j & Hr2 & Ho)]; [left; exact Hu|right].
          exists d2, j. split; [|exact Ho]. exact (reached_trans _ _ _ _ Hr1 Hr2).
      - split; [exact Hr1|exact Hlog1]. }
    destruct (if secondary_mask (Disk.coord oldest) =? UINT32_MAX
              then Disk.flush_put d1 oldest (length (Disk.m_shards d1))
              else Disk.Falls_through d1) as [d2|o];
      [|exact (leaves_steps d o Hafter)].
    destruct Hafter as [Hr2 Hlog2].
    assert (Hr3 : reached steps d (Disk.set_log d2 rest)).
    { apply (reached_step _ _ d2).
      - exact (reached_mono quiet steps _ _ Hsub Hr2).
      - apply step_quiet. exact (step_remove_oldest _ _ _ d2 oldest rest Hlog2). }
    specialize (IH (Disk.set_log d2 rest)).
    destruct (Disk.flush_loop (Disk.set_log d2 rest) remaining) as [rc d'|d'|];
      [| |exact I]; exact (reached_trans _ _ _ _ Hr3 IH).
Qed.

Lemma flush_reachable d :
  reachable CityHash64 CityHash64_each lower_interlace d ->
  match Disk.flush d with
  | Disk.Returns _ d' | Disk.Throws d' =>
      reachable CityHash64 CityHash64_each lower_interlace d'
  | Disk.Undefined => True
  end.
Proof.
  intros (dir & files & arity & d0 & Hnew & Hreached). unfold Disk.flush.
  pose proof (flush_loop_steps 100 d) as Hflush.
  destruct (Disk.flush_loop d 100) as [rc d'|d'|]; [| |exact I];
    exists dir, files, arity, d0; (split; [exact Hnew|]);
    exact (reached_trans _ _ _ _ Hreached Hflush).
Qed.

End Reachable.

(** * [deal_with_full_shard] on the disks the program can be in *)

Section FullShard.
Context {K : shard_constants}.
Variable CityHash64 : buffer -> Z.
Variable CityHash64_each : list buffer -> list Z.
Variable lower_interlace : list Z -> Z.

(** Which way [deal_with_full_shard] goes on a disk the program can be in:
    it calls [clean_shard] when the [stale_space] of the shard is 30 or more;
    otherwise it answers [SPLITFAILED] at once exactly when both masks of the
    coordinate are [UINT32_MAX]; in every remaining case it runs
    [split_shard], which does not throw and, when it succeeds, has replaced
    the shard by four children. The source tests whether either mask is
    [UINT32_MAX]; the two masks of a coordinate fix the same number of bits,
    so that either is full exactly when both are. *)
Lemma deal_with_full_shard_cases (d : Disk.disk) (i : nat) (c : coordinate)
        (sp : Disk.shard_ptr) :
  constants_ok K ->
  reachable CityHash64 CityHash64_each lower_interlace d ->
  nth_error (Disk.m_shards d) i = Some (c, sp) ->
  Disk.deal_with_full_shard d i
  = (if Shard.stale_space (Disk.target sp) >=? 30 then Disk.clean_shard d i
     else if (primary_mask c =? UINT32_MAX) && (secondary_mask c =? UINT32_MAX)
          then Disk.Returns SPLITFAILED d
          else Disk.split_shard d i)
  /\ (~ (primary_mask c = UINT32_MAX /\ secondary_mask c = UINT32_MAX) ->
      match Disk.split_shard d i with
      | Disk.Returns rc d' =>
          (rc = SPLITFAILED /\ Disk.m_shards d' = Disk.m_shards d)
          \/ (rc = SUCCESS /\ split_result d d' i)
      | Disk.Throws _ => False
      | Disk.Undefined => True
      end).
Proof.
  intros HK Hreach Hnth.
  pose proof (reachable_inv HK _ _ _ d Hreach) as Hinv.
  destruct (disk_inv_nth d i c sp Hinv Hnth) as [Hc Hshort].
  pose proof (balanced_full c Hc) as Hfull.
  split.
  - unfold Disk.deal_with_full_shard. rewrite Hnth.
    destruct (Shard.stale_space (Disk.target sp) >=? 30); [reflexivity|].
    destruct (Z.eqb_spec (primary_mask c) UINT32_MAX) as [Hpm|Hpm];
      destruct (Z.eqb_spec (secondary_mask c) UINT32_MAX) as [Hsm|Hsm];
      cbn [orb andb]; try reflexivity.
    + exfalso. apply Hsm, Hfull, Hpm.
    + exfalso. apply Hpm, Hfull, Hsm.
  - intros Hnot. apply (split_shard_spec HK d i c sp Hnth Hc Hshort).
    + intros Hpm. apply Hnot. split; [exact Hpm|apply Hfull, Hpm].
    + intros Hsm. apply Hnot. split; [apply Hfull, Hsm|exact Hsm].
Qed.

End FullShard.

Section FullShardExample.
#[local] Existing Instance example_constants.

Lemma fresh_disk_reachable :
  reachable sample_hash sample_hash_each sample_interlace fresh_disk.
Proof.
  exists Disk.empty_directory, 0%nat, 2, fresh_disk.
  split; [reflexivity|apply reached_start].
Qed.

(** The disk with a spare shard is one the program can be in. *)
Lemma disk_with_spare_reachable :
  reachable sample_hash sample_hash_each sample_interlace disk_with_spare.
Proof.
  destruct fresh_disk_reachable as (dir & files & arity & d0 & Hnew & Hreached).
  exists dir, files, arity, d0. split; [exact Hnew|].
  apply (reached_step _ _ fresh_disk); [exact Hreached|].
  apply step_quiet. apply step_spare.
Qed.

End FullShardExample.

(** * Probing ends at an empty slot *)

Section ProbingEnds.
Context {K : shard_constants}.
Hypothesis HK : constants_ok K.

Lemma hash_lookup_loop_returns m ph key start : forall remaining off,
  (exists o, off <= o < off + Z.of_nat remaining
             /\ hi32 (Shard.m_hash_table m (Shard.HASH_INTO_TABLE (start + o))) = 0) ->
  exists r, Shard.hash_lookup_loop m ph key start remaining off = Some r.
Proof.
  induction remaining as [|remaining IH]; intros off (o & Ho & Hempty); [lia|].
  cbn [Shard.hash_lookup_loop].
  destruct (_ && _); [eexists; reflexivity|].
  destruct (Z.eqb_spec (hi32 (Shard.m_hash_table m (Shard.HASH_INTO_TABLE (start + off)))) 0)
    as [_|Hfull]; [eexists; reflexivity|].
  apply IH. exists o. split; [|exact Hempty].
  assert (o <> off) by (intros ->; contradiction). lia.
Qed.

(** With an empty slot in the table, [hash_lookup] returns: the probe
    visits every slot before it gives up. *)
Lemma hash_lookup_returns s ph key :
  has_empty_slot s -> exists r, Shard.hash_lookup (Shard.m_data s) ph key = Some r.
Proof.
  destruct (layout HK) as (HH & _).
  intros (b & Hb & Hempty). unfold Shard.hash_lookup.
  apply hash_lookup_loop_returns.
  exists ((b - Shard.HASH_INTO_TABLE ph) mod HASH_TABLE_ENTRIES).
  rewrite Z2Nat.id by lia. split.
  - pose proof (Z.mod_pos_bound (b - Shard.HASH_INTO_TABLE ph) HASH_TABLE_ENTRIES HH). lia.
  - unfold Shard.HASH_INTO_TABLE at 1. rewrite probe_reaches by exact Hb. exact Hempty.
Qed.

Lemma shard_get_returns s ph key value version :
  has_empty_slot s -> exists r, Shard.get s ph key value version = Some r.
Proof.
  intros Hs. unfold Shard.get.
  destruct (hash_lookup_returns s ph key Hs) as ([e w] & ->).
  destruct (_ || _); eexists; reflexivity.
Qed.

Lemma shard_del_returns s ph key :
  has_empty_slot s -> exists r, Shard.del s ph key = Some r.
Proof.
  intros Hs. unfold Shard.del.
  destruct (hash_lookup_returns s ph key Hs) as ([e w] & ->).
  destruct (_ || _); [eexists; reflexivity|].
  destruct (_ >? _); eexists; reflexivity.
Qed.

Lemma shard_put_returns s ph sh key value version :
  has_empty_slot s -> exists r, Shard.put s ph sh key value version = Some r.
Proof.
  intros Hs. unfold Shard.put.
  destruct (_ >? _); [eexists; reflexivity|].
  destruct (_ =? _); [eexists; reflexivity|].
  destruct (hash_lookup_returns s ph key Hs) as ([e w] & ->).
  destruct (Shard.pack_value _ _ _). eexists; reflexivity.
Qed.

(** The walk of [disk::get] over the shards returns when no hash table is
    full. *)
Lemma get_shards_returns shards c k : forall shard_res val ver,
  Forall (fun cs => has_empty_slot (Disk.target (snd cs))) shards ->
  exists r, Disk.get_shards shards c k shard_res val ver = Some r.
Proof.
  induction shards as [|[ci si] shards IH]; intros shard_res val ver Hall;
    cbn [Disk.get_shards]; [eexists; reflexivity|].
  pose proof (Forall_inv Hall) as Hsi. cbn [snd] in Hsi.
  pose proof (Forall_inv_tail Hall) as Hrest.
  destruct (negb (primary_contains ci c)); [apply IH; exact Hrest|].
  destruct (shard_get_returns (Disk.target si) (primary_hash c) k val ver Hsi)
    as ([[rc val'] ver'] & ->).
  destruct (returncode_eqb rc SUCCESS); [eexists; reflexivity|apply IH; exact Hrest].
Qed.

(** A shard fresh from [create] has an empty slot. *)
Lemma create_has_empty_slot : has_empty_slot Shard.create.
Proof.
  destruct (layout HK) as (HH & _).
  exists 0. split; [lia|]. unfold Shard.create, Shard.m_hash_table. cbn [Shard.m_data].
  rewrite load64_zero. reflexivity.
Qed.

End ProbingEnds.

(** * Records: what [put] writes is what [get] reads *)

Lemma load16_ext m m' a :
  (forall x, a <= x < a + 2 -> m' x = m x) -> load16 m' a = load16 m a.
Proof. intros H. unfold load16. f_equal. apply load_bytes_ext. exact H. Qed.

Lemma load16_store16 m a w : load16 (store16 m a w) a = w mod 2 ^ 16.
Proof.
  unfold load16, store16.
  rewrite <- (length_le_split 2 w) at 2. rewrite load_bytes_store_bytes.
  rewrite le_combine_split. reflexivity.
Qed.

Lemma attrs_at_ext value : forall m m' c,
  (forall x, c <= x < c + attrs_size value -> m' x = m x) ->
  attrs_at m c value -> attrs_at m' c value.
Proof.
  induction value as [|v value IH]; intros m m' c Hsame Hat; [exact I|].
  unfold attrs_size in Hsame. cbn [fold_right] in Hsame. fold (attrs_size value) in Hsame.
  pose proof (size_nonneg v). pose proof (attrs_size_nonneg value).
  cbn [attrs_at] in *. destruct Hat as (Hsz & Hv & Hrest).
  split; [|split].
  - rewrite <- Hsz. apply load32_ext. intros x Hx. apply Hsame. lia.
  - rewrite <- Hv at 2. apply load_bytes_ext. intros x Hx. apply Hsame. unfold size. lia.
  - apply (IH m); [|exact Hrest]. intros x Hx. apply Hsame. lia.
Qed.

(** A record is read from the bytes of its extent only. *)
Lemma record_at_ext m m' off key value version :
  (forall x, off <= x < off + Shard.data_size key value -> m' x = m x) ->
  record_at m off key value version -> record_at m' off key value version.
Proof.
  rewrite data_size_eq. intros Hsame (Hver & Hksz & Hkey & Har & Hat).
  pose proof (size_nonneg key). pose proof (attrs_size_nonneg value).
  unfold record_at, Shard.data_version, Shard.data_key_size in *.
  split; [|split; [|split; [|split]]].
  - rewrite <- Hver. apply load64_ext. intros x Hx. apply Hsame. lia.
  - rewrite <- Hksz. apply load32_ext. intros x Hx. apply Hsame. lia.
  - rewrite <- Hkey at 2. apply load_bytes_ext. intros x Hx. apply Hsame. unfold size in *. lia.
  - rewrite <- Har. apply load16_ext. intros x Hx. apply Hsame. lia.
  - apply (attrs_at_ext value m); [|exact Hat]. intros x Hx. apply Hsame. lia.
Qed.

Section RecordRoundTrip.
Context {K : shard_constants}.

Lemma pack_value_attrs value : forall m c,
  0 <= c -> c + attrs_size value < 2 ^ 32 ->
  attrs_at (fst (Shard.pack_value m c value)) c value.
Proof.
  induction value as [|v value IH]; intros m c Hc Hfit; [exact I|].
  unfold attrs_size in Hfit. cbn [fold_right] in Hfit. fold (attrs_size value) in Hfit.
  pose proof (size_nonneg v). pose proof (attrs_size_nonneg value).
  cbn [Shard.pack_value attrs_at].
  rewrite (u32_small (c + 4)) by (unfold is_u32; lia).
  rewrite (u32_small (c + 4 + size v)) by (unfold is_u32; lia).
  set (m2 := store_bytes (store32 m c (u32 (size v))) (c + 4) v).
  destruct (pack_value_spec value m2 (c + 4 + size v) ltac:(lia) ltac:(lia)) as [_ Hframe].
  split; [|split].
  - rewrite (load32_ext m2).
    + unfold m2. rewrite (load32_ext (store32 m c (u32 (size v)))).
      * rewrite load32_store32. unfold u32. rewrite Z.mod_mod by lia. apply Z.mod_small. lia.
      * intros x Hx. apply store_bytes_outside. lia.
    + intros x Hx. apply Hframe. lia.
  - rewrite (load_bytes_ext m2).
    + unfold m2. apply load_bytes_store_bytes.
    + intros x Hx. apply Hframe. unfold size. lia.
  - apply IH; lia.
Qed.

(** The record [put] packs at [offset] reads back as the key, the value and
    the version that were put. *)
Lemma written_record_reads m offset key value version :
  0 <= offset -> offset + Shard.data_size key value < 2 ^ 32 ->
  0 <= version < 2 ^ 64 -> Z.of_nat (length value) < 2 ^ 16 ->
  record_at (fst (written_record m offset key value version)) offset key value version.
Proof.
  intros Hoff Hfit Hver Har. rewrite data_size_eq in Hfit.
  pose proof (size_nonneg key). pose proof (attrs_size_nonneg value).
  unfold written_record.
  rewrite (u32_small (offset + 8)) by (unfold is_u32; lia).
  rewrite (u32_small (offset + 8 + 4)) by (unfold is_u32; lia).
  rewrite (u32_small (offset + 8 + 4 + size key)) by (unfold is_u32; lia).
  rewrite (u32_small (offset + 8 + 4 + size key + 2)) by (unfold is_u32; lia).
  set (m1 := store64 m offset version).
  set (m2 := store32 m1 (offset + 8) (u32 (size key))).
  set (m3 := store_bytes m2 (offset + 8 + 4) key).
  set (m4 := store16 m3 (offset + 8 + 4 + size key) (u16 (Z.of_nat (length value)))).
  destruct (pack_value_spec value m4 (offset + 8 + 4 + size key + 2) ltac:(lia) ltac:(lia))
    as [_ Hframe].
  pose proof (pack_value_attrs value m4 (offset + 8 + 4 + size key + 2) ltac:(lia) ltac:(lia))
    as Hattrs.
  set (m5 := fst (Shard.pack_value m4 (offset + 8 + 4 + size key + 2) value)) in *.
  assert (H54 : forall x, x < offset + 14 + size key -> m5 x = m4 x)
    by (intros x Hx; apply Hframe; lia).
  assert (H43 : forall x, x < offset + 12 + size key -> m4 x = m3 x)
    by (intros x Hx; apply store16_outside; lia).
  assert (H32 : forall x, x < offset + 12 -> m3 x = m2 x)
    by (intros x Hx; apply store_bytes_outside; lia).
  assert (H21 : forall x, x < offset + 8 -> m2 x = m1 x)
    by (intros x Hx; apply store32_outside; lia).
  unfold record_at, Shard.data_version, Shard.data_key_size.
  split; [|split; [|split; [|split]]].
  - rewrite (load64_ext m1).
    + unfold m1. rewrite load64_store64. apply Z.mod_small. lia.
    + intros x Hx. rewrite H54, H43, H32, H21 by lia. reflexivity.
  - rewrite (load32_ext m2).
    + unfold m2. rewrite load32_store32. unfold u32. rewrite Z.mod_mod by lia.
      apply Z.mod_small. lia.
    + intros x Hx. rewrite H54, H43, H32 by lia. reflexivity.
  - rewrite (load_bytes_ext m3).
    + unfold m3. replace (offset + 12) with (offset + 8 + 4) by lia.
      apply load_bytes_store_bytes.
    + intros x Hx. unfold size in *. rewrite H54, H43 by lia. reflexivity.
  - rewrite (load16_ext m4).
    + unfold m4. replace (offset + 12 + size key) with (offset + 8 + 4 + size key) by lia.
      rewrite load16_store16. unfold u16. rewrite Z.mod_mod by lia. apply Z.mod_small. lia.
    + intros x Hx. apply H54. lia.
  - replace (offset + 14 + size key) with (offset + 8 + 4 + size key + 2) by lia.
    exact Hattrs.
Qed.

Lemma data_value_loop_reads value : forall m c,
  0 <= c -> c + attrs_size value < 2 ^ 32 ->
  attrs_at m c value ->
  Shard.data_value_loop m (length value) c = value.
Proof.
  induction value as [|v value IH]; intros m c Hc Hfit Hat; [reflexivity|].
  unfold attrs_size in Hfit. cbn [fold_right] in Hfit. fold (attrs_size value) in Hfit.
  pose proof (size_nonneg v). pose proof (attrs_size_nonneg value).
  cbn [attrs_at] in Hat. destruct Hat as (Hsz & Hv & Hrest).
  cbn [length Shard.data_value_loop]. rewrite Hsz.
  rewrite (u32_small (c + 4)) by (unfold is_u32; lia).
  rewrite (u32_small (c + 4 + size v)) by (unfold is_u32; lia).
  unfold size at 1. rewrite Nat2Z.id, Hv.
  rewrite (IH m (c + 4 + size v)); [reflexivity|lia|lia|exact Hrest].
Qed.

(** [data_version] and [data_value] give back the record. *)
Lemma record_at_reads m off key value version :
  0 <= off -> off + Shard.data_size key value < 2 ^ 32 ->
  record_at m off key value version ->
  Shard.data_version m off = version
  /\ Shard.data_value m off (size key) = value.
Proof.
  rewrite data_size_eq. intros Hoff Hfit (Hver & Hksz & Hkey & Har & Hat).
  pose proof (size_nonneg key). pose proof (attrs_size_nonneg value).
  split; [exact Hver|]. unfold Shard.data_value.
  rewrite (u32_small (off + 8 + 4 + size key)) by (unfold is_u32; lia).
  rewrite (u32_small (off + 8 + 4 + size key + 2)) by (unfold is_u32; lia).
  replace (off + 8 + 4 + size key) with (off + 12 + size key) by lia.
  rewrite Har, Nat2Z.id.
  apply data_value_loop_reads; [lia|lia|].
  replace (off + 12 + size key + 2) with (off + 14 + size key) by lia. exact Hat.
Qed.

End RecordRoundTrip.

(** * Shards: the record of a key *)

Section ShardRecords.
Context {K : shard_constants}.
Hypothesis HK : constants_ok K.

Local Abbreviation mdo := Shard.m_data_offset.
Local Abbreviation mso := Shard.m_search_offset.
Local Abbreviation mem := Shard.m_data.

(** Behind the index segment a successful [put] leaves the bytes of the
    record it packs, and no other change. *)
Lemma put_data s ph sh key value version s' f :
  shard_inv s -> is_u32 ph ->
  Shard.put s ph sh key value version = Some (SUCCESS, s', f) ->
  forall x, INDEX_SEGMENT_SIZE <= x ->
    mem s' x = fst (written_record (mem s) (mdo s) key value version) x.
Proof.
  destruct (layout HK) as (HH & HS & HT & HI & HF & HF31 & HF8 & HINV).
  intros Hinv Hph Hput. destruct Hinv as [Hmdo Hmso _ _ _ Htail _].
  unfold Shard.put in Hput.
  destruct (Z.gtb_spec (Shard.data_size key value + mdo s) FILE_SIZE) as [|Hfit];
    [discriminate|].
  destruct (Z.eqb_spec (mso s) SEARCH_INDEX_ENTRIES) as [|Hroom]; [discriminate|].
  destruct (Shard.hash_lookup (mem s) ph key) as [[e w]|] eqn:Hl; [|discriminate].
  destruct (hash_lookup_spec HK _ _ _ _ _ Hl) as (_ & _ & _ & He & _).
  pose proof (written_record_spec (mem s) (mdo s) key value version
                                  ltac:(lia) ltac:(lia)) as Hrec.
  unfold written_record in *. cbv zeta in Hrec, Hput |- *.
  destruct (Shard.pack_value _ _ value) as [m5 c5].
  cbn [fst snd] in Hrec |- *. destruct Hrec as (Hc5 & Hm5 & _ & _).
  assert (Hlog5 : forall j, 0 <= j < SEARCH_INDEX_ENTRIES ->
                            log_offset m5 j = log_offset (mem s) j).
  { intros j Hj. unfold log_offset. f_equal.
    apply (same_index_log HK); [|lia]. intros x Hx. apply Hm5. lia. }
  assert (H6 : forall x, INDEX_SEGMENT_SIZE <= x ->
                         (if hi32 w <? HASH_OFFSET_INVALID
                          then Shard.invalidate_search_log m5 (hi32 w) (mdo s) else m5) x
                         = m5 x).
  { destruct (hi32 w <? HASH_OFFSET_INVALID); [|reflexivity].
    apply (invalidate_search_log_frame HK); [lia|].
    rewrite Hlog5 by lia. rewrite Htail by lia. lia. }
  apply (f_equal (fun o => option_map (fun r => Shard.m_data (snd (fst r))) o)) in Hput.
  cbn [option_map fst snd Shard.m_data] in Hput.
  assert (Hmem : mem s' = Shard.set_hash_table
                   (Shard.set_search_log
                      (Shard.set_search_log
                         (if hi32 w <? HASH_OFFSET_INVALID
                          then Shard.invalidate_search_log m5 (hi32 w) (mdo s) else m5)
                         (mso s * 2) (pack64 sh ph))
                      (mso s * 2 + 1) (u64 (mdo s)))
                   e (pack64 (mdo s) ph)) by congruence.
  intros x Hx. rewrite Hmem.
  rewrite (set_hash_table_data HK) by lia.
  rewrite !(set_search_log_data HK) by lia.
  apply H6. exact Hx.
Qed.

(** After a successful [put] the record of the key lies at the old data
    offset. *)
Lemma put_record s ph sh key value version s' f :
  shard_inv s -> is_u32 ph ->
  0 <= version < 2 ^ 64 -> Z.of_nat (length value) < 2 ^ 16 ->
  Shard.put s ph sh key value version = Some (SUCCESS, s', f) ->
  record_at (mem s') (mdo s) key value version.
Proof.
  destruct (layout HK) as (HH & HS & HT & HI & HF & HF31 & HF8 & HINV).
  intros Hinv Hph Hver Har Hput.
  pose proof (put_data s ph sh key value version s' f Hinv Hph Hput) as Hdata.
  destruct (put_result HK _ _ _ _ _ _ _ _ _ Hinv Hph Hput)
    as [(Hrc & _)|(_ & e & w & _ & Heff)]; [congruence|].
  destruct Heff as (Hfit & _).
  pose proof (inv_data_offset s Hinv) as Hmdo.
  apply (record_at_ext (fst (written_record (mem s) (mdo s) key value version))).
  - intros x Hx. apply Hdata. lia.
  - apply written_record_reads; [lia|lia|exact Hver|exact Har].
Qed.

(** [hash_lookup] finds the slot that is assigned to the pair it looks
    for. *)
Lemma lookup_finds_holder s ph key b :
  shard_inv s -> 0 <= b < HASH_TABLE_ENTRIES ->
  assigned s b -> slot_pair s b = (ph, key) ->
  Shard.hash_lookup (mem s) ph key = Some (b, slot_word s b).
Proof.
  destruct (layout HK) as (HH & _).
  intros Hinv Hb Hassigned Hpair.
  pose proof (proj1 (holds_pair HK s b ph key) Hpair) as [Hhash Hkey].
  pose proof (inv_chain s Hinv b Hb Hassigned) as Hchain. rewrite Hhash in Hchain.
  set (d := (b - ph) mod HASH_TABLE_ENTRIES) in *.
  assert (Hd : 0 <= d < HASH_TABLE_ENTRIES) by (apply Z.mod_pos_bound; lia).
  assert (Hbd : (ph + d) mod HASH_TABLE_ENTRIES = b) by (apply probe_reaches; exact Hb).
  assert (Hmod : forall o, (ph mod HASH_TABLE_ENTRIES + o) mod HASH_TABLE_ENTRIES
                           = (ph + o) mod HASH_TABLE_ENTRIES)
    by (intros o; apply Zplus_mod_idemp_l).
  unfold Shard.hash_lookup, Shard.HASH_INTO_TABLE.
  assert (Hloop : forall remaining off,
             0 <= off <= d -> d < off + Z.of_nat remaining ->
             Shard.hash_lookup_loop (mem s) ph key (ph mod HASH_TABLE_ENTRIES) remaining off
             = Some (b, slot_word s b)).
  { induction remaining as [|remaining IH]; intros off Hoff Hrem; [lia|].
    cbn [Shard.hash_lookup_loop]. unfold Shard.HASH_INTO_TABLE. rewrite Hmod.
    destruct (Z.eq_dec off d) as [->|Hne].
    - rewrite Hbd. fold (slot_word s b). fold (slot_hash s b). fold (slot_offset s b).
      rewrite Hhash, Z.eqb_refl, Hkey. reflexivity.
    - set (b' := (ph + off) mod HASH_TABLE_ENTRIES).
      assert (Hb' : 0 <= b' < HASH_TABLE_ENTRIES) by (apply Z.mod_pos_bound; lia).
      assert (Ha' : assigned s b') by (apply Hchain; lia).
      fold (slot_word s b'). fold (slot_hash s b'). fold (slot_offset s b').
      destruct ((slot_hash s b' =? ph) && Shard.key_at (mem s) (slot_offset s b') key)
        eqn:Hmatch.
      + exfalso. apply andb_true_iff in Hmatch as [Hh Hk]. apply Z.eqb_eq in Hh.
        assert (Hp' : slot_pair s b' = (ph, key))
          by (apply (holds_pair HK); split; assumption).
        assert (Hbb : b' = b) by (apply (inv_unique s Hinv); congruence).
        assert (Hoff' : ((ph + off) mod HASH_TABLE_ENTRIES - ph) mod HASH_TABLE_ENTRIES = off)
          by (apply probe_offset; lia).
        unfold b' in Hbb. rewrite Hbb in Hoff'. unfold d in *. lia.
      + destruct (Z.eqb_spec (hi32 (slot_word s b')) 0) as [Hz|_]; [contradiction|].
        apply IH; lia. }
  apply Hloop; [lia|]. rewrite Z2Nat.id by lia. lia.
Qed.

End ShardRecords.

(** * Shards: [get], [put] and [del] on the map a shard holds *)

Lemma returncode_eqb_eq (a b : returncode) : returncode_eqb a b = true <-> a = b.
Proof. destruct a, b; cbn; split; intros H; try reflexivity; discriminate. Qed.

Lemma update_same M ph key r : update M ph key r ph key = r.
Proof. unfold update. rewrite Z.eqb_refl, buffer_eqb_refl. reflexivity. Qed.

Lemma update_other M ph key r ph' key' :
  (ph', key') <> (ph, key) -> update M ph key r ph' key' = M ph' key'.
Proof.
  intros Hne. unfold update.
  destruct (Z.eqb_spec ph' ph) as [->|]; [|reflexivity].
  destruct (buffer_eqb key' key) eqn:Hk; [|reflexivity].
  apply buffer_eqb_eq in Hk. congruence.
Qed.

Section ShardMap.
Context {K : shard_constants}.
Hypothesis HK : constants_ok K.

Local Abbreviation mdo := Shard.m_data_offset.
Local Abbreviation mso := Shard.m_search_offset.
Local Abbreviation mem := Shard.m_data.

Lemma slot_key_of_pair s b ph key :
  slot_pair s b = (ph, key) -> slot_hash s b = ph /\ slot_key s b = key.
Proof. unfold slot_pair. intros H. apply pair_equal_spec in H. exact H. Qed.

(** A shard fresh from [create] holds nothing. *)
Lemma refines_create : refines Shard.create empty_contents.
Proof.
  assert (Hfree : forall b, ~ assigned Shard.create b).
  { intros b Hab. apply Hab. reflexivity. }
  constructor.
  - exact (create_inv HK).
  - intros b _ Hab. destruct (Hfree b Hab).
  - intros ph key _. reflexivity.
Qed.

(** How [hash_lookup] ends on a shard that holds [M]: at the slot of the
    pair, whose word tells whether the pair is there, or at an empty slot
    when no slot is assigned to the pair. *)
Lemma refines_lookup s M ph key e w :
  refines s M -> is_u32 ph ->
  Shard.hash_lookup (mem s) ph key = Some (e, w) ->
  0 <= e < HASH_TABLE_ENTRIES /\ w = slot_word s e
  /\ ((hi32 w = 0 /\ M ph key = None)
      \/ (hi32 w <> 0 /\ slot_pair s e = (ph, key)
          /\ exists value version,
              record_at (mem s) (slot_offset s e) key value version
              /\ slot_offset s e + Shard.data_size key value <= mdo s
              /\ M ph key = if hi32 w <? HASH_OFFSET_INVALID
                            then Some (value, version) else None)).
Proof.
  intros [Hinv Hrec Habs] Hph Hl.
  destruct (hash_lookup_spec HK _ _ _ _ _ Hl) as (off & Hoff & He & Hrange & Hw & _ & Hstop).
  split; [exact Hrange|]. split; [exact Hw|].
  destruct (Z.eq_dec (hi32 w) 0) as [Hz|Hnz].
  - left. split; [exact Hz|]. apply Habs. intros b Hb Hab Hpair.
    exact (lookup_empty_no_holder HK s ph key e w b Hinv Hl Hz Hb Hab Hpair).
  - right. split; [exact Hnz|].
    destruct Hstop as [[Hhash Hkey]|Hz]; [|contradiction].
    assert (Hab : assigned s e) by (unfold assigned, slot_word; rewrite <- Hw; exact Hnz).
    assert (Hpair : slot_pair s e = (ph, key)).
    { apply (holds_pair HK). unfold slot_hash, slot_offset, slot_word. rewrite <- Hw.
      split; [exact Hhash|exact Hkey]. }
    split; [exact Hpair|].
    destruct (slot_key_of_pair s e ph key Hpair) as [Hh Hk].
    destruct (Hrec e Hrange Hab) as (value & version & Hat & Hext & HM).
    rewrite Hh, Hk in HM. rewrite Hk in Hat, Hext.
    exists value, version. split; [exact Hat|]. split; [exact Hext|].
    unfold slot_word in HM. rewrite <- Hw in HM. exact HM.
Qed.

(** [get] answers what the map says. *)
Lemma refines_get s M ph key val ver r :
  refines s M -> is_u32 ph ->
  Shard.get s ph key val ver = Some r -> r = answer M ph key val ver.
Proof.
  destruct (layout HK) as (HH & HS & HT & HI & HF & HF31 & HF8 & HINV).
  intros Href Hph Hget. unfold Shard.get in Hget.
  destruct (Shard.hash_lookup (mem s) ph key) as [[e w]|] eqn:Hl; [|discriminate].
  destruct (refines_lookup s M ph key e w Href Hph Hl) as (He & Hw & Hcases).
  pose proof (inv_data_offset s (ref_inv s M Href)) as Hmdo.
  unfold answer.
  destruct Hcases as [[Hz HM]|(Hnz & Hpair & value & version & Hat & Hext & HM)].
  - rewrite HM. rewrite Hz in Hget. cbn [Z.eqb orb] in Hget. congruence.
  - destruct (Z.eqb_spec (hi32 w) 0) as [|_]; [contradiction|]. cbn [orb] in Hget.
    rewrite HM. rewrite HINV in *.
    destruct (Z.ltb_spec (hi32 w) (2 ^ 31)) as [Hlive|Hdead].
    + destruct (Z.geb_spec (hi32 w) (2 ^ 31)) as [|_]; [lia|].
      pose proof (hi32_range w) as Hr.
      assert (Hso : slot_offset s e = hi32 w).
      { unfold slot_offset. rewrite <- Hw, HINV. apply mask_offset_low. lia. }
      rewrite Hso in Hat, Hext.
      pose proof (Shard.data_size key value) as _.
      assert (Hsz : 0 <= Shard.data_size key value).
      { rewrite data_size_eq. pose proof (size_nonneg key).
        pose proof (attrs_size_nonneg value). lia. }
      destruct (record_at_reads (mem s) (hi32 w) key value version
                                ltac:(lia) ltac:(lia) Hat) as [Hver Hval].
      rewrite Hver, Hval in Hget. congruence.
    + destruct (Z.geb_spec (hi32 w) (2 ^ 31)) as [_|]; [|lia]. congruence.
Qed.

(** A successful [put] binds the key to the value and the version. *)
Lemma refines_put s M ph sh key value version s' f :
  refines s M -> is_u32 ph ->
  0 <= version < 2 ^ 64 -> Z.of_nat (length value) < 2 ^ 16 ->
  Shard.put s ph sh key value version = Some (SUCCESS, s', f) ->
  refines s' (update M ph key (Some (value, version))).
Proof.
  destruct (layout HK) as (HH & HS & HT & HI & HF & HF31 & HF8 & HINV).
  intros Href Hph Hver Har Hput.
  pose proof (ref_inv s M Href) as Hinv.
  destruct (put_preserves HK s ph sh key value version SUCCESS s' f Hinv Hph Hput)
    as [Hinv' Hkeeps].
  pose proof (put_record HK s ph sh key value version s' f Hinv Hph Hver Har Hput) as Hnew.
  destruct (put_result HK _ _ _ _ _ _ _ _ _ Hinv Hph Hput)
    as [(Hrc & _)|(_ & e & w & Hl & Heff)]; [congruence|].
  destruct (refines_lookup s M ph key e w Href Hph Hl) as (He & Hw & Hcases).
  destruct (put_slots HK s ph key value s' f e w Hinv Hph Hl Heff)
    as ((Hae & Hhe & Hoe & Hpe) & Hothers & Hold).
  pose proof (inv_data_offset s Hinv) as Hmdo.
  destruct Heff as (Hfit & _ & Hmdo' & _ & Hframe & Hwords & Hworde & _).
  assert (Hsz : 0 <= Shard.data_size key value).
  { rewrite data_size_eq. pose proof (size_nonneg key).
    pose proof (attrs_size_nonneg value). lia. }
  assert (Hgrow : mdo s + Shard.data_size key value <= mdo s').
  { rewrite Hmdo'. pose proof (align8_bounds (mdo s + Shard.data_size key value)
                                             ltac:(lia) ltac:(lia)). lia. }
  assert (Hother : forall b, 0 <= b < HASH_TABLE_ENTRIES -> assigned s b -> b <> e ->
                             slot_pair s b <> (ph, key)).
  { intros b Hb Hab Hne Hpair.
    destruct Hcases as [[Hz _]|(Hnz & Hpair' & _)].
    - exact (lookup_empty_no_holder HK s ph key e w b Hinv Hl Hz Hb Hab Hpair).
    - apply Hne. apply (inv_unique s Hinv); try assumption.
      + unfold assigned. rewrite <- Hw. exact Hnz.
      + congruence. }
  constructor.
  - exact Hinv'.
  - intros b Hb Hab'. destruct (Z.eq_dec b e) as [->|Hne].
    + destruct (slot_key_of_pair s' e ph key Hpe) as [_ Hk].
      exists value, version. rewrite Hk, Hoe, Hhe.
      split; [exact Hnew|]. split.
      * exact Hgrow.
      * rewrite update_same, Hworde, hi32_split by (unfold is_u32 in Hph; lia).
        rewrite HINV. destruct (Z.ltb_spec (mdo s) (2 ^ 31)); [reflexivity|lia].
    + destruct (Hothers b Hb Hne) as (Hiff & Hh & Ho & Hkept).
      assert (Hab : assigned s b) by (apply Hiff; exact Hab').
      destruct (Hkept Hab) as [_ Hpair].
      assert (Hk : slot_key s' b = slot_key s b)
        by (unfold slot_pair in Hpair; apply pair_equal_spec in Hpair; tauto).
      destruct (ref_record s M Href b Hb Hab) as (value0 & version0 & Hat & Hext & HM).
      pose proof (inv_record s Hinv b Hb Hab) as [Hlow _].
      exists value0, version0. rewrite Hk, Ho, Hh, (Hwords b Hb Hne).
      split; [|split; [lia|]].
      * apply (record_at_ext (mem s)); [|exact Hat].
        intros x Hx. apply Hframe. lia.
      * rewrite update_other; [exact HM|].
        intros Heq. apply (Hother b Hb Hab Hne). unfold slot_pair. exact Heq.
  - intros ph' key' Hnone.
    destruct (Z.eqb_spec ph' ph) as [->|Hneq].
    + destruct (buffer_eqb key' key) eqn:Hk.
      * apply buffer_eqb_eq in Hk. subst key'. destruct (Hnone e He Hae Hpe).
      * unfold update. rewrite Z.eqb_refl, Hk. cbn [andb].
        apply (ref_absent s M Href). intros b Hb Hab Hpair.
        destruct (Hkeeps b Hb Hab) as [Hab' Hsame].
        apply (Hnone b Hb Hab'). congruence.
    + unfold update. destruct (Z.eqb_spec ph' ph) as [|_]; [contradiction|]. cbn [andb].
      apply (ref_absent s M Href). intros b Hb Hab Hpair.
      destruct (Hkeeps b Hb Hab) as [Hab' Hsame].
      apply (Hnone b Hb Hab'). congruence.
Qed.

(** A [put] that fails leaves the shard as it is. *)
Lemma put_failed s ph sh key value version rc s' f :
  Shard.put s ph sh key value version = Some (rc, s', f) -> rc <> SUCCESS ->
  s' = s /\ (rc = DATAFULL \/ rc = SEARCHFULL).
Proof.
  intros Hput Hrc. unfold Shard.put in Hput.
  destruct (_ >? _); [split; [congruence|left; congruence]|].
  destruct (_ =? _); [split; [congruence|right; congruence]|].
  destruct (Shard.hash_lookup _ _ _) as [[e w]|]; [|discriminate].
  destruct (Shard.pack_value _ _ _) as [m c]. exfalso. apply Hrc. congruence.
Qed.

(** What [del] does to the map: it answers [NOTFOUND] for a key that is not
    there and [DATAFULL] when the data segment has no room for the eight
    bytes it takes, in both cases leaving the shard as it is; otherwise it
    removes the key. *)
Lemma refines_del s M ph key rc s' :
  refines s M -> is_u32 ph ->
  Shard.del s ph key = Some (rc, s') ->
  (rc = NOTFOUND /\ s' = s /\ M ph key = None)
  \/ (rc = DATAFULL /\ s' = s /\ M ph key <> None /\ FILE_SIZE < mdo s + 8)
  \/ (rc = SUCCESS /\ M ph key <> None /\ mdo s' = mdo s + 8
      /\ refines s' (update M ph key None)).
Proof.
  destruct (layout HK) as (HH & HS & HT & HI & HF & HF31 & HF8 & HINV).
  intros Href Hph Hdel.
  pose proof (ref_inv s M Href) as Hinv.
  destruct (del_preserves HK s ph key rc s' Hinv Hph Hdel) as [Hinv' Hkeeps].
  pose proof (del_result HK s ph key rc s' Hinv Hph Hdel) as Hres.
  unfold Shard.del in Hdel.
  destruct (Shard.hash_lookup (mem s) ph key) as [[e w]|] eqn:Hl; [|discriminate].
  destruct (refines_lookup s M ph key e w Href Hph Hl) as (He & Hw & Hcases).
  rewrite HINV in Hdel, Hcases.
  destruct Hcases as [[Hz HM]|(Hnz & Hpair & value & version & Hat & Hext & HM)].
  { rewrite Hz in Hdel. cbn [Z.eqb orb] in Hdel. left.
    split; [congruence|]. split; [congruence|exact HM]. }
  destruct (Z.eqb_spec (hi32 w) 0) as [|_]; [contradiction|]. cbn [orb] in Hdel.
  destruct (Z.geb_spec (hi32 w) (2 ^ 31)) as [Hdead|Hlive].
  { left. destruct (Z.ltb_spec (hi32 w) (2 ^ 31)) as [|_]; [lia|].
    split; [congruence|]. split; [congruence|exact HM]. }
  destruct (Z.ltb_spec (hi32 w) (2 ^ 31)) as [_|]; [|lia].
  assert (Hthere : M ph key <> None) by (rewrite HM; discriminate).
  destruct (Z.gtb_spec (mdo s + 8) FILE_SIZE) as [Hfull|Hroom].
  { right. left. split; [congruence|]. split; [congruence|]. split; [exact Hthere|lia]. }
  right. right.
  assert (Hrc : rc = SUCCESS) by congruence.
  destruct Hres as [(Hne & _)|(_ & e' & w' & Hl' & Heff)]; [contradiction|].
  assert (e' = e /\ w' = w) as [-> ->] by (split; congruence).
  assert (Hlo : lo32 w = ph).
  { destruct (slot_key_of_pair s e ph key Hpair) as [Hh _].
    unfold slot_hash in Hh. rewrite <- Hw in Hh. exact Hh. }
  pose proof (del_slots HK s ph s' e w Hinv Hph He Hw Hlo Heff) as Hslots.
  destruct Heff as (_ & Hlt & _ & Hmdo' & _ & Hframe & Hwords & Hworde & _).
  split; [exact Hrc|]. split; [exact Hthere|]. split; [exact Hmdo'|].
  assert (Hae : assigned s e) by (unfold assigned; rewrite <- Hw; exact Hnz).
  constructor.
  - exact Hinv'.
  - intros b Hb Hab'.
    destruct (Hslots b Hb) as (Hiff & Hh & Ho & Hkept).
    assert (Hab : assigned s b) by (apply Hiff; exact Hab').
    destruct (Hkept Hab) as [_ Hpairb].
    assert (Hk : slot_key s' b = slot_key s b)
      by (unfold slot_pair in Hpairb; apply pair_equal_spec in Hpairb; tauto).
    destruct (ref_record s M Href b Hb Hab) as (value0 & version0 & Hat0 & Hext0 & HM0).
    exists value0, version0. rewrite Hk, Ho, Hh.
    split; [|split; [lia|]].
    + apply (record_at_ext (mem s)); [|exact Hat0].
      pose proof (inv_record s Hinv b Hb Hab) as [Hlow _].
      intros x Hx. apply Hframe. lia.
    + destruct (Z.eq_dec b e) as [->|Hne].
      * destruct (slot_key_of_pair s e ph key Hpair) as [Hhe Hke].
        rewrite Hhe, Hke, update_same, Hworde.
        pose proof (hi32_range w).
        rewrite hi32_split by (unfold is_u32 in Hph; lia).
        rewrite HINV. destruct (Z.ltb_spec (hi32 w + 2 ^ 31) (2 ^ 31)); [lia|reflexivity].
      * rewrite (Hwords b Hb Hne). rewrite update_other; [exact HM0|].
        intros Heq. apply Hne. apply (inv_unique s Hinv); try assumption.
        rewrite Hpair. exact Heq.
  - intros ph' key' Hnone.
    destruct (Z.eqb_spec ph' ph) as [->|Hneq].
    + destruct (buffer_eqb key' key) eqn:Hk.
      * apply buffer_eqb_eq in Hk. subst key'. apply update_same.
      * unfold update. rewrite Z.eqb_refl, Hk. cbn [andb].
        apply (ref_absent s M Href). intros b Hb Hab Hpairb.
        destruct (Hkeeps b Hb Hab) as [Hab' Hsame].
        apply (Hnone b Hb Hab'). congruence.
    + unfold update. destruct (Z.eqb_spec ph' ph) as [|_]; [contradiction|]. cbn [andb].
      apply (ref_absent s M Href). intros b Hb Hab Hpairb.
      destruct (Hkeeps b Hb Hab) as [Hab' Hsame].
      apply (Hnone b Hb Hab'). congruence.
Qed.

(** A call keeps the shard and the map in step. *)
Lemma refines_call s M op rc s' :
  refines s M -> proper op -> call s op = Some (rc, s') ->
  refines s' (model_step M op rc).
Proof.
  intros Href Hop Hcall. destruct op as [ph sh key value version|ph key];
    cbn [call model_step proper] in *.
  - destruct Hop as (Hph & _ & Hver & Har).
    destruct (Shard.put s ph sh key value version) as [[[rc0 s0] f]|] eqn:Hput;
      [|discriminate].
    assert (rc0 = rc /\ s0 = s') as [-> ->] by (split; congruence).
    destruct (returncode_eqb rc SUCCESS) eqn:Hrc.
    + apply returncode_eqb_eq in Hrc. subst rc.
      exact (refines_put s M ph sh key value version s' f Href Hph Hver Har Hput).
    + assert (Hne : rc <> SUCCESS)
        by (intros ->; rewrite (proj2 (returncode_eqb_eq _ _) eq_refl) in Hrc; discriminate).
      destruct (put_failed s ph sh key value version rc s' f Hput Hne) as [-> _].
      exact Href.
  - destruct (refines_del s M ph key rc s' Href Hop Hcall)
      as [(-> & -> & _)|[(-> & -> & _)|(-> & _ & _ & Href')]]; cbn [returncode_eqb].
    + exact Href.
    + exact Href.
    + exact Href'.
Qed.

(** Along a sequence of calls the shard holds the map. *)
Lemma simulate_refines ops : forall s M s' M',
  refines s M -> Forall proper ops ->
  simulate s M ops = Some (s', M') -> refines s' M'.
Proof.
  induction ops as [|op ops IH]; intros s M s' M' Href Hops Hsim; cbn [simulate] in Hsim.
  - assert (s = s' /\ M = M') as [<- <-] by (split; congruence). exact Href.
  - destruct (call s op) as [[rc s1]|] eqn:Hcall; [|discriminate].
    apply (IH s1 (model_step M op rc)); [|exact (Forall_inv_tail Hops)|exact Hsim].
    exact (refines_call s M op rc s1 Href (Forall_inv Hops) Hcall).
Qed.

End ShardMap.

(** * Shards: a shard is a map *)

Section ShardIsMap.
Context {K : shard_constants}.
Hypothesis HK : constants_ok K.

Local Abbreviation mdo := Shard.m_data_offset.
Local Abbreviation mso := Shard.m_search_offset.
Local Abbreviation mem := Shard.m_data.

Lemma shard_after_refines ops s M : shard_after ops s M -> refines s M.
Proof.
  intros [Hops Hsim].
  exact (simulate_refines HK ops _ _ s M (refines_create HK) Hops Hsim).
Qed.

(** With a slot assigned to the pair, [get] returns, and answers what the
    map says. *)
Lemma get_of_holder s M ph key val ver e :
  refines s M -> is_u32 ph ->
  0 <= e < HASH_TABLE_ENTRIES -> assigned s e -> slot_pair s e = (ph, key) ->
  Shard.get s ph key val ver = Some (answer M ph key val ver).
Proof.
  intros Href Hph He Hae Hpair.
  pose proof (lookup_finds_holder HK s ph key e (ref_inv s M Href) He Hae Hpair) as Hl.
  assert (Hret : exists r, Shard.get s ph key val ver = Some r).
  { unfold Shard.get. rewrite Hl. destruct (_ || _); eexists; reflexivity. }
  destruct Hret as [r Hr]. rewrite Hr. f_equal.
  exact (refines_get HK s M ph key val ver r Href Hph Hr).
Qed.

(** The slot of a key [get] has found or found deleted. *)
Lemma holder_of_get s M ph key val ver r :
  refines s M -> is_u32 ph ->
  Shard.get s ph key val ver = Some r ->
  M ph key = None
  \/ exists e, 0 <= e < HASH_TABLE_ENTRIES /\ assigned s e /\ slot_pair s e = (ph, key).
Proof.
  intros Href Hph Hget. unfold Shard.get in Hget.
  destruct (Shard.hash_lookup (mem s) ph key) as [[e w]|] eqn:Hl; [|discriminate].
  destruct (refines_lookup HK s M ph key e w Href Hph Hl) as (He & Hw & Hcases).
  destruct Hcases as [[_ HM]|(Hnz & Hpair & _)]; [left; exact HM|right].
  exists e. split; [exact He|]. split; [|exact Hpair].
  unfold assigned. rewrite <- Hw. exact Hnz.
Qed.

Lemma call_keeps_slots s op rc s' :
  shard_inv s -> proper op -> call s op = Some (rc, s') ->
  shard_inv s' /\ keeps_slots s s'.
Proof.
  intros Hinv Hop Hcall. destruct op as [ph sh key value version|ph key];
    cbn [call proper] in *.
  - destruct (Shard.put s ph sh key value version) as [[[rc0 s0] f]|] eqn:Hput;
      [|discriminate].
    assert (s0 = s') by congruence. subst s0.
    exact (put_preserves HK _ _ _ _ _ _ _ _ _ Hinv (proj1 Hop) Hput).
  - exact (del_preserves HK _ _ _ _ _ Hinv Hop Hcall).
Qed.

Lemma model_step_other M op rc ph key :
  target_of op <> (ph, key) -> model_step M op rc ph key = M ph key.
Proof.
  intros Hne. destruct op as [ph0 sh key0 value version|ph0 key0];
    cbn [model_step target_of] in *;
    destruct (returncode_eqb rc SUCCESS); try reflexivity;
    apply update_other; congruence.
Qed.

(** X1: after any sequence of [put] and [del] calls on a shard fresh from
    [create], as long as the hash table has an empty slot, [get] returns and
    what it answers for a key is what a map would: the value and the version
    of the last successful [put] of the key, unless a successful [del] came
    after it, and [NOTFOUND], with the out-parameters untouched, for a key
    that is not there. *)
Theorem shard_get_follows_map (ops : list operation) (s : Shard.shard) (M : contents)
        (ph : Z) (key : buffer) (val : list buffer) (ver : Z) :
  shard_after ops s M -> is_u32 ph -> has_empty_slot s ->
  Shard.get s ph key val ver = Some (answer M ph key val ver).
Proof.
  intros Hafter Hph Hslot.
  destruct (shard_get_returns HK s ph key val ver Hslot) as [r Hget].
  rewrite Hget. f_equal.
  exact (refines_get HK s M ph key val ver r (shard_after_refines ops s M Hafter) Hph Hget).
Qed.

(** X2: a [get] right after a successful [put] of the key returns [SUCCESS]
    with the value and the version that were put. *)
Theorem shard_get_after_put (ops : list operation) (s : Shard.shard) (M : contents)
        (ph sh : Z) (key : buffer) (value : list buffer) (version : Z)
        (s' : Shard.shard) (f : bool) (val : list buffer) (ver : Z) :
  shard_after ops s M ->
  proper (Put ph sh key value version) ->
  Shard.put s ph sh key value version = Some (SUCCESS, s', f) ->
  Shard.get s' ph key val ver = Some (SUCCESS, value, version).
Proof.
  intros Hafter (Hph & _ & Hver & Har) Hput.
  pose proof (shard_after_refines ops s M Hafter) as Href.
  pose proof (ref_inv s M Href) as Hinv.
  pose proof (refines_put HK s M ph sh key value version s' f Href Hph Hver Har Hput) as Href'.
  destruct (put_result HK _ _ _ _ _ _ _ _ _ Hinv Hph Hput)
    as [(Hrc & _)|(_ & e & w & Hl & Heff)]; [congruence|].
  destruct (hash_lookup_spec HK _ _ _ _ _ Hl) as (_ & _ & _ & He & _).
  destruct (put_slots HK s ph key value s' f e w Hinv Hph Hl Heff)
    as ((Hae & _ & _ & Hpe) & _).
  rewrite (get_of_holder s' _ ph key val ver e Href' Hph He Hae Hpe).
  unfold answer. rewrite update_same. reflexivity.
Qed.

(** X3: a [get] right after a successful [del] of the key returns
    [NOTFOUND] and leaves the out-parameters as they were. *)
Theorem shard_get_after_del (ops : list operation) (s : Shard.shard) (M : contents)
        (ph : Z) (key : buffer) (s' : Shard.shard) (val : list buffer) (ver : Z) :
  shard_after ops s M -> is_u32 ph ->
  Shard.del s ph key = Some (SUCCESS, s') ->
  Shard.get s' ph key val ver = Some (NOTFOUND, val, ver).
Proof.
  intros Hafter Hph Hdel.
  pose proof (shard_after_refines ops s M Hafter) as Href.
  pose proof (ref_inv s M Href) as Hinv.
  destruct (refines_del HK s M ph key SUCCESS s' Href Hph Hdel)
    as [(Hrc & _)|[(Hrc & _)|(_ & Hthere & _ & Href')]]; try discriminate.
  destruct (del_preserves HK s ph key SUCCESS s' Hinv Hph Hdel) as [_ Hkeeps].
  assert (Hholder : exists e, 0 <= e < HASH_TABLE_ENTRIES /\ assigned s e
                              /\ slot_pair s e = (ph, key)).
  { unfold Shard.del in Hdel.
    destruct (Shard.hash_lookup (mem s) ph key) as [[e w]|] eqn:Hl; [|discriminate].
    destruct (refines_lookup HK s M ph key e w Href Hph Hl) as (He & Hw & Hcases).
    destruct Hcases as [[_ HM]|(Hnz & Hpair & _)]; [contradiction|].
    exists e. split; [exact He|]. split; [|exact Hpair].
    unfold assigned. rewrite <- Hw. exact Hnz. }
  destruct Hholder as (e & He & Hae & Hpair).
  destruct (Hkeeps e He Hae) as [Hae' Hpair'].
  rewrite (get_of_holder s' _ ph key val ver e Href' Hph He Hae'); [|congruence].
  unfold answer. rewrite update_same. reflexivity.
Qed.

(** X4: a call about one key does not change what [get] answers for
    another: a key that was found is found again, with its value and
    version, and whatever [get] answered before it answers after, if it
    returns. *)
Theorem shard_get_unchanged_by_other_key (ops : list operation) (s : Shard.shard)
        (M : contents) (op : operation) (rc : returncode) (s' : Shard.shard)
        (ph : Z) (key : buffer) (val : list buffer) (ver : Z)
        (r : returncode * list buffer * Z) :
  shard_after ops s M -> proper op -> is_u32 ph ->
  call s op = Some (rc, s') -> target_of op <> (ph, key) ->
  Shard.get s ph key val ver = Some r ->
  (fst (fst r) = SUCCESS -> Shard.get s' ph key val ver = Some r)
  /\ (forall r', Shard.get s' ph key val ver = Some r' -> r' = r).
Proof.
  intros Hafter Hop Hph Hcall Hne Hget.
  pose proof (shard_after_refines ops s M Hafter) as Href.
  pose proof (refines_call HK s M op rc s' Href Hop Hcall) as Href'.
  pose proof (refines_get HK s M ph key val ver r Href Hph Hget) as Hr.
  assert (Hans : answer (model_step M op rc) ph key val ver = r).
  { rewrite Hr. unfold answer. rewrite model_step_other by exact Hne. reflexivity. }
  split.
  - intros Hfound.
    destruct (holder_of_get s M ph key val ver r Href Hph Hget) as [HM|(e & He & Hae & Hpair)].
    + rewrite Hr in Hfound. unfold answer in Hfound. rewrite HM in Hfound. discriminate.
    + destruct (call_keeps_slots s op rc s' (ref_inv s M Href) Hop Hcall) as [_ Hkeeps].
      destruct (Hkeeps e He Hae) as [Hae' Hpair'].
      rewrite (get_of_holder s' _ ph key val ver e Href' Hph He Hae'); [|congruence].
      rewrite Hans. reflexivity.
  - intros r' Hget'. rewrite <- Hans.
    exact (refines_get HK s' _ ph key val ver r' Href' Hph Hget').
Qed.

(** What [del] answers, next to what [get] answers, when both return. *)
Lemma del_beside_get (s : Shard.shard) (M : contents)
      (ph : Z) (key : buffer) (rc : returncode) (s' : Shard.shard)
      (val : list buffer) (ver : Z) (r : returncode * list buffer * Z) :
  refines s M -> is_u32 ph ->
  Shard.del s ph key = Some (rc, s') ->
  Shard.get s ph key val ver = Some r ->
  (rc = NOTFOUND <-> fst (fst r) = NOTFOUND)
  /\ (rc = DATAFULL <-> fst (fst r) = SUCCESS /\ FILE_SIZE < mdo s + 8)
  /\ (rc = SUCCESS <-> fst (fst r) = SUCCESS /\ mdo s + 8 <= FILE_SIZE)
  /\ (rc <> SUCCESS -> s' = s)
  /\ (rc = SUCCESS -> mdo s' = mdo s + 8 /\ mso s' = mso s).
Proof.
  intros Href Hph Hdel Hget.
  pose proof (refines_get HK s M ph key val ver r Href Hph Hget) as Hr.
  pose proof (del_result HK s ph key rc s' (ref_inv s M Href) Hph Hdel) as Hres.
  assert (Hfst : fst (fst r) = match M ph key with Some _ => SUCCESS | None => NOTFOUND end).
  { rewrite Hr. unfold answer. destruct (M ph key) as [[v ver']|]; reflexivity. }
  assert (Heffect : rc = SUCCESS -> mdo s' = mdo s + 8 /\ mso s' = mso s /\ mdo s + 8 <= FILE_SIZE).
  { intros ->. destruct Hres as [(Hne & _)|(_ & e & w & _ & Heff)]; [congruence|].
    destruct Heff as (_ & _ & Hroom & Hmdo' & Hmso' & _). repeat split; assumption. }
  destruct (refines_del HK s M ph key rc s' Href Hph Hdel)
    as [(-> & -> & HM)|[(-> & -> & HM & Hfull)|(-> & HM & _ & _)]].
  - rewrite HM in Hfst. rewrite Hfst.
    split; [split; reflexivity|]. split; [split; [discriminate|intros [? _]; discriminate]|].
    split; [split; [discriminate|intros [? _]; discriminate]|].
    split; [reflexivity|discriminate].
  - destruct (M ph key) as [x|]; [|contradiction]. rewrite Hfst.
    split; [split; discriminate|]. split; [split; [intros _; split; [reflexivity|exact Hfull]|reflexivity]|].
    split; [split; [discriminate|intros [_ ?]; lia]|].
    split; [reflexivity|discriminate].
  - destruct (Heffect eq_refl) as (Hmdo' & Hmso' & Hroom).
    destruct (M ph key) as [x|]; [|contradiction]. rewrite Hfst.
    split; [split; discriminate|]. split; [split; [discriminate|intros [_ ?]; lia]|].
    split; [split; [intros _; split; [reflexivity|exact Hroom]|reflexivity]|].
    split; [intros Hne; contradiction|intros _; split; assumption].
Qed.

(** X5: on a shard with an empty slot in its hash table [del] returns, and
    so does [get]. [del] answers [NOTFOUND] exactly when [get] does, and
    [DATAFULL] when the key is there but the eight bytes a delete takes do not
    fit the file; in both cases the shard is left as it is. Otherwise it
    answers [SUCCESS] and has moved the data offset by eight bytes. *)
Theorem shard_del_answers (ops : list operation) (s : Shard.shard) (M : contents)
        (ph : Z) (key : buffer) (val : list buffer) (ver : Z) :
  shard_after ops s M -> is_u32 ph -> has_empty_slot s ->
  exists rc s' r,
    Shard.del s ph key = Some (rc, s')
    /\ Shard.get s ph key val ver = Some r
    /\ (rc = NOTFOUND <-> fst (fst r) = NOTFOUND)
    /\ (rc = DATAFULL <-> fst (fst r) = SUCCESS /\ FILE_SIZE < mdo s + 8)
    /\ (rc = SUCCESS <-> fst (fst r) = SUCCESS /\ mdo s + 8 <= FILE_SIZE)
    /\ (rc <> SUCCESS -> s' = s)
    /\ (rc = SUCCESS -> mdo s' = mdo s + 8 /\ mso s' = mso s).
Proof.
  intros Hafter Hph Hslot.
  destruct (shard_del_returns HK s ph key Hslot) as ([rc s'] & Hdel).
  destruct (shard_get_returns HK s ph key val ver Hslot) as (r & Hget).
  exists rc, s', r. split; [exact Hdel|]. split; [exact Hget|].
  exact (del_beside_get s M ph key rc s' val ver r
                        (shard_after_refines ops s M Hafter) Hph Hdel Hget).
Qed.

End ShardIsMap.

(** X6: on a shard with an empty slot in its hash table [put] returns. It
    answers [DATAFULL] exactly when the record does not fit the file behind
    the data offset, [SEARCHFULL] exactly when it fits and the search log is
    full, and [SUCCESS] otherwise: it never answers [HASHFULL] or any other
    code. A [put] that fails leaves the shard as it is and calls no
    [async]. *)
Theorem shard_put_answers {K : shard_constants} (s : Shard.shard) (ph sh : Z)
        (key : buffer) (value : list buffer) (version : Z) :
  constants_ok K -> has_empty_slot s ->
  exists rc s' f,
    Shard.put s ph sh key value version = Some (rc, s', f)
    /\ (rc = DATAFULL <-> Shard.data_size key value + Shard.m_data_offset s > FILE_SIZE)
    /\ (rc = SEARCHFULL <-> Shard.data_size key value + Shard.m_data_offset s <= FILE_SIZE
                            /\ Shard.m_search_offset s = SEARCH_INDEX_ENTRIES)
    /\ (rc = SUCCESS <-> Shard.data_size key value + Shard.m_data_offset s <= FILE_SIZE
                         /\ Shard.m_search_offset s <> SEARCH_INDEX_ENTRIES)
    /\ (rc = SUCCESS \/ rc = DATAFULL \/ rc = SEARCHFULL)
    /\ (rc <> SUCCESS -> s' = s /\ f = false).
Proof.
  intros HK Hslot.
  destruct (shard_put_returns HK s ph sh key value version Hslot) as ([[rc s'] f] & Hput).
  exists rc, s', f. split; [exact Hput|].
  unfold Shard.put in Hput.
  destruct (Z.gtb_spec (Shard.data_size key value + Shard.m_data_offset s) FILE_SIZE)
    as [Hbig|Hfit].
  { assert (rc = DATAFULL /\ s' = s /\ f = false) as (-> & -> & ->)
      by (repeat split; congruence).
    split; [split; [intros _; lia|reflexivity]|].
    split; [split; [discriminate|intros [? _]; lia]|].
    split; [split; [discriminate|intros [? _]; lia]|].
    split; [right; left; reflexivity|]. intros _. split; reflexivity. }
  destruct (Z.eqb_spec (Shard.m_search_offset s) SEARCH_INDEX_ENTRIES) as [Hlogfull|Hroom].
  { assert (rc = SEARCHFULL /\ s' = s /\ f = false) as (-> & -> & ->)
      by (repeat split; congruence).
    split; [split; [discriminate|intros ?; lia]|].
    split; [split; [intros _; split; [lia|exact Hlogfull]|reflexivity]|].
    split; [split; [discriminate|intros [_ ?]; contradiction]|].
    split; [right; right; reflexivity|]. intros _. split; reflexivity. }
  destruct (Shard.hash_lookup _ _ _) as [[e w]|]; [|discriminate].
  destruct (Shard.pack_value _ _ _) as [m c].
  assert (rc = SUCCESS) as -> by congruence.
  split; [split; [discriminate|intros ?; lia]|].
  split; [split; [discriminate|intros [_ ?]; contradiction]|].
  split; [split; [intros _; split; [lia|exact Hroom]|reflexivity]|].
  split; [left; reflexivity|]. intros Hne. contradiction.
Qed.

(** * Shards: examples *)

Lemma state_of_some `{shard_constants} (o : option (Shard.shard * contents)) :
  is_some o = true -> o = Some (state_of o).
Proof. destruct o as [[s M]|]; [reflexivity|discriminate]. Qed.

Lemma put_outcome `{shard_constants} (o : option (returncode * Shard.shard * bool))
      (rc : returncode) (f : bool) :
  option_map (fun r => (fst (fst r), snd r)) o = Some (rc, f) ->
  o = Some (rc, shard_of (option_map (fun r => snd (fst r)) o), f).
Proof. destruct o as [[[rc0 s0] f0]|]; cbn; [|discriminate]. congruence. Qed.

Lemma del_outcome `{shard_constants} (o : option (returncode * Shard.shard))
      (rc : returncode) :
  option_map fst o = Some rc -> o = Some (rc, shard_of (option_map snd o)).
Proof. destruct o as [[rc0 s0]|]; cbn; [|discriminate]. congruence. Qed.

Section ShardMapExamples.
#[local] Existing Instance example_constants.

Lemma sample_calls_proper : Forall proper sample_calls.
Proof. repeat constructor; unfold is_u32; cbn; lia. Qed.

(** The shard the three sample calls leave. *)
Lemma sample_shard_after :
  shard_after sample_calls
              (fst (state_of (simulate Shard.create empty_contents sample_calls)))
              (snd (state_of (simulate Shard.create empty_contents sample_calls))).
Proof.
  split; [exact sample_calls_proper|].
  rewrite <- surjective_pairing. apply state_of_some. vm_compute. reflexivity.
Qed.

(** Slot 0 of its hash table has never been assigned. *)
Lemma sample_shard_empty_slot :
  has_empty_slot (fst (state_of (simulate Shard.create empty_contents sample_calls))).
Proof. exists 0. split; [cbn; lia|]. vm_compute. reflexivity. Qed.

Lemma shard_get_follows_map_witness :
  let st := state_of (simulate Shard.create empty_contents sample_calls) in
  Shard.get (fst st) 5 key_a [] 0 = Some (answer (snd st) 5 key_a [] 0)
  /\ Shard.get (fst st) 6 key_b [] 0 = Some (answer (snd st) 6 key_b [] 0).
Proof.
  intros st. split.
  - apply (shard_get_follows_map example_constants_ok sample_calls (fst st) (snd st)
                                 5 key_a [] 0).
    + exact sample_shard_after.
    + unfold is_u32. lia.
    + exact sample_shard_empty_slot.
  - apply (shard_get_follows_map example_constants_ok sample_calls (fst st) (snd st)
                                 6 key_b [] 0).
    + exact sample_shard_after.
    + unfold is_u32. lia.
    + exact sample_shard_empty_slot.
Defined.

Lemma shard_get_after_put_witness :
  let st := state_of (simulate Shard.create empty_contents sample_calls) in
  let s' := shard_of (option_map (fun r => snd (fst r))
                                 (Shard.put (fst st) 6 8 key_b value_1 3)) in
  Shard.get s' 6 key_b [] 0 = Some (SUCCESS, value_1, 3).
Proof.
  intros st s'.
  apply (shard_get_after_put example_constants_ok sample_calls (fst st) (snd st)
                             6 8 key_b value_1 3 s' true [] 0).
  - exact sample_shard_after.
  - cbn. unfold is_u32. lia.
  - apply put_outcome. vm_compute. reflexivity.
Defined.

Lemma shard_get_after_del_witness :
  let st := state_of (simulate Shard.create empty_contents sample_calls) in
  let s' := shard_of (option_map snd (Shard.del (fst st) 5 key_a)) in
  Shard.get s' 5 key_a value_1 9 = Some (NOTFOUND, value_1, 9).
Proof.
  intros st s'.
  apply (shard_get_after_del example_constants_ok sample_calls (fst st) (snd st)
                             5 key_a s' value_1 9).
  - exact sample_shard_after.
  - unfold is_u32. lia.
  - apply del_outcome. vm_compute. reflexivity.
Defined.

Lemma shard_get_unchanged_by_other_key_witness :
  let st := state_of (simulate Shard.create empty_contents sample_calls) in
  let op := Put 6 8 key_b value_1 3 in
  let s' := shard_of (option_map snd (call (fst st) op)) in
  let r := (SUCCESS, value_2, 2) in
  (fst (fst r) = SUCCESS -> Shard.get s' 5 key_a [] 0 = Some r)
  /\ (forall r', Shard.get s' 5 key_a [] 0 = Some r' -> r' = r).
Proof.
  intros st op s' r.
  apply (shard_get_unchanged_by_other_key example_constants_ok sample_calls (fst st) (snd st)
                                          op SUCCESS s' 5 key_a [] 0 r).
  - exact sample_shard_after.
  - cbn. unfold is_u32. lia.
  - unfold is_u32. lia.
  - apply del_outcome. vm_compute. reflexivity.
  - cbn. intros Heq. apply pair_equal_spec in Heq. lia.
  - vm_compute. reflexivity.
Defined.

Lemma shard_del_answers_witness :
  let st := state_of (simulate Shard.create empty_contents sample_calls) in
  let s := fst st in
  exists rc s' r,
    Shard.del s 5 key_a = Some (rc, s')
    /\ Shard.get s 5 key_a [] 0 = Some r
    /\ (rc = NOTFOUND <-> fst (fst r) = NOTFOUND)
    /\ (rc = DATAFULL <-> fst (fst r) = SUCCESS /\ FILE_SIZE < Shard.m_data_offset s + 8)
    /\ (rc = SUCCESS <-> fst (fst r) = SUCCESS /\ Shard.m_data_offset s + 8 <= FILE_SIZE)
    /\ (rc <> SUCCESS -> s' = s)
    /\ (rc = SUCCESS -> Shard.m_data_offset s' = Shard.m_data_offset s + 8
                        /\ Shard.m_search_offset s' = Shard.m_search_offset s).
Proof.
  intros st s.
  apply (shard_del_answers example_constants_ok sample_calls s (snd st) 5 key_a [] 0).
  - exact sample_shard_after.
  - unfold is_u32. lia.
  - exact sample_shard_empty_slot.
Defined.

Lemma shard_put_answers_witness :
  exists rc s' f,
    Shard.put Shard.create 5 7 key_a value_1 1 = Some (rc, s', f)
    /\ (rc = DATAFULL
        <-> Shard.data_size key_a value_1 + Shard.m_data_offset Shard.create > FILE_SIZE)
    /\ (rc = SEARCHFULL
        <-> Shard.data_size key_a value_1 + Shard.m_data_offset Shard.create <= FILE_SIZE
            /\ Shard.m_search_offset Shard.create = SEARCH_INDEX_ENTRIES)
    /\ (rc = SUCCESS
        <-> Shard.data_size key_a value_1 + Shard.m_data_offset Shard.create <= FILE_SIZE
            /\ Shard.m_search_offset Shard.create <> SEARCH_INDEX_ENTRIES)
    /\ (rc = SUCCESS \/ rc = DATAFULL \/ rc = SEARCHFULL)
    /\ (rc <> SUCCESS -> s' = Shard.create /\ f = false).
Proof.
  apply (shard_put_answers Shard.create 5 7 key_a value_1 1).
  - exact example_constants_ok.
  - exact (create_has_empty_slot example_constants_ok).
Defined.

End ShardMapExamples.

(** * The disk: the write-ahead log under [del] and [flush] *)

Section DiskLog.
Context {K : shard_constants}.
Variable CityHash64 : buffer -> Z.
Variable CityHash64_each : list buffer -> list Z.
Variable lower_interlace : list Z -> Z.

Local Abbreviation get := (Disk.get CityHash64).
Local Abbreviation put := (Disk.put CityHash64 CityHash64_each lower_interlace).
Local Abbreviation del := (Disk.del CityHash64).
Local Abbreviation get_coordinate := (Disk.get_coordinate CityHash64).

(** What [get] returns, by the last entry of the WAL that concerns the
    key. *)
Lemma get_by_last_match d k val0 ver0 :
  option_map as_lookup (get d k val0 ver0)
  = match Disk.get_shards (Disk.m_shards d) (get_coordinate k) k NOTFOUND val0 ver0 with
    | None => None
    | Some shard_result =>
        match last_match (get_coordinate k) k (Disk.m_log d) with
        | Some e =>
            if secondary_mask (Disk.coord e) =? UINT32_MAX
            then Some (Found (Disk.value e) (Disk.version e))
            else Some NotFound
        | None => Some (as_lookup shard_result)
        end
    end.
Proof.
  unfold Disk.get.
  destruct (Disk.get_shards _ _ _ _ _ _) as [[[shard_res val1] ver1]|]; [|reflexivity].
  pose proof (get_wal_loop (get_coordinate k) k (Disk.m_log d) val1 ver1) as H.
  destruct (fold_left _ _ _) as [[[found wal_res] val] ver].
  destruct (last_match _ _ _) as [e|].
  - destruct H as [-> H].
    destruct (secondary_mask (Disk.coord e) =? UINT32_MAX).
    + destruct H as (-> & -> & ->). reflexivity.
    + rewrite H. reflexivity.
  - destruct H as (-> & -> & ->). reflexivity.
Qed.

(** X7: a [get] of a key right after its [del] answers [NOTFOUND], whatever
    the shards and the older entries of the WAL hold for the key: the delete
    entry is the last one that concerns it. *)
Theorem get_after_del (d : Disk.disk) (k : buffer) (val0 : list buffer) (ver0 : Z)
        (shard_result : returncode * list buffer * Z) :
  Disk.get_shards (Disk.m_shards d) (get_coordinate k) k NOTFOUND val0 ver0
  = Some shard_result ->
  fst (del d k) = SUCCESS
  /\ option_map as_lookup (get (snd (del d k)) k val0 ver0) = Some NotFound.
Proof.
  intros Hwalk. split; [reflexivity|].
  rewrite get_by_last_match. unfold Disk.del. cbn [snd Disk.set_log Disk.m_shards Disk.m_log].
  rewrite Hwalk.
  rewrite (last_match_app_match _ _ _ (Disk.delete_entry (get_coordinate k) k)).
  - reflexivity.
  - unfold wal_matches, Disk.delete_entry, Disk.get_coordinate.
    cbn [Disk.coord Disk.key]. rewrite primary_contains_same_hash, buffer_eqb_refl.
    reflexivity.
Qed.

Lemma get_wal_step_other c k st e :
  buffer_eqb (Disk.key e) k = false -> Disk.get_wal_step c k st e = st.
Proof.
  intros Hne. destruct st as [[[found wal_res] val] ver]. unfold Disk.get_wal_step.
  rewrite Hne, andb_false_r. reflexivity.
Qed.

(** X8: a [put] or a [del] of one key changes nothing in what [get]
    returns for another key, out-parameters included. *)
Theorem get_other_key_unchanged (d : Disk.disk) (k k' : buffer) (v : list buffer)
        (ver : Z) (val0 : list buffer) (ver0 : Z) :
  k <> k' ->
  get (snd (put d k v ver)) k' val0 ver0 = get d k' val0 ver0
  /\ get (snd (del d k)) k' val0 ver0 = get d k' val0 ver0.
Proof.
  intros Hne.
  assert (Hk : buffer_eqb k k' = false).
  { destruct (buffer_eqb k k') eqn:E; [|reflexivity].
    apply buffer_eqb_eq in E. contradiction. }
  split.
  - unfold Disk.put. destruct (negb _); [reflexivity|].
    unfold Disk.get. cbn [snd Disk.set_log Disk.m_shards Disk.m_log].
    destruct (Disk.get_shards _ _ _ _ _ _) as [[[shard_res val1] ver1]|]; [|reflexivity].
    rewrite fold_left_app. cbn [fold_left].
    rewrite get_wal_step_other by exact Hk. reflexivity.
  - unfold Disk.del, Disk.get. cbn [snd Disk.set_log Disk.m_shards Disk.m_log].
    destruct (Disk.get_shards _ _ _ _ _ _) as [[[shard_res val1] ver1]|]; [|reflexivity].
    rewrite fold_left_app. cbn [fold_left].
    rewrite get_wal_step_other by exact Hk. reflexivity.
Qed.

(** ** What [flush] does to the WAL *)

Lemma create_tmp_shard_log d c :
  match Disk.create_tmp_shard d c with
  | Disk.Returns _ d' | Disk.Throws d' =>
      Disk.m_log d' = Disk.m_log d /\ Disk.m_arity d' = Disk.m_arity d
  | Disk.Undefined => True
  end.
Proof.
  unfold Disk.create_tmp_shard.
  destruct (Disk.m_spare_shards d) as [|[name sp] rest].
  - split; reflexivity.
  - destruct (Disk.renameat _ _ _); split; reflexivity.
Qed.

Lemma create_shard_log d c :
  match Disk.create_shard d c with
  | Disk.Returns _ d' | Disk.Throws d' =>
      Disk.m_log d' = Disk.m_log d /\ Disk.m_arity d' = Disk.m_arity d
  | Disk.Undefined => True
  end.
Proof.
  unfold Disk.create_shard.
  destruct (Disk.m_spare_shards d) as [|[name sp] rest].
  - split; reflexivity.
  - destruct (Disk.renameat _ _ _); split; reflexivity.
Qed.

Lemma drop_shard_log d c :
  Disk.m_log (snd (Disk.drop_shard d c)) = Disk.m_log d
  /\ Disk.m_arity (snd (Disk.drop_shard d c)) = Disk.m_arity d.
Proof. unfold Disk.drop_shard. destruct (Disk.unlink _ _); split; reflexivity. Qed.

Lemma drop_tmp_shard_log d c :
  Disk.m_log (snd (Disk.drop_tmp_shard d c)) = Disk.m_log d
  /\ Disk.m_arity (snd (Disk.drop_tmp_shard d c)) = Disk.m_arity d.
Proof. unfold Disk.drop_tmp_shard. destruct (Disk.unlink _ _); split; reflexivity. Qed.

Lemma run_guards_log guards : forall d,
  Disk.m_log (Disk.run_guards d guards) = Disk.m_log d
  /\ Disk.m_arity (Disk.run_guards d guards) = Disk.m_arity d.
Proof.
  unfold Disk.run_guards.
  induction guards as [|g guards IH]; intros d; [split; reflexivity|].
  cbn [fold_left]. destruct (IH (snd (Disk.drop_shard d g))) as [Hl Ha].
  destruct (drop_shard_log d g) as [Hl' Ha']. split; congruence.
Qed.

Lemma clean_shard_log d i :
  match Disk.clean_shard d i with
  | Disk.Returns _ d' | Disk.Throws d' =>
      Disk.m_log d' = Disk.m_log d /\ Disk.m_arity d' = Disk.m_arity d
  | Disk.Undefined => True
  end.
Proof.
  unfold Disk.clean_shard.
  destruct (nth_error (Disk.m_shards d) i) as [[c s]|]; [|exact I].
  pose proof (create_tmp_shard_log d c) as Hsame.
  destruct (Disk.create_tmp_shard d c) as [newshard d1|d1|]; [|exact Hsame|exact I].
  destruct (Shard.copy_to _ _ _) as [copied|]; [|exact I].
  destruct (Disk.renameat _ _ _) as [dir|].
  - exact Hsame.
  - destruct (drop_tmp_shard_log d1 c) as [Hl Ha].
    destruct (Disk.drop_tmp_shard d1 c) as [rc d2]. cbn [snd] in Hl, Ha.
    destruct Hsame. split; congruence.
Qed.

Lemma create_and_copy_log d s c :
  match Disk.create_and_copy d s c with
  | Disk.Returns _ d' | Disk.Throws d' =>
      Disk.m_log d' = Disk.m_log d /\ Disk.m_arity d' = Disk.m_arity d
  | Disk.Undefined => True
  end.
Proof.
  unfold Disk.create_and_copy.
  pose proof (create_shard_log d c) as Hsame.
  destruct (Disk.create_shard d c) as [child d1|d1|]; [|exact Hsame|exact I].
  destruct (Shard.copy_to _ _ _); [exact Hsame|exact I].
Qed.

Lemma split_shard_log d i :
  match Disk.split_shard d i with
  | Disk.Returns _ d' | Disk.Throws d' =>
      Disk.m_log d' = Disk.m_log d /\ Disk.m_arity d' = Disk.m_arity d
  | Disk.Undefined => True
  end.
Proof.
  unfold Disk.split_shard.
  destruct (nth_error (Disk.m_shards d) i) as [[c sp]|]; [|exact I]. cbv zeta.
  destruct (fold_left (Disk.count_secondary c) _ _) as [zeros ones].
  destruct (fold_left (Disk.count_primary c _) _ _)
    as [[[zeros_lower ones_lower] zeros_upper] ones_upper].
  next_child create_and_copy_log H1 zero_zero d1; [|exact H1|exact I].
  next_child create_and_copy_log H2 zero_one d2; [| |exact I].
  2:{ match goal with
      | |- context [Disk.run_guards d2 ?g] => destruct (run_guards_log g d2) as [Hl Ha]
      end.
      destruct H1, H2. split; congruence. }
  next_child create_and_copy_log H3 one_zero d3; [| |exact I].
  2:{ match goal with
      | |- context [Disk.run_guards d3 ?g] => destruct (run_guards_log g d3) as [Hl Ha]
      end.
      destruct H1, H2, H3. split; congruence. }
  next_child create_and_copy_log H4 one_one d4; [| |exact I].
  2:{ match goal with
      | |- context [Disk.run_guards d4 ?g] => destruct (run_guards_log g d4) as [Hl Ha]
      end.
      destruct H1, H2, H3, H4. split; congruence. }
  match goal with
  | |- context [Disk.drop_shard ?d0 ?c0] =>
      destruct (drop_shard_log d0 c0) as [Hl Ha];
      destruct (Disk.drop_shard d0 c0) as [rc d5]
  end.
  cbn [snd Disk.set_shards Disk.m_log Disk.m_arity] in Hl, Ha.
  destruct H1, H2, H3, H4. split; congruence.
Qed.

Lemma deal_with_full_shard_log d i :
  match Disk.deal_with_full_shard d i with
  | Disk.Returns _ d' | Disk.Throws d' =>
      Disk.m_log d' = Disk.m_log d /\ Disk.m_arity d' = Disk.m_arity d
  | Disk.Undefined => True
  end.
Proof.
  unfold Disk.deal_with_full_shard.
  destruct (nth_error (Disk.m_shards d) i) as [[c s]|]; [|exact I].
  destruct (_ >=? 30); [apply clean_shard_log|].
  destruct (_ || _); [split; reflexivity|apply split_shard_log].
Qed.


(** What [d'] has of the WAL and of the arity of [d]. *)
Local Abbreviation same_log d d' :=
  (Disk.m_log d' = Disk.m_log d /\ Disk.m_arity d' = Disk.m_arity d).

Lemma flush_del_log e : forall remaining d i,
  match Disk.flush_del d e remaining i with
  | Disk.Falls_through d' => same_log d d'
  | Disk.Leaves (Disk.Returns _ d') | Disk.Leaves (Disk.Throws d') => same_log d d'
  | Disk.Leaves Disk.Undefined => True
  end.
Proof.
  induction remaining as [|remaining IH]; intros d i; cbn [Disk.flush_del].
  - split; reflexivity.
  - destruct (nth_error (Disk.m_shards d) i) as [[ci si]|]; [|split; reflexivity].
    destruct (negb (primary_contains ci (Disk.coord e))); [apply IH|].
    destruct (Shard.del _ _ _) as [[rc s']|]; [|exact I].
    set (d1 := Disk.set_shards d _).
    assert (Hd1 : same_log d d1) by (split; reflexivity).
    assert (Hnext : match Disk.flush_del d1 e remaining (S i) with
                    | Disk.Falls_through d' => same_log d d'
                    | Disk.Leaves (Disk.Returns _ d') | Disk.Leaves (Disk.Throws d') =>
                        same_log d d'
                    | Disk.Leaves Disk.Undefined => True
                    end) by exact (IH d1 (S i)).
    destruct rc; try exact Hnext; [exact Hd1|].
    exact (deal_with_full_shard_log d1 i).
Qed.

Lemma flush_put_log e : forall n d,
  match Disk.flush_put d e n with
  | Disk.Falls_through d' => same_log d d'
  | Disk.Leaves (Disk.Returns _ d') | Disk.Leaves (Disk.Throws d') => same_log d d'
  | Disk.Leaves Disk.Undefined => True
  end.
Proof.
  induction n as [|i IH]; intros d; cbn [Disk.flush_put].
  - split; reflexivity.
  - destruct (nth_error (Disk.m_shards d) i) as [[ci si]|]; [|exact I].
    destruct (negb (contains ci (Disk.coord e))); [apply IH|].
    destruct (Shard.put _ _ _ _ _ _) as [[[rc s'] flushed]|]; [|exact I].
    set (d1 := Disk.set_shards d _).
    assert (Hd1 : same_log d d1) by (split; reflexivity).
    assert (Hnext : match Disk.flush_put d1 e i with
                    | Disk.Falls_through d' => same_log d d'
                    | Disk.Leaves (Disk.Returns _ d') | Disk.Leaves (Disk.Throws d') =>
                        same_log d d'
                    | Disk.Leaves Disk.Undefined => True
                    end) by exact (IH d1).
    destruct rc; try exact Hnext; try exact (deal_with_full_shard_log d1 i).
    exact Hd1.
Qed.

Lemma flush_loop_log : forall remaining d,
  match Disk.flush_loop d remaining with
  | Disk.Returns _ d' | Disk.Throws d' =>
      (exists n, (n <= remaining)%nat /\ Disk.m_log d' = skipn n (Disk.m_log d))
      /\ Disk.m_arity d' = Disk.m_arity d
  | Disk.Undefined => True
  end.
Proof.
  assert (Hkeep : forall d d' : Disk.disk, forall remaining : nat,
             same_log d d' ->
             (exists n, (n <= remaining)%nat /\ Disk.m_log d' = skipn n (Disk.m_log d))
             /\ Disk.m_arity d' = Disk.m_arity d).
  { intros d d' remaining [Hl Ha]. split; [|exact Ha]. exists 0%nat. split; [lia|exact Hl]. }
  induction remaining as [|remaining IH]; intros d; cbn [Disk.flush_loop].
  - apply Hkeep. split; reflexivity.
  - destruct (Disk.m_log d) as [|oldest rest] eqn:Hlog.
    { split; [|reflexivity]. exists 0%nat. split; [lia|]. rewrite Hlog. reflexivity. }
    pose proof (flush_del_log oldest (length (Disk.m_shards d)) d 0%nat) as Hdel.
    destruct (Disk.flush_del d oldest (length (Disk.m_shards d)) 0) as [d1|o].
    2:{ destruct o as [rc d'|d'|]; [| |exact I]; rewrite <- Hlog; apply Hkeep; exact Hdel. }
    assert (Hafter : match (if secondary_mask (Disk.coord oldest) =? UINT32_MAX
                            then Disk.flush_put d1 oldest (length (Disk.m_shards d1))
                            else Disk.Falls_through d1) with
                     | Disk.Falls_through d' => same_log d d'
                     | Disk.Leaves (Disk.Returns _ d') | Disk.Leaves (Disk.Throws d') =>
                         same_log d d'
                     | Disk.Leaves Disk.Undefined => True
                     end).
    { destruct (secondary_mask (Disk.coord oldest) =? UINT32_MAX); [|exact Hdel].
      pose proof (flush_put_log oldest (length (Disk.m_shards d1)) d1) as Hput.
      destruct (Disk.flush_put d1 oldest (length (Disk.m_shards d1))) as [d2|[rc d2|d2|]];
        try exact I; destruct Hdel, Hput; split; congruence. }
    destruct (if secondary_mask (Disk.coord oldest) =? UINT32_MAX
              then Disk.flush_put d1 oldest (length (Disk.m_shards d1))
              else Disk.Falls_through d1) as [d2|o].
    2:{ destruct o as [rc d'|d'|]; [| |exact I]; rewrite <- Hlog; apply Hkeep; exact Hafter. }
    specialize (IH (Disk.set_log d2 rest)).
    destruct Hafter as [Hl2 Ha2].
    destruct (Disk.flush_loop (Disk.set_log d2 rest) remaining) as [rc d'|d'|];
      [| |exact I];
      destruct IH as [(n & Hn & Hskip) Ha]; cbn [Disk.set_log Disk.m_log Disk.m_arity] in *;
      (split; [exists (S n); split; [lia|exact Hskip]|congruence]).
Qed.

(** A loop of [flush] that leaves does so for a shard operation without
    a result, or to return what [deal_with_full_shard] returns; the WAL is
    then as it was. *)
Local Abbreviation leaves_full d o :=
  (o = Disk.Undefined
   \/ exists d1 i, same_log d d1 /\ o = Disk.deal_with_full_shard d1 i).

Lemma flush_del_exit e : forall remaining d i,
  match Disk.flush_del d e remaining i with
  | Disk.Falls_through d' => same_log d d'
  | Disk.Leaves o => leaves_full d o
  end.
Proof.
  induction remaining as [|remaining IH]; intros d i; cbn [Disk.flush_del].
  - split; reflexivity.
  - destruct (nth_error (Disk.m_shards d) i) as [[ci si]|]; [|split; reflexivity].
    destruct (negb (primary_contains ci (Disk.coord e))); [apply IH|].
    destruct (Shard.del _ _ _) as [[rc s']|]; [|left; reflexivity].
    set (d1 := Disk.set_shards d _).
    assert (Hd1 : same_log d d1) by (split; reflexivity).
    assert (Hnext : match Disk.flush_del d1 e remaining (S i) with
                    | Disk.Falls_through d' => same_log d d'
                    | Disk.Leaves o => leaves_full d o
                    end) by exact (IH d1 (S i)).
    destruct rc; try exact Hnext; [exact Hd1|].
    right. exists d1, i. split; [exact Hd1|reflexivity].
Qed.

Lemma flush_put_exit e : forall n d,
  match Disk.flush_put d e n with
  | Disk.Falls_through d' => same_log d d'
  | Disk.Leaves o => leaves_full d o
  end.
Proof.
  induction n as [|i IH]; intros d; cbn [Disk.flush_put].
  - split; reflexivity.
  - destruct (nth_error (Disk.m_shards d) i) as [[ci si]|]; [|left; reflexivity].
    destruct (negb (contains ci (Disk.coord e))); [apply IH|].
    destruct (Shard.put _ _ _ _ _ _) as [[[rc s'] flushed]|]; [|left; reflexivity].
    set (d1 := Disk.set_shards d _).
    assert (Hd1 : same_log d d1) by (split; reflexivity).
    assert (Hnext : match Disk.flush_put d1 e i with
                    | Disk.Falls_through d' => same_log d d'
                    | Disk.Leaves o => leaves_full d o
                    end) by exact (IH d1).
    destruct rc; try exact Hnext; try (right; exists d1, i; split; [exact Hd1|reflexivity]).
    exact Hd1.
Qed.

(** How the outer loop of [flush] ends: it has removed the [remaining]
    entries it may visit (all of them when the WAL is shorter); or it has
    removed [n] of them and leaves at the next one, still in the WAL, to
    return what [deal_with_full_shard] returns; or a shard operation has no
    result. *)
Lemma flush_loop_exit : forall remaining d,
  (exists d', Disk.flush_loop d remaining = Disk.Returns SUCCESS d'
              /\ Disk.m_log d' = skipn remaining (Disk.m_log d)
              /\ Disk.m_arity d' = Disk.m_arity d)
  \/ (exists n e d1 i,
         (n < remaining)%nat /\ nth_error (Disk.m_log d) n = Some e
         /\ Disk.m_log d1 = skipn n (Disk.m_log d)
         /\ Disk.m_arity d1 = Disk.m_arity d
         /\ Disk.flush_loop d remaining = Disk.deal_with_full_shard d1 i)
  \/ Disk.flush_loop d remaining = Disk.Undefined.
Proof.
  induction remaining as [|remaining IH]; intros d; cbn [Disk.flush_loop].
  - left. exists d. repeat split.
  - destruct (Disk.m_log d) as [|oldest rest] eqn:Hlog.
    { left. exists d. rewrite Hlog. repeat split. }
    assert (Hstop : forall o, leaves_full d o ->
              (exists n e d1 i,
                  (n < S remaining)%nat /\ nth_error (oldest :: rest) n = Some e
                  /\ Disk.m_log d1 = skipn n (oldest :: rest)
                  /\ Disk.m_arity d1 = Disk.m_arity d
                  /\ o = Disk.deal_with_full_shard d1 i)
              \/ o = Disk.Undefined).
    { intros o [->|(d1 & i & [Hl Ha] & ->)]; [right; reflexivity|left].
      exists 0%nat, oldest, d1, i. split; [lia|]. split; [reflexivity|].
      split; [rewrite Hl, Hlog; reflexivity|]. split; [exact Ha|reflexivity]. }
    pose proof (flush_del_exit oldest (length (Disk.m_shards d)) d 0%nat) as Hdel.
    destruct (Disk.flush_del d oldest (length (Disk.m_shards d)) 0) as [d1|o].
    2:{ right. exact (Hstop o Hdel). }
    assert (Hafter : match (if secondary_mask (Disk.coord oldest) =? UINT32_MAX
                            then Disk.flush_put d1 oldest (length (Disk.m_shards d1))
                            else Disk.Falls_through d1) with
                     | Disk.Falls_through d' => same_log d d'
                     | Disk.Leaves o => leaves_full d o
                     end).
    { destruct (secondary_mask (Disk.coord oldest) =? UINT32_MAX); [|exact Hdel].
      pose proof (flush_put_exit oldest (length (Disk.m_shards d1)) d1) as Hput.
      destruct (Disk.flush_put d1 oldest (length (Disk.m_shards d1))) as [d2|o].
      - destruct Hdel, Hput; split; congruence.
      - destruct Hput as [->|(d2 & i & [Hl Ha] & ->)]; [left; reflexivity|right].
        exists d2, i. split; [|reflexivity]. destruct Hdel; split; congruence. }
    destruct (if secondary_mask (Disk.coord oldest) =? UINT32_MAX
              then Disk.flush_put d1 oldest (length (Disk.m_shards d1))
              else Disk.Falls_through d1) as [d2|o].
    2:{ right. exact (Hstop o Hafter). }
    destruct Hafter as [Hl2 Ha2].
    destruct (IH (Disk.set_log d2 rest))
      as [(d' & Hrun & Hl & Ha)|[(n & e & d3 & i & Hn & He & Hl & Ha & Hrun)|Hrun]];
      cbn [Disk.set_log Disk.m_log Disk.m_arity] in *.
    + left. exists d'. split; [exact Hrun|]. split; [exact Hl|congruence].
    + right. left. exists (S n), e, d3, i. split; [lia|]. split; [exact He|].
      split; [exact Hl|]. split; [congruence|exact Hrun].
    + right. right. exact Hrun.
Qed.

Lemma hd_error_skipn {A : Type} (l : list A) : forall n,
  hd_error (skipn n l) = nth_error l n.
Proof.
  induction l as [|x l IH]; intros [|n]; try reflexivity. cbn [skipn nth_error]. apply IH.
Qed.

(** X9: [flush] takes entries off the front of the WAL and does nothing
    else to it. Either it returns [SUCCESS] having removed the first 100
    entries, all of them when there are fewer; or it stopped at an entry
    [e], the [n]-th with [n] below 100, to return what [deal_with_full_shard]
    returns for a shard, and then, however that call ends, exactly the [n]
    entries before [e] have been removed, [e] is the oldest entry of the WAL
    that is left; or a shard operation had no result. The arity of the disk
    is as before. *)
Theorem flush_takes_prefix (d : Disk.disk) :
  (exists d', Disk.flush d = Disk.Returns SUCCESS d'
              /\ Disk.m_log d' = skipn 100 (Disk.m_log d)
              /\ Disk.m_arity d' = Disk.m_arity d)
  \/ (exists n e d1 i,
         (n < 100)%nat /\ nth_error (Disk.m_log d) n = Some e
         /\ Disk.m_log d1 = skipn n (Disk.m_log d)
         /\ Disk.flush d = Disk.deal_with_full_shard d1 i
         /\ match Disk.flush d with
            | Disk.Returns _ d' | Disk.Throws d' =>
                Disk.m_log d' = skipn n (Disk.m_log d)
                /\ hd_error (Disk.m_log d') = Some e
                /\ Disk.m_arity d' = Disk.m_arity d
            | Disk.Undefined => True
            end)
  \/ Disk.flush d = Disk.Undefined.
Proof.
  unfold Disk.flush.
  destruct (flush_loop_exit 100 d)
    as [Hrun|[(n & e & d1 & i & Hn & He & Hl & Ha & Hrun)|Hrun]];
    [left; exact Hrun| |right; right; exact Hrun].
  right. left. exists n, e, d1, i. split; [exact Hn|]. split; [exact He|].
  split; [exact Hl|]. split; [exact Hrun|].
  rewrite Hrun. pose proof (deal_with_full_shard_log d1 i) as Hfull.
  destruct (Disk.deal_with_full_shard d1 i) as [rc d'|d'|]; [| |exact I];
    destruct Hfull as [Hl' Ha']; rewrite Hl', Hl, hd_error_skipn;
    (split; [reflexivity|]; split; [exact He|congruence]).
Qed.

End DiskLog.

(** * The disk: file names *)

Lemma digit_value_hex_digit d : 0 <= d < 16 -> digit_value (Disk.hex_digit d) = d.
Proof.
  intros Hd.
  assert (Hcases : d = 0 \/ d = 1 \/ d = 2 \/ d = 3 \/ d = 4 \/ d = 5 \/ d = 6 \/ d = 7
                   \/ d = 8 \/ d = 9 \/ d = 10 \/ d = 11 \/ d = 12 \/ d = 13 \/ d = 14
                   \/ d = 15) by lia.
  repeat (destruct Hcases as [->|Hcases]; [reflexivity|]). subst d. reflexivity.
Qed.

Lemma hex_digits_length fuel : forall z acc,
  (String.length acc < String.length (Disk.hex_digits (S fuel) z acc)
   <= S fuel + String.length acc)%nat.
Proof.
  induction fuel as [|fuel IH]; intros z acc.
  - cbn [Disk.hex_digits]. destruct (z / 16 =? 0); cbn [String.length]; lia.
  - change (Disk.hex_digits (S (S fuel)) z acc)
      with (if z / 16 =? 0 then String (Disk.hex_digit (z mod 16)) acc
            else Disk.hex_digits (S fuel) (z / 16) (String (Disk.hex_digit (z mod 16)) acc)).
    destruct (z / 16 =? 0); [cbn [String.length]; lia|].
    specialize (IH (z / 16) (String (Disk.hex_digit (z mod 16)) acc)).
    cbn [String.length] in IH. lia.
Qed.

(** The digits [hex_digits] puts before [acc] stand for [z]. *)
Lemma hex_value_hex_digits fuel : forall z acc,
  0 <= z < 16 ^ Z.of_nat (S fuel) ->
  hex_value (Disk.hex_digits (S fuel) z acc)
  = z * 16 ^ Z.of_nat (String.length acc) + hex_value acc.
Proof.
  induction fuel as [|fuel IH]; intros z acc Hz.
  - change (16 ^ Z.of_nat 1) with 16 in Hz.
    cbn [Disk.hex_digits]. rewrite (Z.div_small z 16) by lia. cbn [Z.eqb hex_value].
    rewrite digit_value_hex_digit by (apply Z.mod_pos_bound; lia).
    rewrite Z.mod_small by lia. reflexivity.
  - change (Disk.hex_digits (S (S fuel)) z acc)
      with (if z / 16 =? 0 then String (Disk.hex_digit (z mod 16)) acc
            else Disk.hex_digits (S fuel) (z / 16) (String (Disk.hex_digit (z mod 16)) acc)).
    assert (Hd : 0 <= z mod 16 < 16) by (apply Z.mod_pos_bound; lia).
    pose proof (Z.div_mod z 16 ltac:(lia)) as Hdm.
    destruct (Z.eqb_spec (z / 16) 0) as [Hq|Hq].
    + cbn [hex_value]. rewrite digit_value_hex_digit by exact Hd. f_equal. f_equal. lia.
    + rewrite IH.
      * cbn [hex_value String.length]. rewrite digit_value_hex_digit by exact Hd.
        rewrite Nat2Z.inj_succ, Z.pow_succ_r by lia. lia.
      * rewrite (Nat2Z.inj_succ (S fuel)), Z.pow_succ_r in Hz by lia.
        split; [apply Z.div_pos; lia|apply Z.div_lt_upper_bound; lia].
Qed.

Lemma hex_value_fill n s : hex_value (Disk.fill n "0"%char s) = hex_value s.
Proof. induction n as [|n IH]; cbn [Disk.fill hex_value]; [reflexivity|]. rewrite IH. reflexivity. Qed.

Lemma fill_length n c s : String.length (Disk.fill n c s) = (n + String.length s)%nat.
Proof. induction n as [|n IH]; cbn [Disk.fill String.length]; [reflexivity|]. rewrite IH. reflexivity. Qed.

(** [hex16] prints 16 characters, the first of them a zero, and they read
    back as the number. *)
Lemma hex16_spec x :
  String.length (Disk.hex16 x) = 16%nat
  /\ (exists rest, Disk.hex16 x = String "0"%char rest)
  /\ (is_u32 x -> hex_value (Disk.hex16 x) = x).
Proof.
  unfold Disk.hex16. cbv zeta.
  pose proof (hex_digits_length 7 x EmptyString) as Hlen. cbn [String.length] in Hlen.
  split; [rewrite fill_length; lia|]. split.
  - destruct (16 - String.length (Disk.hex_digits 8 x EmptyString))%nat as [|n] eqn:E; [lia|].
    cbn [Disk.fill]. eexists. reflexivity.
  - intros Hx. rewrite hex_value_fill, (hex_value_hex_digits 7).
    + cbn [String.length hex_value]. change (16 ^ Z.of_nat 0) with 1. lia.
    + unfold is_u32 in Hx. change (16 ^ Z.of_nat 8) with (2 ^ 32). exact Hx.
Qed.

Lemma append_same_length (a a' b b' : string) :
  String.length a = String.length a' ->
  (a ++ b = a' ++ b')%string -> a = a' /\ b = b'.
Proof.
  revert a'. induction a as [|x a IH]; intros [|x' a'] Hlen Heq; cbn in *; try discriminate.
  - split; [reflexivity|exact Heq].
  - assert (Hx : x = x') by congruence.
    assert (Htail : (a ++ b = a' ++ b')%string) by congruence.
    destruct (IH a' ltac:(lia) Htail) as [-> ->]. subst x'. split; reflexivity.
Qed.

(** Two fields of 16 characters in front of equal strings are equal. *)
Lemma hex16_field x y rest rest' :
  is_u32 x -> is_u32 y ->
  (Disk.hex16 x ++ rest = Disk.hex16 y ++ rest')%string -> x = y /\ rest = rest'.
Proof.
  intros Hx Hy Heq.
  destruct (hex16_spec x) as (Lx & _ & Vx). destruct (hex16_spec y) as (Ly & _ & Vy).
  assert (Hlen : String.length (Disk.hex16 x) = String.length (Disk.hex16 y)) by congruence.
  destruct (append_same_length _ _ _ _ Hlen Heq) as [Hh Hrest].
  split; [|exact Hrest]. rewrite <- (Vx Hx), <- (Vy Hy), Hh. reflexivity.
Qed.

Lemma shard_filename_length c : String.length (Disk.shard_filename c) = 67%nat.
Proof.
  unfold Disk.shard_filename. rewrite !string_length_append.
  destruct (hex16_spec (primary_mask c)) as (-> & _).
  destruct (hex16_spec (primary_hash c)) as (-> & _).
  destruct (hex16_spec (secondary_mask c)) as (-> & _).
  destruct (hex16_spec (secondary_hash c)) as (-> & _). reflexivity.
Qed.

Lemma shard_filename_first c : exists rest, Disk.shard_filename c = String "0"%char rest.
Proof.
  unfold Disk.shard_filename.
  destruct (hex16_spec (primary_mask c)) as (_ & (rest & ->) & _).
  eexists. reflexivity.
Qed.

(** X10: the names of the shard files do not collide: two coordinates with
    the same canonical name are the same coordinate, and no canonical name
    is the temporary name of any coordinate or the name of a spare shard. *)
Theorem shard_filenames_distinct (c c' : coordinate) (counter : Z) :
  coordinate_ok c -> coordinate_ok c' ->
  (Disk.shard_filename c = Disk.shard_filename c' -> c = c')
  /\ (Disk.shard_tmp_filename c = Disk.shard_tmp_filename c' -> c = c')
  /\ Disk.shard_filename c <> Disk.shard_tmp_filename c'
  /\ Disk.shard_filename c <> Disk.spare_name counter
  /\ Disk.shard_tmp_filename c <> Disk.spare_name counter.
Proof.
  intros (H1 & H2 & H3 & H4) (H1' & H2' & H3' & H4').
  assert (Hinj : forall t t', (Disk.shard_filename c ++ t = Disk.shard_filename c' ++ t')%string
                              -> c = c').
  { intros t t' Heq. unfold Disk.shard_filename in Heq.
    rewrite !string_append_assoc in Heq.
    apply hex16_field in Heq as [Hpm Heq]; try assumption.
    cbn [append] in Heq. injection Heq as Heq.
    apply hex16_field in Heq as [Hph Heq]; try assumption.
    cbn [append] in Heq. injection Heq as Heq.
    apply hex16_field in Heq as [Hsm Heq]; try assumption.
    cbn [append] in Heq. injection Heq as Heq.
    apply hex16_field in Heq as [Hsh Heq]; try assumption.
    destruct c, c'. cbn in *. congruence. }
  split; [|split; [|split; [|split]]].
  - intros Heq. apply (Hinj EmptyString EmptyString). congruence.
  - rewrite !shard_tmp_filename_suffix. apply Hinj.
  - rewrite shard_tmp_filename_suffix. intros Heq.
    apply (f_equal String.length) in Heq.
    rewrite string_length_append, !shard_filename_length in Heq. cbn in Heq. lia.
  - destruct (shard_filename_first c) as (rest & ->). unfold Disk.spare_name.
    cbn [append]. discriminate.
  - rewrite shard_tmp_filename_suffix.
    destruct (shard_filename_first c) as (rest & ->). unfold Disk.spare_name.
    cbn [append]. discriminate.
Qed.

Lemma shard_filenames_distinct_witness :
  let c := mk_coordinate 0 0 0 0 in
  let c' := mk_coordinate 1 0 1 0 in
  (Disk.shard_filename c = Disk.shard_filename c' -> c = c')
  /\ (Disk.shard_tmp_filename c = Disk.shard_tmp_filename c' -> c = c')
  /\ Disk.shard_filename c <> Disk.shard_tmp_filename c'
  /\ Disk.shard_filename c <> Disk.spare_name 0
  /\ Disk.shard_tmp_filename c <> Disk.spare_name 0.
Proof.
  intros c c'. apply (shard_filenames_distinct c c' 0);
    unfold coordinate_ok, is_u32; cbn; lia.
Defined.

(** * The disk: examples for [del] *)

Section DiskLogExamples.
#[local] Existing Instance example_constants.

Lemma get_after_del_witness :
  let d := snd (Disk.put sample_hash sample_hash_each sample_interlace fresh_disk
                         key_a value_1 1) in
  fst (Disk.del sample_hash d key_a) = SUCCESS
  /\ option_map as_lookup (Disk.get sample_hash (snd (Disk.del sample_hash d key_a))
                                    key_a [] 0)
     = Some NotFound.
Proof.
  intros d.
  apply (get_after_del sample_hash d key_a [] 0 (NOTFOUND, [], 0)).
  vm_compute. reflexivity.
Defined.

Lemma get_other_key_unchanged_witness :
  let d := snd (Disk.put sample_hash sample_hash_each sample_interlace fresh_disk
                         key_a value_1 1) in
  Disk.get sample_hash
           (snd (Disk.put sample_hash sample_hash_each sample_interlace d key_b value_2 2))
           key_a [] 0
  = Disk.get sample_hash d key_a [] 0
  /\ Disk.get sample_hash (snd (Disk.del sample_hash d key_b)) key_a [] 0
     = Disk.get sample_hash d key_a [] 0.
Proof.
  intros d.
  apply (get_other_key_unchanged sample_hash sample_hash_each sample_interlace
                                 d key_b key_a value_2 2 [] 0).
  discriminate.
Defined.

End DiskLogExamples.

(** * Shards: the hash table is not full while the log has room *)

Lemma short_list_misses (l l' : list Z) :
  NoDup l -> (length l' < length l)%nat -> exists x, In x l /\ ~ In x l'.
Proof.
  intros Hnd Hlen.
  destruct (Forall_Exists_dec (fun x => In x l') (fun x => in_dec Z.eq_dec x l') l)
    as [Hall|Hex].
  - exfalso. rewrite Forall_forall in Hall.
    pose proof (NoDup_incl_length Hnd Hall). lia.
  - apply Exists_exists in Hex. exact Hex.
Qed.

Section SlotCount.
Context {K : shard_constants}.
Hypothesis HK : constants_ok K.

Local Abbreviation mdo := Shard.m_data_offset.
Local Abbreviation mso := Shard.m_search_offset.
Local Abbreviation mem := Shard.m_data.

Lemma create_slots_bounded : slots_bounded Shard.create.
Proof.
  exists []. split; [constructor|]. split.
  - intros b _ Hab. apply Hab. reflexivity.
  - cbn. lia.
Qed.

Lemma put_slots_bounded s ph sh key value version rc s' f :
  shard_inv s -> is_u32 ph -> slots_bounded s ->
  Shard.put s ph sh key value version = Some (rc, s', f) ->
  slots_bounded s'.
Proof.
  intros Hinv Hph Hb Hput.
  destruct (put_result HK _ _ _ _ _ _ _ _ _ Hinv Hph Hput)
    as [(_ & -> & _)|(_ & e & w & Hl & Heff)]; [exact Hb|].
  destruct (put_slots HK s ph key value s' f e w Hinv Hph Hl Heff) as (_ & Hothers & _).
  destruct Heff as (_ & _ & _ & Hmso' & _).
  destruct Hb as (slots & Hnd & Hin & Hlen).
  destruct (in_dec Z.eq_dec e slots) as [He|He].
  - exists slots. split; [exact Hnd|]. split; [|lia].
    intros b Hb Hab'. destruct (Z.eq_dec b e) as [->|Hne]; [exact He|].
    apply Hin; [exact Hb|]. apply (Hothers b Hb Hne). exact Hab'.
  - exists (e :: slots). split; [constructor; assumption|]. split.
    + intros b Hb Hab'. destruct (Z.eq_dec b e) as [->|Hne]; [left; reflexivity|].
      right. apply Hin; [exact Hb|]. apply (Hothers b Hb Hne). exact Hab'.
    + cbn [length]. lia.
Qed.

Lemma del_slots_bounded s ph key rc s' :
  shard_inv s -> is_u32 ph -> slots_bounded s ->
  Shard.del s ph key = Some (rc, s') ->
  slots_bounded s'.
Proof.
  intros Hinv Hph Hb Hdel.
  destruct (del_result HK s ph key rc s' Hinv Hph Hdel)
    as [(_ & ->)|(_ & e & w & Hl & Heff)]; [exact Hb|].
  destruct (hash_lookup_spec HK _ _ _ _ _ Hl) as (_ & _ & _ & He & Hw & _ & Hstop).
  destruct Heff as (Hnz & Hrest).
  destruct Hstop as [[Hlo _]|Hz]; [|contradiction].
  pose proof (del_slots HK s ph s' e w Hinv Hph He Hw Hlo (conj Hnz Hrest)) as Hslots.
  destruct Hrest as (_ & _ & _ & Hmso' & _).
  destruct Hb as (slots & Hnd & Hin & Hlen).
  exists slots. split; [exact Hnd|]. split; [|lia].
  intros b Hb Hab'. apply Hin; [exact Hb|].
  destruct (Hslots b Hb) as (Hiff & _). apply Hiff. exact Hab'.
Qed.

(** With fewer log entries than slots, some slot is empty. *)
Lemma slots_bounded_empty_slot s :
  slots_bounded s -> mso s < HASH_TABLE_ENTRIES -> has_empty_slot s.
Proof.
  destruct (layout HK) as (HH & _).
  intros (slots & Hnd & Hin & Hlen) Hroom.
  destruct (short_list_misses (map Z.of_nat (seq 0 (Z.to_nat HASH_TABLE_ENTRIES))) slots)
    as (b & Hb & Hmiss).
  - apply NoDup_map_NoDup_ForallPairs; [|apply seq_NoDup]. intros x y _ _ Hxy. lia.
  - rewrite length_map, length_seq. lia.
  - apply in_map_iff in Hb as (n & <- & Hn). apply in_seq in Hn.
    exists (Z.of_nat n). split; [lia|].
    destruct (Z.eq_dec (hi32 (Shard.m_hash_table (mem s) (Z.of_nat n))) 0) as [Hz|Hnz];
      [exact Hz|].
    exfalso. apply Hmiss. apply Hin; [lia|]. exact Hnz.
Qed.

Lemma call_slots_bounded s op rc s' :
  shard_inv s -> proper op -> slots_bounded s -> call s op = Some (rc, s') ->
  slots_bounded s'.
Proof.
  intros Hinv Hop Hb Hcall. destruct op as [ph sh key value version|ph key];
    cbn [call proper] in *.
  - destruct (Shard.put s ph sh key value version) as [[[rc0 s0] f]|] eqn:Hput;
      [|discriminate].
    assert (s0 = s') by congruence. subst s0.
    exact (put_slots_bounded s ph sh key value version rc0 s' f Hinv (proj1 Hop) Hb Hput).
  - exact (del_slots_bounded s ph key rc s' Hinv Hop Hb Hcall).
Qed.

End SlotCount.

(** * The disk before its first split: [flush] moves the WAL into the shard *)

Lemma refines_ext `{shard_constants} s M M' :
  refines s M -> (forall ph key, M' ph key = M ph key) -> refines s M'.
Proof.
  intros [Hinv Hrec Habs] Hsame. constructor.
  - exact Hinv.
  - intros b Hb Hab. destruct (Hrec b Hb Hab) as (value & version & Hat & Hext & HM).
    exists value, version. rewrite Hsame. split; [exact Hat|]. split; [exact Hext|exact HM].
  - intros ph key Hnone. rewrite Hsame. apply Habs. exact Hnone.
Qed.

Lemma find_append {A} (f : A -> bool) (l l' : list A) :
  find f (l ++ l') = match find f l with Some x => Some x | None => find f l' end.
Proof.
  induction l as [|x l IH]; cbn [app find]; [reflexivity|].
  destruct (f x); [reflexivity|exact IH].
Qed.

Lemma update_twice M ph key r r' ph' key' :
  update (update M ph key r) ph key r' ph' key' = update M ph key r' ph' key'.
Proof. unfold update. destruct (_ && _); reflexivity. Qed.

Lemma update_none_same M ph key ph' key' :
  M ph key = None -> update M ph key None ph' key' = M ph' key'.
Proof.
  intros HM. unfold update.
  destruct (Z.eqb_spec ph' ph) as [->|]; [|reflexivity].
  destruct (buffer_eqb key' key) eqn:Hk; [|reflexivity].
  apply buffer_eqb_eq in Hk. subst key'. symmetry. exact HM.
Qed.

Lemma wal_cost_nonneg `{shard_constants} log : 0 <= wal_cost log.
Proof.
  induction log as [|e log IH]; cbn [wal_cost fold_right]; [lia|].
  fold (wal_cost log). rewrite data_size_eq.
  pose proof (size_nonneg (Disk.key e)). pose proof (attrs_size_nonneg (Disk.value e)). lia.
Qed.

Section Unsplit.
Context {K : shard_constants}.
Hypothesis HK : constants_ok K.
Hypothesis HSH : SEARCH_INDEX_ENTRIES <= HASH_TABLE_ENTRIES.
Variable CityHash64 : buffer -> Z.
Variable CityHash64_each : list buffer -> list Z.
Variable lower_interlace : list Z -> Z.

Local Abbreviation get := (Disk.get CityHash64).
Local Abbreviation get_coordinate := (Disk.get_coordinate CityHash64).
Local Abbreviation entry_ok := (entry_ok CityHash64 CityHash64_each lower_interlace).
Local Abbreviation unsplit := (unsplit CityHash64 CityHash64_each lower_interlace).
Local Abbreviation disk_lookup := (disk_lookup CityHash64).
Local Abbreviation mdo := Shard.m_data_offset.
Local Abbreviation mso := Shard.m_search_offset.

Lemma entry_hash arity e :
  entry_ok arity e -> primary_hash (Disk.coord e) = u32 (CityHash64 (Disk.key e)).
Proof. intros [(-> & _) | ->]; reflexivity. Qed.

Lemma entry_matches arity e k :
  entry_ok arity e ->
  wal_matches (get_coordinate k) k e = buffer_eqb (Disk.key e) k.
Proof.
  intros He. unfold wal_matches.
  destruct (buffer_eqb (Disk.key e) k) eqn:Hk; [|apply andb_false_r].
  apply buffer_eqb_eq in Hk. subst k. rewrite andb_true_r.
  destruct He as [(-> & _) | ->]; apply primary_contains_same_hash.
Qed.

(** Flushing the oldest entry into the map gives the same answers as
    leaving it in the WAL. *)
Lemma disk_lookup_flushed arity M e rest k :
  entry_ok arity e ->
  disk_lookup (apply_entry M e) rest k = disk_lookup M (e :: rest) k.
Proof.
  intros He. unfold disk_lookup, last_match. cbn [rev]. rewrite find_append.
  destruct (find (wal_matches (get_coordinate k) k) (rev rest)) as [x|]; [reflexivity|].
  cbn [find]. rewrite (entry_matches arity e k He). unfold apply_entry.
  rewrite (entry_hash arity e He).
  destruct (buffer_eqb (Disk.key e) k) eqn:Hk.
  - apply buffer_eqb_eq in Hk. subst k. rewrite update_same.
    destruct (secondary_mask (Disk.coord e) =? UINT32_MAX); reflexivity.
  - rewrite update_other; [reflexivity|].
    intros Heq. apply pair_equal_spec in Heq as [_ Heq]. subst k.
    rewrite buffer_eqb_refl in Hk. discriminate.
Qed.

(** On a disk with its first shard only, [get] returns, and answers what
    the map and the WAL say. *)
Lemma unsplit_get d M k val ver :
  unsplit d M ->
  exists r, get d k val ver = Some r /\ as_lookup r = disk_lookup M (Disk.m_log d) k.
Proof.
  intros ((sp & Hshards & Href & Hslots & _ & Hroom) & _ & _).
  assert (Hlt : mso (Disk.target sp) < HASH_TABLE_ENTRIES) by lia.
  pose proof (slots_bounded_empty_slot HK (Disk.target sp) Hslots Hlt) as Hempty.
  destruct (shard_get_returns HK (Disk.target sp) (u32 (CityHash64 k)) k val ver Hempty)
    as (r0 & Hget0).
  pose proof (refines_get HK _ M _ k val ver r0 Href (u32_range _) Hget0) as Hr0.
  assert (Hwalk : Disk.get_shards (Disk.m_shards d) (get_coordinate k) k NOTFOUND val ver
                  = Some r0).
  { rewrite Hshards. cbn [Disk.get_shards].
    rewrite (proj2 (start_contains (get_coordinate k))). cbn [negb].
    change (primary_hash (get_coordinate k)) with (u32 (CityHash64 k)).
    rewrite Hget0. destruct r0 as [[rc v0] ver0].
    destruct (returncode_eqb rc SUCCESS); reflexivity. }
  pose proof (get_by_last_match CityHash64 d k val ver) as Hlast.
  rewrite Hwalk in Hlast.
  destruct (get d k val ver) as [r|] eqn:Hget.
  2:{ cbn [option_map] in Hlast. destruct (last_match _ _ _) as [x|];
      [destruct (_ =? _)|]; discriminate. }
  exists r. split; [reflexivity|]. cbn [option_map] in Hlast. unfold disk_lookup.
  destruct (last_match (get_coordinate k) k (Disk.m_log d)) as [x|].
  - destruct (secondary_mask (Disk.coord x) =? UINT32_MAX); congruence.
  - assert (Has : as_lookup r = as_lookup r0) by congruence.
    rewrite Has, Hr0. unfold answer.
    destruct (M (u32 (CityHash64 k)) k) as [[v ver']|]; reflexivity.
Qed.

Lemma flush_del_unsplit d e sp rc s1 :
  Disk.m_shards d = [(mk_coordinate 0 0 0 0, sp)] ->
  Shard.del (Disk.target sp) (primary_hash (Disk.coord e)) (Disk.key e) = Some (rc, s1) ->
  rc = SUCCESS \/ rc = NOTFOUND ->
  Disk.flush_del d e (length (Disk.m_shards d)) 0
  = Disk.Falls_through
      (Disk.set_shards d [(mk_coordinate 0 0 0 0, Disk.mk_shard_ptr (Disk.file sp) s1)]).
Proof.
  intros Hshards Hdel Hrc. rewrite Hshards. cbn [length Disk.flush_del].
  rewrite Hshards. cbn [nth_error].
  rewrite (proj2 (start_contains (Disk.coord e))). cbn [negb]. rewrite Hdel.
  cbn [Disk.replace]. destruct Hrc as [-> | ->]; reflexivity.
Qed.

Lemma flush_put_unsplit d e sp s2 f :
  Disk.m_shards d = [(mk_coordinate 0 0 0 0, sp)] ->
  Shard.put (Disk.target sp) (primary_hash (Disk.coord e)) (secondary_hash (Disk.coord e))
            (Disk.key e) (Disk.value e) (Disk.version e) = Some (SUCCESS, s2, f) ->
  Disk.flush_put d e (length (Disk.m_shards d))
  = Disk.Falls_through
      (Disk.set_shards d [(mk_coordinate 0 0 0 0, Disk.mk_shard_ptr (Disk.file sp) s2)]).
Proof.
  intros Hshards Hput. rewrite Hshards. cbn [length Disk.flush_put].
  rewrite Hshards. cbn [nth_error].
  rewrite (proj1 (start_contains (Disk.coord e))). cbn [negb]. rewrite Hput.
  reflexivity.
Qed.

(** One turn of the loop of [flush] on a disk with its first shard only:
    the oldest entry goes into the shard. *)
Lemma flush_entry_unsplit d M e rest :
  unsplit d M -> Disk.m_log d = e :: rest ->
  exists d2,
    (exists d1,
        Disk.flush_del d e (length (Disk.m_shards d)) 0 = Disk.Falls_through d1
        /\ (if secondary_mask (Disk.coord e) =? UINT32_MAX
            then Disk.flush_put d1 e (length (Disk.m_shards d1))
            else Disk.Falls_through d1) = Disk.Falls_through d2)
    /\ unsplit (Disk.set_log d2 rest) (apply_entry M e).
Proof.
  destruct (layout HK) as (HH & HS & HT & HI & HF & HF31 & HF8 & HINV).
  intros ((sp & Hshards & Href & Hslots & Hbytes & Hroom) & Hlog & Har) Holdest.
  rewrite Holdest in Hbytes, Hroom, Hlog.
  pose proof (Forall_inv Hlog) as He. pose proof (Forall_inv_tail Hlog) as Hrest.
  cbn [wal_cost fold_right length] in Hbytes, Hroom. fold (wal_cost rest) in Hbytes.
  pose proof (wal_cost_nonneg rest) as Hcost.
  assert (Hds : 0 <= Shard.data_size (Disk.key e) (Disk.value e)).
  { rewrite data_size_eq. pose proof (size_nonneg (Disk.key e)).
    pose proof (attrs_size_nonneg (Disk.value e)). lia. }
  set (ph := primary_hash (Disk.coord e)).
  assert (Hph : is_u32 ph) by (unfold ph; rewrite (entry_hash _ e He); apply u32_range).
  pose proof (ref_inv _ M Href) as Hinv.
  (* the delete *)
  assert (Hlt : mso (Disk.target sp) < HASH_TABLE_ENTRIES) by lia.
  pose proof (slots_bounded_empty_slot HK (Disk.target sp) Hslots Hlt) as Hempty.
  destruct (shard_del_returns HK (Disk.target sp) ph (Disk.key e) Hempty) as ([rc s1] & Hdel).
  pose proof (del_slots_bounded HK _ ph _ rc s1 Hinv Hph Hslots Hdel) as Hslots1.
  assert (Hdel' : (rc = SUCCESS \/ rc = NOTFOUND)
                  /\ refines s1 (update M ph (Disk.key e) None)
                  /\ mdo s1 <= mdo (Disk.target sp) + 8
                  /\ mso s1 = mso (Disk.target sp)).
  { destruct (refines_del HK _ M ph (Disk.key e) rc s1 Href Hph Hdel)
      as [(-> & -> & HM)|[(_ & _ & _ & Hfull)|(-> & _ & Hmdo1 & Href1)]].
    - split; [right; reflexivity|]. split; [|split; [lia|reflexivity]].
      apply (refines_ext _ M); [exact Href|]. intros ph' key'.
      apply update_none_same. exact HM.
    - lia.
    - split; [left; reflexivity|]. split; [exact Href1|]. split; [lia|].
      destruct (del_result HK _ ph _ SUCCESS s1 Hinv Hph Hdel)
        as [(Hne & _)|(_ & e0 & w0 & _ & Heff)]; [congruence|].
      destruct Heff as (_ & _ & _ & _ & Hmso1 & _). exact Hmso1. }
  destruct Hdel' as (Hrc & Href1 & Hmdo1 & Hmso1).
  pose proof (flush_del_unsplit d e sp rc s1 Hshards Hdel Hrc) as Hfd.
  set (d1 := Disk.set_shards d [(mk_coordinate 0 0 0 0, Disk.mk_shard_ptr (Disk.file sp) s1)])
    in *.
  destruct (Z.eqb_spec (secondary_mask (Disk.coord e)) UINT32_MAX) as [Hput|Hnoput].
  - (* a put entry *)
    destruct He as [(Hcoord & Hlen & Hver)|Hcoord];
      [|rewrite Hcoord in Hput; cbn in Hput; discriminate].
    set (sh := secondary_hash (Disk.coord e)).
    assert (Hsh : is_u32 sh) by (unfold sh; rewrite Hcoord; apply u32_range).
    pose proof (ref_inv _ _ Href1) as Hinv1.
    assert (Hlt1 : mso s1 < HASH_TABLE_ENTRIES) by lia.
    pose proof (slots_bounded_empty_slot HK s1 Hslots1 Hlt1) as Hempty1.
    destruct (hash_lookup_returns HK s1 ph (Disk.key e) Hempty1) as ([e1 w1] & Hl1).
    assert (Hfits : Shard.data_size (Disk.key e) (Disk.value e) + mdo s1 <= FILE_SIZE).
    { lia. }
    assert (Hfree : mso s1 <> SEARCH_INDEX_ENTRIES) by lia.
    destruct (put_succeeds s1 ph sh (Disk.key e) (Disk.value e) (Disk.version e) e1 w1
                           Hfits Hfree Hl1) as (s2 & f & Hput2).
    assert (Harity : Z.of_nat (length (Disk.value e)) < 2 ^ 16) by lia.
    pose proof (refines_put HK s1 _ ph sh _ _ _ s2 f Href1 Hph Hver Harity Hput2) as Href2.
    pose proof (put_slots_bounded HK s1 ph sh _ _ _ SUCCESS s2 f Hinv1 Hph Hslots1 Hput2)
      as Hslots2.
    destruct (put_result HK _ _ _ _ _ _ _ _ _ Hinv1 Hph Hput2)
      as [(Hne & _)|(_ & e2 & w2 & _ & Heff)]; [congruence|].
    destruct Heff as (_ & _ & Hmdo2 & Hmso2 & _).
    pose proof (inv_data_offset s1 Hinv1) as Hb1.
    pose proof (align8_bounds (mdo s1 + Shard.data_size (Disk.key e) (Disk.value e))
                              ltac:(lia) ltac:(lia)) as [Hal _].
    exists (Disk.set_shards d1 [(mk_coordinate 0 0 0 0, Disk.mk_shard_ptr (Disk.file sp) s2)]).
    split.
    + exists d1. split; [exact Hfd|].
      apply (flush_put_unsplit d1 e (Disk.mk_shard_ptr (Disk.file sp) s1) s2 f);
        [reflexivity|exact Hput2].
    + split; [|split; [exact Hrest|exact Har]].
      exists (Disk.mk_shard_ptr (Disk.file sp) s2).
      cbn [Disk.set_log Disk.set_shards Disk.m_shards Disk.m_log Disk.target].
      split; [reflexivity|]. split.
      * apply (refines_ext _ _ _ Href2). intros ph' key'. unfold apply_entry. fold ph.
        rewrite Hput, Z.eqb_refl. symmetry. apply update_twice.
      * split; [exact Hslots2|]. split; lia.
  - (* a delete entry *)
    exists d1. split; [exists d1; split; [exact Hfd|reflexivity]|].
    split; [|split; [exact Hrest|exact Har]].
    exists (Disk.mk_shard_ptr (Disk.file sp) s1).
    cbn [Disk.set_log Disk.set_shards Disk.m_shards Disk.m_log Disk.target d1].
    split; [reflexivity|]. split.
    + apply (refines_ext _ _ _ Href1). intros ph' key'. unfold apply_entry. fold ph.
      destruct (Z.eqb_spec (secondary_mask (Disk.coord e)) UINT32_MAX); [contradiction|].
      reflexivity.
    + split; [exact Hslots1|]. split; lia.
Qed.

(** The loop of [flush] on such a disk: it returns [SUCCESS] with the
    entries it has visited in the shard, and the answers of [get] as
    before. *)
Lemma flush_loop_unsplit : forall n d M,
  unsplit d M ->
  exists d' M',
    Disk.flush_loop d n = Disk.Returns SUCCESS d'
    /\ Disk.m_log d' = skipn n (Disk.m_log d)
    /\ unsplit d' M'
    /\ forall k, disk_lookup M' (Disk.m_log d') k = disk_lookup M (Disk.m_log d) k.
Proof.
  induction n as [|n IH]; intros d M Hd; cbn [Disk.flush_loop].
  - exists d, M. split; [reflexivity|]. split; [reflexivity|]. split; [exact Hd|reflexivity].
  - destruct (Disk.m_log d) as [|e rest] eqn:Hlog.
    + exists d, M. rewrite Hlog. split; [reflexivity|]. split; [reflexivity|].
      split; [exact Hd|reflexivity].
    + destruct (flush_entry_unsplit d M e rest Hd Hlog) as (d2 & (d1 & Hfd & Hfp) & Hd2).
      rewrite Hfd, Hfp.
      destruct (IH (Disk.set_log d2 rest) (apply_entry M e) Hd2)
        as (d' & M' & Hflush & Hskip & Hd' & Hsame).
      exists d', M'. split; [exact Hflush|]. split; [exact Hskip|]. split; [exact Hd'|].
      intros k. rewrite Hsame. cbn [Disk.set_log Disk.m_log].
      destruct Hd as (_ & Hok & _). rewrite Hlog in Hok.
      exact (disk_lookup_flushed _ M e rest k (Forall_inv Hok)).
Qed.

(** X11: on a disk that still has the one shard it was constructed with,
    with room in the shard for what the WAL holds, [flush] returns [SUCCESS],
    takes the first 100 entries off the WAL, and changes no answer of
    [get]: for every key, [get] returns before and after, with the same
    outcome, a value and a version or [NOTFOUND]. *)
Theorem flush_keeps_answers (d : Disk.disk) (M : contents) :
  unsplit d M ->
  exists d',
    Disk.flush d = Disk.Returns SUCCESS d'
    /\ Disk.m_log d' = skipn 100 (Disk.m_log d)
    /\ (exists M', unsplit d' M')
    /\ forall k val ver,
        exists r r',
          get d k val ver = Some r /\ get d' k val ver = Some r'
          /\ as_lookup r' = as_lookup r.
Proof.
  intros Hd. unfold Disk.flush.
  destruct (flush_loop_unsplit 100 d M Hd) as (d' & M' & Hflush & Hskip & Hd' & Hsame).
  exists d'. split; [exact Hflush|]. split; [exact Hskip|]. split; [exists M'; exact Hd'|].
  intros k val ver.
  destruct (unsplit_get d M k val ver Hd) as (r & Hget & Hr).
  destruct (unsplit_get d' M' k val ver Hd') as (r' & Hget' & Hr').
  exists r, r'. split; [exact Hget|]. split; [exact Hget'|]. congruence.
Qed.

(** The constructor leaves such a disk, and it stays one under [put] and
    [del] while the shard has room for the WAL. *)
Lemma new_unsplit dir files arity d0 :
  0 <= arity < 2 ^ 16 ->
  Disk.new dir files arity = Disk.Returns tt d0 -> unsplit d0 empty_contents.
Proof.
  destruct (layout HK) as (HH & HS & HT & HI & HF & HF31 & HF8 & HINV).
  intros Har Hnew.
  unfold Disk.new, Disk.create_shard, Disk.create_file in Hnew.
  cbn [Disk.m_spare_shards Disk.set_shards Disk.m_arity Disk.m_shards Disk.m_log Disk.m_base
       Disk.files_created Disk.m_spare_shard_counter] in Hnew.
  injection Hnew as <-. unfold unsplit.
  cbn [Disk.set_shards Disk.m_arity Disk.m_shards Disk.m_log].
  split; [|split; [constructor|exact Har]].
  exists (Disk.mk_shard_ptr files Shard.create).
  cbn [Disk.m_shards Disk.m_log Disk.target wal_cost fold_right length Shard.create
       Shard.m_data_offset Shard.m_search_offset].
  split; [reflexivity|]. split; [exact (refines_create HK)|].
  split; [exact (create_slots_bounded)|]. split; lia.
Qed.

Lemma append_unsplit d M e :
  unsplit d M -> entry_ok (Disk.m_arity d) e ->
  (forall sp, Disk.m_shards d = [(mk_coordinate 0 0 0 0, sp)] ->
     mdo (Disk.target sp) + wal_cost (Disk.m_log d ++ [e]) <= FILE_SIZE
     /\ mso (Disk.target sp) + Z.of_nat (length (Disk.m_log d ++ [e]))
        < SEARCH_INDEX_ENTRIES) ->
  unsplit (Disk.set_log d (Disk.m_log d ++ [e])) M.
Proof.
  intros ((sp & Hshards & Href & Hslots & _) & Hlog & Har) He Hroom.
  destruct (Hroom sp Hshards) as [Hbytes Hcount].
  split; [|split].
  - exists sp. cbn [Disk.set_log Disk.m_shards Disk.m_log].
    split; [exact Hshards|]. split; [exact Href|]. split; [exact Hslots|].
    split; [exact Hbytes|exact Hcount].
  - cbn [Disk.set_log Disk.m_log Disk.m_arity]. apply Forall_app. split; [exact Hlog|].
    constructor; [exact He|constructor].
  - exact Har.
Qed.

End Unsplit.

(** * The disk before its first split: an example *)

Section UnsplitExample.
#[local] Existing Instance example_constants.

Lemma example_search_index_fits : SEARCH_INDEX_ENTRIES <= HASH_TABLE_ENTRIES.
Proof. vm_compute. discriminate. Qed.

Lemma fresh_disk_unsplit :
  unsplit sample_hash sample_hash_each sample_interlace fresh_disk empty_contents.
Proof.
  apply (new_unsplit example_constants_ok sample_hash sample_hash_each sample_interlace
                     Disk.empty_directory 0%nat 2 fresh_disk); [lia|reflexivity].
Qed.

Lemma one_put_unsplit :
  unsplit sample_hash sample_hash_each sample_interlace
          (snd (Disk.put sample_hash sample_hash_each sample_interlace fresh_disk
                         key_a value_1 1))
          empty_contents.
Proof.
  apply (append_unsplit sample_hash sample_hash_each sample_interlace fresh_disk
                        empty_contents
                        (Disk.mk_log_entry
                           (Disk.get_coordinate_value sample_hash sample_hash_each
                                                      sample_interlace key_a value_1)
                           key_a value_1 1)).
  - exact fresh_disk_unsplit.
  - left. cbn [Disk.coord Disk.key Disk.value Disk.version].
    split; [reflexivity|]. split; [reflexivity|lia].
  - intros sp Hsp. injection Hsp as <-. vm_compute. split; [discriminate|reflexivity].
Qed.

Lemma flush_keeps_answers_witness :
  let d := snd (Disk.put sample_hash sample_hash_each sample_interlace fresh_disk
                         key_a value_1 1) in
  exists d',
    Disk.flush d = Disk.Returns SUCCESS d'
    /\ Disk.m_log d' = skipn 100 (Disk.m_log d)
    /\ (exists M', unsplit sample_hash sample_hash_each sample_interlace d' M')
    /\ forall k val ver,
        exists r r',
          Disk.get sample_hash d k val ver = Some r
          /\ Disk.get sample_hash d' k val ver = Some r'
          /\ as_lookup r' = as_lookup r.
Proof.
  intros d.
  apply (flush_keeps_answers example_constants_ok example_search_index_fits
                             sample_hash sample_hash_each sample_interlace
                             d empty_contents).
  exact one_put_unsplit.
Defined.

End UnsplitExample.

(** * Shards: the words of the search log *)

Section LogWords.
Context {K : shard_constants}.
Hypothesis HK : constants_ok K.

Local Abbreviation mdo := Shard.m_data_offset.
Local Abbreviation mso := Shard.m_search_offset.
Local Abbreviation mem := Shard.m_data.

(** The binary search finds the entry with the offset it looks for when
    the offsets of the first [n] entries go up and the others are zero. *)
Lemma invalidate_loop_finds m ti iw n j1 :
  (forall i j, 0 <= i -> i < j -> j < n -> log_offset m i < log_offset m j) ->
  (forall j, 0 <= j < n -> log_offset m j <> 0) ->
  (forall j, n <= j < SEARCH_INDEX_ENTRIES -> log_offset m j = 0) ->
  n <= SEARCH_INDEX_ENTRIES -> 0 <= j1 < n -> log_offset m j1 = ti ->
  forall fuel low high,
    0 <= low <= j1 -> j1 <= high <= SEARCH_INDEX_ENTRIES ->
    (Z.to_nat (high - low + 1) <= fuel)%nat ->
    Shard.invalidate_search_log_loop m ti iw fuel low high
    = Shard.set_search_log m (2 * j1 + 1) (pack64 iw ti).
Proof.
  intros Hsorted Hfilled Htail Hn Hj1 Hti.
  induction fuel as [|fuel IH]; intros low high Hlow Hhigh Hfuel; [lia|].
  cbn [Shard.invalidate_search_log_loop].
  destruct (Z.leb_spec low high) as [_|Hgt]; [|lia].
  rewrite Z.quot_div_nonneg by lia.
  set (mid := low + (high - low) / 2).
  assert (Hmid : low <= mid <= high /\ (high = low \/ mid < high)).
  { unfold mid. pose proof (Z.div_mod (high - low) 2 ltac:(lia)).
    pose proof (Z.mod_pos_bound (high - low) 2 ltac:(lia)). lia. }
  assert (Hmid' : mid < SEARCH_INDEX_ENTRIES) by lia.
  replace (mid * 2 + 1) with (2 * mid + 1) by lia.
  rewrite lo32_land. fold (log_offset m mid).
  destruct (Z.lt_trichotomy mid j1) as [Hlt|[Heq|Hgt]].
  - pose proof (Hsorted mid j1 ltac:(lia) Hlt ltac:(lia)) as Hs.
    pose proof (Hfilled mid ltac:(lia)) as Hnz.
    destruct (Z.eqb_spec (log_offset m mid) 0) as [|_]; [contradiction|].
    destruct (Z.gtb_spec (log_offset m mid) ti) as [|_]; [lia|]. cbn [orb].
    destruct (Z.ltb_spec (log_offset m mid) ti) as [_|]; [|lia].
    apply IH; lia.
  - subst mid. rewrite Heq, Hti.
    pose proof (Hfilled j1 Hj1) as Hnz. rewrite Hti in Hnz.
    destruct (Z.eqb_spec ti 0) as [|_]; [contradiction|].
    destruct (Z.gtb_spec ti ti) as [|_]; [lia|]. cbn [orb].
    destruct (Z.ltb_spec ti ti) as [|_]; [lia|].
    rewrite Z.eqb_refl. reflexivity.
  - assert (Hcase : log_offset m mid = 0 \/ ti < log_offset m mid).
    { destruct (Z.lt_ge_cases mid n) as [Hin|Hout].
      - right. rewrite <- Hti. apply Hsorted; lia.
      - left. apply Htail. lia. }
    assert (Hgo : (log_offset m mid =? 0) || (log_offset m mid >? ti) = true).
    { destruct Hcase as [->|Hlt]; [reflexivity|].
      destruct (Z.gtb_spec (log_offset m mid) ti); [apply orb_true_r|lia]. }
    rewrite Hgo. apply IH; lia.
Qed.

Lemma invalidate_search_log_finds m ti iw n j1 :
  (forall i j, 0 <= i -> i < j -> j < n -> log_offset m i < log_offset m j) ->
  (forall j, 0 <= j < n -> log_offset m j <> 0) ->
  (forall j, n <= j < SEARCH_INDEX_ENTRIES -> log_offset m j = 0) ->
  n <= SEARCH_INDEX_ENTRIES -> 0 <= j1 < n -> log_offset m j1 = ti ->
  Shard.invalidate_search_log m ti iw
  = Shard.set_search_log m (2 * j1 + 1) (pack64 iw ti).
Proof.
  intros Hsorted Hfilled Htail Hn Hj1 Hti. unfold Shard.invalidate_search_log.
  apply (invalidate_loop_finds m ti iw n j1); try assumption; lia.
Qed.

(** The words of the log after [invalidate_search_log]: the second word of
    the entries with the offset [ti] carries the mark, nothing else has
    changed. *)
Lemma invalidate_search_log_words m ti iw n :
  (forall i j, 0 <= i -> i < j -> j < n -> log_offset m i < log_offset m j) ->
  (forall j, 0 <= j < n -> log_offset m j <> 0) ->
  (forall j, n <= j < SEARCH_INDEX_ENTRIES -> log_offset m j = 0) ->
  0 <= n <= SEARCH_INDEX_ENTRIES ->
  (n = SEARCH_INDEX_ENTRIES -> ti <= log_offset m (SEARCH_INDEX_ENTRIES - 1)) ->
  let m' := Shard.invalidate_search_log m ti iw in
  (forall j, 0 <= j -> log_hashes m' j = log_hashes m j)
  /\ (forall j, 0 <= j < SEARCH_INDEX_ENTRIES ->
        log_word m' j
        = if (log_offset m j =? ti) && negb (ti =? 0)
          then pack64 iw ti mod 2 ^ 64 else log_word m j).
Proof.
  destruct (layout HK) as (HH & HS & HT & HI & HF & HF31 & HF8 & HINV).
  intros Hsorted Hfilled Htail Hn Hfull m'.
  assert (Hlast : ~ (log_offset m (SEARCH_INDEX_ENTRIES - 1) <> 0
                     /\ log_offset m (SEARCH_INDEX_ENTRIES - 1) < ti)).
  { intros [Hnz Hlt]. destruct (Z.eq_dec n SEARCH_INDEX_ENTRIES) as [Heq|Hne].
    - specialize (Hfull Heq). lia.
    - apply Hnz. apply Htail. lia. }
  destruct (invalidate_search_log_spec HK m ti iw Hlast)
    as [Hsame|(mid & Hmid & Hoff & Hnz & Hset)].
  - (* nothing found: no entry has the offset *)
    subst m'. rewrite Hsame. split; [reflexivity|]. intros j Hj.
    destruct (Z.eqb_spec (log_offset m j) ti) as [Heq|_]; [|reflexivity].
    destruct (Z.eqb_spec ti 0) as [_|Hnz]; [reflexivity|]. cbn [negb andb].
    assert (Hjn : 0 <= j < n).
    { destruct (Z.lt_ge_cases j n); [lia|]. rewrite Htail in Heq by lia. congruence. }
    rewrite (invalidate_search_log_finds m ti iw n j Hsorted Hfilled Htail
                                         ltac:(lia) Hjn Heq) in Hsame.
    unfold log_word. rewrite <- Hsame at 1. apply set_search_log_same.
  - assert (Hmn : 0 <= mid < n).
    { destruct (Z.lt_ge_cases mid n); [lia|]. rewrite Htail in Hoff by lia. congruence. }
    subst m'. rewrite Hset. split.
    + intros j Hj. unfold log_hashes. apply set_search_log_other. lia.
    + intros j Hj. unfold log_word.
      destruct (Z.eq_dec j mid) as [->|Hne].
      * rewrite set_search_log_same, Hoff, Z.eqb_refl.
        destruct (Z.eqb_spec ti 0); [contradiction|]. reflexivity.
      * rewrite set_search_log_other by lia.
        destruct (Z.eqb_spec (log_offset m j) ti) as [Heq|_]; [|reflexivity].
        exfalso.
        assert (Hjn : 0 <= j < n).
        { destruct (Z.lt_ge_cases j n); [lia|]. rewrite Htail in Heq by lia. congruence. }
        destruct (Z.lt_trichotomy j mid) as [Hlt|[?|Hgt]]; [|contradiction|].
        -- pose proof (Hsorted j mid ltac:(lia) Hlt ltac:(lia)). lia.
        -- pose proof (Hsorted mid j ltac:(lia) Hgt ltac:(lia)). lia.
Qed.

(** The memory a successful [put] leaves. *)
Lemma put_memory s ph sh key value version s' f e w :
  Shard.put s ph sh key value version = Some (SUCCESS, s', f) ->
  Shard.hash_lookup (mem s) ph key = Some (e, w) ->
  mem s'
  = Shard.set_hash_table
      (Shard.set_search_log
         (Shard.set_search_log
            (if hi32 w <? HASH_OFFSET_INVALID
             then Shard.invalidate_search_log
                    (fst (written_record (mem s) (mdo s) key value version))
                    (hi32 w) (mdo s)
             else fst (written_record (mem s) (mdo s) key value version))
            (mso s * 2) (pack64 sh ph))
         (mso s * 2 + 1) (u64 (mdo s)))
      e (pack64 (mdo s) ph).
Proof.
  intros Hput Hl. unfold Shard.put in Hput.
  destruct (Z.gtb_spec (Shard.data_size key value + mdo s) FILE_SIZE) as [|Hfit];
    [discriminate|].
  destruct (Z.eqb_spec (mso s) SEARCH_INDEX_ENTRIES) as [|Hroom]; [discriminate|].
  rewrite Hl in Hput. unfold written_record. cbv zeta in Hput |- *.
  destruct (Shard.pack_value _ _ value) as [m5 c5]. cbn [fst].
  apply (f_equal (fun o => option_map (fun r => Shard.m_data (snd (fst r))) o)) in Hput.
  cbn [option_map fst snd Shard.m_data] in Hput. congruence.
Qed.

(** The memory a successful [del] leaves. *)
Lemma del_memory s ph key s' e w :
  Shard.del s ph key = Some (SUCCESS, s') ->
  Shard.hash_lookup (mem s) ph key = Some (e, w) ->
  mem s'
  = Shard.set_hash_table
      (Shard.invalidate_search_log (mem s) (hi32 w) (mdo s)) e
      (Z.lor (Z.lor (u64 (Z.shiftl (hi32 w) 32)) (u64 (Z.shiftl HASH_OFFSET_INVALID 32))) ph).
Proof.
  intros Hdel Hl. unfold Shard.del in Hdel. rewrite Hl in Hdel.
  destruct ((hi32 w =? 0) || (hi32 w >=? HASH_OFFSET_INVALID)); [discriminate|].
  destruct (mdo s + 8 >? FILE_SIZE); [discriminate|].
  apply (f_equal (fun o => option_map (fun r => Shard.m_data (snd r)) o)) in Hdel.
  cbn [option_map fst snd Shard.m_data] in Hdel. congruence.
Qed.

End LogWords.

(** * Shards: the search log along [put] and [del] *)

Section LogSteps.
Context {K : shard_constants}.
Hypothesis HK : constants_ok K.

Local Abbreviation mdo := Shard.m_data_offset.
Local Abbreviation mso := Shard.m_search_offset.
Local Abbreviation mem := Shard.m_data.

Lemma log_offset_of_word m j : log_offset m j = lo32 (log_word m j).
Proof. reflexivity. Qed.

Lemma mark_word iw ti :
  0 <= iw < 2 ^ 32 -> 0 <= ti < 2 ^ 32 ->
  hi32 (pack64 iw ti mod 2 ^ 64) = iw /\ lo32 (pack64 iw ti mod 2 ^ 64) = ti.
Proof.
  intros Hiw Hti. rewrite pack64_eq by lia. rewrite Z.mod_small by lia.
  split; [apply hi32_split; lia|apply lo32_split; lia].
Qed.

Lemma log_inv_offsets s :
  shard_inv s -> log_inv s ->
  (forall j, 0 <= j < mso s -> log_offset (mem s) j <> 0)
  /\ (forall j, mso s <= j < SEARCH_INDEX_ENTRIES -> log_offset (mem s) j = 0)
  /\ (forall j, 0 <= j < mso s -> log_offset (mem s) j < FILE_SIZE).
Proof.
  destruct (layout HK) as (HH & HS & HT & HI & HF & HF31 & HF8 & HINV).
  intros Hinv Hlog. pose proof (inv_data_offset s Hinv) as Hmdo.
  split; [|split].
  - intros j Hj. destruct (log_filled s Hlog j Hj) as [Hlo _]. lia.
  - intros j Hj. exact (inv_log_tail s Hinv j Hj).
  - intros j Hj. destruct (log_filled s Hlog j Hj) as [_ Hhi].
    pose proof (data_key_size_range (mem s) (log_offset (mem s) j)). lia.
Qed.

(** The words of the log after a successful [put]: the new entry carries
    the hashes and the data offset, the entry of the record the slot
    referred to carries the mark. *)
Lemma put_log s ph sh key value version s' f e w :
  shard_inv s -> log_inv s -> is_u32 ph -> is_u32 sh ->
  Shard.put s ph sh key value version = Some (SUCCESS, s', f) ->
  Shard.hash_lookup (mem s) ph key = Some (e, w) ->
  log_hashes (mem s') (mso s) = sh * 2 ^ 32 + ph
  /\ log_word (mem s') (mso s) = mdo s
  /\ (forall j, 0 <= j < SEARCH_INDEX_ENTRIES -> j <> mso s ->
        log_hashes (mem s') j = log_hashes (mem s) j)
  /\ (forall j, 0 <= j < SEARCH_INDEX_ENTRIES -> j <> mso s ->
        log_word (mem s') j
        = if (hi32 w <? HASH_OFFSET_INVALID) && (log_offset (mem s) j =? hi32 w)
             && negb (hi32 w =? 0)
          then pack64 (mdo s) (hi32 w) mod 2 ^ 64 else log_word (mem s) j).
Proof.
  destruct (layout HK) as (HH & HS & HT & HI & HF & HF31 & HF8 & HINV).
  intros Hinv Hlog Hph Hsh Hput Hl.
  pose proof (put_memory s ph sh key value version s' f e w Hput Hl) as Hmem.
  destruct (put_result HK _ _ _ _ _ _ _ _ _ Hinv Hph Hput)
    as [(Hne & _)|(_ & e0 & w0 & Hl0 & Heff)]; [congruence|].
  destruct Heff as (Hfit & Hroom & _).
  pose proof (inv_data_offset s Hinv) as Hmdo.
  pose proof (inv_search_offset s Hinv) as Hmso.
  destruct (hash_lookup_spec HK _ _ _ _ _ Hl) as (_ & _ & _ & He & _).
  destruct (log_inv_offsets s Hinv Hlog) as (Hnz & Htail & _).
  set (m5 := fst (written_record (mem s) (mdo s) key value version)) in *.
  assert (Hm5 : forall x, x < INDEX_SEGMENT_SIZE -> m5 x = mem s x).
  { intros x Hx.
    destruct (written_record_spec (mem s) (mdo s) key value version ltac:(lia) ltac:(lia))
      as (_ & Hout & _).
    apply Hout. lia. }
  assert (Hw5 : forall i, 0 <= i < 2 * SEARCH_INDEX_ENTRIES ->
                          Shard.m_search_log m5 i = Shard.m_search_log (mem s) i).
  { intros i Hi. apply (same_index_log HK); [exact Hm5|exact Hi]. }
  assert (Ho5 : forall j, 0 <= j < SEARCH_INDEX_ENTRIES ->
                          log_offset m5 j = log_offset (mem s) j).
  { intros j Hj. unfold log_offset. rewrite Hw5 by lia. reflexivity. }
  set (m6 := if hi32 w <? HASH_OFFSET_INVALID
             then Shard.invalidate_search_log m5 (hi32 w) (mdo s) else m5) in *.
  assert (H6 : (forall j, 0 <= j < SEARCH_INDEX_ENTRIES ->
                          log_hashes m6 j = log_hashes (mem s) j)
               /\ (forall j, 0 <= j < SEARCH_INDEX_ENTRIES ->
                     log_word m6 j
                     = if (hi32 w <? HASH_OFFSET_INVALID) && (log_offset (mem s) j =? hi32 w)
                          && negb (hi32 w =? 0)
                       then pack64 (mdo s) (hi32 w) mod 2 ^ 64 else log_word (mem s) j)).
  { unfold m6. destruct (hi32 w <? HASH_OFFSET_INVALID).
    - destruct (invalidate_search_log_words HK m5 (hi32 w) (mdo s) (mso s))
        as [Hh Hw].
      + intros i j Hi Hij Hj. rewrite !Ho5 by lia. apply (log_sorted s Hlog); lia.
      + intros j Hj. rewrite Ho5 by lia. apply Hnz. exact Hj.
      + intros j Hj. rewrite Ho5 by lia. apply Htail. exact Hj.
      + lia.
      + lia.
      + split.
        * intros j Hj. rewrite Hh by lia. unfold log_hashes. apply Hw5. lia.
        * intros j Hj. rewrite Hw by lia. rewrite Ho5 by lia. cbn [andb].
          destruct ((log_offset (mem s) j =? hi32 w) && negb (hi32 w =? 0));
            [reflexivity|]. unfold log_word. apply Hw5. lia.
    - cbn [andb]. split; intros j Hj; [unfold log_hashes|unfold log_word]; apply Hw5; lia. }
  destruct H6 as [H6h H6w].
  unfold log_hashes, log_word. rewrite Hmem.
  unfold is_u32 in Hph, Hsh.
  split; [|split; [|split]].
  - rewrite (set_hash_table_log HK) by lia.
    rewrite set_search_log_other by lia.
    replace (2 * mso s) with (mso s * 2) by lia.
    rewrite set_search_log_same. rewrite pack64_eq by lia. apply Z.mod_small. lia.
  - rewrite (set_hash_table_log HK) by lia.
    replace (2 * mso s + 1) with (mso s * 2 + 1) by lia.
    rewrite set_search_log_same. unfold u64. rewrite Z.mod_mod by lia.
    apply Z.mod_small. lia.
  - intros j Hj Hne. rewrite (set_hash_table_log HK) by lia.
    rewrite !set_search_log_other by lia. apply H6h. exact Hj.
  - intros j Hj Hne. rewrite (set_hash_table_log HK) by lia.
    rewrite !set_search_log_other by lia. apply H6w. exact Hj.
Qed.

(** The words of the log after a successful [del]: the entry of the record
    of the key carries the mark. *)
Lemma del_log s ph key s' e w :
  shard_inv s -> log_inv s -> is_u32 ph ->
  Shard.del s ph key = Some (SUCCESS, s') ->
  Shard.hash_lookup (mem s) ph key = Some (e, w) ->
  (forall j, 0 <= j < SEARCH_INDEX_ENTRIES -> log_hashes (mem s') j = log_hashes (mem s) j)
  /\ (forall j, 0 <= j < SEARCH_INDEX_ENTRIES ->
        log_word (mem s') j
        = if log_offset (mem s) j =? hi32 w
          then pack64 (mdo s) (hi32 w) mod 2 ^ 64 else log_word (mem s) j).
Proof.
  destruct (layout HK) as (HH & HS & HT & HI & HF & HF31 & HF8 & HINV).
  intros Hinv Hlog Hph Hdel Hl.
  pose proof (del_memory s ph key s' e w Hdel Hl) as Hmem.
  destruct (del_result HK _ _ _ _ _ Hinv Hph Hdel)
    as [(Hne & _)|(_ & e0 & w0 & Hl0 & Heff)]; [congruence|].
  assert (e0 = e /\ w0 = w) as [-> ->] by (split; congruence).
  destruct Heff as (Hwnz & Hvalid & Hfit & _).
  pose proof (inv_data_offset s Hinv) as Hmdo.
  pose proof (inv_search_offset s Hinv) as Hmso.
  destruct (hash_lookup_spec HK _ _ _ _ _ Hl) as (off & _ & _ & He & Hw & _).
  destruct (log_inv_offsets s Hinv Hlog) as (Hnz & Htail & _).
  assert (Hassigned : assigned s e) by (unfold assigned, slot_word; rewrite <- Hw; exact Hwnz).
  assert (Hoff : slot_offset s e = hi32 w).
  { unfold slot_offset, slot_word. rewrite <- Hw, HINV. apply mask_offset_low.
    pose proof (hi32_range w). lia. }
  destruct (invalidate_search_log_words HK (mem s) (hi32 w) (mdo s) (mso s))
    as [Hh Hwd].
  - intros i j Hi Hij Hj. apply (log_sorted s Hlog); lia.
  - exact Hnz.
  - exact Htail.
  - lia.
  - intros Hfull. destruct (inv_log_last s Hinv e He Hassigned) as [_ Hdom].
    rewrite Hoff, Hfull in Hdom. exact Hdom.
  - unfold log_hashes, log_word in *. rewrite Hmem. split.
    + intros j Hj. rewrite (set_hash_table_log HK) by lia. apply Hh. lia.
    + intros j Hj. rewrite (set_hash_table_log HK) by lia. rewrite Hwd by lia.
      destruct (Z.eqb_spec (hi32 w) 0) as [|_]; [contradiction|].
      rewrite andb_true_r. reflexivity.
Qed.

End LogSteps.

(** * Shards: the invariant of the search log *)

Section LogInvariant.
Context {K : shard_constants}.
Hypothesis HK : constants_ok K.

Local Abbreviation mdo := Shard.m_data_offset.
Local Abbreviation mso := Shard.m_search_offset.
Local Abbreviation mem := Shard.m_data.

Lemma create_log_inv : log_inv Shard.create.
Proof.
  constructor; cbn [Shard.create Shard.m_search_offset Shard.m_data Shard.m_data_offset].
  - intros i j Hi Hij Hj. lia.
  - intros j Hj. lia.
  - intros j Hj. lia.
  - intros j Hj. unfold log_hashes, log_word, Shard.m_search_log.
    rewrite !load64_zero. split; reflexivity.
  - intros b Hb Hab. exfalso. apply Hab.
    unfold slot_word, Shard.m_hash_table. cbn [Shard.create Shard.m_data].
    rewrite load64_zero. reflexivity.
  - split; [|intros j Hj; lia].
    destruct (layout HK) as (_ & _ & _ & HI & _). rewrite HI.
    replace (8 * HASH_TABLE_ENTRIES + 16 * SEARCH_INDEX_ENTRIES)
      with ((HASH_TABLE_ENTRIES + 2 * SEARCH_INDEX_ENTRIES) * 8) by lia.
    apply Z.mod_mul. lia.
  - intros j Hj. lia.
  - intros Hpos. lia.
Qed.

(** Two slots without tombstone do not refer to the same record. *)
Lemma live_slots_differ s b e :
  shard_inv s -> log_inv s ->
  0 <= b < HASH_TABLE_ENTRIES -> 0 <= e < HASH_TABLE_ENTRIES ->
  assigned s b -> assigned s e ->
  hi32 (slot_word s b) < HASH_OFFSET_INVALID ->
  hi32 (slot_word s b) = hi32 (slot_word s e) -> b = e.
Proof.
  intros Hinv Hlog Hb He Hab Hae Hlive Heq.
  destruct (log_live s Hlog b Hb Hab Hlive) as (j & Hj & Hjo & _ & Hjh).
  destruct (log_live s Hlog e He Hae ltac:(lia)) as (j' & Hj' & Hjo' & _ & Hjh').
  assert (j = j').
  { destruct (Z.lt_trichotomy j j') as [Hlt|[Hjj|Hgt]]; [|exact Hjj|].
    - pose proof (log_sorted s Hlog j j' ltac:(lia) Hlt ltac:(lia)). lia.
    - pose proof (log_sorted s Hlog j' j ltac:(lia) Hgt ltac:(lia)). lia. }
  subst j'. apply (inv_unique s Hinv b e Hb He Hab Hae).
  unfold slot_pair, slot_key, slot_offset. rewrite <- Hjh, <- Hjh', Heq. reflexivity.
Qed.

(** The key of the record of a log entry is read the same after a call
    that has left the data segment below the data offset alone. *)
Lemma log_key_kept s (m' : memory) j :
  shard_inv s -> log_inv s -> 0 <= j < mso s ->
  (forall x, INDEX_SEGMENT_SIZE <= x < mdo s -> m' x = mem s x) ->
  log_offset m' j = log_offset (mem s) j ->
  Shard.data_key_size m' (log_offset (mem s) j)
  = Shard.data_key_size (mem s) (log_offset (mem s) j)
  /\ log_key m' j = log_key (mem s) j.
Proof.
  destruct (layout HK) as (HH & HS & HT & HI & HF & HF31 & HF8 & HINV).
  intros Hinv Hlog Hj Hdata Hoff.
  destruct (log_filled s Hlog j Hj) as [Hlo Hhi].
  pose proof (inv_data_offset s Hinv) as Hmdo.
  pose proof (data_key_size_range (mem s) (log_offset (mem s) j)) as Hk.
  destruct (record_kept (mem s) m' (log_offset (mem s) j) (mdo s)) as [Hsz Hkey];
    [lia|exact Hhi| |].
  - intros x Hx. apply Hdata. lia.
  - split; [exact Hsz|]. unfold log_key. rewrite Hoff. exact Hkey.
Qed.

Lemma put_log_inv s M ph sh key value version s' f :
  refines s M -> log_inv s -> is_u32 ph -> is_u32 sh ->
  0 <= version < 2 ^ 64 -> Z.of_nat (length value) < 2 ^ 16 ->
  Shard.put s ph sh key value version = Some (SUCCESS, s', f) -> log_inv s'.
Proof.
  destruct (layout HK) as (HH & HS & HT & HI & HF & HF31 & HF8 & HINV).
  intros Href Hlog Hph Hsh Hver Har Hput. pose proof (ref_inv s M Href) as Hinv.
  destruct (put_result HK _ _ _ _ _ _ _ _ _ Hinv Hph Hput)
    as [(Hne & _)|(_ & e & w & Hl & Heff)]; [congruence|].
  destruct (put_log HK s ph sh key value version s' f e w Hinv Hlog Hph Hsh Hput Hl)
    as (Hnh & Hnw & Hoh & How).
  destruct (put_slots HK s ph key value s' f e w Hinv Hph Hl Heff)
    as ((Hae & Hhe & Hoe & Hpe) & Hsother & _).
  destruct (put_preserves HK s ph sh key value version SUCCESS s' f Hinv Hph Hput)
    as [Hinv' Hkeeps].
  pose proof (put_record HK s ph sh key value version s' f Hinv Hph Hver Har Hput) as Hrec.
  destruct Heff as (Hfit & Hroom & Hmdo' & Hmso' & Hdata & Hother & Hword & Hksz & Hkey
                    & Hlogoff & _).
  pose proof (inv_data_offset s Hinv) as Hmdo.
  pose proof (inv_search_offset s Hinv) as Hmso.
  destruct (hash_lookup_spec HK _ _ _ _ _ Hl) as (off & _ & _ & He & Hw & _).
  destruct (log_inv_offsets HK s Hinv Hlog) as (Hnz & Htail & Hbound).
  assert (Hds : 14 + size key <= Shard.data_size key value).
  { rewrite data_size_eq. pose proof (attrs_size_nonneg value). lia. }
  pose proof (size_nonneg key) as Hsk.
  destruct (align8_bounds (mdo s + Shard.data_size key value) ltac:(lia) ltac:(lia))
    as [Hal _].
  assert (Hold : forall j, 0 <= j < mso s ->
                   log_offset (mem s') j = log_offset (mem s) j
                   /\ Shard.data_key_size (mem s') (log_offset (mem s) j)
                      = Shard.data_key_size (mem s) (log_offset (mem s) j)
                   /\ log_key (mem s') j = log_key (mem s) j).
  { intros j Hj.
    assert (Hoff : log_offset (mem s') j = log_offset (mem s) j).
    { rewrite Hlogoff by lia. destruct (Z.eqb_spec j (mso s)); [lia|reflexivity]. }
    split; [exact Hoff|].
    apply (log_key_kept s (mem s') j Hinv Hlog Hj); [|exact Hoff].
    intros x Hx. apply Hdata. exact Hx. }
  assert (Hnew : log_offset (mem s') (mso s) = mdo s).
  { rewrite Hlogoff by lia. rewrite Z.eqb_refl. reflexivity. }
  unfold is_u32 in Hph, Hsh.
  constructor; rewrite ?Hmso', ?Hmdo'.
  - (* the offsets go up *)
    intros i j Hi Hij Hj.
    destruct (Hold i ltac:(lia)) as (-> & _ & _).
    destruct (Z.eq_dec j (mso s)) as [->|Hjn].
    + rewrite Hnew. destruct (log_filled s Hlog i ltac:(lia)) as [_ Hhi].
      pose proof (data_key_size_range (mem s) (log_offset (mem s) i)). lia.
    + destruct (Hold j ltac:(lia)) as (-> & _ & _). apply (log_sorted s Hlog); lia.
  - (* the records *)
    intros j Hj. destruct (Z.eq_dec j (mso s)) as [->|Hjn].
    + rewrite Hnew, Hksz. lia.
    + destruct (Hold j ltac:(lia)) as (-> & -> & _).
      destruct (log_filled s Hlog j ltac:(lia)) as [Hlo Hhi]. lia.
  - (* the slots *)
    intros j Hj. destruct (Z.eq_dec j (mso s)) as [->|Hjn].
    + exists e. split; [exact He|]. split; [exact Hae|]. split.
      * rewrite Hpe, Hnh. rewrite lo32_split by lia.
        unfold log_key. rewrite Hnew, Hksz. unfold Shard.data_key.
        rewrite u32_small by (unfold is_u32; lia).
        replace (mdo s + 8 + 4) with (mdo s + 12) by lia.
        unfold size. rewrite Nat2Z.id. rewrite Hkey. reflexivity.
      * intros _. rewrite Hnew, Hword. apply hi32_split; lia.
    + destruct (Hold j ltac:(lia)) as (Hoff & _ & Hk).
      destruct (log_held s Hlog j ltac:(lia)) as (b & Hb & Hab & Hpair & Hlive).
      destruct (Hkeeps b Hb Hab) as [Hab' Hpair'].
      exists b. split; [exact Hb|]. split; [exact Hab'|]. split.
      * rewrite Hpair', Hpair, Hk, Hoh by lia. reflexivity.
      * rewrite How by lia. rewrite Hoff.
        destruct ((hi32 w <? HASH_OFFSET_INVALID) && (log_offset (mem s) j =? hi32 w)
                  && negb (hi32 w =? 0)) eqn:Hcond.
        -- pose proof (hi32_range w) as Hr.
           destruct (mark_word (mdo s) (hi32 w) ltac:(lia) Hr) as [-> _]. lia.
        -- intros Hl0. specialize (Hlive Hl0).
           destruct (Z.eq_dec b e) as [->|Hbe].
           ++ exfalso. unfold slot_word in Hlive. rewrite <- Hw in Hlive.
              pose proof (Hnz j ltac:(lia)) as Hjnz. pose proof (Hbound j ltac:(lia)) as Hjb.
              rewrite <- Hlive in Hcond.
              destruct (Z.ltb_spec (hi32 w) HASH_OFFSET_INVALID) as [_|]; [|lia].
              rewrite Z.eqb_refl in Hcond.
              destruct (Z.eqb_spec (hi32 w) 0) as [|_]; [lia|]. discriminate.
           ++ unfold slot_word in *. rewrite (Hother b Hb Hbe). exact Hlive.
  - (* the rest of the log *)
    intros j Hj. rewrite Hoh, How by lia.
    destruct (log_zero s Hlog j ltac:(lia)) as [Hzh Hzw].
    rewrite (Htail j ltac:(lia)).
    destruct (Z.eqb_spec 0 (hi32 w)) as [Hz|_].
    + rewrite <- Hz. rewrite andb_false_r. split; assumption.
    + rewrite andb_false_r. cbn [andb]. split; assumption.
  - (* the slots that are live *)
    intros b Hb Hab' Hlv. destruct (Z.eq_dec b e) as [->|Hbe].
    + exists (mso s). split; [lia|]. rewrite Hnew, Hword, Hnw, Hnh, Hhe.
      split; [symmetry; apply hi32_split; lia|].
      split; [apply hi32_small; lia|apply lo32_split; lia].
    + destruct (Hsother b Hb Hbe) as (Hiff & Hhb & _).
      assert (Hab : assigned s b) by (apply Hiff; exact Hab').
      assert (Hwb : slot_word s' b = slot_word s b) by (apply (Hother b Hb Hbe)).
      rewrite Hwb in *.
      destruct (log_live s Hlog b Hb Hab Hlv) as (j & Hj & Hjo & Hjl & Hjh).
      exists j. split; [lia|]. destruct (Hold j Hj) as (-> & _).
      split; [exact Hjo|]. rewrite How, Hoh, Hhb by lia. split; [|exact Hjh].
      destruct ((hi32 w <? HASH_OFFSET_INVALID) && (log_offset (mem s) j =? hi32 w)
                && negb (hi32 w =? 0)) eqn:Hcond; [|exact Hjl].
      exfalso. apply andb_true_iff in Hcond as [Hcond Hwnz].
      apply andb_true_iff in Hcond as [Hwlt Hweq].
      apply Z.ltb_lt in Hwlt. apply Z.eqb_eq in Hweq.
      apply negb_true_iff in Hwnz. apply Z.eqb_neq in Hwnz.
      apply Hbe. apply (live_slots_differ s b e Hinv Hlog Hb He Hab); [|exact Hlv|].
      * unfold assigned, slot_word. rewrite <- Hw. exact Hwnz.
      * unfold slot_word at 2. rewrite <- Hw. congruence.
  - (* the alignment *)
    destruct (log_aligned s Hlog) as [Hamdo Haoff].
    destruct (align8_bounds (mdo s + Shard.data_size key value) ltac:(lia) ltac:(lia))
      as [_ Hal8].
    split; [exact Hal8|]. intros j Hj. destruct (Z.eq_dec j (mso s)) as [->|Hjn].
    + rewrite Hnew. exact Hamdo.
    + destruct (Hold j ltac:(lia)) as (-> & _). apply Haoff. lia.
  - (* the records of the entries *)
    intros j Hj. destruct (Z.eq_dec j (mso s)) as [->|Hjn].
    + exists key, value, version. rewrite Hnew. split; [exact Hrec|].
      destruct (Z.ltb_spec (mso s + 1) (mso s + 1)); lia.
    + destruct (Hold j ltac:(lia)) as (Hoj & _).
      destruct (log_record s Hlog j ltac:(lia)) as (k & v & ver & Hrj & Hej).
      destruct (log_filled s Hlog j ltac:(lia)) as [Hlow _].
      assert (Hnext : (if j + 1 <? mso s then log_offset (mem s) (j + 1) else mdo s)
                      <= mdo s).
      { destruct (Z.ltb_spec (j + 1) (mso s)); [|lia].
        destruct (log_filled s Hlog (j + 1) ltac:(lia)) as [_ Hhi].
        pose proof (data_key_size_range (mem s) (log_offset (mem s) (j + 1))). lia. }
      exists k, v, ver. rewrite Hoj. split.
      * apply (record_at_ext (mem s)); [|exact Hrj]. intros x Hx. apply Hdata. lia.
      * destruct (Z.ltb_spec (j + 1) (mso s + 1)) as [_|]; [|lia].
        destruct (Z.ltb_spec (j + 1) (mso s)) as [Hlt|Hge].
        -- destruct (Hold (j + 1) ltac:(lia)) as (-> & _). exact Hej.
        -- replace (j + 1) with (mso s) by lia. rewrite Hnew. exact Hej.
  - (* the last record *)
    intros _. replace (mso s + 1 - 1) with (mso s) by lia.
    exists key, value, version. cbv zeta. rewrite Hnew.
    split; [exact Hrec|]. split; [lia|]. split; [lia|].
    intros b Hb Hab'. destruct (Z.eq_dec b e) as [->|Hbe].
    + exists value, version. rewrite Hoe.
      assert (Hke : slot_key s' e = key) by (unfold slot_pair in Hpe; congruence).
      rewrite Hke. split; [exact Hrec|lia].
    + destruct (Hsother b Hb Hbe) as (Hiff & _ & Hob & Hkept).
      assert (Hab : assigned s b) by (apply Hiff; exact Hab').
      destruct (Hkept Hab) as [_ Hpb].
      assert (Hkb : slot_key s' b = slot_key s b) by (unfold slot_pair in Hpb; congruence).
      destruct (ref_record s M Href b Hb Hab) as (v & ver & Hrb & Hext & _).
      destruct (inv_record s Hinv b Hb Hab) as [Hlow _].
      exists v, ver. rewrite Hob, Hkb. split; [|lia].
      apply (record_at_ext (mem s)); [|exact Hrb]. intros x Hx. apply Hdata. lia.
Qed.

Lemma del_log_inv s ph key s' :
  shard_inv s -> log_inv s -> is_u32 ph ->
  Shard.del s ph key = Some (SUCCESS, s') -> log_inv s'.
Proof.
  destruct (layout HK) as (HH & HS & HT & HI & HF & HF31 & HF8 & HINV).
  intros Hinv Hlog Hph Hdel.
  destruct (del_result HK _ _ _ _ _ Hinv Hph Hdel)
    as [(Hne & _)|(_ & e & w & Hl & Heff)]; [congruence|].
  destruct (del_log HK s ph key s' e w Hinv Hlog Hph Hdel Hl) as (Hoh & How).
  destruct (hash_lookup_spec HK _ _ _ _ _ Hl) as (off & _ & _ & He & Hw & _ & Hstop).
  pose proof Heff as (Hwnz & Hvalid & Hfit & Hmdo' & Hmso' & Hdata & Hother & Hword & Hlogoff).
  assert (Hlo : lo32 w = ph) by (destruct Hstop as [[Hlo _]|Hz]; [exact Hlo|contradiction]).
  pose proof (del_slots HK s ph s' e w Hinv Hph He Hw Hlo Heff) as Hslots.
  pose proof (inv_data_offset s Hinv) as Hmdo.
  pose proof (inv_search_offset s Hinv) as Hmso.
  destruct (log_inv_offsets HK s Hinv Hlog) as (Hnz & Htail & Hbound).
  pose proof (hi32_range w) as Hr. unfold is_u32 in Hph.
  assert (Hold : forall j, 0 <= j < mso s ->
                   Shard.data_key_size (mem s') (log_offset (mem s) j)
                   = Shard.data_key_size (mem s) (log_offset (mem s) j)
                   /\ log_key (mem s') j = log_key (mem s) j).
  { intros j Hj. apply (log_key_kept s (mem s') j Hinv Hlog Hj); [|apply Hlogoff; lia].
    intros x Hx. apply Hdata. lia. }
  assert (Hwe : hi32 (slot_word s' e) >= HASH_OFFSET_INVALID).
  { rewrite Hword, HINV. rewrite hi32_split by lia. lia. }
  constructor; rewrite ?Hmso', ?Hmdo'.
  - intros i j Hi Hij Hj. rewrite !Hlogoff by lia. apply (log_sorted s Hlog); lia.
  - intros j Hj. rewrite Hlogoff by lia. destruct (Hold j Hj) as [-> _].
    destruct (log_filled s Hlog j Hj) as [Hlow Hhigh]. lia.
  - intros j Hj. destruct (Hold j Hj) as [_ Hk].
    destruct (log_held s Hlog j Hj) as (b & Hb & Hab & Hpair & Hlive).
    destruct (Hslots b Hb) as (Hiff & _ & _ & Hkept).
    destruct (Hkept Hab) as [_ Hpair'].
    exists b. split; [exact Hb|]. split; [apply Hiff; exact Hab|]. split.
    + rewrite Hpair', Hpair, Hk, Hoh by lia. reflexivity.
    + rewrite How by lia. rewrite Hlogoff by lia.
      destruct (Z.eqb_spec (log_offset (mem s) j) (hi32 w)) as [Heq|Hneq].
      * destruct (mark_word (mdo s) (hi32 w) ltac:(lia) Hr) as [-> _]. lia.
      * intros Hl0. specialize (Hlive Hl0).
        destruct (Z.eq_dec b e) as [->|Hbe].
        -- exfalso. apply Hneq. rewrite <- Hlive. unfold slot_word. rewrite <- Hw. reflexivity.
        -- unfold slot_word in *. rewrite (Hother b Hb Hbe). exact Hlive.
  - intros j Hj. rewrite Hoh, How by lia.
    destruct (log_zero s Hlog j ltac:(lia)) as [Hzh Hzw].
    rewrite (Htail j ltac:(lia)).
    destruct (Z.eqb_spec 0 (hi32 w)) as [Hz|_]; [congruence|]. split; assumption.
  - intros b Hb Hab' Hlv. destruct (Z.eq_dec b e) as [->|Hbe]; [lia|].
    destruct (Hslots b Hb) as (Hiff & Hhb & _).
    assert (Hab : assigned s b) by (apply Hiff; exact Hab').
    assert (Hwb : slot_word s' b = slot_word s b) by (apply (Hother b Hb Hbe)).
    rewrite Hwb in *.
    destruct (log_live s Hlog b Hb Hab Hlv) as (j & Hj & Hjo & Hjl & Hjh).
    exists j. split; [lia|]. rewrite Hlogoff by lia.
    split; [exact Hjo|]. rewrite How, Hoh, Hhb by lia. split; [|exact Hjh].
    destruct (Z.eqb_spec (log_offset (mem s) j) (hi32 w)) as [Hweq|_]; [|exact Hjl].
    exfalso. apply Hbe.
    assert (Hae : assigned s e) by (unfold assigned, slot_word; rewrite <- Hw; exact Hwnz).
    apply (live_slots_differ s b e Hinv Hlog Hb He Hab Hae Hlv).
    unfold slot_word at 2. rewrite <- Hw. congruence.
  - destruct (log_aligned s Hlog) as [Hamdo Haoff]. split.
    + replace (mdo s + 8) with (mdo s + 1 * 8) by lia. rewrite Z.mod_add by lia. exact Hamdo.
    + intros j Hj. rewrite Hlogoff by lia. apply Haoff. exact Hj.
  - intros j Hj.
    destruct (log_record s Hlog j Hj) as (k & v & ver & Hrj & Hej).
    destruct (log_filled s Hlog j Hj) as [Hlow _].
    exists k, v, ver. rewrite Hlogoff by lia. split.
    + apply (record_at_ext (mem s)); [|exact Hrj]. intros x Hx. apply Hdata. lia.
    + destruct (Z.ltb_spec (j + 1) (mso s)); [rewrite Hlogoff by lia; exact Hej|lia].
  - intros Hpos.
    destruct (log_last s Hlog Hpos) as (k & v & ver & Hrec & Hfile & Hend & Hslot).
    cbv zeta. rewrite Hlogoff by lia.
    destruct (log_filled s Hlog (mso s - 1) ltac:(lia)) as [Hlow _].
    exists k, v, ver. split; [|split; [exact Hfile|split; [lia|]]].
    + apply (record_at_ext (mem s)); [|exact Hrec]. intros x Hx. apply Hdata. lia.
    + intros b Hb Hab'. destruct (Hslots b Hb) as (Hiff & _ & Hob & Hkept).
      assert (Hab : assigned s b) by (apply Hiff; exact Hab').
      destruct (Hkept Hab) as [_ Hpb].
      assert (Hkb : slot_key s' b = slot_key s b) by (unfold slot_pair in Hpb; congruence).
      destruct (Hslot b Hb Hab) as (vb & verb & Hrb & Hext).
      destruct (inv_record s Hinv b Hb Hab) as [Hlowb _].
      exists vb, verb. rewrite Hob, Hkb. split; [|exact Hext].
      apply (record_at_ext (mem s)); [|exact Hrb]. intros x Hx. apply Hdata. lia.
Qed.

Lemma call_log_inv s M op rc s' :
  refines s M -> log_inv s -> proper op -> call s op = Some (rc, s') -> log_inv s'.
Proof.
  intros Href Hlog Hop Hcall. pose proof (ref_inv s M Href) as Hinv. destruct op as [ph sh key value version|ph key];
    cbn [call proper] in *.
  - destruct Hop as (Hph & Hsh & Hver & Har).
    destruct (Shard.put s ph sh key value version) as [[[rc0 s0] f]|] eqn:Hput;
      [|discriminate].
    assert (rc0 = rc /\ s0 = s') as [-> ->] by (split; congruence).
    destruct (returncode_eqb rc SUCCESS) eqn:Hrc.
    + apply returncode_eqb_eq in Hrc. subst rc.
      exact (put_log_inv s M ph sh key value version s' f Href Hlog Hph Hsh Hver Har Hput).
    + assert (Hne : rc <> SUCCESS)
        by (intros ->; rewrite (proj2 (returncode_eqb_eq _ _) eq_refl) in Hrc; discriminate).
      destruct (put_failed s ph sh key value version rc s' f Hput Hne) as [-> _].
      exact Hlog.
  - destruct (returncode_eqb rc SUCCESS) eqn:Hrc.
    + apply returncode_eqb_eq in Hrc. subst rc.
      exact (del_log_inv s ph key s' Hinv Hlog Hop Hcall).
    + destruct (del_result HK _ _ _ _ _ Hinv Hop Hcall) as [(_ & ->)|(-> & _)];
        [exact Hlog|discriminate].
Qed.

Lemma simulate_log_inv ops : forall s M s' M',
  refines s M -> log_inv s -> Forall proper ops ->
  simulate s M ops = Some (s', M') -> log_inv s'.
Proof.
  induction ops as [|op ops IH]; intros s M s' M' Href Hlog Hops Hsim; cbn [simulate] in Hsim.
  - assert (s = s') as <- by congruence. exact Hlog.
  - destruct (call s op) as [[rc s1]|] eqn:Hcall; [|discriminate].
    apply (IH s1 (model_step M op rc) s' M'); [| |exact (Forall_inv_tail Hops)|exact Hsim].
    + exact (refines_call HK s M op rc s1 Href (Forall_inv Hops) Hcall).
    + exact (call_log_inv s M op rc s1 Href Hlog (Forall_inv Hops) Hcall).
Qed.

Lemma shard_after_log_inv ops s M : shard_after ops s M -> shard_inv s /\ log_inv s.
Proof.
  intros [Hops Hsim]. split.
  - exact (ref_inv s M (simulate_refines HK ops _ _ _ _ (refines_create HK) Hops Hsim)).
  - exact (simulate_log_inv ops _ _ s M (refines_create HK) create_log_inv Hops Hsim).
Qed.

End LogInvariant.

(** * Shards: [fsck] and [open] *)

(** [(x + 7) & ~7] on [size_t], stored in a [uint32_t]. *)
Lemma align8_size_t x :
  0 <= x -> x + 7 < 2 ^ 32 ->
  u32 (Z.land (u64 (x + 7)) (u64 (Z.lnot 7))) = align8 x.
Proof.
  intros H0 H1. rewrite align8_eq by assumption. unfold u64, u32.
  rewrite (Z.mod_small (x + 7)) by lia.
  change (Z.lnot 7 mod 2 ^ 64) with (Z.ldiff (Z.ones 64) (Z.ones 3)).
  rewrite Z.land_comm.
  assert (Hd : Z.land (Z.ldiff (Z.ones 64) (Z.ones 3)) (x + 7)
               = Z.ldiff (x + 7) (Z.ones 3)).
  { apply Z.bits_inj'. intros n Hn.
    rewrite Z.land_spec, !Z.ldiff_spec.
    destruct (Z.ltb_spec n 64).
    - rewrite (Z.ones_spec_low 64 n) by lia. simpl.
      rewrite andb_comm. reflexivity.
    - rewrite (Z.ones_spec_high 64 n) by lia. simpl.
      rewrite (Z.bits_above_log2 (x + 7) n); [reflexivity|lia|].
      apply Z.log2_lt_pow2; [lia|].
      apply Z.lt_le_trans with (2 ^ 32); [lia|]. apply Z.pow_le_mono_r; lia. }
  rewrite Hd.
  rewrite Z.ldiff_ones_r by lia.
  rewrite Z.shiftr_div_pow2, Z.shiftl_mul_pow2 by lia.
  change (2 ^ 3) with 8.
  pose proof (Z.div_mod (x + 7) 8 ltac:(lia)).
  pose proof (Z.mod_pos_bound (x + 7) 8 ltac:(lia)).
  rewrite Z.mod_small by lia. lia.
Qed.

Section FsckOpen.
Context {K : shard_constants}.
Hypothesis HK : constants_ok K.

Local Abbreviation mdo := Shard.m_data_offset.
Local Abbreviation mso := Shard.m_search_offset.
Local Abbreviation mem := Shard.m_data.

(** An entry of the log that stands for a record passes the check. *)
Lemma fsck_entry_filled s j :
  shard_inv s -> log_inv s -> 0 <= j < mso s ->
  Shard.fsck_entry (mem s) j true false = Some (true, false).
Proof.
  destruct (layout HK) as (HH & HS & HT & HI & HF & HF31 & HF8 & HINV).
  intros Hinv Hlog Hj.
  destruct (log_inv_offsets HK s Hinv Hlog) as (Hnz & _ & Hbound).
  destruct (log_held s Hlog j Hj) as (b & Hb & Hab & Hpair & Hlive).
  pose proof (lookup_finds_holder HK s _ _ b Hinv Hb Hab Hpair) as Hl.
  unfold Shard.fsck_entry.
  replace (j * 2 + 1) with (2 * j + 1) by lia. replace (j * 2) with (2 * j) by lia.
  fold (log_hashes (mem s) j). fold (log_word (mem s) j).
  rewrite <- (log_offset_of_word (mem s) j).
  destruct (Z.eqb_spec (log_offset (mem s) j) 0) as [Hz|_]; [exfalso; exact (Hnz j Hj Hz)|].
  cbn [andb negb]. fold (log_key (mem s) j). rewrite Hl.
  assert (Hh : lo32 (slot_word s b) = lo32 (log_hashes (mem s) j))
    by (unfold slot_pair, slot_hash in Hpair; congruence).
  rewrite Hh, Z.eqb_refl.
  destruct (Z.ltb_spec (log_word (mem s) j) HASH_OFFSET_INVALID) as [Hsmall|_];
    [|reflexivity].
  assert (H0 : 0 <= log_word (mem s) j) by (apply load64_range).
  rewrite <- Hlive by (apply hi32_small; lia).
  rewrite Z.eqb_refl. reflexivity.
Qed.

(** An entry behind the last one is zero and passes. *)
Lemma fsck_entry_zero s j zero :
  log_inv s -> mso s <= j < SEARCH_INDEX_ENTRIES ->
  Shard.fsck_entry (mem s) j true zero = Some (true, true).
Proof.
  intros Hlog Hj. destruct (log_zero s Hlog j Hj) as [Hh Hw].
  unfold Shard.fsck_entry.
  replace (j * 2 + 1) with (2 * j + 1) by lia. replace (j * 2) with (2 * j) by lia.
  fold (log_hashes (mem s) j). fold (log_word (mem s) j).
  rewrite Hh, Hw. reflexivity.
Qed.

Lemma fsck_loop_accepts s :
  shard_inv s -> log_inv s ->
  forall remaining j zero,
    0 <= j -> j + Z.of_nat remaining = SEARCH_INDEX_ENTRIES ->
    (j <= mso s -> zero = false) ->
    Shard.fsck_loop (mem s) remaining j true zero = Some true.
Proof.
  intros Hinv Hlog. induction remaining as [|remaining IH]; intros j zero Hj Hrem Hzero;
    cbn [Shard.fsck_loop]; [reflexivity|].
  destruct (Z.lt_ge_cases j (mso s)) as [Hin|Hout].
  - rewrite (Hzero ltac:(lia)). rewrite (fsck_entry_filled s j Hinv Hlog) by lia.
    apply IH; [lia|lia|reflexivity].
  - rewrite (fsck_entry_zero s j zero Hlog) by lia.
    apply IH; [lia|lia|]. intros Hle. lia.
Qed.

(** X12: [fsck] accepts every shard that [put] and [del] calls leave of a
    fresh one: it returns, and what it returns is [true]. The log and the
    hash table of such a shard agree. *)
Theorem fsck_accepts (ops : list operation) (s : Shard.shard) (M : contents) :
  shard_after ops s M -> Shard.fsck s = Some true.
Proof.
  destruct (layout HK) as (HH & HS & _).
  intros Hafter. destruct (shard_after_log_inv HK ops s M Hafter) as [Hinv Hlog].
  unfold Shard.fsck. apply (fsck_loop_accepts s Hinv Hlog); [lia| |reflexivity].
  rewrite Z2Nat.id by lia. lia.
Qed.

(** The loop of [open] stops behind the last entry of the log. *)
Lemma open_loop_spec s :
  shard_inv s -> log_inv s ->
  forall remaining j d,
    0 <= j <= mso s -> j + Z.of_nat remaining = SEARCH_INDEX_ENTRIES ->
    Shard.open_loop (mem s) remaining d j
    = (if j =? mso s then d else log_offset (mem s) (mso s - 1), mso s).
Proof.
  intros Hinv Hlog. destruct (log_inv_offsets HK s Hinv Hlog) as (Hnz & Htail & _).
  pose proof (inv_search_offset s Hinv) as Hmso.
  induction remaining as [|remaining IH]; intros j d Hj Hrem; cbn [Shard.open_loop].
  - assert (j = mso s) as -> by lia. rewrite Z.eqb_refl. reflexivity.
  - replace (j * 2 + 1) with (2 * j + 1) by lia. fold (log_offset (mem s) j).
    destruct (Z.eqb_spec j (mso s)) as [->|Hne].
    + destruct (Z.ltb_spec (mso s) SEARCH_INDEX_ENTRIES) as [Hlt|_]; [|reflexivity].
      rewrite (Htail (mso s)) by lia. reflexivity.
    + destruct (Z.ltb_spec j SEARCH_INDEX_ENTRIES) as [_|]; [|lia].
      destruct (Z.eqb_spec (log_offset (mem s) j) 0) as [Hz|_];
        [exfalso; apply (Hnz j); [lia|exact Hz]|].
      cbn [andb negb]. rewrite IH by lia.
      destruct (Z.eqb_spec (j + 1) (mso s)) as [Heq|_]; [|reflexivity].
      replace (mso s - 1) with j by lia. reflexivity.
Qed.

(** What [open] makes of the memory of a shard: the search offset is that
    of the shard, the data offset is the end of the record of the last
    entry of the log. *)
Lemma open_spec s :
  shard_inv s -> log_inv s ->
  (mso s = 0 /\ Shard.open (mem s) = Shard.mk_shard (mem s) INDEX_SEGMENT_SIZE 0)
  \/ (0 < mso s
      /\ exists key value version,
          let last := log_offset (mem s) (mso s - 1) in
          record_at (mem s) last key value version
          /\ last + Shard.data_size key value <= FILE_SIZE
          /\ Shard.open (mem s)
             = Shard.mk_shard (mem s) (align8 (last + Shard.data_size key value)) (mso s)
          /\ INDEX_SEGMENT_SIZE <= align8 (last + Shard.data_size key value) <= mdo s
          /\ forall b, 0 <= b < HASH_TABLE_ENTRIES -> assigned s b ->
               exists v ver,
                 record_at (mem s) (slot_offset s b) (slot_key s b) v ver
                 /\ slot_offset s b + Shard.data_size (slot_key s b) v
                    <= align8 (last + Shard.data_size key value)).
Proof.
  destruct (layout HK) as (HH & HS & HT & HI & HF & HF31 & HF8 & HINV).
  intros Hinv Hlog. pose proof (inv_search_offset s Hinv) as Hmso.
  pose proof (open_loop_spec s Hinv Hlog (Z.to_nat SEARCH_INDEX_ENTRIES) 0 INDEX_SEGMENT_SIZE
                             ltac:(lia) ltac:(lia)) as Hloop.
  unfold Shard.open. rewrite Hloop.
  destruct (Z.eqb_spec 0 (mso s)) as [Hz|Hnz].
  - left. split; [lia|]. rewrite <- Hz. reflexivity.
  - right. split; [lia|].
    destruct (log_last s Hlog ltac:(lia)) as (key & value & version & Hrec & Hfile & Hend & Hslot).
    cbv zeta in Hrec, Hfile, Hend, Hslot.
    set (last := log_offset (mem s) (mso s - 1)) in *.
    destruct (log_filled s Hlog (mso s - 1) ltac:(lia)) as [Hlow _]. fold last in Hlow.
    exists key, value, version. cbv zeta.
    pose proof (size_nonneg key) as Hsk.
    assert (Hds : 14 + size key <= Shard.data_size key value).
    { rewrite data_size_eq. pose proof (attrs_size_nonneg value). lia. }
    destruct (align8_bounds (last + Shard.data_size key value) ltac:(lia) ltac:(lia))
      as [Hal _].
    split; [exact Hrec|]. split; [exact Hfile|]. split; [|split; [lia|]].
    + destruct (Z.gtb_spec (mso s) 0) as [_|]; [|lia].
      pose proof Hrec as (_ & Hksz & Hkey & _).
      destruct (record_at_reads (mem s) last key value version ltac:(lia) ltac:(lia) Hrec)
        as [_ Hval].
      rewrite Hksz, Hval.
      assert (Hk : Shard.data_key (mem s) last (size key) = key).
      { unfold Shard.data_key. rewrite u32_small by (unfold is_u32; lia).
        replace (last + 8 + 4) with (last + 12) by lia.
        unfold size. rewrite Nat2Z.id. exact Hkey. }
      rewrite Hk.
      replace (last + Shard.data_size key value + 7)
        with ((last + Shard.data_size key value) + 7) by lia.
      rewrite align8_size_t by lia. reflexivity.
    + intros b Hb Hab. destruct (Hslot b Hb Hab) as (v & ver & Hrb & Hext).
      exists v, ver. split; [exact Hrb|lia].
Qed.

End FsckOpen.

(** * Shards: reopening the file *)

Section Reopen.
Context {K : shard_constants}.
Hypothesis HK : constants_ok K.

Local Abbreviation mdo := Shard.m_data_offset.
Local Abbreviation mso := Shard.m_search_offset.
Local Abbreviation mem := Shard.m_data.

(** At most one record lies at an offset. *)
Lemma record_at_unique m off k1 v1 ver1 k2 v2 ver2 :
  0 <= off -> off + Shard.data_size k1 v1 < 2 ^ 32 -> off + Shard.data_size k2 v2 < 2 ^ 32 ->
  record_at m off k1 v1 ver1 -> record_at m off k2 v2 ver2 ->
  k1 = k2 /\ v1 = v2 /\ ver1 = ver2.
Proof.
  intros Hoff H1 H2 Hr1 Hr2.
  pose proof Hr1 as (Hv1 & Hs1 & Hk1 & _). pose proof Hr2 as (Hv2 & Hs2 & Hk2 & _).
  assert (Hlen : length k1 = length k2) by (unfold size in *; lia).
  assert (Hk : k1 = k2) by (rewrite <- Hk1, <- Hk2, Hlen; reflexivity).
  subst k2.
  destruct (record_at_reads m off k1 v1 ver1 Hoff H1 Hr1) as [_ Hval1].
  destruct (record_at_reads m off k1 v2 ver2 Hoff H2 Hr2) as [_ Hval2].
  split; [reflexivity|]. split; congruence.
Qed.

(** The data offset of a shard can be taken back to the end of the last
    of its records: the shard still holds the same map. *)
Lemma refines_data_offset s M d' :
  refines s M -> INDEX_SEGMENT_SIZE <= d' <= mdo s ->
  (forall b, 0 <= b < HASH_TABLE_ENTRIES -> assigned s b ->
     exists v ver, record_at (mem s) (slot_offset s b) (slot_key s b) v ver
                   /\ slot_offset s b + Shard.data_size (slot_key s b) v <= d') ->
  refines (Shard.mk_shard (mem s) d' (mso s)) M.
Proof.
  destruct (layout HK) as (HH & HS & HT & HI & HF & HF31 & HF8 & HINV).
  intros [Hinv Hrec Habs] Hd' Hext. destruct s as [m d o].
  cbn [Shard.m_data Shard.m_data_offset Shard.m_search_offset] in *.
  pose proof (inv_data_offset _ Hinv) as Hmdo. cbn [Shard.m_data_offset] in Hmdo.
  constructor.
  - constructor; cbn [Shard.m_data Shard.m_data_offset Shard.m_search_offset].
    + lia.
    + exact (inv_search_offset _ Hinv).
    + intros b Hb Hab. destruct (inv_record _ Hinv b Hb Hab) as [Hlow _].
      split; [exact Hlow|].
      destruct (Hext b Hb Hab) as (v & ver & (_ & Hksz & _) & Hend).
      rewrite data_size_eq in Hend. pose proof (attrs_size_nonneg v).
      cbn [Shard.m_data] in Hksz.
      change (slot_offset {| Shard.m_data := m; Shard.m_data_offset := d';
                             Shard.m_search_offset := o |} b)
        with (slot_offset {| Shard.m_data := m; Shard.m_data_offset := d;
                             Shard.m_search_offset := o |} b).
      rewrite Hksz. lia.
    + exact (inv_chain _ Hinv).
    + exact (inv_unique _ Hinv).
    + exact (inv_log_tail _ Hinv).
    + exact (inv_log_last _ Hinv).
  - intros b Hb Hab. destruct (Hrec b Hb Hab) as (value & version & Hat & Hend & HM).
    destruct (Hext b Hb Hab) as (v & ver & Hat' & Hend').
    destruct (inv_record _ Hinv b Hb Hab) as [Hlow _].
    assert (H0 : 0 <= slot_offset {| Shard.m_data := m; Shard.m_data_offset := d;
                                     Shard.m_search_offset := o |} b) by lia.
    assert (H1 : slot_offset {| Shard.m_data := m; Shard.m_data_offset := d;
                                Shard.m_search_offset := o |} b
                 + Shard.data_size (slot_key {| Shard.m_data := m; Shard.m_data_offset := d;
                                                Shard.m_search_offset := o |} b) value
                 < 2 ^ 32) by lia.
    assert (H2 : slot_offset {| Shard.m_data := m; Shard.m_data_offset := d;
                                Shard.m_search_offset := o |} b
                 + Shard.data_size (slot_key {| Shard.m_data := m; Shard.m_data_offset := d;
                                                Shard.m_search_offset := o |} b) v
                 < 2 ^ 32) by lia.
    destruct (record_at_unique _ _ _ _ _ _ _ _ H0 H1 H2 Hat Hat') as (_ & Hv & _).
    exists value, version. split; [exact Hat|]. split; [|exact HM].
    cbn [Shard.m_data_offset]. rewrite Hv. exact Hend'.
  - exact Habs.
Qed.

(** X13: the file of a shard that [put] and [del] calls have left can be
    opened again: [open] on its memory gives a shard that holds the same
    map, with the search offset the shard had and a data offset that is not
    larger. *)
Theorem open_keeps_contents (ops : list operation) (s : Shard.shard) (M : contents) :
  shard_after ops s M ->
  refines (Shard.open (mem s)) M
  /\ mem (Shard.open (mem s)) = mem s
  /\ mso (Shard.open (mem s)) = mso s
  /\ INDEX_SEGMENT_SIZE <= mdo (Shard.open (mem s)) <= mdo s.
Proof.
  intros Hafter. destruct (shard_after_log_inv HK ops s M Hafter) as [Hinv Hlog].
  pose proof (shard_after_refines HK ops s M Hafter) as Href.
  pose proof (inv_data_offset s Hinv) as Hmdo.
  destruct (open_spec HK s Hinv Hlog)
    as [(Hz & ->)|(Hpos & key & value & version & _ & _ & -> & Hend & Hslot)].
  - cbn [Shard.m_data Shard.m_data_offset Shard.m_search_offset].
    split; [|split; [reflexivity|split; [congruence|lia]]].
    rewrite <- Hz. apply (refines_data_offset s M); [exact Href|lia|].
    intros b Hb Hab. destruct (inv_log_last s Hinv b Hb Hab) as [Hpos _]. lia.
  - cbn [Shard.m_data Shard.m_data_offset Shard.m_search_offset].
    split; [|split; [reflexivity|split; [reflexivity|exact Hend]]].
    apply (refines_data_offset s M); [exact Href|exact Hend|exact Hslot].
Qed.

(** X14: right after a successful [put] the shard object can be recovered
    from its file: [open] gives back the same memory, the same data offset
    and the same search offset. *)
Theorem open_after_put (ops : list operation) (s : Shard.shard) (M : contents)
        (ph sh : Z) (key : buffer) (value : list buffer) (version : Z)
        (s' : Shard.shard) (f : bool) :
  shard_after ops s M -> proper (Put ph sh key value version) ->
  Shard.put s ph sh key value version = Some (SUCCESS, s', f) ->
  Shard.open (mem s') = s'.
Proof.
  destruct (layout HK) as (HH & HS & HT & HI & HF & HF31 & HF8 & HINV).
  intros Hafter (Hph & Hsh & Hver & Har) Hput.
  destruct (shard_after_log_inv HK ops s M Hafter) as [Hinv Hlog].
  pose proof (shard_after_refines HK ops s M Hafter) as Href.
  pose proof (put_log_inv HK s M ph sh key value version s' f Href Hlog Hph Hsh Hver Har Hput)
    as Hlog'.
  destruct (put_preserves HK s ph sh key value version SUCCESS s' f Hinv Hph Hput)
    as [Hinv' _].
  pose proof (put_record HK s ph sh key value version s' f Hinv Hph Hver Har Hput) as Hrec.
  destruct (put_result HK _ _ _ _ _ _ _ _ _ Hinv Hph Hput)
    as [(Hne & _)|(_ & e & w & Hl & Heff)]; [congruence|].
  destruct Heff as (Hfit & Hroom & Hmdo' & Hmso' & _ & _ & _ & _ & _ & Hlogoff & _).
  pose proof (inv_data_offset s Hinv) as Hmdo.
  pose proof (inv_search_offset s Hinv) as Hmso.
  destruct (open_spec HK s' Hinv' Hlog')
    as [(Hz & _)|(Hpos & k0 & v0 & ver0 & Hrec0 & Hfile0 & Hopen & Hend & _)]; [lia|].
  cbv zeta in Hrec0, Hfile0, Hopen, Hend.
  assert (Hlast : log_offset (mem s') (mso s' - 1) = mdo s).
  { replace (mso s' - 1) with (mso s) by lia. rewrite Hlogoff by lia.
    rewrite Z.eqb_refl. reflexivity. }
  rewrite Hlast in *.
  pose proof (inv_data_offset s' Hinv') as Hmdo1.
  assert (H0 : 0 <= mdo s) by lia.
  assert (H1 : mdo s + Shard.data_size k0 v0 < 2 ^ 32) by lia.
  assert (H2 : mdo s + Shard.data_size key value < 2 ^ 32) by lia.
  destruct (record_at_unique (mem s') (mdo s) k0 v0 ver0 key value version
                             H0 H1 H2 Hrec0 Hrec) as (-> & -> & _).
  rewrite Hopen, <- Hmdo'. destruct s' as [m' d' o']. reflexivity.
Qed.

End Reopen.

(** * Shards: examples for [fsck] and [open] *)

Section FsckOpenExamples.
#[local] Existing Instance example_constants.

Lemma fsck_accepts_witness :
  Shard.fsck (fst (state_of (simulate Shard.create empty_contents sample_calls)))
  = Some true.
Proof.
  apply (fsck_accepts example_constants_ok sample_calls
                      (fst (state_of (simulate Shard.create empty_contents sample_calls)))
                      (snd (state_of (simulate Shard.create empty_contents sample_calls)))).
  exact sample_shard_after.
Defined.

Lemma open_keeps_contents_witness :
  let st := state_of (simulate Shard.create empty_contents sample_calls) in
  refines (Shard.open (Shard.m_data (fst st))) (snd st)
  /\ Shard.m_data (Shard.open (Shard.m_data (fst st))) = Shard.m_data (fst st)
  /\ Shard.m_search_offset (Shard.open (Shard.m_data (fst st)))
     = Shard.m_search_offset (fst st)
  /\ INDEX_SEGMENT_SIZE <= Shard.m_data_offset (Shard.open (Shard.m_data (fst st)))
     <= Shard.m_data_offset (fst st).
Proof.
  intros st.
  apply (open_keeps_contents example_constants_ok sample_calls (fst st) (snd st)).
  exact sample_shard_after.
Defined.

Lemma open_after_put_witness :
  let st := state_of (simulate Shard.create empty_contents sample_calls) in
  let s' := shard_of (option_map (fun r => snd (fst r))
                                 (Shard.put (fst st) 6 8 key_b value_1 3)) in
  Shard.open (Shard.m_data s') = s'.
Proof.
  intros st s'.
  apply (open_after_put example_constants_ok sample_calls (fst st) (snd st)
                        6 8 key_b value_1 3 s' true).
  - exact sample_shard_after.
  - cbn. unfold is_u32. lia.
  - apply put_outcome. vm_compute. reflexivity.
Defined.

End FsckOpenExamples.

(** * The regions of the shards of a disk *)

Lemma normal_bit h m k :
  Z.land h m = h -> Z.testbit m k = false -> Z.testbit h k = false.
Proof.
  intros Hn Hm. rewrite <- Hn, Z.land_spec, Hm. apply andb_false_r.
Qed.

(** Fixing one more bit [k] of a mask halves the region: the half whose
    hash has the bit clear and the half whose hash has it set. *)
Lemma split_bit m h k x :
  0 <= k -> Z.testbit m k = false -> Z.testbit h k = false ->
  (Z.land (Z.lor m (2 ^ k)) (Z.lxor h x) =? 0)
  = (Z.land m (Z.lxor h x) =? 0) && negb (Z.testbit x k)
  /\ (Z.land (Z.lor m (2 ^ k)) (Z.lxor (Z.lor h (2 ^ k)) x) =? 0)
     = (Z.land m (Z.lxor h x) =? 0) && Z.testbit x k.
Proof.
  intros Hk Hm Hh.
  assert (Hor : forall u v, (Z.lor u v =? 0) = (u =? 0) && (v =? 0)).
  { intros u v. destruct (Z.eqb_spec (Z.lor u v) 0) as [H0|Hn].
    - apply Z.lor_eq_0_iff in H0 as [-> ->]. reflexivity.
    - destruct (Z.eqb_spec u 0) as [->|]; [|reflexivity].
      destruct (Z.eqb_spec v 0) as [->|]; [|reflexivity].
      exfalso. apply Hn. reflexivity. }
  assert (Hsame : Z.land m (Z.lxor (Z.lor h (2 ^ k)) x) = Z.land m (Z.lxor h x)).
  { apply Z.bits_inj'. intros i Hi.
    rewrite !Z.land_spec, !Z.lxor_spec, Z.lor_spec, Z.pow2_bits_eqb by lia.
    destruct (Z.eqb_spec k i) as [<-|_].
    - rewrite Hm. reflexivity.
    - rewrite orb_false_r. reflexivity. }
  split.
  - rewrite Z.land_lor_distr_l, Hor. f_equal.
    rewrite (Z.land_comm (2 ^ k)), land_pow2_testbit by exact Hk.
    rewrite Z.lxor_spec, Hh. reflexivity.
  - rewrite Z.land_lor_distr_l, Hor, Hsame. f_equal.
    rewrite (Z.land_comm (2 ^ k)), land_pow2_testbit by exact Hk.
    rewrite Z.lxor_spec, Z.lor_spec, Hh, Z.pow2_bits_eqb, Z.eqb_refl by exact Hk.
    cbn [orb]. destruct (Z.testbit x k); reflexivity.
Qed.

Lemma normal_child h m k :
  0 <= k -> Z.land h m = h ->
  Z.land h (Z.lor m (2 ^ k)) = h
  /\ Z.land (Z.lor h (2 ^ k)) (Z.lor m (2 ^ k)) = Z.lor h (2 ^ k).
Proof.
  intros Hk Hn. split; apply Z.bits_inj'; intros i Hi.
  - rewrite Z.land_spec, Z.lor_spec. rewrite <- Hn at 2. rewrite <- Hn at 1.
    rewrite Z.land_spec. destruct (Z.testbit h i), (Z.testbit m i); reflexivity.
  - rewrite Z.land_spec, !Z.lor_spec. rewrite <- Hn.
    rewrite Z.land_spec. destruct (Z.testbit h i), (Z.testbit m i), (Z.testbit (2 ^ k) i);
      reflexivity.
Qed.

(** The children of a split are normal, and a coordinate the parent
    contains is contained in one child, a coordinate the parent does not
    contain in none. *)
Lemma children_normal c sb lb ub :
  normal c -> 0 <= sb -> 0 <= lb -> 0 <= ub -> Forall normal (children c sb lb ub).
Proof.
  intros [Hp Hs] Hsb Hlb Hub.
  destruct (normal_child _ _ sb Hsb Hs) as [Hs0 Hs1].
  destruct (normal_child _ _ lb Hlb Hp) as [Hl0 Hl1].
  destruct (normal_child _ _ ub Hub Hp) as [Hu0 Hu1].
  unfold children.
  apply Forall_cons; [split; assumption|]. apply Forall_cons; [split; assumption|].
  apply Forall_cons; [split; assumption|]. apply Forall_cons; [split; assumption|].
  apply Forall_nil.
Qed.

Lemma children_holders c sb lb ub p :
  normal c ->
  0 <= sb -> Z.testbit (secondary_mask c) sb = false ->
  0 <= lb -> Z.testbit (primary_mask c) lb = false ->
  0 <= ub -> Z.testbit (primary_mask c) ub = false ->
  length (holders p (children c sb lb ub)) = if contains c p then 1%nat else 0%nat.
Proof.
  intros [Hp Hs] Hsb Hsm Hlb Hlm Hub Hum.
  destruct (split_bit (secondary_mask c) (secondary_hash c) sb (secondary_hash p) Hsb Hsm
                      (normal_bit _ _ _ Hs Hsm)) as [Hs0 Hs1].
  destruct (split_bit (primary_mask c) (primary_hash c) lb (primary_hash p) Hlb Hlm
                      (normal_bit _ _ _ Hp Hlm)) as [Hl0 Hl1].
  destruct (split_bit (primary_mask c) (primary_hash c) ub (primary_hash p) Hub Hum
                      (normal_bit _ _ _ Hp Hum)) as [Hu0 Hu1].
  unfold holders, children, contains, primary_contains, secondary_contains.
  cbn [filter primary_mask primary_hash secondary_mask secondary_hash].
  rewrite Hs0, Hs1, Hl0, Hl1, Hu0, Hu1.
  destruct (Z.land (primary_mask c) (Z.lxor (primary_hash c) (primary_hash p)) =? 0),
           (Z.land (secondary_mask c) (Z.lxor (secondary_hash c) (secondary_hash p)) =? 0),
           (Z.testbit (secondary_hash p) sb), (Z.testbit (primary_hash p) lb),
           (Z.testbit (primary_hash p) ub); reflexivity.
Qed.

Lemma holders_app p v w : holders p (v ++ w) = holders p v ++ holders p w.
Proof. apply filter_app. Qed.

(** Taking the coordinate at [i] out of the vector and appending others. *)
Lemma holders_replaced p (v : list coordinate) i c new :
  nth_error v i = Some c ->
  (length (holders p (firstn i v ++ skipn (S i) v ++ new))
   + (if contains c p then 1 else 0)
   = length (holders p v) + length (holders p new))%nat.
Proof.
  intros Hnth.
  assert (Hsplit : v = firstn i v ++ c :: skipn (S i) v).
  { destruct (nth_error_split v i Hnth) as (l1 & l2 & Hv & Hlen).
    subst v i. rewrite firstn_app, firstn_all, Nat.sub_diag. cbn [firstn].
    rewrite app_nil_r.
    replace (S (length l1)) with (length l1 + 1)%nat by lia.
    rewrite skipn_app, skipn_all2 by lia.
    replace (length l1 + 1 - length l1)%nat with 1%nat by lia. reflexivity. }
  remember (firstn i v) as a eqn:Ha. remember (skipn (S i) v) as b eqn:Hb.
  clear Ha Hb. subst v. rewrite !holders_app, !length_app.
  change (holders p (c :: b)) with (if contains c p then c :: holders p b else holders p b).
  destruct (contains c p); cbn [length]; lia.
Qed.

Section Regions.
Context {K : shard_constants}.
Hypothesis HK : constants_ok K.
Variable CityHash64 : buffer -> Z.
Variable CityHash64_each : list buffer -> list Z.
Variable lower_interlace : list Z -> Z.

Local Abbreviation quiet := (quiet_step CityHash64 CityHash64_each lower_interlace).
Local Abbreviation steps := (step CityHash64 CityHash64_each lower_interlace).

(** [split_shard] on a shard whose masks are not full does not throw; when
    it fails the shard vector is as before, when it succeeds the shard has
    made room for four children with the coordinates of [children], at
    positions that were not fixed. *)
Lemma split_shard_children d i c sp :
  nth_error (Disk.m_shards d) i = Some (c, sp) ->
  balanced c -> short_log (Disk.target sp) ->
  primary_mask c <> UINT32_MAX -> secondary_mask c <> UINT32_MAX ->
  match Disk.split_shard d i with
  | Disk.Returns rc d' =>
      (rc = SPLITFAILED /\ Disk.m_shards d' = Disk.m_shards d)
      \/ (rc = SUCCESS
          /\ exists sb lb ub,
              (0 <= sb <= 31 /\ Z.testbit (secondary_mask c) sb = false)
              /\ (0 <= lb <= 31 /\ Z.testbit (primary_mask c) lb = false)
              /\ (0 <= ub <= 31 /\ Z.testbit (primary_mask c) ub = false)
              /\ coordinates d'
                 = firstn i (coordinates d) ++ skipn (S i) (coordinates d)
                   ++ children c sb lb ub)
  | Disk.Throws _ => False
  | Disk.Undefined => True
  end.
Proof.
  intros Hnth Hc Hshort Hpm Hsm.
  destruct (split_positions_clear HK c (Disk.target sp) Hc Hshort Hpm Hsm)
    as [[Hsr Hsc] Hprimary].
  unfold Disk.split_shard. rewrite Hnth. cbv zeta.
  remember (fold_left (Disk.count_secondary c) (Shard.make_snapshot (Disk.target sp))
                      (repeat 0 32, repeat 0 32)) as cnt eqn:Hcnt.
  destruct cnt as [zeros ones]. cbn [fst snd] in Hsr, Hsc.
  remember (which_to_split (secondary_mask c) zeros ones) as secondary_split eqn:Hss.
  rewrite (one_shifted secondary_split Hsr).
  specialize (Hprimary (2 ^ secondary_split)).
  remember (fold_left (Disk.count_primary c (2 ^ secondary_split))
                      (Shard.make_snapshot (Disk.target sp))
                      (repeat 0 32, repeat 0 32, repeat 0 32, repeat 0 32)) as cnt4 eqn:Hcnt4.
  destruct cnt4 as [[[zeros_lower ones_lower] zeros_upper] ones_upper].
  cbv zeta in Hprimary. destruct Hprimary as [[Hlr Hlc] [Hur Huc]].
  remember (which_to_split (primary_mask c) zeros_lower ones_lower) as lower eqn:Hlower.
  remember (which_to_split (primary_mask c) zeros_upper ones_upper) as upper eqn:Hupper.
  rewrite (one_shifted lower Hlr), (one_shifted upper Hur).
  clear Hcnt Hcnt4 Hss Hlower Hupper.
  next_child (create_and_copy_spec HK) H1 zero_zero d1;
    [|left; split; [reflexivity|exact H1]|exact I].
  destruct H1 as [E1 S1].
  next_child (create_and_copy_spec HK) H2 zero_one d2;
    [|left; split; [reflexivity|rewrite run_guards_shards; congruence]|exact I].
  destruct H2 as [E2 S2].
  next_child (create_and_copy_spec HK) H3 one_zero d3;
    [|left; split; [reflexivity|rewrite run_guards_shards; congruence]|exact I].
  destruct H3 as [E3 S3].
  next_child (create_and_copy_spec HK) H4 one_one d4;
    [|left; split; [reflexivity|rewrite run_guards_shards; congruence]|exact I].
  destruct H4 as [E4 S4].
  match goal with
  | |- context [Disk.drop_shard ?d0 ?c0] =>
      pose proof (drop_shard_shards d0 c0) as Hdrop;
      destruct (Disk.drop_shard d0 c0) as [rc d5]
  end.
  cbn [snd Disk.set_shards Disk.m_shards] in Hdrop.
  right. split; [reflexivity|].
  exists secondary_split, lower, upper.
  split; [split; assumption|]. split; [split; assumption|]. split; [split; assumption|].
  unfold coordinates. rewrite Hdrop.
  replace (Disk.m_shards d4) with (Disk.m_shards d) by congruence.
  unfold Disk.replace4. rewrite !map_app, firstn_map, skipn_map. reflexivity.
Qed.

Lemma partitioned_same d d' :
  coordinates d' = coordinates d -> partitioned d -> partitioned d'.
Proof. unfold partitioned. intros ->. exact (fun H => H). Qed.

Lemma split_partitioned d i c sp sb lb ub d' :
  nth_error (Disk.m_shards d) i = Some (c, sp) ->
  0 <= sb -> Z.testbit (secondary_mask c) sb = false ->
  0 <= lb -> Z.testbit (primary_mask c) lb = false ->
  0 <= ub -> Z.testbit (primary_mask c) ub = false ->
  coordinates d' = firstn i (coordinates d) ++ skipn (S i) (coordinates d)
                   ++ children c sb lb ub ->
  partitioned d -> partitioned d'.
Proof.
  intros Hnth Hsb Hsm Hlb Hlm Hub Hum Hco [Hnormal Hone].
  assert (Hnc : nth_error (coordinates d) i = Some c).
  { unfold coordinates. rewrite nth_error_map, Hnth. reflexivity. }
  assert (Hc : normal c).
  { rewrite Forall_forall in Hnormal. apply Hnormal. exact (nth_error_In _ _ Hnc). }
  split.
  - rewrite Hco. apply Forall_app. split; [apply Forall_firstn; exact Hnormal|].
    apply Forall_app. split; [apply Forall_skipn; exact Hnormal|].
    apply children_normal; assumption.
  - intros p. rewrite Hco.
    pose proof (holders_replaced p (coordinates d) i c (children c sb lb ub) Hnc) as Hrep.
    rewrite (children_holders c sb lb ub p Hc Hsb Hsm Hlb Hlm Hub Hum) in Hrep.
    rewrite (Hone p) in Hrep. destruct (contains c p); lia.
Qed.

Lemma step_partitioned d d' :
  disk_inv d -> partitioned d -> steps d d' -> partitioned d'.
Proof.
  intros Hinv Hpart Hstep. destruct Hstep as [d d' Hq|d i rc d' Hfull|d i d' Hfull].
  - apply (partitioned_same d d'); [|exact Hpart].
    exact (quiet_step_coordinates CityHash64 CityHash64_each lower_interlace d d' Hq).
  - unfold Disk.deal_with_full_shard in Hfull.
    destruct (nth_error (Disk.m_shards d) i) as [[c sp]|] eqn:Hnth; [|discriminate].
    destruct (disk_inv_nth d i c sp Hinv Hnth) as [Hc Hshort].
    destruct (Shard.stale_space _ >=? 30).
    { pose proof (clean_shard_coordinates d i) as Hclean. rewrite Hfull in Hclean.
      exact (partitioned_same d d' Hclean Hpart). }
    destruct (Z.eqb_spec (primary_mask c) UINT32_MAX) as [|Hpm];
      [cbn [orb] in Hfull; injection Hfull as _ <-; exact Hpart|].
    destruct (Z.eqb_spec (secondary_mask c) UINT32_MAX) as [|Hsm];
      [cbn [orb] in Hfull; injection Hfull as _ <-; exact Hpart|].
    cbn [orb] in Hfull.
    pose proof (split_shard_children d i c sp Hnth Hc Hshort Hpm Hsm) as Hsplit.
    rewrite Hfull in Hsplit.
    destruct Hsplit as [[_ Hsame]|(_ & sb & lb & ub & [Hsb Hsc] & [Hlb Hlc] & [Hub Huc] & Hco)].
    + apply (partitioned_same d d'); [|exact Hpart]. unfold coordinates. rewrite Hsame.
      reflexivity.
    + apply (split_partitioned d i c sp sb lb ub d' Hnth); try assumption; lia.
  - unfold Disk.deal_with_full_shard in Hfull.
    destruct (nth_error (Disk.m_shards d) i) as [[c sp]|] eqn:Hnth; [|discriminate].
    destruct (disk_inv_nth d i c sp Hinv Hnth) as [Hc Hshort].
    destruct (Shard.stale_space _ >=? 30).
    { pose proof (clean_shard_coordinates d i) as Hclean. rewrite Hfull in Hclean.
      exact (partitioned_same d d' Hclean Hpart). }
    destruct (Z.eqb_spec (primary_mask c) UINT32_MAX) as [|Hpm];
      [cbn [orb] in Hfull; discriminate|].
    destruct (Z.eqb_spec (secondary_mask c) UINT32_MAX) as [|Hsm];
      [cbn [orb] in Hfull; discriminate|].
    cbn [orb] in Hfull.
    pose proof (split_shard_children d i c sp Hnth Hc Hshort Hpm Hsm) as Hsplit.
    rewrite Hfull in Hsplit. contradiction.
Qed.

Lemma new_partitioned dir files arity d0 :
  Disk.new dir files arity = Disk.Returns tt d0 -> partitioned d0.
Proof.
  intros Hnew. destruct (new_returns dir files arity) as (s & d1 & Hnew' & Hshards & _).
  assert (d1 = d0) as -> by congruence.
  unfold partitioned, coordinates. rewrite Hshards. cbn [map fst]. split.
  - apply Forall_cons; [split; reflexivity|apply Forall_nil].
  - intros p. unfold holders. cbn [filter].
    rewrite (proj1 (start_contains p)). reflexivity.
Qed.

(** The calls of a client lead from one disk the program can be in to
    another. *)
Lemma calls_reachable h : forall d d',
  reachable CityHash64 CityHash64_each lower_interlace d ->
  after_calls CityHash64 CityHash64_each lower_interlace d h = Some d' ->
  reachable CityHash64 CityHash64_each lower_interlace d'.
Proof.
  assert (Hstep : forall d d', reachable CityHash64 CityHash64_each lower_interlace d ->
                               quiet d d' ->
                               reachable CityHash64 CityHash64_each lower_interlace d').
  { intros d d' (dir & files & arity & d0 & Hnew & Hreached) Hq.
    exists dir, files, arity, d0. split; [exact Hnew|].
    exact (reached_step _ _ d d' Hreached (step_quiet _ _ _ d d' Hq)). }
  induction h as [|c h IH]; intros d d' Hd Hafter; cbn [after_calls] in Hafter.
  - assert (d = d') as <- by congruence. exact Hd.
  - destruct c as [k v ver|k| |]; cbn [call_on] in Hafter.
    + exact (IH _ d' (Hstep d _ Hd (step_put _ _ _ d k v ver)) Hafter).
    + exact (IH _ d' (Hstep d _ Hd (step_del _ _ _ d k)) Hafter).
    + pose proof (flush_reachable CityHash64 CityHash64_each lower_interlace d Hd) as Hflush.
      destruct (Disk.flush d) as [rc d1|d1|]; [| |discriminate];
        exact (IH d1 d' Hflush Hafter).
    + exact (IH _ d' (Hstep d _ Hd (step_spare _ _ _ d)) Hafter).
Qed.

(** X15: on every disk the program can be in, whatever shards have been
    cleaned and split, the regions of the shards divide the hash space:
    every coordinate is contained in the coordinate of exactly one shard of
    the vector, and that shard primary-contains it. So the loop of [flush]
    finds one shard for the [put] of a WAL entry, and the loops of [get]
    and of the [del] of [flush] find a shard for every key. A split that
    succeeds on such a disk, of a shard whose masks are not full, takes the
    shard out of the vector and appends four children, whose coordinates fix
    one more bit of each mask; a coordinate the parent contains is contained
    in exactly one child, a coordinate it does not contain in none. *)
Theorem shards_partition (d : Disk.disk) (p : coordinate) :
  reachable CityHash64 CityHash64_each lower_interlace d ->
  length (holders p (coordinates d)) = 1%nat
  /\ (exists i ci si,
        nth_error (Disk.m_shards d) i = Some (ci, si)
        /\ contains ci p = true /\ primary_contains ci p = true)
  /\ forall i c sp d',
      nth_error (Disk.m_shards d) i = Some (c, sp) ->
      primary_mask c <> UINT32_MAX -> secondary_mask c <> UINT32_MAX ->
      Disk.split_shard d i = Disk.Returns SUCCESS d' ->
      exists sb lb ub,
        (0 <= sb <= 31 /\ Z.testbit (secondary_mask c) sb = false)
        /\ (0 <= lb <= 31 /\ Z.testbit (primary_mask c) lb = false)
        /\ (0 <= ub <= 31 /\ Z.testbit (primary_mask c) ub = false)
        /\ coordinates d'
           = firstn i (coordinates d) ++ skipn (S i) (coordinates d) ++ children c sb lb ub
        /\ length (holders p (children c sb lb ub)) = if contains c p then 1%nat else 0%nat.
Proof.
  intros Hreach.
  assert (Hpart : partitioned d /\ disk_inv d).
  { destruct Hreach as (dir & files & arity & d0 & Hnew & Hreached).
    induction Hreached as [|d d' Hreached IH Hstep].
    - split; [exact (new_partitioned dir files arity d0 Hnew)|].
      exact (new_inv HK dir files arity d0 Hnew).
    - destruct IH as [Hp Hi]. split.
      + exact (step_partitioned d d' Hi Hp Hstep).
      + exact (step_inv HK CityHash64 CityHash64_each lower_interlace d d' Hi Hstep). }
  destruct Hpart as [[Hnormal Hone] Hinv]. split; [exact (Hone p)|]. split.
  - specialize (Hone p). unfold holders in Hone.
    destruct (filter (fun c => contains c p) (coordinates d)) as [|c rest] eqn:Hf;
      [discriminate|].
    assert (Hin : In c (filter (fun c => contains c p) (coordinates d)))
      by (rewrite Hf; left; reflexivity).
    apply filter_In in Hin as [Hin Hcp]. unfold coordinates in Hin.
    apply in_map_iff in Hin as ([ci si] & Hfst & Hin). cbn [fst] in Hfst. subst ci.
    destruct (In_nth_error _ _ Hin) as [i Hi].
    exists i, c, si. split; [exact Hi|]. split; [exact Hcp|].
    unfold contains in Hcp. apply andb_true_iff in Hcp as [Hpc _]. exact Hpc.
  - intros i c sp d' Hnth Hpm Hsm Hsplit.
    destruct (disk_inv_nth d i c sp Hinv Hnth) as [Hbal Hshort].
    pose proof (split_shard_children d i c sp Hnth Hbal Hshort Hpm Hsm) as Hchildren.
    rewrite Hsplit in Hchildren.
    destruct Hchildren as [[Hrc _]|(_ & sb & lb & ub & Hsb & Hlb & Hub & Hcs)];
      [discriminate|].
    exists sb, lb, ub. split; [exact Hsb|]. split; [exact Hlb|]. split; [exact Hub|].
    split; [exact Hcs|].
    assert (Hc : normal c).
    { rewrite Forall_forall in Hnormal. apply Hnormal. unfold coordinates.
      apply in_map_iff. exists (c, sp). split; [reflexivity|].
      eapply nth_error_In. exact Hnth. }
    apply children_holders; try assumption; try lia; tauto.
Qed.

End Regions.

Section RegionsExample.
#[local] Existing Instance small_constants.

Lemma small_constants_ok : constants_ok small_constants.
Proof. constructor; cbn; lia. Qed.

(** The disks the examples reach by calls are disks the program can be
    in. *)
Lemma disk_after_reachable (h : list disk_call) :
  reachable sample_hash sample_hash_each sample_interlace (disk_after h).
Proof.
  assert (Hfresh : reachable sample_hash sample_hash_each sample_interlace fresh_disk).
  { exists Disk.empty_directory, 0%nat, 2, fresh_disk.
    split; [reflexivity|apply reached_start]. }
  unfold disk_after.
  destruct (after_calls sample_hash sample_hash_each sample_interlace fresh_disk h)
    as [d|] eqn:Hafter; [|exact Hfresh].
  exact (calls_reachable sample_hash sample_hash_each sample_interlace
                         h fresh_disk d Hfresh Hafter).
Qed.

Lemma first_shard (v : Disk.shard_vector) (c : coordinate) :
  map fst v = [c] ->
  nth_error v 0 = Some (c, snd (hd (c, Disk.mk_shard_ptr 0 Shard.create) v)).
Proof.
  destruct v as [|[c0 s0] rest]; [discriminate|]. cbn [map fst]. intros Hc.
  assert (c0 = c) as -> by congruence. reflexivity.
Qed.

Lemma returns_disk_of {A : Type} (o : Disk.outcome A) (a : A) :
  returned o = Some a -> o = Disk.Returns a (disk_of o).
Proof. destruct o as [a0 d|d|]; cbn; [|discriminate|discriminate]. congruence. Qed.

(** Nine puts and two calls of [flush] leave a disk of four shards: the
    first [flush] has found the search log of the shard full at the ninth
    put and has split the shard. The coordinate of the key [c] lies in the
    second of them only. The split itself, on the disk the first eight puts
    leave: the children fix bit 1 of the secondary mask and bit 2 of the
    primary mask. *)
Lemma shards_partition_witness :
  let zero := mk_coordinate 0 0 0 0 in
  let p := Disk.get_coordinate_value sample_hash sample_hash_each sample_interlace
                                     key_c [key_c] in
  let d := disk_after nine_puts_flushed in
  (length (Disk.m_shards d) = 4%nat
   /\ map (fun c => contains c p) (coordinates d) = [false; true; false; false]
   /\ length (holders p (coordinates d)) = 1%nat
   /\ exists i ci si,
       nth_error (Disk.m_shards d) i = Some (ci, si)
       /\ contains ci p = true /\ primary_contains ci p = true)
  /\ (Disk.split_shard full_small_disk 0 = Disk.Returns SUCCESS split_small_disk
      /\ coordinates split_small_disk = children zero 1 2 2
      /\ exists sb lb ub,
          (0 <= sb <= 31 /\ Z.testbit (secondary_mask zero) sb = false)
          /\ (0 <= lb <= 31 /\ Z.testbit (primary_mask zero) lb = false)
          /\ (0 <= ub <= 31 /\ Z.testbit (primary_mask zero) ub = false)
          /\ coordinates split_small_disk
             = firstn 0 (coordinates full_small_disk)
               ++ skipn 1 (coordinates full_small_disk) ++ children zero sb lb ub
          /\ length (holders p (children zero sb lb ub))
             = if contains zero p then 1%nat else 0%nat).
Proof.
  cbv zeta. split.
  - split; [vm_compute; reflexivity|]. split; [vm_compute; reflexivity|].
    destruct (shards_partition
                small_constants_ok sample_hash sample_hash_each sample_interlace
                (disk_after nine_puts_flushed)
                (Disk.get_coordinate_value sample_hash sample_hash_each sample_interlace
                                           key_c [key_c])
                (disk_after_reachable nine_puts_flushed))
      as (Hone & Hsome & _).
    split; [exact Hone|exact Hsome].
  - assert (Hrc : returned (Disk.split_shard full_small_disk 0) = Some SUCCESS)
      by (vm_compute; reflexivity).
    assert (Hfst : map fst (Disk.m_shards full_small_disk) = [mk_coordinate 0 0 0 0])
      by (vm_compute; reflexivity).
    pose proof (returns_disk_of (Disk.split_shard full_small_disk 0) SUCCESS Hrc) as Hsplit.
    split; [exact Hsplit|]. split; [vm_compute; reflexivity|].
    destruct (shards_partition
                small_constants_ok sample_hash sample_hash_each sample_interlace
                full_small_disk
                (Disk.get_coordinate_value sample_hash sample_hash_each sample_interlace
                                           key_c [key_c])
                (disk_after_reachable eight_puts_flushed))
      as (_ & _ & Hchildren).
    exact (Hchildren 0%nat (mk_coordinate 0 0 0 0)
                     (snd (hd (mk_coordinate 0 0 0 0, Disk.mk_shard_ptr 0 Shard.create)
                              (Disk.m_shards full_small_disk)))
                     split_small_disk
                     (first_shard (Disk.m_shards full_small_disk) (mk_coordinate 0 0 0 0) Hfst)
                     ltac:(cbn; discriminate) ltac:(cbn; discriminate) Hsplit).
Defined.

End RegionsExample.

(** * Shards: [used_space] *)

Section UsedSpace.
Context {K : shard_constants}.
Hypothesis HK : constants_ok K.

Local Abbreviation mdo := Shard.m_data_offset.
Local Abbreviation mso := Shard.m_search_offset.

Lemma used_space_eq s :
  shard_inv s ->
  Shard.used_space s
  = Z.max (100 * (mdo s - INDEX_SEGMENT_SIZE) / DATA_SEGMENT_SIZE)
          (100 * mso s / SEARCH_INDEX_ENTRIES).
Proof.
  destruct (layout HK) as (HH & HS & HT & HI & HF & HF31 & HF8 & HINV).
  intros Hinv. pose proof (inv_data_offset s Hinv) as Hmdo.
  unfold Shard.used_space. rewrite u32_small by (unfold is_u32; lia). reflexivity.
Qed.

(** The offsets of a shard do not go back under [put] and [del]. *)
Lemma call_offsets_grow s op rc s' :
  shard_inv s -> proper op -> call s op = Some (rc, s') ->
  mdo s <= mdo s' /\ mso s <= mso s'.
Proof.
  destruct (layout HK) as (HH & HS & HT & HI & HF & HF31 & HF8 & HINV).
  intros Hinv Hop Hcall. pose proof (inv_data_offset s Hinv) as Hmdo.
  destruct op as [ph sh key value version|ph key]; cbn [call proper] in *.
  - destruct Hop as (Hph & _).
    destruct (Shard.put s ph sh key value version) as [[[rc0 s0] f]|] eqn:Hput;
      [|discriminate].
    assert (rc0 = rc /\ s0 = s') as [-> ->] by (split; congruence).
    destruct (put_result HK _ _ _ _ _ _ _ _ _ Hinv Hph Hput)
      as [(_ & -> & _)|(_ & e & w & _ & Heff)]; [lia|].
    destruct Heff as (Hfit & _ & Hmdo' & Hmso' & _).
    assert (Hds : 0 <= Shard.data_size key value).
    { rewrite data_size_eq. pose proof (size_nonneg key).
      pose proof (attrs_size_nonneg value). lia. }
    destruct (align8_bounds (mdo s + Shard.data_size key value) ltac:(lia) ltac:(lia))
      as [Hal _].
    lia.
  - destruct (del_result HK _ _ _ _ _ Hinv Hop Hcall)
      as [(_ & ->)|(_ & e & w & _ & Heff)]; [lia|].
    destruct Heff as (_ & _ & _ & Hmdo' & Hmso' & _). lia.
Qed.

(** X16: [used_space] is a percentage that only grows: on a shard that
    [put] and [del] calls have left it lies between 0 and 100, no further
    call makes it smaller, and it is 100 when [put] answers [SEARCHFULL]. *)
Theorem used_space_grows (ops : list operation) (s : Shard.shard) (M : contents)
        (op : operation) (rc : returncode) (s' : Shard.shard) :
  shard_after ops s M -> proper op -> call s op = Some (rc, s') ->
  0 <= Shard.used_space s <= Shard.used_space s'
  /\ Shard.used_space s' <= 100
  /\ (rc = SEARCHFULL -> Shard.used_space s = 100).
Proof.
  destruct (layout HK) as (HH & HS & HT & HI & HF & HF31 & HF8 & HINV).
  intros Hafter Hop Hcall.
  pose proof (shard_after_refines HK ops s M Hafter) as Href.
  pose proof (ref_inv s M Href) as Hinv.
  pose proof (ref_inv s' _ (refines_call HK s M op rc s' Href Hop Hcall)) as Hinv'.
  destruct (call_offsets_grow s op rc s' Hinv Hop Hcall) as [Hd Ho].
  pose proof (inv_data_offset s Hinv) as Hmdo. pose proof (inv_search_offset s Hinv) as Hmso.
  pose proof (inv_data_offset s' Hinv') as Hmdo'.
  pose proof (inv_search_offset s' Hinv') as Hmso'.
  pose proof (file_size_eq K HK) as Hfile. pose proof (data_segment_pos K HK) as Hpos.
  rewrite (used_space_eq s Hinv), (used_space_eq s' Hinv').
  assert (Hdiv : forall a b q, 0 < q -> 0 <= a <= b -> b <= q ->
                               0 <= 100 * a / q <= 100 * b / q /\ 100 * b / q <= 100).
  { intros a b q Hq Hab Hb. split; [split|].
    - apply Z.div_pos; lia.
    - apply Z.div_le_mono; lia.
    - apply Z.div_le_upper_bound; lia. }
  assert (Hd1 : 0 <= mdo s - INDEX_SEGMENT_SIZE <= mdo s' - INDEX_SEGMENT_SIZE) by lia.
  assert (Hd2 : mdo s' - INDEX_SEGMENT_SIZE <= DATA_SEGMENT_SIZE) by lia.
  assert (Ho1 : 0 <= mso s <= mso s') by lia.
  assert (Ho2 : mso s' <= SEARCH_INDEX_ENTRIES) by lia.
  destruct (Hdiv _ _ DATA_SEGMENT_SIZE Hpos Hd1 Hd2) as [Hdata Hdata'].
  destruct (Hdiv _ _ SEARCH_INDEX_ENTRIES HS Ho1 Ho2) as [Hnum Hnum'].
  split; [lia|]. split; [lia|].
  intros ->. destruct op as [ph sh key value version|ph key]; cbn [call] in Hcall.
  - unfold Shard.put in Hcall.
    destruct (Shard.data_size key value + mdo s >? FILE_SIZE); [discriminate|].
    destruct (Z.eqb_spec (mso s) SEARCH_INDEX_ENTRIES) as [Hfull|_].
    + rewrite Hfull. rewrite Z.div_mul by lia. lia.
    + destruct (Shard.hash_lookup (Shard.m_data s) ph key) as [[e w]|]; [|discriminate].
      cbv zeta in Hcall. destruct (Shard.pack_value _ _ value). discriminate.
  - cbn [proper] in Hop.
    destruct (del_result HK _ _ _ _ _ Hinv Hop Hcall) as [(_ & Hs)|(Hrc & _)];
      [|discriminate].
    unfold Shard.del in Hcall.
    destruct (Shard.hash_lookup (Shard.m_data s) ph key) as [[e w]|]; [|discriminate].
    destruct ((hi32 w =? 0) || (hi32 w >=? HASH_OFFSET_INVALID)); [discriminate|].
    destruct (mdo s + 8 >? FILE_SIZE); discriminate.
Qed.

End UsedSpace.

Section UsedSpaceExample.
#[local] Existing Instance example_constants.

Lemma used_space_grows_witness :
  let st := state_of (simulate Shard.create empty_contents sample_calls) in
  let op := Put 6 8 key_b value_1 3 in
  let s' := shard_of (option_map snd (call (fst st) op)) in
  0 <= Shard.used_space (fst st) <= Shard.used_space s'
  /\ Shard.used_space s' <= 100
  /\ (SUCCESS = SEARCHFULL -> Shard.used_space (fst st) = 100).
Proof.
  intros st op s'.
  apply (used_space_grows example_constants_ok sample_calls (fst st) (snd st) op SUCCESS s').
  - exact sample_shard_after.
  - cbn. unfold is_u32. lia.
  - apply del_outcome. vm_compute. reflexivity.
Defined.

End UsedSpaceExample.

(** * Shards: a record put into an empty slot *)

Section Insert.
Context {K : shard_constants}.
Hypothesis HK : constants_ok K.

Local Abbreviation mdo := Shard.m_data_offset.
Local Abbreviation mso := Shard.m_search_offset.
Local Abbreviation mem := Shard.m_data.

Variable s : Shard.shard.
Variable M : contents.
Variables (ph : Z) (key : buffer) (value : list buffer) (version : Z).
Variables (m' : memory) (d' e : Z).

Hypothesis Href : refines s M.
Hypothesis Hph : is_u32 ph.
Hypothesis He : 0 <= e < HASH_TABLE_ENTRIES.
Hypothesis Hempty : hi32 (slot_word s e) = 0.
Hypothesis Hchain :
  forall o, 0 <= o < (e - ph) mod HASH_TABLE_ENTRIES ->
            assigned s ((ph + o) mod HASH_TABLE_ENTRIES).
Hypothesis Hfresh :
  forall b, 0 <= b < HASH_TABLE_ENTRIES -> assigned s b -> slot_pair s b <> (ph, key).
Hypothesis Hroom : mso s < SEARCH_INDEX_ENTRIES.
Hypothesis Hfit : mdo s + Shard.data_size key value <= d' <= FILE_SIZE.
Hypothesis Hdata : forall x, INDEX_SEGMENT_SIZE <= x < mdo s -> m' x = mem s x.
Hypothesis Hother :
  forall b, 0 <= b < HASH_TABLE_ENTRIES -> b <> e ->
            Shard.m_hash_table m' b = Shard.m_hash_table (mem s) b.
Hypothesis Hword : Shard.m_hash_table m' e = mdo s * 2 ^ 32 + ph.
Hypothesis Hrec : record_at m' (mdo s) key value version.
Hypothesis Hlog :
  forall j, 0 <= j < SEARCH_INDEX_ENTRIES ->
    log_offset m' j = if j =? mso s then mdo s else log_offset (mem s) j.

(** The shard with the record in slot [e]. *)
Lemma insert_slots :
  let s' := Shard.mk_shard m' d' (mso s + 1) in
  (assigned s' e /\ slot_hash s' e = ph /\ slot_offset s' e = mdo s
   /\ slot_pair s' e = (ph, key))
  /\ forall b, 0 <= b < HASH_TABLE_ENTRIES -> b <> e ->
       slot_word s' b = slot_word s b
       /\ (assigned s' b <-> assigned s b)
       /\ slot_hash s' b = slot_hash s b
       /\ slot_offset s' b = slot_offset s b
       /\ (assigned s b ->
           Shard.data_key_size m' (slot_offset s b)
           = Shard.data_key_size (mem s) (slot_offset s b)
           /\ slot_pair s' b = slot_pair s b).
Proof using All.
  destruct (layout HK) as (HH & HS & HT & HI & HF & HF31 & HF8 & HINV).
  intros s'. pose proof (ref_inv s M Href) as Hinv.
  pose proof (inv_data_offset s Hinv) as Hmdo. unfold is_u32 in Hph.
  assert (Hw' : slot_word s' e = mdo s * 2 ^ 32 + ph) by exact Hword.
  destruct (slot_of_word HK s' e (mdo s) ph ltac:(lia) ltac:(lia) (or_introl Hw'))
    as (Ha & Hh & Ho).
  split.
  - split; [exact Ha|]. split; [exact Hh|]. split; [exact Ho|].
    apply (holds_pair HK). split; [exact Hh|]. rewrite Ho. apply key_at_true.
    destruct Hrec as (_ & Hksz & Hkey & _). split; assumption.
  - intros b Hb Hne.
    assert (Hwb : slot_word s' b = slot_word s b) by (apply Hother; assumption).
    split; [exact Hwb|].
    unfold assigned, slot_hash, slot_offset. rewrite Hwb.
    split; [reflexivity|]. split; [reflexivity|]. split; [reflexivity|].
    intros Hab. fold (slot_offset s b).
    destruct (inv_record s Hinv b Hb Hab) as [Hlo Hhi].
    pose proof (slot_offset_range HK s b) as Hr.
    destruct (record_kept (mem s) m' (slot_offset s b) (mdo s) Hr Hhi) as [Hsz Hk].
    { intros x Hx. apply Hdata. lia. }
    split; [exact Hsz|].
    unfold slot_pair, slot_hash, slot_key, slot_offset. rewrite Hwb.
    fold (slot_offset s b). subst s'. cbn [Shard.m_data]. rewrite Hk. reflexivity.
Qed.

Lemma insert_inv : shard_inv (Shard.mk_shard m' d' (mso s + 1)).
Proof using All.
  destruct (layout HK) as (HH & HS & HT & HI & HF & HF31 & HF8 & HINV).
  pose proof (ref_inv s M Href) as Hinv.
  destruct insert_slots as ((Hae & Hhe & Hoe & Hpe) & Hothers).
  set (s' := Shard.mk_shard m' d' (mso s + 1)) in *.
  pose proof (inv_data_offset s Hinv) as Hmdo.
  pose proof (inv_search_offset s Hinv) as Hmso.
  pose proof (size_nonneg key) as Hsk. pose proof (attrs_size_nonneg value) as Hav.
  pose proof (data_size_eq key value) as Hds.
  assert (Hnot : ~ assigned s e) by (intros Hae0; apply Hae0; exact Hempty).
  assert (Hmono : forall b, 0 <= b < HASH_TABLE_ENTRIES -> assigned s b -> assigned s' b).
  { intros b Hb Hab. destruct (Z.eq_dec b e) as [->|Hne]; [exact Hae|].
    apply (Hothers b Hb Hne). exact Hab. }
  constructor; unfold s'; cbn [Shard.m_data Shard.m_data_offset Shard.m_search_offset];
    fold s'.
  - lia.
  - lia.
  - intros b Hb Hab. destruct (Z.eq_dec b e) as [->|Hne].
    + rewrite Hoe. destruct Hrec as (_ & Hksz & _). rewrite Hksz. lia.
    + destruct (Hothers b Hb Hne) as (_ & Hiff & _ & Ho & Hkept).
      apply Hiff in Hab. destruct (Hkept Hab) as [Hsz _].
      rewrite Ho, Hsz. destruct (inv_record s Hinv b Hb Hab). lia.
  - intros b Hb Hab o Ho.
    assert (Hbound : 0 <= (slot_hash s' b + o) mod HASH_TABLE_ENTRIES < HASH_TABLE_ENTRIES)
      by (apply Z.mod_pos_bound; lia).
    destruct (Z.eq_dec b e) as [->|Hne].
    + rewrite Hhe in *. apply Hmono; [exact Hbound|]. apply Hchain. exact Ho.
    + destruct (Hothers b Hb Hne) as (_ & Hiff & Hh & _).
      apply Hiff in Hab. rewrite Hh in *.
      apply Hmono; [exact Hbound|].
      apply (inv_chain s Hinv b Hb Hab). exact Ho.
  - intros b b' Hb Hb' Hab Hab' Hpair.
    destruct (Z.eq_dec b e) as [->|Hne]; destruct (Z.eq_dec b' e) as [->|Hne'];
      try reflexivity.
    + exfalso. destruct (Hothers b' Hb' Hne') as (_ & Hiff & _ & _ & Hkept).
      apply Hiff in Hab'. destruct (Hkept Hab') as [_ Hp]. rewrite Hp, Hpe in Hpair.
      apply (Hfresh b' Hb' Hab'). symmetry. exact Hpair.
    + exfalso. destruct (Hothers b Hb Hne) as (_ & Hiff & _ & _ & Hkept).
      apply Hiff in Hab. destruct (Hkept Hab) as [_ Hp]. rewrite Hp, Hpe in Hpair.
      apply (Hfresh b Hb Hab). exact Hpair.
    + destruct (Hothers b Hb Hne) as (_ & Hiff & _ & _ & Hkept).
      destruct (Hothers b' Hb' Hne') as (_ & Hiff' & _ & _ & Hkept').
      apply Hiff in Hab. apply Hiff' in Hab'.
      destruct (Hkept Hab) as [_ Hp]. destruct (Hkept' Hab') as [_ Hp'].
      rewrite Hp, Hp' in Hpair.
      apply (inv_unique s Hinv b b' Hb Hb' Hab Hab' Hpair).
  - intros j Hj. rewrite Hlog by lia.
    destruct (Z.eqb_spec j (mso s)); [lia|].
    apply (inv_log_tail s Hinv). lia.
  - intros b Hb Hab. split; [lia|].
    replace (mso s + 1 - 1) with (mso s) by lia.
    rewrite Hlog by lia. rewrite Z.eqb_refl.
    destruct (Z.eq_dec b e) as [->|Hne].
    + rewrite Hoe. lia.
    + destruct (Hothers b Hb Hne) as (_ & Hiff & _ & Ho & _).
      apply Hiff in Hab. rewrite Ho.
      destruct (inv_record s Hinv b Hb Hab) as [_ Hhi].
      pose proof (data_key_size_range (mem s) (slot_offset s b)). lia.
Qed.

Lemma insert_refines :
  refines (Shard.mk_shard m' d' (mso s + 1)) (update M ph key (Some (value, version))).
Proof using All.
  destruct (layout HK) as (HH & HS & HT & HI & HF & HF31 & HF8 & HINV).
  pose proof (ref_inv s M Href) as Hinv.
  destruct insert_slots as ((Hae & Hhe & Hoe & Hpe) & Hothers).
  pose proof insert_inv as Hinv'.
  set (s' := Shard.mk_shard m' d' (mso s + 1)) in *.
  pose proof (inv_data_offset s Hinv) as Hmdo. unfold is_u32 in Hph.
  constructor.
  - exact Hinv'.
  - intros b Hb Hab'. destruct (Z.eq_dec b e) as [->|Hne].
    + destruct (slot_key_of_pair s' e ph key Hpe) as [_ Hk].
      exists value, version. rewrite Hk, Hoe, Hhe.
      split; [exact Hrec|]. split; [exact (proj1 Hfit)|].
      rewrite update_same.
      assert (Hw' : slot_word s' e = mdo s * 2 ^ 32 + ph) by exact Hword.
      rewrite Hw', hi32_split by lia.
      rewrite HINV. destruct (Z.ltb_spec (mdo s) (2 ^ 31)); [reflexivity|lia].
    + destruct (Hothers b Hb Hne) as (Hwb & Hiff & Hh & Ho & Hkept).
      assert (Hab : assigned s b) by (apply Hiff; exact Hab').
      destruct (Hkept Hab) as [_ Hpair].
      assert (Hk : slot_key s' b = slot_key s b)
        by (unfold slot_pair in Hpair; apply pair_equal_spec in Hpair; tauto).
      destruct (ref_record s M Href b Hb Hab) as (value0 & version0 & Hat & Hext & HM).
      pose proof (inv_record s Hinv b Hb Hab) as [Hlow _].
      exists value0, version0. rewrite Hk, Ho, Hh, Hwb.
      split; [|split].
      * apply (record_at_ext (mem s)); [|exact Hat].
        intros x Hx. apply Hdata. lia.
      * unfold s'. cbn [Shard.m_data_offset].
        pose proof (data_size_eq key value). pose proof (size_nonneg key).
        pose proof (attrs_size_nonneg value). lia.
      * rewrite update_other; [exact HM|].
        intros Heq. apply (Hfresh b Hb Hab). unfold slot_pair. exact Heq.
  - intros ph' key' Hnone.
    assert (Hne : (ph', key') <> (ph, key)).
    { intros Heq. apply (Hnone e He Hae). rewrite Hpe. symmetry. exact Heq. }
    rewrite update_other by exact Hne.
    apply (ref_absent s M Href). intros b Hb Hab Hpair.
    assert (Hbe : b <> e) by (intros ->; apply Hab; exact Hempty).
    destruct (Hothers b Hb Hbe) as (_ & Hiff & _ & _ & Hkept).
    destruct (Hkept Hab) as [_ Hp].
    apply (Hnone b Hb (proj2 Hiff Hab)). congruence.
Qed.

(** The slots are counted by the log as before. *)
Lemma insert_slots_bounded :
  slots_bounded s -> slots_bounded (Shard.mk_shard m' d' (mso s + 1)).
Proof using All.
  destruct insert_slots as (_ & Hothers).
  intros (slots & Hnd & Hin & Hlen).
  assert (Hnot : ~ In e slots \/ In e slots) by (destruct (in_dec Z.eq_dec e slots); tauto).
  destruct Hnot as [Hnot|Hine].
  - exists (e :: slots). split; [constructor; assumption|]. split.
    + intros b Hb Hab'. destruct (Z.eq_dec b e) as [->|Hne]; [left; reflexivity|].
      right. apply Hin; [exact Hb|]. apply (Hothers b Hb Hne). exact Hab'.
    + cbn [length Shard.m_search_offset]. lia.
  - exists slots. split; [exact Hnd|]. split.
    + intros b Hb Hab'. destruct (Z.eq_dec b e) as [->|Hne]; [exact Hine|].
      apply Hin; [exact Hb|]. apply (Hothers b Hb Hne). exact Hab'.
    + cbn [Shard.m_search_offset]. lia.
Qed.

End Insert.

(** The search log of the shard with the record in slot [e]. *)
Section InsertLog.
Context {K : shard_constants}.
Hypothesis HK : constants_ok K.

Local Abbreviation mdo := Shard.m_data_offset.
Local Abbreviation mso := Shard.m_search_offset.
Local Abbreviation mem := Shard.m_data.

Variable s : Shard.shard.
Variable M : contents.
Variables (ph sh : Z) (key : buffer) (value : list buffer) (version : Z).
Variables (m' : memory) (d' e : Z).

Hypothesis Href : refines s M.
Hypothesis Hlogi : log_inv s.
Hypothesis Hph : is_u32 ph.
Hypothesis Hsh : is_u32 sh.
Hypothesis He : 0 <= e < HASH_TABLE_ENTRIES.
Hypothesis Hempty : hi32 (slot_word s e) = 0.
Hypothesis Hchain :
  forall o, 0 <= o < (e - ph) mod HASH_TABLE_ENTRIES ->
            assigned s ((ph + o) mod HASH_TABLE_ENTRIES).
Hypothesis Hfresh :
  forall b, 0 <= b < HASH_TABLE_ENTRIES -> assigned s b -> slot_pair s b <> (ph, key).
Hypothesis Hroom : mso s < SEARCH_INDEX_ENTRIES.
Hypothesis Hfit : mdo s + Shard.data_size key value <= d' <= FILE_SIZE.
Hypothesis Hd8 : d' mod 8 = 0.
Hypothesis Hdata : forall x, INDEX_SEGMENT_SIZE <= x < mdo s -> m' x = mem s x.
Hypothesis Hother :
  forall b, 0 <= b < HASH_TABLE_ENTRIES -> b <> e ->
            Shard.m_hash_table m' b = Shard.m_hash_table (mem s) b.
Hypothesis Hword : Shard.m_hash_table m' e = mdo s * 2 ^ 32 + ph.
Hypothesis Hrec : record_at m' (mdo s) key value version.
Hypothesis Hhashes :
  forall j, 0 <= j < SEARCH_INDEX_ENTRIES ->
    log_hashes m' j = if j =? mso s then sh * 2 ^ 32 + ph else log_hashes (mem s) j.
Hypothesis Hwords :
  forall j, 0 <= j < SEARCH_INDEX_ENTRIES ->
    log_word m' j = if j =? mso s then mdo s else log_word (mem s) j.

Lemma insert_log_offset :
  forall j, 0 <= j < SEARCH_INDEX_ENTRIES ->
    log_offset m' j = if j =? mso s then mdo s else log_offset (mem s) j.
Proof using All.
  destruct (layout HK) as (HH & HS & HT & HI & HF & HF31 & HF8 & HINV).
  pose proof (inv_data_offset s (ref_inv s M Href)) as Hmdo.
  intros j Hj. rewrite !log_offset_of_word, Hwords by exact Hj.
  destruct (Z.eqb_spec j (mso s)); [|reflexivity].
  unfold lo32. apply u32_small. unfold is_u32. lia.
Qed.

(** What the entries of the log stand for after the insertion. *)
Lemma insert_entries :
  log_offset m' (mso s) = mdo s
  /\ log_key m' (mso s) = key
  /\ forall j, 0 <= j < mso s ->
       log_offset m' j = log_offset (mem s) j
       /\ Shard.data_key_size m' (log_offset (mem s) j)
          = Shard.data_key_size (mem s) (log_offset (mem s) j)
       /\ log_key m' j = log_key (mem s) j
       /\ log_hashes m' j = log_hashes (mem s) j
       /\ log_word m' j = log_word (mem s) j.
Proof using All.
  destruct (layout HK) as (HH & HS & HT & HI & HF & HF31 & HF8 & HINV).
  pose proof (ref_inv s M Href) as Hinv.
  pose proof (inv_data_offset s Hinv) as Hmdo.
  pose proof (inv_search_offset s Hinv) as Hmso.
  pose proof insert_log_offset as Hlog.
  assert (Hnew : log_offset m' (mso s) = mdo s).
  { rewrite Hlog by lia. rewrite Z.eqb_refl. reflexivity. }
  split; [exact Hnew|]. split.
  - unfold log_key. rewrite Hnew. destruct Hrec as (_ & Hksz & Hkey & _).
    rewrite Hksz. unfold Shard.data_key. rewrite u32_small by (unfold is_u32; lia).
    replace (mdo s + 8 + 4) with (mdo s + 12) by lia.
    unfold size. rewrite Nat2Z.id. exact Hkey.
  - intros j Hj.
    assert (Hoff : log_offset m' j = log_offset (mem s) j).
    { rewrite Hlog by lia. destruct (Z.eqb_spec j (mso s)); [lia|reflexivity]. }
    split; [exact Hoff|].
    destruct (log_key_kept HK s m' j Hinv Hlogi Hj Hdata Hoff) as [Hsz Hk].
    split; [exact Hsz|]. split; [exact Hk|].
    rewrite Hhashes, Hwords by lia.
    destruct (Z.eqb_spec j (mso s)); [lia|]. split; reflexivity.
Qed.

Lemma insert_log_inv : log_inv (Shard.mk_shard m' d' (mso s + 1)).
Proof using All.
  destruct (layout HK) as (HH & HS & HT & HI & HF & HF31 & HF8 & HINV).
  pose proof (ref_inv s M Href) as Hinv.
  pose proof insert_log_offset as Hlog.
  destruct (insert_slots HK s M ph key value version m' d' e Href Hph He Hempty Hchain
                         Hfresh Hroom Hfit Hdata Hother Hword Hrec Hlog)
    as ((Hae & Hhe & Hoe & Hpe) & Hothers).
  destruct insert_entries as (Hnew & Hnewkey & Hold).
  set (s' := Shard.mk_shard m' d' (mso s + 1)) in *.
  pose proof (inv_data_offset s Hinv) as Hmdo.
  pose proof (inv_search_offset s Hinv) as Hmso.
  destruct (log_inv_offsets HK s Hinv Hlogi) as (Hnz & Htail & Hbound).
  pose proof (size_nonneg key) as Hsk. pose proof (attrs_size_nonneg value) as Hav.
  pose proof (data_size_eq key value) as Hds.
  assert (Hnot : forall b, assigned s b -> b <> e).
  { intros b Hab ->. apply Hab. exact Hempty. }
  unfold is_u32 in Hph, Hsh.
  assert (Hwe : slot_word s' e = mdo s * 2 ^ 32 + ph) by exact Hword.
  constructor; unfold s'; cbn [Shard.m_data Shard.m_data_offset Shard.m_search_offset];
    fold s'.
  - intros i j Hi Hij Hj.
    destruct (Hold i ltac:(lia)) as (-> & _).
    destruct (Z.eq_dec j (mso s)) as [->|Hjn].
    + rewrite Hnew. destruct (log_filled s Hlogi i ltac:(lia)) as [_ Hhi].
      pose proof (data_key_size_range (mem s) (log_offset (mem s) i)). lia.
    + destruct (Hold j ltac:(lia)) as (-> & _). apply (log_sorted s Hlogi); lia.
  - intros j Hj. destruct (Z.eq_dec j (mso s)) as [->|Hjn].
    + rewrite Hnew. destruct Hrec as (_ & Hksz & _). rewrite Hksz. lia.
    + destruct (Hold j ltac:(lia)) as (-> & -> & _).
      destruct (log_filled s Hlogi j ltac:(lia)) as [Hlo Hhi]. lia.
  - intros j Hj. destruct (Z.eq_dec j (mso s)) as [->|Hjn].
    + exists e. split; [exact He|]. split; [exact Hae|]. split.
      * rewrite Hpe, Hnewkey, Hhashes, Z.eqb_refl by lia.
        rewrite lo32_split by lia. reflexivity.
      * intros _. rewrite Hnew, Hwe. apply hi32_split; lia.
    + destruct (Hold j ltac:(lia)) as (Hoj & _ & Hk & Hh & Hw).
      destruct (log_held s Hlogi j ltac:(lia)) as (b & Hb & Hab & Hpair & Hlive).
      destruct (Hothers b Hb (Hnot b Hab)) as (Hwb & Hiff & _ & _ & Hkept).
      destruct (Hkept Hab) as [_ Hpair'].
      exists b. split; [exact Hb|]. split; [apply Hiff; exact Hab|]. split.
      * rewrite Hpair', Hpair, Hk, Hh. reflexivity.
      * rewrite Hw, Hoj, Hwb. exact Hlive.
  - intros j Hj. rewrite Hhashes, Hwords by lia.
    destruct (Z.eqb_spec j (mso s)); [lia|]. apply (log_zero s Hlogi). lia.
  - intros b Hb Hab' Hlv. destruct (Z.eq_dec b e) as [->|Hbe].
    + exists (mso s). split; [lia|]. rewrite Hnew, Hwe, Hhe, Hwords, Hhashes by lia.
      rewrite Z.eqb_refl. split; [symmetry; apply hi32_split; lia|].
      split; [apply hi32_small; lia|apply lo32_split; lia].
    + destruct (Hothers b Hb Hbe) as (Hwb & Hiff & Hhb & _).
      assert (Hab : assigned s b) by (apply Hiff; exact Hab').
      rewrite Hwb in *.
      destruct (log_live s Hlogi b Hb Hab Hlv) as (j & Hj & Hjo & Hjl & Hjh).
      destruct (Hold j Hj) as (Hoj & _ & _ & Hh & Hw).
      exists j. split; [lia|]. rewrite Hoj, Hw, Hh, Hhb.
      split; [exact Hjo|]. split; [exact Hjl|exact Hjh].
  - destruct (log_aligned s Hlogi) as [Hamdo Haoff].
    split; [exact Hd8|]. intros j Hj. destruct (Z.eq_dec j (mso s)) as [->|Hjn].
    + rewrite Hnew. exact Hamdo.
    + destruct (Hold j ltac:(lia)) as (-> & _). apply Haoff. lia.
  - intros j Hj. destruct (Z.eq_dec j (mso s)) as [->|Hjn].
    + exists key, value, version. rewrite Hnew. split; [exact Hrec|].
      destruct (Z.ltb_spec (mso s + 1) (mso s + 1)); lia.
    + destruct (Hold j ltac:(lia)) as (Hoj & _).
      destruct (log_record s Hlogi j ltac:(lia)) as (k & v & ver & Hrj & Hej).
      destruct (log_filled s Hlogi j ltac:(lia)) as [Hlow _].
      assert (Hnext : (if j + 1 <? mso s then log_offset (mem s) (j + 1) else mdo s)
                      <= mdo s).
      { destruct (Z.ltb_spec (j + 1) (mso s)); [|lia].
        destruct (log_filled s Hlogi (j + 1) ltac:(lia)) as [_ Hhi].
        pose proof (data_key_size_range (mem s) (log_offset (mem s) (j + 1))). lia. }
      exists k, v, ver. rewrite Hoj. split.
      * apply (record_at_ext (mem s)); [|exact Hrj]. intros x Hx. apply Hdata. lia.
      * destruct (Z.ltb_spec (j + 1) (mso s + 1)) as [_|]; [|lia].
        destruct (Z.ltb_spec (j + 1) (mso s)) as [Hlt|Hge].
        -- destruct (Hold (j + 1) ltac:(lia)) as (-> & _). exact Hej.
        -- replace (j + 1) with (mso s) by lia. rewrite Hnew. exact Hej.
  - intros _. replace (mso s + 1 - 1) with (mso s) by lia.
    exists key, value, version. cbv zeta. rewrite Hnew.
    split; [exact Hrec|]. split; [lia|]. split.
    + rewrite align8_eq by lia.
      pose proof (Z.div_mod d' 8 ltac:(lia)) as Hdm. rewrite Hd8 in Hdm.
      assert ((mdo s + Shard.data_size key value + 7) / 8 <= d' / 8).
      { apply Z.lt_succ_r. apply Z.div_lt_upper_bound; lia. }
      lia.
    + intros b Hb Hab'. destruct (Z.eq_dec b e) as [->|Hbe].
      * exists value, version. rewrite Hoe.
        assert (Hke : slot_key s' e = key) by (unfold slot_pair in Hpe; congruence).
        rewrite Hke. split; [exact Hrec|lia].
      * destruct (Hothers b Hb Hbe) as (_ & Hiff & _ & Hob & Hkept).
        assert (Hab : assigned s b) by (apply Hiff; exact Hab').
        destruct (Hkept Hab) as [_ Hpb].
        assert (Hkb : slot_key s' b = slot_key s b) by (unfold slot_pair in Hpb; congruence).
        destruct (ref_record s M Href b Hb Hab) as (v & ver & Hrb & Hext & _).
        destruct (inv_record s Hinv b Hb Hab) as [Hlow _].
        exists v, ver. rewrite Hob, Hkb. split; [|lia].
        apply (record_at_ext (mem s)); [|exact Hrb]. intros x Hx. apply Hdata. lia.
Qed.

(** The live entries of the log after the insertion: the new one and
    those that were live. *)
Lemma insert_logged j ph' sh' key' :
  logged_at (Shard.mk_shard m' d' (mso s + 1)) j ph' sh' key' ->
  (j = mso s /\ ph' = ph /\ sh' = sh /\ key' = key) \/ logged_at s j ph' sh' key'.
Proof using All.
  destruct insert_entries as (Hnew & Hnewkey & Hold).
  pose proof (inv_search_offset s (ref_inv s M Href)) as Hmso.
  unfold is_u32 in Hph, Hsh.
  intros (Hj & Hlive & Hh1 & Hh2 & Hk). cbn [Shard.m_data Shard.m_search_offset] in *.
  destruct (Z.eq_dec j (mso s)) as [->|Hjn].
  - left. split; [reflexivity|]. rewrite Hhashes, Z.eqb_refl in Hh1, Hh2 by lia.
    rewrite lo32_split in Hh1 by lia. rewrite hi32_split in Hh2 by lia.
    split; [congruence|]. split; [congruence|]. congruence.
  - right. destruct (Hold j ltac:(lia)) as (_ & _ & Hkj & Hhj & Hwj).
    split; [lia|]. rewrite <- Hwj, <- Hhj, <- Hkj.
    split; [exact Hlive|]. split; [exact Hh1|]. split; [exact Hh2|exact Hk].
Qed.

End InsertLog.

(** * Shards: bytes that are copied *)

Lemma load_bytes_moved m m' a a' n :
  (forall i, 0 <= i < Z.of_nat n -> m' (a' + i) = m (a + i)) ->
  load_bytes m' a' n = load_bytes m a n.
Proof.
  intros H. unfold load_bytes. apply map_ext_in.
  intros i Hi. apply in_seq in Hi. apply H. lia.
Qed.

Lemma nth_load_bytes m a n i :
  (i < n)%nat -> nth i (load_bytes m a n) Byte.x00 = m (a + Z.of_nat i).
Proof.
  intros Hi. unfold load_bytes.
  rewrite (nth_indep _ Byte.x00 ((fun i => m (a + Z.of_nat i)) 0%nat))
    by (rewrite length_map, length_seq; exact Hi).
  rewrite (map_nth (fun i => m (a + Z.of_nat i))). rewrite seq_nth by exact Hi.
  reflexivity.
Qed.

(** [memmove(dst + a', src + a, n)] *)
Lemma store_bytes_copy m m0 a a' n i :
  0 <= i < Z.of_nat n ->
  store_bytes m0 a' (load_bytes m a n) (a' + i) = m (a + i).
Proof.
  intros Hi. rewrite store_bytes_inside by (rewrite load_bytes_length; lia).
  replace (a' + i - a') with i by lia.
  rewrite nth_load_bytes by lia. rewrite Z2Nat.id by lia. reflexivity.
Qed.

Lemma attrs_at_moved value : forall m m' c c',
  (forall i, 0 <= i < attrs_size value -> m' (c' + i) = m (c + i)) ->
  attrs_at m c value -> attrs_at m' c' value.
Proof.
  induction value as [|v value IH]; intros m m' c c' Hsame Hat; [exact I|].
  unfold attrs_size in Hsame. cbn [fold_right] in Hsame. fold (attrs_size value) in Hsame.
  pose proof (size_nonneg v). pose proof (attrs_size_nonneg value).
  cbn [attrs_at] in *. destruct Hat as (Hsz & Hv & Hrest).
  split; [|split].
  - rewrite <- Hsz. unfold load32. f_equal. apply load_bytes_moved.
    intros i Hi. apply Hsame. lia.
  - rewrite <- Hv at 2. apply load_bytes_moved. intros i Hi.
    replace (c' + 4 + i) with (c' + (4 + i)) by lia.
    replace (c + 4 + i) with (c + (4 + i)) by lia. apply Hsame. unfold size. lia.
  - apply (IH m m' (c + 4 + size v)); [|exact Hrest]. intros i Hi.
    replace (c' + 4 + size v + i) with (c' + (4 + size v + i)) by lia.
    replace (c + 4 + size v + i) with (c + (4 + size v + i)) by lia. apply Hsame. lia.
Qed.

(** A record that is copied byte by byte is a record of the same key,
    value and version. *)
Lemma record_at_moved `{shard_constants} m m' off off' key value version :
  (forall i, 0 <= i < Shard.data_size key value -> m' (off' + i) = m (off + i)) ->
  record_at m off key value version -> record_at m' off' key value version.
Proof.
  rewrite data_size_eq. intros Hsame (Hver & Hksz & Hkey & Har & Hat).
  pose proof (size_nonneg key). pose proof (attrs_size_nonneg value).
  unfold record_at, Shard.data_version, Shard.data_key_size in *.
  split; [|split; [|split; [|split]]].
  - rewrite <- Hver. unfold load64. f_equal. apply load_bytes_moved.
    intros i Hi. apply Hsame. lia.
  - rewrite <- Hksz. unfold load32. f_equal. apply load_bytes_moved. intros i Hi.
    replace (off' + 8 + i) with (off' + (8 + i)) by lia.
    replace (off + 8 + i) with (off + (8 + i)) by lia. apply Hsame. lia.
  - rewrite <- Hkey at 2. apply load_bytes_moved. intros i Hi.
    replace (off' + 12 + i) with (off' + (12 + i)) by lia.
    replace (off + 12 + i) with (off + (12 + i)) by lia. apply Hsame. unfold size in *. lia.
  - rewrite <- Har. unfold load16. f_equal. apply load_bytes_moved. intros i Hi.
    replace (off' + 12 + size key + i) with (off' + (12 + size key + i)) by lia.
    replace (off + 12 + size key + i) with (off + (12 + size key + i)) by lia.
    apply Hsame. lia.
  - apply (attrs_at_moved value m m' (off + 14 + size key)); [|exact Hat]. intros i Hi.
    replace (off' + 14 + size key + i) with (off' + (14 + size key + i)) by lia.
    replace (off + 14 + size key + i) with (off + (14 + size key + i)) by lia.
    apply Hsame. lia.
Qed.

Section EmptySlot.
Context {K : shard_constants}.
Hypothesis HK : constants_ok K.

Local Abbreviation mdo := Shard.m_data_offset.
Local Abbreviation mso := Shard.m_search_offset.
Local Abbreviation mem := Shard.m_data.

(** The probe of [hash_lookup(primary_hash, entry)] stops at the first
    empty slot. *)
Lemma hash_lookup_empty_loop_spec m start : forall remaining off bucket,
  Shard.hash_lookup_empty_loop m start remaining off = Some bucket ->
  exists o, off <= o < off + Z.of_nat remaining
            /\ bucket = Shard.HASH_INTO_TABLE (start + o)
            /\ hi32 (Shard.m_hash_table m bucket) = 0
            /\ forall o', off <= o' < o ->
                 hi32 (Shard.m_hash_table m (Shard.HASH_INTO_TABLE (start + o'))) <> 0.
Proof.
  induction remaining as [|remaining IH]; intros off bucket Hl; [discriminate|].
  cbn [Shard.hash_lookup_empty_loop] in Hl.
  destruct (Z.eqb_spec (hi32 (Shard.m_hash_table m (Shard.HASH_INTO_TABLE (start + off)))) 0)
    as [Hz|Hnz].
  - injection Hl as <-. exists off. split; [lia|]. split; [reflexivity|].
    split; [exact Hz|]. intros o' Ho'. lia.
  - destruct (IH (off + 1) bucket Hl) as (o & Ho & Hb & Hz & Hpassed).
    exists o. split; [lia|]. split; [exact Hb|]. split; [exact Hz|].
    intros o' Ho'. destruct (Z.eq_dec o' off) as [->|Hne]; [exact Hnz|].
    apply Hpassed. lia.
Qed.

Lemma hash_lookup_empty_loop_returns m start : forall remaining off,
  (exists o, off <= o < off + Z.of_nat remaining
             /\ hi32 (Shard.m_hash_table m (Shard.HASH_INTO_TABLE (start + o))) = 0) ->
  exists bucket, Shard.hash_lookup_empty_loop m start remaining off = Some bucket.
Proof.
  induction remaining as [|remaining IH]; intros off (o & Ho & Hempty); [lia|].
  cbn [Shard.hash_lookup_empty_loop].
  destruct (Z.eqb_spec (hi32 (Shard.m_hash_table m (Shard.HASH_INTO_TABLE (start + off)))) 0)
    as [_|Hfull]; [eexists; reflexivity|].
  apply IH. exists o. split; [|exact Hempty].
  assert (o <> off) by (intros ->; contradiction). lia.
Qed.

(** On a table with an empty slot the probe returns the first empty slot
    behind [primary_hash mod H]; the slots it has passed are assigned. *)
Lemma hash_lookup_empty_spec m ph :
  (exists b, 0 <= b < HASH_TABLE_ENTRIES /\ hi32 (Shard.m_hash_table m b) = 0) ->
  exists e,
    Shard.hash_lookup_empty m ph = Some e
    /\ 0 <= e < HASH_TABLE_ENTRIES
    /\ hi32 (Shard.m_hash_table m e) = 0
    /\ forall o, 0 <= o < (e - ph) mod HASH_TABLE_ENTRIES ->
         hi32 (Shard.m_hash_table m ((ph + o) mod HASH_TABLE_ENTRIES)) <> 0.
Proof.
  destruct (layout HK) as (HH & _).
  intros (b & Hb & Hempty). unfold Shard.hash_lookup_empty.
  assert (Hmod : forall o, Shard.HASH_INTO_TABLE (Shard.HASH_INTO_TABLE ph + o)
                           = (ph + o) mod HASH_TABLE_ENTRIES).
  { intros o. unfold Shard.HASH_INTO_TABLE. apply Zplus_mod_idemp_l. }
  destruct (hash_lookup_empty_loop_returns m (Shard.HASH_INTO_TABLE ph)
              (Z.to_nat HASH_TABLE_ENTRIES) 0) as (e & Hl).
  { exists ((b - ph) mod HASH_TABLE_ENTRIES). rewrite Z2Nat.id by lia. split.
    - pose proof (Z.mod_pos_bound (b - ph) HASH_TABLE_ENTRIES HH). lia.
    - rewrite Hmod. rewrite probe_reaches by exact Hb. exact Hempty. }
  exists e. split; [exact Hl|].
  destruct (hash_lookup_empty_loop_spec m _ _ _ _ Hl) as (o & Ho & He & Hz & Hpassed).
  rewrite Z2Nat.id in Ho by lia. rewrite Hmod in He.
  split; [subst e; apply Z.mod_pos_bound; lia|]. split; [exact Hz|].
  intros o' Ho'. rewrite <- Hmod. apply Hpassed.
  rewrite He in Ho'. rewrite probe_offset in Ho' by lia. lia.
Qed.

(** Among the slots of a table there is one assigned to a pair, or none
    is. *)
Lemma holder_or_none s ph key :
  (exists b, 0 <= b < HASH_TABLE_ENTRIES /\ assigned s b /\ slot_pair s b = (ph, key))
  \/ (forall b, 0 <= b < HASH_TABLE_ENTRIES -> assigned s b -> slot_pair s b <> (ph, key)).
Proof.
  assert (Hdec : forall b, (assigned s b /\ slot_pair s b = (ph, key))
                           \/ ~ (assigned s b /\ slot_pair s b = (ph, key))).
  { intros b. unfold assigned.
    destruct (Z.eq_dec (hi32 (slot_word s b)) 0) as [Hz|Hnz]; [right; tauto|].
    destruct (Z.eq_dec (slot_hash s b) ph) as [Hh|Hh].
    - destruct (list_eq_dec Byte.byte_eq_dec (slot_key s b) key) as [Hk|Hk].
      + left. split; [exact Hnz|]. unfold slot_pair. congruence.
      + right. intros [_ Hp]. apply Hk. unfold slot_pair in Hp. congruence.
    - right. intros [_ Hp]. apply Hh. unfold slot_pair in Hp. congruence. }
  assert (Hsearch : forall n : nat,
             (exists b, 0 <= b < Z.of_nat n /\ assigned s b /\ slot_pair s b = (ph, key))
             \/ (forall b, 0 <= b < Z.of_nat n -> ~ (assigned s b /\ slot_pair s b = (ph, key)))).
  { induction n as [|n IH]; [right; intros b Hb; lia|].
    destruct IH as [(b & Hb & Hp)|Hnone].
    - left. exists b. split; [lia|exact Hp].
    - destruct (Hdec (Z.of_nat n)) as [Hp|Hnp].
      + left. exists (Z.of_nat n). split; [lia|exact Hp].
      + right. intros b Hb. destruct (Z.eq_dec b (Z.of_nat n)) as [->|Hne]; [exact Hnp|].
        apply Hnone. lia. }
  destruct (layout HK) as (HH & _).
  destruct (Hsearch (Z.to_nat HASH_TABLE_ENTRIES)) as [(b & Hb & Hp)|Hnone].
  - left. exists b. rewrite Z2Nat.id in Hb by lia. split; [exact Hb|exact Hp].
  - right. intros b Hb Hab Hp. apply (Hnone b); [rewrite Z2Nat.id by lia; exact Hb|].
    split; assumption.
Qed.

(** The live entries of the log and the map: a live entry stands for the
    record the map has for its pair; two live entries are not for the same
    pair; and what the map has, has a live entry. *)
Lemma logged_at_bound s M j ph sh key :
  refines s M -> log_inv s -> logged_at s j ph sh key ->
  exists value version,
    record_at (mem s) (log_offset (mem s) j) key value version
    /\ log_offset (mem s) j + Shard.data_size key value <= entry_end s j
    /\ M ph key = Some (value, version).
Proof.
  destruct (layout HK) as (HH & HS & HT & HI & HF & HF31 & HF8 & HINV).
  intros Href Hlog (Hj & Hlive & Hph & Hsh & Hkey).
  pose proof (ref_inv s M Href) as Hinv.
  destruct (log_inv_offsets HK s Hinv Hlog) as (Hnz & _ & Hbound).
  destruct (log_held s Hlog j Hj) as (b & Hb & Hab & Hpair & Hoff).
  specialize (Hoff Hlive).
  destruct (log_filled s Hlog j Hj) as [Hlow _].
  assert (Hso : slot_offset s b = log_offset (mem s) j).
  { unfold slot_offset. rewrite Hoff, HINV. apply mask_offset_low.
    pose proof (Hbound j Hj). lia. }
  destruct (ref_record s M Href b Hb Hab) as (value & version & Hat & Hext & HM).
  destruct (slot_key_of_pair s b _ _ Hpair) as [Hh Hk].
  rewrite Hh, Hk, Hph, Hkey, Hoff in HM. rewrite Hso, Hk, Hkey in Hat, Hext.
  pose proof (Hbound j Hj) as Hjb. pose proof (inv_data_offset s Hinv) as Hmdo.
  destruct (Z.ltb_spec (log_offset (mem s) j) HASH_OFFSET_INVALID) as [_|Hge]; [|lia].
  destruct (log_record s Hlog j Hj) as (k & v & ver & Hrj & Hej).
  fold (entry_end s j) in Hej.
  assert (Hnext : entry_end s j <= FILE_SIZE).
  { unfold entry_end. destruct (Z.ltb_spec (j + 1) (mso s)); [|lia].
    pose proof (Hbound (j + 1) ltac:(lia)). lia. }
  assert (H0 : 0 <= log_offset (mem s) j) by lia.
  assert (H1 : log_offset (mem s) j + Shard.data_size k v < 2 ^ 32) by lia.
  assert (H2 : log_offset (mem s) j + Shard.data_size key value < 2 ^ 32) by lia.
  destruct (record_at_unique (mem s) _ _ _ _ _ _ _ H0 H1 H2 Hrj Hat) as (-> & -> & ->).
  exists value, version. split; [exact Hat|]. split; [exact Hej|exact HM].
Qed.

Lemma logged_at_unique s j j' ph sh sh' key :
  shard_inv s -> log_inv s ->
  logged_at s j ph sh key -> logged_at s j' ph sh' key -> j = j'.
Proof using HK.
  intros Hinv Hlog (Hj & Hlive & Hph & _ & Hkey) (Hj' & Hlive' & Hph' & _ & Hkey').
  destruct (log_held s Hlog j Hj) as (b & Hb & Hab & Hpair & Hoff).
  destruct (log_held s Hlog j' Hj') as (b' & Hb' & Hab' & Hpair' & Hoff').
  assert (b = b').
  { apply (inv_unique s Hinv b b' Hb Hb' Hab Hab'). congruence. }
  subst b'. specialize (Hoff Hlive). specialize (Hoff' Hlive').
  destruct (Z.lt_trichotomy j j') as [Hlt|[Hjj|Hgt]]; [|exact Hjj|].
  - pose proof (log_sorted s Hlog j j' ltac:(lia) Hlt ltac:(lia)). lia.
  - pose proof (log_sorted s Hlog j' j ltac:(lia) Hgt ltac:(lia)). lia.
Qed.

Lemma bound_logged s M ph key r :
  refines s M -> log_inv s -> M ph key = Some r -> exists sh, logged s ph sh key.
Proof.
  destruct (layout HK) as (HH & HS & HT & HI & HF & HF31 & HF8 & HINV).
  intros Href Hlog HM. pose proof (ref_inv s M Href) as Hinv.
  destruct (holder_or_none s ph key) as [(b & Hb & Hab & Hpair)|Hnone].
  2:{ rewrite (ref_absent s M Href ph key Hnone) in HM. discriminate. }
  destruct (slot_key_of_pair s b _ _ Hpair) as [Hh Hk].
  destruct (ref_record s M Href b Hb Hab) as (value & version & _ & _ & HMb).
  rewrite Hh, Hk, HM in HMb.
  destruct (Z.ltb_spec (hi32 (slot_word s b)) HASH_OFFSET_INVALID) as [Hlv|]; [|discriminate].
  destruct (log_live s Hlog b Hb Hab Hlv) as (j & Hj & Hjo & Hjl & Hjh).
  exists (hi32 (log_hashes (mem s) j)), j.
  split; [exact Hj|]. split; [exact Hjl|]. split; [congruence|]. split; [reflexivity|].
  unfold log_key. rewrite Hjo. rewrite <- Hk. unfold slot_key, slot_offset.
  rewrite HINV, mask_offset_low; [reflexivity|].
  pose proof (hi32_range (slot_word s b)). lia.
Qed.

End EmptySlot.

(** * Shards: [copy_to] *)

Lemma align8_aligned x : 0 <= x -> x + 7 < 2 ^ 32 -> x mod 8 = 0 -> align8 x = x.
Proof.
  intros H0 H1 Hx. rewrite align8_eq by assumption.
  pose proof (Z.div_mod x 8 ltac:(lia)) as Hdm. rewrite Hx in Hdm.
  replace (x + 7) with (7 + (x / 8) * 8) by lia.
  rewrite Z.div_add by lia. change (7 / 8) with 0. lia.
Qed.

Lemma zero_bytes_inside m a n x : a <= x < a + n -> Shard.zero_bytes m a n x = Byte.x00.
Proof.
  intros Hx. unfold Shard.zero_bytes.
  destruct (Z.leb_spec a x), (Z.ltb_spec x (a + n)); cbn [andb]; try reflexivity; lia.
Qed.

Lemma zero_bytes_outside m a n x : x < a \/ a + n <= x -> Shard.zero_bytes m a n x = m x.
Proof.
  intros Hx. unfold Shard.zero_bytes.
  destruct (Z.leb_spec a x), (Z.ltb_spec x (a + n)); cbn [andb]; try reflexivity; lia.
Qed.

Section CopyTo.
Context {K : shard_constants}.
Hypothesis HK : constants_ok K.
Hypothesis HSH : SEARCH_INDEX_ENTRIES <= HASH_TABLE_ENTRIES.

Local Abbreviation mdo := Shard.m_data_offset.
Local Abbreviation mso := Shard.m_search_offset.
Local Abbreviation mem := Shard.m_data.

Variable src : Shard.shard.
Variable M : contents.
Variable c : coordinate.
Hypothesis Hsrc : refines src M.
Hypothesis Hlogs : log_inv src.

(** Where the target may have got to in front of entry [ent]. *)
Local Abbreviation bound ent :=
  (if ent <? mso src then log_offset (mem src) ent else mdo src).

Lemma bound_mono ent ent' : 0 <= ent <= ent' -> bound ent <= bound ent'.
Proof using HK Hsrc Hlogs.
  intros Hle. pose proof (ref_inv src M Hsrc) as Hinv.
  destruct (Z.ltb_spec ent (mso src)) as [Hin|Hout];
    destruct (Z.ltb_spec ent' (mso src)) as [Hin'|Hout']; try lia.
  - destruct (Z.eq_dec ent ent') as [->|Hne]; [lia|].
    pose proof (log_sorted src Hlogs ent ent' ltac:(lia) ltac:(lia) Hin'). lia.
  - destruct (log_filled src Hlogs ent ltac:(lia)) as [_ Hhi].
    pose proof (data_key_size_range (mem src) (log_offset (mem src) ent)). lia.
Qed.

Lemma entry_end_bound ent : entry_end src ent = bound (ent + 1).
Proof. reflexivity. Qed.

Lemma entry_end_spec ent :
  0 <= ent < mso src ->
  log_offset (mem src) ent < entry_end src ent <= FILE_SIZE
  /\ entry_end src ent mod 8 = 0 /\ log_offset (mem src) ent mod 8 = 0
  /\ INDEX_SEGMENT_SIZE <= log_offset (mem src) ent.
Proof using HK Hsrc Hlogs.
  destruct (layout HK) as (HH & HS & HT & HI & HF & HF31 & HF8 & HINV).
  intros Hent. pose proof (ref_inv src M Hsrc) as Hinv.
  pose proof (inv_data_offset src Hinv) as Hmdo.
  destruct (log_aligned src Hlogs) as [Hamdo Haoff].
  destruct (log_filled src Hlogs ent Hent) as [Hlow Hhi].
  pose proof (data_key_size_range (mem src) (log_offset (mem src) ent)) as Hks.
  destruct (log_inv_offsets HK src Hinv Hlogs) as (_ & _ & Hbound).
  unfold entry_end. destruct (Z.ltb_spec (ent + 1) (mso src)) as [Hin|Hout].
  - pose proof (log_sorted src Hlogs ent (ent + 1) ltac:(lia) ltac:(lia) Hin).
    pose proof (Hbound (ent + 1) ltac:(lia)).
    split; [lia|]. split; [apply Haoff; lia|]. split; [apply Haoff; lia|exact Hlow].
  - split; [lia|]. split; [exact Hamdo|]. split; [apply Haoff; lia|exact Hlow].
Qed.

(** The end of the entry as the loop of [copy_to] computes it. *)
Lemma copy_entry_end ent :
  0 <= ent < mso src ->
  (if (ent <? SEARCH_INDEX_ENTRIES - 1)
      && negb (Shard.m_search_log (mem src) ((ent + 1) * 2 + 1) =? 0)
   then lo32 (Shard.m_search_log (mem src) ((ent + 1) * 2 + 1))
   else mdo src)
  = entry_end src ent.
Proof using HK Hsrc Hlogs.
  intros Hent. pose proof (ref_inv src M Hsrc) as Hinv.
  pose proof (inv_search_offset src Hinv) as Hmso.
  destruct (log_inv_offsets HK src Hinv Hlogs) as (Hnz & _ & _).
  replace ((ent + 1) * 2 + 1) with (2 * (ent + 1) + 1) by lia.
  fold (log_word (mem src) (ent + 1)). unfold entry_end.
  destruct (Z.ltb_spec (ent + 1) (mso src)) as [Hin|Hout].
  - destruct (Z.ltb_spec ent (SEARCH_INDEX_ENTRIES - 1)) as [_|]; [|lia].
    destruct (Z.eqb_spec (log_word (mem src) (ent + 1)) 0) as [Hz|_]; [|reflexivity].
    exfalso. apply (Hnz (ent + 1)); [lia|]. rewrite log_offset_of_word, Hz. reflexivity.
  - destruct (Z.ltb_spec ent (SEARCH_INDEX_ENTRIES - 1)) as [Hlt|_]; [|reflexivity].
    destruct (log_zero src Hlogs (ent + 1) ltac:(lia)) as [_ ->]. reflexivity.
Qed.

(** Entries that are not copied leave the state as it is. *)
Lemma copied_weaken ent ent' dst M' :
  0 <= ent <= ent' ->
  (forall j ph sh key, ent <= j < ent' -> logged_at src j ph sh key ->
                       intersects c (point ph sh) = true -> False) ->
  copied src M c ent dst M' -> copied src M c ent' dst M'.
Proof using HK Hsrc Hlogs.
  intros Hle Hnone [Href Hlogd Hslots Hlive Hwithin Hsearch Hdata Hsub Hsup].
  constructor; try assumption.
  - split; lia.
  - destruct Hdata as [Hal Hb]. split; [exact Hal|].
    pose proof (bound_mono ent ent' Hle). lia.
  - intros ph key r HM. destruct (Hsub ph key r HM) as (HM' & j & sh & Hj & Hl & Hi).
    split; [exact HM'|]. exists j, sh. split; [lia|]. split; assumption.
  - intros j ph sh key Hj Hl Hi. destruct (Z.lt_ge_cases j ent) as [Hlt|Hge].
    + exact (Hsup j ph sh key Hlt Hl Hi).
    + destruct (Hnone j ph sh key ltac:(lia) Hl Hi).
Qed.

(** The tables of the target after the bytes and the log entry have been
    written. *)
Lemma copy_tables (dst : Shard.shard) start len sh ph :
  shard_inv dst -> 0 <= mso dst < SEARCH_INDEX_ENTRIES ->
  let m1 := store_bytes (mem dst) (mdo dst) (load_bytes (mem src) start len) in
  let m2 := Shard.set_search_log m1 (mso dst * 2) (pack64 sh ph) in
  let m3 := Shard.set_search_log m2 (mso dst * 2 + 1) (u64 (mdo dst)) in
  (forall b, 0 <= b < HASH_TABLE_ENTRIES ->
             Shard.m_hash_table m3 b = Shard.m_hash_table (mem dst) b)
  /\ (forall x, INDEX_SEGMENT_SIZE <= x -> m3 x = m1 x)
  /\ (forall j, 0 <= j < SEARCH_INDEX_ENTRIES ->
        log_offset m3 j = if j =? mso dst then mdo dst else log_offset (mem dst) j).
Proof using HK.
  destruct (layout HK) as (HH & HS & HT & HI & HF & HF31 & HF8 & HINV).
  intros Hinv Hmso m1 m2 m3. pose proof (inv_data_offset dst Hinv) as Hmdo.
  assert (Hm1 : forall x, x < INDEX_SEGMENT_SIZE -> m1 x = mem dst x).
  { intros x Hx. apply store_bytes_outside. lia. }
  split; [|split].
  - intros b Hb. unfold m3, m2. rewrite !(set_search_log_hash HK) by lia.
    apply (same_index_hash HK); [exact Hm1|exact Hb].
  - intros x Hx. unfold m3, m2. rewrite !(set_search_log_data HK) by lia. reflexivity.
  - intros j Hj. unfold log_offset, m3.
    destruct (Z.eqb_spec j (mso dst)) as [->|Hne].
    + replace (2 * mso dst + 1) with (mso dst * 2 + 1) by lia.
      rewrite set_search_log_same. unfold u64. rewrite Z.mod_mod by lia.
      rewrite Z.mod_small by lia. unfold lo32. apply u32_small. unfold is_u32. lia.
    + unfold m2. rewrite !set_search_log_other by lia.
      f_equal. apply (same_index_log HK); [exact Hm1|lia].
Qed.

(** The words of the log of the target after the entry has been written. *)
Lemma copy_log_words (dst : Shard.shard) start len sh ph :
  shard_inv dst -> 0 <= mso dst < SEARCH_INDEX_ENTRIES ->
  is_u32 ph -> is_u32 sh ->
  let m1 := store_bytes (mem dst) (mdo dst) (load_bytes (mem src) start len) in
  let m2 := Shard.set_search_log m1 (mso dst * 2) (pack64 sh ph) in
  let m3 := Shard.set_search_log m2 (mso dst * 2 + 1) (u64 (mdo dst)) in
  (forall j, 0 <= j < SEARCH_INDEX_ENTRIES ->
     log_hashes m3 j = if j =? mso dst then sh * 2 ^ 32 + ph else log_hashes (mem dst) j)
  /\ (forall j, 0 <= j < SEARCH_INDEX_ENTRIES ->
        log_word m3 j = if j =? mso dst then mdo dst else log_word (mem dst) j).
Proof using HK.
  destruct (layout HK) as (HH & HS & HT & HI & HF & HF31 & HF8 & HINV).
  intros Hinv Hmso Hph Hsh m1 m2 m3. pose proof (inv_data_offset dst Hinv) as Hmdo.
  unfold is_u32 in Hph, Hsh.
  assert (Hm1 : forall x, x < INDEX_SEGMENT_SIZE -> m1 x = mem dst x).
  { intros x Hx. apply store_bytes_outside. lia. }
  split.
  - intros j Hj. unfold log_hashes, m3.
    rewrite set_search_log_other by lia. unfold m2.
    destruct (Z.eqb_spec j (mso dst)) as [->|Hne].
    + replace (2 * mso dst) with (mso dst * 2) by lia.
      rewrite set_search_log_same. rewrite pack64_eq by lia. apply Z.mod_small. lia.
    + rewrite set_search_log_other by lia.
      apply (same_index_log HK); [exact Hm1|lia].
  - intros j Hj. unfold log_word, m3.
    destruct (Z.eqb_spec j (mso dst)) as [->|Hne].
    + replace (2 * mso dst + 1) with (mso dst * 2 + 1) by lia.
      rewrite set_search_log_same. unfold u64. rewrite Z.mod_mod by lia.
      apply Z.mod_small. lia.
    + unfold m2. rewrite !set_search_log_other by lia.
      apply (same_index_log HK); [exact Hm1|lia].
Qed.

(** One entry that is copied. *)
Lemma copy_insert ent dst M' ph sh key :
  copied src M c ent dst M' -> logged_at src ent ph sh key ->
  intersects c (point ph sh) = true ->
  let start := log_offset (mem src) ent in
  let len := entry_end src ent - start in
  let m1 := store_bytes (mem dst) (mdo dst) (load_bytes (mem src) start (Z.to_nat len)) in
  let m2 := Shard.set_search_log m1 (mso dst * 2) (pack64 sh ph) in
  let m3 := Shard.set_search_log m2 (mso dst * 2 + 1) (u64 (mdo dst)) in
  exists bucket value version,
    Shard.hash_lookup_empty m3 ph = Some bucket
    /\ M ph key = Some (value, version)
    /\ copied src M c (ent + 1)
              (Shard.mk_shard (Shard.set_hash_table m3 bucket (pack64 (mdo dst) ph))
                              (align8 (mdo dst + len)) (u32 (mso dst + 1)))
              (update M' ph key (Some (value, version))).
Proof using All.
  destruct (layout HK) as (HH & HS & HT & HI & HF & HF31 & HF8 & HINV).
  intros [Href Hlogd Hslots Hlive Hwithin [Hsearch Hsearch'] [Hal Hb] Hsub Hsup] Hlogged Hint
         start len m1 m2 m3.
  pose proof Hlogged as (Hent & Hlv & Hph & Hsh & Hkey).
  pose proof (ref_inv src M Hsrc) as Hinvs. pose proof (ref_inv dst M' Href) as Hinv.
  pose proof (inv_data_offset dst Hinv) as Hmdo.
  pose proof (inv_search_offset dst Hinv) as Hmso.
  pose proof (inv_search_offset src Hinvs) as Hmsos.
  destruct (logged_at_bound HK src M ent ph sh key Hsrc Hlogs Hlogged)
    as (value & version & Hrs & Hext & HM).
  destruct (entry_end_spec ent Hent) as (Hend & Hend8 & Hstart8 & Hstart).
  fold start in Hrs, Hext, Hend, Hstart8, Hstart.
  destruct (Z.ltb_spec ent (mso src)) as [_|]; [|lia]. fold start in Hb.
  pose proof (size_nonneg key) as Hsk. pose proof (attrs_size_nonneg value) as Hav.
  pose proof (data_size_eq key value) as Hds.
  assert (Hlen : Shard.data_size key value <= len) by (unfold len; lia).
  assert (Hphr : is_u32 ph) by (rewrite <- Hph; apply lo32_range).
  assert (Hshr : is_u32 sh) by (rewrite <- Hsh; apply hi32_range).
  assert (Hnew8 : (mdo dst + len) mod 8 = 0).
  { unfold len. replace (mdo dst + (entry_end src ent - start))
      with (mdo dst + entry_end src ent - start) by lia.
    rewrite Zminus_mod, Zplus_mod, Hal, Hend8, Hstart8. reflexivity. }
  assert (Hd' : align8 (mdo dst + len) = mdo dst + len)
    by (apply align8_aligned; [lia|lia|exact Hnew8]).
  destruct (copy_tables dst start (Z.to_nat len) sh ph Hinv ltac:(lia))
    as (Htab & Hdat & Hlogo).
  fold m1 m2 m3 in Htab, Hdat, Hlogo.
  destruct (copy_log_words dst start (Z.to_nat len) sh ph Hinv ltac:(lia) Hphr Hshr)
    as (Hhash3 & Hword3).
  fold m1 m2 m3 in Hhash3, Hword3.
  assert (Hroom : mso dst < HASH_TABLE_ENTRIES) by lia.
  destruct (slots_bounded_empty_slot HK dst Hslots Hroom) as (b0 & Hb0 & Hz0).
  destruct (hash_lookup_empty_spec HK m3 ph) as (e & Hl & He & Hze & Hpassed).
  { exists b0. split; [exact Hb0|]. rewrite Htab by exact Hb0. exact Hz0. }
  exists e, value, version. split; [exact Hl|]. split; [exact HM|].
  set (m4 := Shard.set_hash_table m3 e (pack64 (mdo dst) ph)).
  rewrite Hd'. rewrite u32_small by (unfold is_u32; lia).
  (* what the insertion needs *)
  assert (Hempty : hi32 (slot_word dst e) = 0)
    by (unfold slot_word; rewrite <- Htab by exact He; exact Hze).
  assert (Hchain : forall o, 0 <= o < (e - ph) mod HASH_TABLE_ENTRIES ->
                             assigned dst ((ph + o) mod HASH_TABLE_ENTRIES)).
  { intros o Ho. unfold assigned, slot_word.
    rewrite <- Htab by (apply Z.mod_pos_bound; lia). apply Hpassed. exact Ho. }
  assert (Hfresh : forall b, 0 <= b < HASH_TABLE_ENTRIES -> assigned dst b ->
                             slot_pair dst b <> (ph, key)).
  { intros b Hbr Hab Hpair.
    destruct (slot_key_of_pair dst b ph key Hpair) as [Hh Hk].
    destruct (ref_record dst M' Href b Hbr Hab) as (v0 & ver0 & _ & _ & HM0).
    rewrite Hh, Hk in HM0.
    destruct (Z.ltb_spec (hi32 (slot_word dst b)) HASH_OFFSET_INVALID) as [_|Hge];
      [|pose proof (Hlive b Hbr Hab); lia].
    destruct (Hsub ph key _ HM0) as (_ & j & sh' & Hj & Hl' & _).
    pose proof (logged_at_unique HK src j ent ph sh' sh key Hinvs Hlogs Hl' Hlogged). lia. }
  assert (Hroom' : mso dst < SEARCH_INDEX_ENTRIES) by lia.
  assert (Hfit : mdo dst + Shard.data_size key value <= mdo dst + len <= FILE_SIZE)
    by (unfold len in *; lia).
  assert (Hdata : forall x, INDEX_SEGMENT_SIZE <= x < mdo dst -> m4 x = mem dst x).
  { intros x Hx. unfold m4. rewrite (set_hash_table_data HK) by lia.
    rewrite Hdat by lia. apply store_bytes_outside. lia. }
  assert (Hother : forall b, 0 <= b < HASH_TABLE_ENTRIES -> b <> e ->
                             Shard.m_hash_table m4 b = Shard.m_hash_table (mem dst) b).
  { intros b Hbr Hne. unfold m4. rewrite set_hash_table_other by exact Hne.
    apply Htab. exact Hbr. }
  assert (Hword : Shard.m_hash_table m4 e = mdo dst * 2 ^ 32 + ph).
  { unfold m4. rewrite set_hash_table_same. unfold is_u32 in Hphr.
    rewrite pack64_eq by lia. apply Z.mod_small. lia. }
  assert (Hrec : record_at m4 (mdo dst) key value version).
  { apply (record_at_moved (mem src) m4 start); [|exact Hrs]. intros i Hi.
    unfold m4. rewrite (set_hash_table_data HK) by lia. rewrite Hdat by lia.
    unfold m1. apply store_bytes_copy. rewrite Z2Nat.id by lia. lia. }
  assert (Hlogm : forall j, 0 <= j < SEARCH_INDEX_ENTRIES ->
                    log_offset m4 j = if j =? mso dst then mdo dst
                                      else log_offset (mem dst) j).
  { intros j Hj. unfold log_offset, m4. rewrite (set_hash_table_log HK) by lia.
    apply Hlogo. exact Hj. }
  assert (Hhashes : forall j, 0 <= j < SEARCH_INDEX_ENTRIES ->
                      log_hashes m4 j = if j =? mso dst then sh * 2 ^ 32 + ph
                                        else log_hashes (mem dst) j).
  { intros j Hj. unfold log_hashes, m4. rewrite (set_hash_table_log HK) by lia.
    apply Hhash3. exact Hj. }
  assert (Hwords : forall j, 0 <= j < SEARCH_INDEX_ENTRIES ->
                     log_word m4 j = if j =? mso dst then mdo dst
                                     else log_word (mem dst) j).
  { intros j Hj. unfold log_word, m4. rewrite (set_hash_table_log HK) by lia.
    apply Hword3. exact Hj. }
  pose proof (insert_log_inv HK dst M' ph sh key value version m4 (mdo dst + len) e
                             Href Hlogd Hphr Hshr He Hempty Hchain Hfresh Hroom' Hfit
                             Hnew8 Hdata Hother Hword Hrec Hhashes Hwords) as Hlogd'.
  pose proof (insert_logged HK dst M' ph sh key value version m4 (mdo dst + len) e
                            Href Hlogd Hphr Hshr He Hempty Hchain Hfresh Hroom' Hfit
                            Hnew8 Hdata Hother Hword Hrec Hhashes Hwords) as Hlogged'.
  pose proof (insert_refines HK dst M' ph key value version m4 (mdo dst + len) e
                             Href Hphr He Hempty Hchain Hfresh Hroom' Hfit Hdata Hother
                             Hword Hrec Hlogm) as Href'.
  pose proof (insert_slots_bounded HK dst M' ph key value version m4 (mdo dst + len) e
                                   Href Hphr He Hempty Hchain Hfresh Hroom' Hfit Hdata
                                   Hother Hword Hrec Hlogm Hslots) as Hslots'.
  destruct (insert_slots HK dst M' ph key value version m4 (mdo dst + len) e
                         Href Hphr He Hempty Hchain Hfresh Hroom' Hfit Hdata Hother
                         Hword Hrec Hlogm) as ((Hae & _) & Hothers).
  constructor.
  - exact Href'.
  - exact Hlogd'.
  - exact Hslots'.
  - intros b Hbr Hab'. destruct (Z.eq_dec b e) as [->|Hne].
    + unfold slot_word. cbn [Shard.m_data]. rewrite Hword.
      unfold is_u32 in Hphr. rewrite hi32_split by lia. lia.
    + destruct (Hothers b Hbr Hne) as (Hwb & Hiff & _). rewrite Hwb.
      apply (Hlive b Hbr). apply Hiff. exact Hab'.
  - intros j ph' sh' key' Hl'.
    destruct (Hlogged' j ph' sh' key' Hl') as [(_ & -> & -> & _)|Hold];
      [exact Hint|exact (Hwithin j ph' sh' key' Hold)].
  - cbn [Shard.m_search_offset]. split; lia.
  - cbn [Shard.m_data_offset]. split; [exact Hnew8|].
    change (mdo dst + len <= entry_end src ent). unfold len. lia.
  - intros ph' key' r HM'. unfold update in HM'.
    destruct ((ph' =? ph) && buffer_eqb key' key) eqn:Hsame.
    + apply andb_true_iff in Hsame as [Hp Hk]. apply Z.eqb_eq in Hp.
      apply buffer_eqb_eq in Hk. subst ph' key'.
      split; [congruence|]. exists ent, sh. split; [lia|]. split; assumption.
    + destruct (Hsub ph' key' r HM') as (HMr & j & sh' & Hj & Hl' & Hi).
      split; [exact HMr|]. exists j, sh'. split; [lia|]. split; assumption.
  - intros j ph' sh' key' Hj Hl' Hi.
    destruct (Z.eq_dec j ent) as [->|Hne].
    + destruct Hl' as (_ & _ & Hph' & _ & Hkey').
      assert (Hp : ph' = ph) by congruence. assert (Hk : key' = key) by congruence.
      rewrite Hp, Hk, update_same. symmetry. exact HM.
    + rewrite update_other; [apply (Hsup j ph' sh' key'); [lia|exact Hl'|exact Hi]|].
      intros Heq. apply pair_equal_spec in Heq as [-> ->].
      apply Hne. exact (logged_at_unique HK src j ent ph sh' sh key Hinvs Hlogs Hl' Hlogged).
Qed.

(** The loop of [copy_to] from entry [ent] on. *)
Lemma copy_to_loop_spec : forall remaining ent dst M',
  0 <= ent -> ent + Z.of_nat remaining = SEARCH_INDEX_ENTRIES ->
  copied src M c ent dst M' ->
  exists dst' M'',
    Shard.copy_to_loop src c remaining ent dst = Some dst'
    /\ copied src M c SEARCH_INDEX_ENTRIES dst' M''.
Proof using All.
  pose proof (ref_inv src M Hsrc) as Hinvs.
  pose proof (inv_search_offset src Hinvs) as Hmsos.
  destruct (log_inv_offsets HK src Hinvs Hlogs) as (Hnz & _ & _).
  induction remaining as [|remaining IH]; intros ent dst M' Hent Hrem Hcp.
  - exists dst, M'. split; [reflexivity|].
    replace SEARCH_INDEX_ENTRIES with ent by lia. exact Hcp.
  - cbn [Shard.copy_to_loop].
    replace (ent * 2 + 1) with (2 * ent + 1) by lia.
    replace (ent * 2) with (2 * ent) by lia.
    fold (log_word (mem src) ent). fold (log_hashes (mem src) ent).
    assert (Hskip : (forall ph sh key, logged_at src ent ph sh key ->
                                       intersects c (point ph sh) = true -> False) ->
                    exists dst' M'',
                      Shard.copy_to_loop src c remaining (ent + 1) dst = Some dst'
                      /\ copied src M c SEARCH_INDEX_ENTRIES dst' M'').
    { intros Hnone. apply (IH (ent + 1) dst M'); [lia|lia|].
      apply (copied_weaken ent (ent + 1) dst M'); [lia| |exact Hcp].
      intros j ph sh key Hj. replace j with ent by lia. apply Hnone. }
    destruct (Z.eqb_spec (hi32 (log_word (mem src) ent)) 0) as [Hlv|Hstale]; cbn [negb].
    2:{ apply Hskip. intros ph sh key (_ & Hl & _) _. contradiction. }
    destruct (intersects c (mk_coordinate UINT32_MAX (lo32 (log_hashes (mem src) ent))
                                          UINT32_MAX (hi32 (log_hashes (mem src) ent))))
      eqn:Hint; cbn [negb].
    2:{ apply Hskip. intros ph sh key (_ & _ & Hph & Hsh & _) Hi.
        unfold point in Hi. rewrite <- Hph, <- Hsh, Hint in Hi. discriminate. }
    rewrite <- (log_offset_of_word (mem src) ent).
    destruct (Z.lt_ge_cases ent (mso src)) as [Hin|Hout].
    + destruct (Z.eqb_spec (log_offset (mem src) ent) 0) as [Hz|_];
        [exfalso; apply (Hnz ent); [lia|exact Hz]|].
      rewrite (copy_entry_end ent) by lia.
      assert (Hentr : 0 <= ent < mso src) by lia.
      destruct (entry_end_spec ent Hentr) as (Hend & _ & _ & Hstart).
      assert (Hlenr : is_u32 (entry_end src ent - log_offset (mem src) ent)).
      { destruct (layout HK) as (HH & HS & HT & HI & HF & HF31 & _). unfold is_u32. lia. }
      rewrite (u32_small _ Hlenr).
      assert (Hlogged : logged_at src ent (lo32 (log_hashes (mem src) ent))
                                  (hi32 (log_hashes (mem src) ent)) (log_key (mem src) ent)).
      { split; [lia|]. split; [exact Hlv|]. repeat split. }
      destruct (copy_insert ent dst M' _ _ _ Hcp Hlogged Hint)
        as (bucket & value & version & Hl & _ & Hcp').
      cbv zeta in Hl, Hcp'. rewrite Hl.
      apply (IH (ent + 1) _ _ ltac:(lia) ltac:(lia) Hcp').
    + destruct (log_zero src Hlogs ent ltac:(lia)) as [_ Hw].
      rewrite log_offset_of_word, Hw. cbn [lo32]. change (u32 0 =? 0) with true. cbv iota.
      exists dst, M'. split; [reflexivity|].
      apply (copied_weaken ent SEARCH_INDEX_ENTRIES dst M'); [lia| |exact Hcp].
      intros j ph sh key Hj (Hjr & _). lia.
Qed.

End CopyTo.

(** * Shards: what [copy_to] leaves in the target *)

Section CopyToTarget.
Context {K : shard_constants}.
Hypothesis HK : constants_ok K.
Hypothesis HSH : SEARCH_INDEX_ENTRIES <= HASH_TABLE_ENTRIES.

Local Abbreviation mdo := Shard.m_data_offset.
Local Abbreviation mso := Shard.m_search_offset.
Local Abbreviation mem := Shard.m_data.

(** The two [memset] of [copy_to] leave empty tables. *)
Lemma cleared_tables (m0 : memory) :
  let m := Shard.zero_bytes (Shard.zero_bytes m0 0 HASH_TABLE_SIZE)
                            HASH_TABLE_SIZE SEARCH_INDEX_SIZE in
  (forall b, 0 <= b < HASH_TABLE_ENTRIES -> Shard.m_hash_table m b = 0)
  /\ (forall i, 0 <= i < 2 * SEARCH_INDEX_ENTRIES -> Shard.m_search_log m i = 0).
Proof.
  destruct (layout HK) as (HH & HS & HT & HI & HF & HF31 & HF8 & HINV).
  pose proof (search_index_size_eq K HK) as HSI.
  intros m.
  assert (Hz : forall x, 0 <= x < INDEX_SEGMENT_SIZE -> m x = zero_memory x).
  { intros x Hx. unfold m, zero_memory.
    destruct (Z.lt_ge_cases x HASH_TABLE_SIZE) as [Hlt|Hge].
    - rewrite zero_bytes_outside by lia. apply zero_bytes_inside. lia.
    - apply zero_bytes_inside. lia. }
  split.
  - intros b Hb. unfold Shard.m_hash_table. rewrite <- (load64_zero (8 * b)).
    apply load64_ext. intros x Hx. apply Hz. lia.
  - intros i Hi. unfold Shard.m_search_log.
    rewrite <- (load64_zero (HASH_TABLE_SIZE + 8 * i)).
    apply load64_ext. intros x Hx. apply Hz. lia.
Qed.

(** The state [copy_to] starts the loop in. *)
Lemma copy_start src M c (m0 : memory) :
  refines src M -> log_inv src ->
  copied src M c 0
         (Shard.mk_shard (Shard.zero_bytes (Shard.zero_bytes m0 0 HASH_TABLE_SIZE)
                                           HASH_TABLE_SIZE SEARCH_INDEX_SIZE)
                         INDEX_SEGMENT_SIZE 0)
         empty_contents.
Proof.
  destruct (layout HK) as (HH & HS & HT & HI & HF & HF31 & HF8 & HINV).
  intros Hsrc Hlogs. destruct (cleared_tables m0) as [Htab Hlog].
  set (m := Shard.zero_bytes (Shard.zero_bytes m0 0 HASH_TABLE_SIZE)
                             HASH_TABLE_SIZE SEARCH_INDEX_SIZE) in *.
  set (dst := Shard.mk_shard m INDEX_SEGMENT_SIZE 0).
  assert (Hnone : forall b, 0 <= b < HASH_TABLE_ENTRIES -> ~ assigned dst b).
  { intros b Hb Hab. apply Hab. unfold slot_word, dst. cbn [Shard.m_data].
    rewrite Htab by exact Hb. reflexivity. }
  pose proof (ref_inv src M Hsrc) as Hinvs.
  pose proof (inv_data_offset src Hinvs) as Hmdos.
  pose proof (inv_search_offset src Hinvs) as Hmsos.
  assert (Hiss : INDEX_SEGMENT_SIZE mod 8 = 0).
  { rewrite HI.
    replace (8 * HASH_TABLE_ENTRIES + 16 * SEARCH_INDEX_ENTRIES)
      with ((HASH_TABLE_ENTRIES + 2 * SEARCH_INDEX_ENTRIES) * 8) by lia.
    apply Z.mod_mul. lia. }
  constructor.
  - constructor.
    + constructor; unfold dst; cbn [Shard.m_data Shard.m_data_offset Shard.m_search_offset];
        fold dst.
      * lia.
      * lia.
      * intros b Hb Hab. destruct (Hnone b Hb Hab).
      * intros b Hb Hab. destruct (Hnone b Hb Hab).
      * intros b b' Hb _ Hab. destruct (Hnone b Hb Hab).
      * intros j Hj. unfold log_offset. rewrite Hlog by lia. reflexivity.
      * intros b Hb Hab. destruct (Hnone b Hb Hab).
    + intros b Hb Hab. destruct (Hnone b Hb Hab).
    + intros ph key _. reflexivity.
  - constructor; unfold dst; cbn [Shard.m_data Shard.m_data_offset Shard.m_search_offset];
      fold dst.
    + intros i j Hi Hij Hj. lia.
    + intros j Hj. lia.
    + intros j Hj. lia.
    + intros j Hj. unfold log_hashes, log_word. rewrite !Hlog by lia. split; reflexivity.
    + intros b Hb Hab. destruct (Hnone b Hb Hab).
    + split; [exact Hiss|intros j Hj; lia].
    + intros j Hj. lia.
    + intros Hpos. lia.
  - exists []. split; [constructor|]. split.
    + intros b Hb Hab. destruct (Hnone b Hb Hab).
    + cbn. lia.
  - intros b Hb Hab. destruct (Hnone b Hb Hab).
  - intros j ph sh key (Hj & _). unfold dst in Hj. cbn [Shard.m_search_offset] in Hj. lia.
  - cbn [Shard.m_search_offset dst]. unfold dst. cbn [Shard.m_search_offset]. lia.
  - unfold dst. cbn [Shard.m_data_offset]. split; [exact Hiss|].
    destruct (Z.ltb_spec 0 (mso src)) as [Hpos|_]; [|lia].
    destruct (log_filled src Hlogs 0 ltac:(lia)) as [Hlow _]. exact Hlow.
  - intros ph key r HM. discriminate.
  - intros j ph sh key Hj (Hjr & _). lia.
Qed.

(** [copy_to] on a shard that holds [M]: it returns, and the target holds
    the part of [M] whose records intersect [c]. *)
Lemma copy_to_spec src M c s :
  refines src M -> log_inv src ->
  exists dst M',
    Shard.copy_to src c s = Some dst
    /\ copied src M c SEARCH_INDEX_ENTRIES dst M'.
Proof.
  destruct (layout HK) as (HH & HS & _).
  intros Hsrc Hlogs. unfold Shard.copy_to.
  apply (copy_to_loop_spec HK HSH src M c Hsrc Hlogs _ 0 _ empty_contents); [lia| |].
  - rewrite Z2Nat.id by lia. lia.
  - apply copy_start; assumption.
Qed.

(** X17: [copy_to] makes a compacted copy. On a shard that [put] and [del]
    calls have left, holding the map [M], with a search index that is not
    longer than the hash table, it returns whatever the target held
    before; the target then holds exactly the keys of [M] whose record
    intersects [c] by the hashes it was put with, with their values and
    versions, carries no tombstone, and its offsets are not larger than
    those of the source. With a [c] that intersects everything the target
    holds [M]. *)
Theorem copy_to_keeps (ops : list operation) (src : Shard.shard) (M : contents)
        (c : coordinate) (s : Shard.shard) :
  shard_after ops src M ->
  exists dst M',
    Shard.copy_to src c s = Some dst
    /\ refines dst M'
    /\ no_tombstone dst
    /\ mso dst <= mso src /\ mdo dst <= mdo src
    /\ (forall ph key r, M' ph key = Some r ->
          M ph key = Some r
          /\ exists sh, logged src ph sh key /\ intersects c (point ph sh) = true)
    /\ (forall ph sh key, logged src ph sh key -> intersects c (point ph sh) = true ->
                          M' ph key = M ph key)
    /\ ((forall ph sh, intersects c (point ph sh) = true) ->
        forall ph key, M' ph key = M ph key).
Proof.
  intros Hafter. destruct (shard_after_log_inv HK ops src M Hafter) as [Hinv Hlogs].
  pose proof (shard_after_refines HK ops src M Hafter) as Hsrc.
  destruct (copy_to_spec src M c s Hsrc Hlogs) as (dst & M' & Hcopy & Hcp).
  destruct Hcp as [Href _ Hslots Hlive _ [_ Hsearch] [_ Hdata] Hsub Hsup].
  pose proof (inv_search_offset src Hinv) as Hmso.
  destruct (Z.ltb_spec SEARCH_INDEX_ENTRIES (mso src)) as [|_]; [lia|].
  exists dst, M'. split; [exact Hcopy|]. split; [exact Href|]. split; [exact Hlive|].
  split; [exact Hsearch|]. split; [exact Hdata|].
  assert (Hsub' : forall ph key r, M' ph key = Some r ->
            M ph key = Some r
            /\ exists sh, logged src ph sh key /\ intersects c (point ph sh) = true).
  { intros ph key r HM. destruct (Hsub ph key r HM) as (HM' & j & sh & _ & Hl & Hi).
    split; [exact HM'|]. exists sh. split; [exists j; exact Hl|exact Hi]. }
  assert (Hsup' : forall ph sh key, logged src ph sh key ->
            intersects c (point ph sh) = true -> M' ph key = M ph key).
  { intros ph sh key (j & Hl) Hi. apply (Hsup j ph sh key); [|exact Hl|exact Hi].
    destruct Hl as (Hj & _). lia. }
  split; [exact Hsub'|]. split; [exact Hsup'|].
  intros Hall ph key. destruct (M ph key) as [r|] eqn:HM.
  - destruct (bound_logged HK src M ph key r Hsrc Hlogs HM) as (sh & Hl).
    rewrite (Hsup' ph sh key Hl (Hall ph sh)). exact HM.
  - destruct (M' ph key) as [r|] eqn:HM'; [|reflexivity].
    destruct (Hsub' ph key r HM') as [HMr _]. congruence.
Qed.

End CopyToTarget.

Section CopyToExample.
#[local] Existing Instance example_constants.

Lemma copy_to_keeps_witness :
  let st := state_of (simulate Shard.create empty_contents sample_calls) in
  let c := mk_coordinate 0 0 0 0 in
  exists dst M',
    Shard.copy_to (fst st) c Shard.create = Some dst
    /\ refines dst M'
    /\ no_tombstone dst
    /\ Shard.m_search_offset dst <= Shard.m_search_offset (fst st)
    /\ Shard.m_data_offset dst <= Shard.m_data_offset (fst st)
    /\ (forall ph key r, M' ph key = Some r ->
          snd st ph key = Some r
          /\ exists sh, logged (fst st) ph sh key /\ intersects c (point ph sh) = true)
    /\ (forall ph sh key, logged (fst st) ph sh key -> intersects c (point ph sh) = true ->
                          M' ph key = snd st ph key)
    /\ ((forall ph sh, intersects c (point ph sh) = true) ->
        forall ph key, M' ph key = snd st ph key).
Proof.
  intros st c.
  apply (copy_to_keeps example_constants_ok example_search_index_fits sample_calls
                       (fst st) (snd st) c Shard.create).
  exact sample_shard_after.
Defined.

End CopyToExample.

(** * Shards of a disk: what [put], [del] and [get] make of a sound shard *)

Lemma contains_point_primary c ph sh sh' :
  contains c (point ph sh) = true ->
  primary_contains c (mk_coordinate UINT32_MAX ph 0 sh') = true.
Proof.
  unfold contains. intros H. apply andb_true_iff in H as [H _]. exact H.
Qed.

Lemma intersects_point c ph sh :
  balanced c -> intersects c (point ph sh) = contains c (point ph sh).
Proof.
  intros (Hp & Hs & _). unfold intersects, contains, primary_contains, secondary_contains, point.
  cbn [primary_mask secondary_mask primary_hash secondary_hash].
  unfold is_u32 in Hp, Hs.
  change UINT32_MAX with (Z.ones 32).
  rewrite !Z.land_ones by lia. rewrite !Z.mod_small by lia. reflexivity.
Qed.

Section SoundShard.
Context {K : shard_constants}.
Hypothesis HK : constants_ok K.
Hypothesis HSH : SEARCH_INDEX_ENTRIES < HASH_TABLE_ENTRIES.

Local Abbreviation mdo := Shard.m_data_offset.
Local Abbreviation mso := Shard.m_search_offset.
Local Abbreviation mem := Shard.m_data.

Lemma sound_empty_slot c s M : sound c s M -> has_empty_slot s.
Proof using All.
  intros [Href _ Hslots _].
  pose proof (inv_search_offset s (ref_inv s M Href)) as Hmso.
  apply (slots_bounded_empty_slot HK s Hslots). lia.
Qed.

Lemma sound_create c : sound c Shard.create empty_contents.
Proof using All.
  constructor.
  - exact (refines_create HK).
  - exact (create_log_inv HK).
  - exact create_slots_bounded.
  - intros j ph sh key (Hj & _). cbn [Shard.create Shard.m_search_offset] in Hj. lia.
Qed.

(** The live entries of the log after a [put]: the new one, and those that
    were live. *)
Lemma put_logged s M ph sh key value version s' f j ph' sh' key' :
  refines s M -> log_inv s -> is_u32 ph -> is_u32 sh ->
  Shard.put s ph sh key value version = Some (SUCCESS, s', f) ->
  logged_at s' j ph' sh' key' ->
  (ph' = ph /\ sh' = sh /\ key' = key) \/ logged_at s j ph' sh' key'.
Proof using All.
  destruct (layout HK) as (HH & HS & HT & HI & HF & HF31 & HF8 & HINV).
  intros Href Hlog Hph Hsh Hput Hl'. pose proof (ref_inv s M Href) as Hinv.
  destruct (put_result HK _ _ _ _ _ _ _ _ _ Hinv Hph Hput)
    as [(Hne & _)|(_ & e & w & Hl & Heff)]; [congruence|].
  destruct (put_log HK s ph sh key value version s' f e w Hinv Hlog Hph Hsh Hput Hl)
    as (Hnh & Hnw & Hoh & How).
  destruct Heff as (Hfit & Hroom & Hmdo' & Hmso' & Hdata & Hother & Hword & Hksz & Hkey
                    & Hlogoff & _).
  pose proof (inv_data_offset s Hinv) as Hmdo.
  pose proof (inv_search_offset s Hinv) as Hmso.
  unfold is_u32 in Hph, Hsh.
  destruct Hl' as (Hj & Hlive & Hh1 & Hh2 & Hk). rewrite Hmso' in Hj.
  destruct (Z.eq_dec j (mso s)) as [->|Hjn].
  - left. rewrite Hnh in Hh1, Hh2.
    rewrite lo32_split in Hh1 by lia. rewrite hi32_split in Hh2 by lia.
    split; [congruence|]. split; [congruence|].
    rewrite <- Hk. unfold log_key. rewrite Hlogoff by lia. rewrite Z.eqb_refl.
    rewrite Hksz. unfold Shard.data_key.
    pose proof (size_nonneg key) as Hsk.
    rewrite u32_small by (unfold is_u32; lia).
    replace (mdo s + 8 + 4) with (mdo s + 12) by lia.
    unfold size. rewrite Nat2Z.id. exact Hkey.
  - right.
    assert (Hoff : log_offset (mem s') j = log_offset (mem s) j).
    { rewrite Hlogoff by lia. destruct (Z.eqb_spec j (mso s)); [lia|reflexivity]. }
    destruct (log_key_kept HK s (mem s') j Hinv Hlog ltac:(lia)) as [_ Hkj];
      [intros x Hx; apply Hdata; exact Hx|exact Hoff|].
    rewrite How in Hlive by lia. rewrite Hoh in Hh1, Hh2 by lia.
    destruct ((hi32 w <? HASH_OFFSET_INVALID) && (log_offset (mem s) j =? hi32 w)
              && negb (hi32 w =? 0)) eqn:Hcond.
    + exfalso. pose proof (hi32_range w) as Hr.
      destruct (mark_word (mdo s) (hi32 w) ltac:(lia) Hr) as [Hm _]. lia.
    + split; [lia|]. split; [exact Hlive|]. split; [exact Hh1|]. split; [exact Hh2|].
      congruence.
Qed.

(** The live entries of the log after a [del] were live before. *)
Lemma del_logged s ph key s' j ph' sh' key' :
  shard_inv s -> log_inv s -> is_u32 ph ->
  Shard.del s ph key = Some (SUCCESS, s') ->
  logged_at s' j ph' sh' key' -> logged_at s j ph' sh' key'.
Proof using All.
  destruct (layout HK) as (HH & HS & HT & HI & HF & HF31 & HF8 & HINV).
  intros Hinv Hlog Hph Hdel Hl'.
  destruct (del_result HK _ _ _ _ _ Hinv Hph Hdel)
    as [(Hne & _)|(_ & e & w & Hl & Heff)]; [congruence|].
  destruct (del_log HK s ph key s' e w Hinv Hlog Hph Hdel Hl) as (Hoh & How).
  destruct Heff as (Hwnz & Hvalid & Hfit & Hmdo' & Hmso' & Hdata & Hother & Hword & Hlogoff).
  pose proof (inv_data_offset s Hinv) as Hmdo.
  pose proof (inv_search_offset s Hinv) as Hmso.
  destruct Hl' as (Hj & Hlive & Hh1 & Hh2 & Hk). rewrite Hmso' in Hj.
  destruct (log_key_kept HK s (mem s') j Hinv Hlog Hj) as [_ Hkj];
    [intros x Hx; apply Hdata; lia|apply Hlogoff; lia|].
  rewrite How in Hlive by lia. rewrite Hoh in Hh1, Hh2 by lia.
  destruct (Z.eqb_spec (log_offset (mem s) j) (hi32 w)) as [Heq|Hneq].
  - exfalso. pose proof (hi32_range w) as Hr.
    destruct (mark_word (mdo s) (hi32 w) ltac:(lia) Hr) as [Hm _]. lia.
  - split; [exact Hj|]. split; [exact Hlive|]. split; [exact Hh1|]. split; [exact Hh2|].
    congruence.
Qed.

Lemma sound_put c s M ph sh key value version s' f :
  sound c s M -> is_u32 ph -> is_u32 sh ->
  0 <= version < 2 ^ 64 -> Z.of_nat (length value) < 2 ^ 16 ->
  contains c (point ph sh) = true ->
  Shard.put s ph sh key value version = Some (SUCCESS, s', f) ->
  sound c s' (update M ph key (Some (value, version))).
Proof using All.
  intros [Href Hlog Hslots Hwithin] Hph Hsh Hver Har Hc Hput.
  pose proof (ref_inv s M Href) as Hinv.
  constructor.
  - exact (refines_put HK s M ph sh key value version s' f Href Hph Hver Har Hput).
  - exact (put_log_inv HK s M ph sh key value version s' f Href Hlog Hph Hsh Hver Har Hput).
  - exact (put_slots_bounded HK s ph sh key value version SUCCESS s' f Hinv Hph Hslots Hput).
  - intros j ph' sh' key' Hl'.
    destruct (put_logged s M ph sh key value version s' f j ph' sh' key'
                         Href Hlog Hph Hsh Hput Hl') as [(-> & -> & _)|Hold];
      [exact Hc|exact (Hwithin j ph' sh' key' Hold)].
Qed.

Lemma sound_del c s M ph key rc s' :
  sound c s M -> is_u32 ph ->
  Shard.del s ph key = Some (rc, s') ->
  (rc = NOTFOUND /\ s' = s /\ M ph key = None)
  \/ (rc = DATAFULL /\ s' = s /\ M ph key <> None)
  \/ (rc = SUCCESS /\ M ph key <> None /\ sound c s' (update M ph key None)).
Proof using All.
  intros [Href Hlog Hslots Hwithin] Hph Hdel.
  pose proof (ref_inv s M Href) as Hinv.
  destruct (refines_del HK s M ph key rc s' Href Hph Hdel)
    as [(-> & -> & HM)|[(-> & -> & HM & _)|(-> & HM & _ & Href')]].
  - left. repeat split; assumption.
  - right. left. repeat split; assumption.
  - right. right. split; [reflexivity|]. split; [exact HM|]. constructor.
    + exact Href'.
    + exact (del_log_inv HK s ph key s' Hinv Hlog Hph Hdel).
    + exact (del_slots_bounded HK s ph key SUCCESS s' Hinv Hph Hslots Hdel).
    + intros j ph' sh' key' Hl'. apply (Hwithin j ph' sh' key').
      exact (del_logged s ph key s' j ph' sh' key' Hinv Hlog Hph Hdel Hl').
Qed.

Lemma sound_get c s M ph key val ver :
  sound c s M -> is_u32 ph ->
  Shard.get s ph key val ver = Some (answer M ph key val ver).
Proof using All.
  intros Hs Hph.
  destruct (shard_get_returns HK s ph key val ver (sound_empty_slot c s M Hs)) as (r & Hget).
  rewrite Hget. f_equal.
  exact (refines_get HK s M ph key val ver r (sound_refines c s M Hs) Hph Hget).
Qed.

(** A shard holds no key whose primary hash lies outside its region. *)
Lemma sound_outside c s M p key :
  sound c s M -> primary_contains c p = false -> M (primary_hash p) key = None.
Proof using All.
  intros [Href Hlog _ Hwithin] Hout.
  destruct (M (primary_hash p) key) as [r|] eqn:HM; [|reflexivity]. exfalso.
  destruct (bound_logged HK s M (primary_hash p) key r Href Hlog HM) as (sh & j & Hl).
  pose proof (Hwithin j _ sh key Hl) as Hc. unfold contains in Hc.
  apply andb_true_iff in Hc as [Hc _].
  unfold primary_contains in Hc, Hout. cbn [point primary_hash] in Hc. congruence.
Qed.

Lemma sound_ext c s M M' :
  sound c s M -> (forall ph key, M' ph key = M ph key) -> sound c s M'.
Proof using All.
  intros [Href Hlog Hslots Hwithin] Hsame. constructor; try assumption.
  exact (refines_ext s M M' Href Hsame).
Qed.

End SoundShard.

(** * The disk: the maps of its shards *)

Lemma joint_app (A B : list contents) ph key :
  joint (A ++ B) ph key
  = match joint A ph key with Some r => Some r | None => joint B ph key end.
Proof.
  induction A as [|M A IH]; cbn [app joint]; [reflexivity|].
  destruct (M ph key); [reflexivity|exact IH].
Qed.

Lemma binders_app ph key (A B : list contents) :
  binders ph key (A ++ B) = binders ph key A ++ binders ph key B.
Proof. unfold binders. apply filter_app. Qed.

Lemma binders_cons ph key M (B : list contents) :
  binders ph key (M :: B)
  = if is_some (M ph key) then M :: binders ph key B else binders ph key B.
Proof. reflexivity. Qed.

Lemma joint_none_binders Ms ph key :
  joint Ms ph key = None <-> binders ph key Ms = [].
Proof.
  induction Ms as [|M Ms IH]; cbn [joint]; [split; reflexivity|].
  rewrite binders_cons. destruct (M ph key) as [r|]; cbn [is_some].
  - split; discriminate.
  - exact IH.
Qed.

Lemma joint_none_in Ms ph key :
  joint Ms ph key = None -> forall M, In M Ms -> M ph key = None.
Proof.
  induction Ms as [|M0 Ms IH]; intros Hj M Hin; [destruct Hin|].
  cbn [joint] in Hj. destruct (M0 ph key) as [r|] eqn:H0; [discriminate|].
  destruct Hin as [<-|Hin]; [exact H0|exact (IH Hj M Hin)].
Qed.

(** When a map binds a key, no other map of the list does. *)
Lemma apart_others A M B ph key :
  apart (A ++ M :: B) -> M ph key <> None ->
  joint A ph key = None /\ joint B ph key = None.
Proof.
  intros Hap HM. specialize (Hap ph key).
  rewrite binders_app, binders_cons, length_app in Hap.
  destruct (M ph key) as [r|]; [|contradiction]. cbn [is_some length] in Hap.
  split; apply joint_none_binders.
  - destruct (binders ph key A); [reflexivity|cbn [length] in Hap; lia].
  - destruct (binders ph key B); [reflexivity|cbn [length] in Hap; lia].
Qed.

Lemma apart_shrink A M M' B :
  apart (A ++ M :: B) ->
  (forall ph key, M' ph key <> None -> M ph key <> None) ->
  apart (A ++ M' :: B).
Proof.
  intros Hap Hsub ph key. specialize (Hap ph key).
  rewrite binders_app, binders_cons, length_app in *.
  destruct (M' ph key) as [r'|] eqn:HM'; cbn [is_some].
  - destruct (M ph key) as [r|] eqn:HM; cbn [is_some] in Hap; [exact Hap|].
    exfalso. apply (Hsub ph key); [congruence|exact HM].
  - destruct (M ph key); cbn [is_some length] in Hap; lia.
Qed.

Lemma apart_grow A M B ph key r :
  apart (A ++ M :: B) -> joint (A ++ M :: B) ph key = None ->
  apart (A ++ update M ph key (Some r) :: B).
Proof.
  intros Hap Hnone ph' key'. specialize (Hap ph' key').
  rewrite binders_app, binders_cons, length_app in *.
  unfold update at 1.
  destruct ((ph' =? ph) && buffer_eqb key' key) eqn:Hsame.
  2:{ destruct (is_some (M ph' key')); cbn [length] in *; exact Hap. }
  apply andb_true_iff in Hsame as [Hp Hk]. apply Z.eqb_eq in Hp.
  apply buffer_eqb_eq in Hk. subst ph' key'. cbn [is_some length].
  apply joint_none_binders in Hnone. rewrite binders_app, binders_cons in Hnone.
  apply app_eq_nil in Hnone as [HA HB]. rewrite HA.
  destruct (is_some (M ph key)); [discriminate|]. rewrite HB. cbn [length]. lia.
Qed.

(** The map of the list with one map changed. *)
Lemma joint_changed A M M' B ph key :
  M' ph key = M ph key -> joint (A ++ M' :: B) ph key = joint (A ++ M :: B) ph key.
Proof. intros HM. rewrite !joint_app. cbn [joint]. rewrite HM. reflexivity. Qed.

Lemma joint_deleted A M B ph key ph' key' :
  apart (A ++ M :: B) -> M ph key <> None ->
  joint (A ++ update M ph key None :: B) ph' key'
  = update (joint (A ++ M :: B)) ph key None ph' key'.
Proof.
  intros Hap HM. destruct (apart_others A M B ph key Hap HM) as [HA HB].
  unfold update at 2.
  destruct ((ph' =? ph) && buffer_eqb key' key) eqn:Hsame.
  - apply andb_true_iff in Hsame as [Hp Hk]. apply Z.eqb_eq in Hp.
    apply buffer_eqb_eq in Hk. subst ph' key'.
    rewrite joint_app, HA. cbn [joint]. rewrite update_same. exact HB.
  - apply joint_changed. unfold update. rewrite Hsame. reflexivity.
Qed.

Lemma joint_inserted A M B ph key r ph' key' :
  joint (A ++ M :: B) ph key = None ->
  joint (A ++ update M ph key (Some r) :: B) ph' key'
  = update (joint (A ++ M :: B)) ph key (Some r) ph' key'.
Proof.
  intros Hnone. unfold update at 2.
  destruct ((ph' =? ph) && buffer_eqb key' key) eqn:Hsame.
  - apply andb_true_iff in Hsame as [Hp Hk]. apply Z.eqb_eq in Hp.
    apply buffer_eqb_eq in Hk. subst ph' key'.
    rewrite joint_app in Hnone. destruct (joint A ph key) eqn:HA; [discriminate|].
    rewrite joint_app, HA. cbn [joint]. rewrite update_same. reflexivity.
  - apply joint_changed. unfold update. rewrite Hsame. reflexivity.
Qed.

(** The shard vector with one shard replaced. *)
Lemma replace_split (v1 : Disk.shard_vector) c sp v2 s' :
  Disk.replace (v1 ++ (c, sp) :: v2) (length v1) s' = v1 ++ (c, s') :: v2.
Proof.
  induction v1 as [|[c0 s0] v1 IH]; cbn [app length Disk.replace]; [reflexivity|].
  rewrite IH. reflexivity.
Qed.

Lemma replace_same (v1 : Disk.shard_vector) c sp v2 :
  Disk.replace (v1 ++ (c, sp) :: v2) (length v1)
               (Disk.mk_shard_ptr (Disk.file sp) (Disk.target sp))
  = v1 ++ (c, sp) :: v2.
Proof. rewrite replace_split. destruct sp. reflexivity. Qed.

Lemma replace4_split (v1 : Disk.shard_vector) x v2 a b c d :
  Disk.replace4 (v1 ++ x :: v2) (length v1) a b c d = v1 ++ v2 ++ [a; b; c; d].
Proof.
  unfold Disk.replace4.
  rewrite firstn_app, Nat.sub_diag, firstn_all. cbn [firstn]. rewrite app_nil_r.
  replace (S (length v1)) with (length v1 + 1)%nat by lia.
  rewrite skipn_app, skipn_all2 by lia.
  replace (length v1 + 1 - length v1)%nat with 1%nat by lia. reflexivity.
Qed.

Lemma nth_error_middle {A} (v1 : list A) x v2 :
  nth_error (v1 ++ x :: v2) (length v1) = Some x.
Proof. rewrite nth_error_app2 by lia. rewrite Nat.sub_diag. reflexivity. Qed.

Section DiskGet.
Context {K : shard_constants}.
Hypothesis HK : constants_ok K.
Hypothesis HSH : SEARCH_INDEX_ENTRIES < HASH_TABLE_ENTRIES.
Variable CityHash64 : buffer -> Z.
Variable CityHash64_each : list buffer -> list Z.
Variable lower_interlace : list Z -> Z.

Local Abbreviation get := (Disk.get CityHash64).
Local Abbreviation get_coordinate := (Disk.get_coordinate CityHash64).
Local Abbreviation entry_ok := (entry_ok CityHash64 CityHash64_each lower_interlace).
Local Abbreviation holds := (holds CityHash64 CityHash64_each lower_interlace).
Local Abbreviation disk_lookup := (disk_lookup CityHash64).

(** The walk of [get] over sound shards answers what the first shard that
    holds the key has for it. *)
Lemma get_shards_joint c k : forall shards Ms rc val ver,
  Forall2 (fun cs M => sound (fst cs) (Disk.target (snd cs)) M) shards Ms ->
  is_u32 (primary_hash c) -> rc <> SUCCESS ->
  exists r,
    Disk.get_shards shards c k rc val ver = Some r
    /\ as_lookup r = match joint Ms (primary_hash c) k with
                     | Some (v, ver') => Found v ver'
                     | None => NotFound
                     end.
Proof using HK HSH.
  intros shards Ms rc val ver Hall Hph. revert rc val ver.
  induction Hall as [|[ci si] M shards Ms Hs Hall IH]; intros rc val ver Hrc;
    cbn [Disk.get_shards joint].
  - exists (rc, val, ver). split; [reflexivity|]. unfold as_lookup.
    destruct (returncode_eqb rc SUCCESS) eqn:E; [|reflexivity].
    apply returncode_eqb_eq in E. contradiction.
  - cbn [fst snd] in Hs.
    destruct (primary_contains ci c) eqn:Hin; cbn [negb].
    + rewrite (sound_get HK HSH ci (Disk.target si) M (primary_hash c) k val ver Hs Hph).
      unfold answer. destruct (M (primary_hash c) k) as [[v ver']|] eqn:HM.
      * cbn [returncode_eqb]. exists (SUCCESS, v, ver'). split; reflexivity.
      * cbn [returncode_eqb]. apply IH. discriminate.
    + rewrite (sound_outside HK HSH ci (Disk.target si) M c k Hs Hin). apply IH. exact Hrc.
Qed.

Lemma disk_lookup_ext M M' log k :
  (forall ph key, M' ph key = M ph key) -> disk_lookup M' log k = disk_lookup M log k.
Proof. intros Hsame. unfold disk_lookup. rewrite Hsame. reflexivity. Qed.

(** [get] on a disk whose shards hold [Ms]: it returns, and answers what
    the WAL and the maps say. *)
Lemma holds_get d Ms k val ver :
  holds d Ms ->
  exists r, get d k val ver = Some r
            /\ as_lookup r = disk_lookup (joint Ms) (Disk.m_log d) k.
Proof using HK HSH.
  intros Hd.
  destruct (get_shards_joint (get_coordinate k) k (Disk.m_shards d) Ms NOTFOUND val ver
                             (holds_shards _ _ _ d Ms Hd) (u32_range _) ltac:(discriminate))
    as (r0 & Hwalk & Hr0).
  pose proof (get_by_last_match CityHash64 d k val ver) as Hlast.
  rewrite Hwalk in Hlast.
  destruct (get d k val ver) as [r|] eqn:Hget.
  2:{ cbn [option_map] in Hlast. destruct (last_match _ _ _) as [x|];
      [destruct (_ =? _)|]; discriminate. }
  exists r. split; [reflexivity|]. cbn [option_map] in Hlast. unfold disk_lookup.
  destruct (last_match (get_coordinate k) k (Disk.m_log d)) as [x|].
  - destruct (secondary_mask (Disk.coord x) =? UINT32_MAX); congruence.
  - assert (Has : as_lookup r = as_lookup r0) by congruence.
    rewrite Has, Hr0. reflexivity.
Qed.

(** The oldest entry of the WAL hides what the shards hold for its key. *)
Lemma disk_lookup_masked arity M e rest k :
  entry_ok arity e ->
  disk_lookup (update M (primary_hash (Disk.coord e)) (Disk.key e) None) (e :: rest) k
  = disk_lookup M (e :: rest) k.
Proof.
  intros He. unfold disk_lookup, last_match. cbn [rev]. rewrite find_append.
  destruct (find (wal_matches (get_coordinate k) k) (rev rest)) as [x|]; [reflexivity|].
  cbn [find]. rewrite (entry_matches CityHash64 CityHash64_each lower_interlace arity e k He).
  destruct (buffer_eqb (Disk.key e) k) eqn:Hk; [reflexivity|].
  rewrite update_other; [reflexivity|].
  intros Heq. apply pair_equal_spec in Heq as [_ Heq]. subst k.
  rewrite buffer_eqb_refl in Hk. discriminate.
Qed.

End DiskGet.

(** * The disk: the oldest entry of the WAL goes into the shards *)

Lemma Forall2_middle {A B} (P : A -> B -> Prop) (l1 : list A) x l2 (k1 : list B) y k2 :
  length k1 = length l1 ->
  Forall2 P (l1 ++ x :: l2) (k1 ++ y :: k2) ->
  Forall2 P l1 k1 /\ P x y /\ Forall2 P l2 k2.
Proof.
  revert k1. induction l1 as [|a l1 IH]; intros [|b k1] Hlen Hall;
    cbn [length app] in *; try discriminate.
  - inversion Hall as [|? ? ? ? Hxy Hrest]; subst.
    split; [constructor|]. split; assumption.
  - inversion Hall as [|? ? ? ? Hab Hrest]; subst.
    assert (Hlen' : length k1 = length l1) by lia.
    destruct (IH k1 Hlen' Hrest) as (Hl1 & Hxy & Hl2).
    split; [constructor; assumption|]. split; assumption.
Qed.

Lemma Forall2_nth_split {A B} (P : A -> B -> Prop) (l : list A) (k : list B) i x :
  Forall2 P l k -> nth_error l i = Some x ->
  exists l1 l2 k1 y k2,
    l = l1 ++ x :: l2 /\ k = k1 ++ y :: k2 /\ length l1 = i /\ length k1 = i
    /\ Forall2 P l1 k1 /\ P x y /\ Forall2 P l2 k2.
Proof.
  intros Hall. revert i. induction Hall as [|a b l k Hab Hall IH]; intros [|i] Hnth;
    cbn [nth_error] in Hnth; try discriminate.
  - injection Hnth as ->. exists [], l, [], b, k. repeat split; try assumption. constructor.
  - destruct (IH i Hnth) as (l1 & l2 & k1 & y & k2 & -> & -> & Hl1 & Hk1 & H1 & Hxy & H2).
    exists (a :: l1), l2, (b :: k1), y, k2. cbn [app length].
    repeat split; try assumption; try lia. constructor; assumption.
Qed.

Lemma nth_error_in_prefix {A} (k1 : list A) y k2 j M :
  (j <= length k1)%nat -> nth_error (k1 ++ y :: k2) j = Some M ->
  (j < length k1)%nat /\ nth_error k1 j = Some M \/ j = length k1 /\ M = y.
Proof.
  intros Hj Hnth. destruct (Nat.eq_dec j (length k1)) as [->|Hne].
  - right. rewrite nth_error_middle in Hnth. split; congruence.
  - left. split; [lia|]. rewrite nth_error_app1 in Hnth by lia. exact Hnth.
Qed.

Section FlushEntry.
Context {K : shard_constants}.
Hypothesis HK : constants_ok K.
Hypothesis HSH : SEARCH_INDEX_ENTRIES < HASH_TABLE_ENTRIES.
Variable CityHash64 : buffer -> Z.
Variable CityHash64_each : list buffer -> list Z.
Variable lower_interlace : list Z -> Z.

Local Abbreviation entry_ok := (entry_ok CityHash64 CityHash64_each lower_interlace).
Local Abbreviation holds := (holds CityHash64 CityHash64_each lower_interlace).
Local Abbreviation sound_pair :=
  (fun (cs : coordinate * Disk.shard_ptr) (M : contents) =>
     sound (fst cs) (Disk.target (snd cs)) M).

(** What [holds] depends on. *)
Lemma holds_same d d' Ms :
  Disk.m_shards d' = Disk.m_shards d -> Disk.m_log d' = Disk.m_log d ->
  Disk.m_arity d' = Disk.m_arity d -> holds d Ms -> holds d' Ms.
Proof using Type.
  intros Hs Hl Ha [H1 H2 H3 H4 H5 H6].
  constructor; unfold partitioned, coordinates in *; rewrite ?Hs, ?Hl, ?Ha; assumption.
Qed.

(** One shard of the disk replaced by a shard of the same region. *)
Lemma holds_replaced d d' v1 c sp v2 Ms1 M Ms2 sp' M' :
  holds d (Ms1 ++ M :: Ms2) ->
  Disk.m_shards d = v1 ++ (c, sp) :: v2 -> length Ms1 = length v1 ->
  sound c (Disk.target sp') M' -> apart (Ms1 ++ M' :: Ms2) ->
  Disk.m_shards d' = v1 ++ (c, sp') :: v2 -> Disk.m_log d' = Disk.m_log d ->
  Disk.m_arity d' = Disk.m_arity d ->
  holds d' (Ms1 ++ M' :: Ms2).
Proof using Type.
  intros [H1 H2 H3 H4 H5 H6] Hv Hlen Hs Hap Hv' Hl Ha.
  rewrite Hv in H1. destruct (Forall2_middle _ _ _ _ _ _ _ Hlen H1) as (Ha1 & _ & Ha2).
  assert (Hco : coordinates d' = coordinates d).
  { unfold coordinates. rewrite Hv, Hv', !map_app. reflexivity. }
  constructor.
  - rewrite Hv'. apply Forall2_app; [exact Ha1|]. constructor; [exact Hs|exact Ha2].
  - exact Hap.
  - unfold partitioned in *. rewrite Hco. exact H3.
  - rewrite Hco. exact H4.
  - rewrite Hl, Ha. exact H5.
  - rewrite Ha. exact H6.
Qed.

(** The first loop of [flush] on a disk whose shards hold [Ms]: either the
    key of the entry is in no shard afterwards, or the loop has left for
    [deal_with_full_shard] with the shards as they were. *)
Lemma flush_del_spec e : forall remaining d i Ms,
  holds d Ms -> is_u32 (primary_hash (Disk.coord e)) ->
  (length (Disk.m_shards d) <= i + remaining)%nat ->
  (forall j M, (j < i)%nat -> nth_error Ms j = Some M ->
               M (primary_hash (Disk.coord e)) (Disk.key e) = None) ->
  match Disk.flush_del d e remaining i with
  | Disk.Falls_through d1 =>
      exists Ms1,
        holds d1 Ms1 /\ Disk.m_log d1 = Disk.m_log d
        /\ forall ph key,
            joint Ms1 ph key
            = update (joint Ms) (primary_hash (Disk.coord e)) (Disk.key e) None ph key
  | Disk.Leaves o =>
      exists d1 i1,
        o = Disk.deal_with_full_shard d1 i1 /\ holds d1 Ms
        /\ Disk.m_log d1 = Disk.m_log d /\ (i1 < length (Disk.m_shards d1))%nat
  end.
Proof using HK HSH.
  set (ph := primary_hash (Disk.coord e)). set (key := Disk.key e).
  assert (Hend : forall d i Ms,
             holds d Ms -> (length (Disk.m_shards d) <= i)%nat ->
             (forall j M, (j < i)%nat -> nth_error Ms j = Some M -> M ph key = None) ->
             exists Ms1,
               holds d Ms1 /\ Disk.m_log d = Disk.m_log d
               /\ forall ph' key', joint Ms1 ph' key' = update (joint Ms) ph key None ph' key').
  { intros d i Ms Hd Hlen Hnone. exists Ms. split; [exact Hd|]. split; [reflexivity|].
    intros ph' key'. symmetry. apply update_none_same.
    pose proof (Forall2_length (holds_shards _ _ _ d Ms Hd)) as Hlens.
    assert (Hall : forall M, In M Ms -> M ph key = None).
    { intros M Hin. destruct (In_nth_error _ _ Hin) as (j & Hj).
      apply (Hnone j M); [|exact Hj].
      assert (j < length Ms)%nat by (apply nth_error_Some; congruence). lia. }
    clear - Hall. induction Ms as [|M Ms IH]; [reflexivity|]. cbn [joint].
    rewrite (Hall M (or_introl eq_refl)). apply IH. intros M' Hin. apply Hall. right. exact Hin. }
  induction remaining as [|remaining IH]; intros d i Ms Hd Hph Hlen Hnone;
    cbn [Disk.flush_del].
  - apply (Hend d i Ms Hd); [lia|exact Hnone].
  - destruct (nth_error (Disk.m_shards d) i) as [[ci si]|] eqn:Hnth.
    2:{ apply nth_error_None in Hnth. apply (Hend d i Ms Hd); [lia|exact Hnone]. }
    destruct (Forall2_nth_split _ _ _ i (ci, si) (holds_shards _ _ _ d Ms Hd) Hnth)
      as (v1 & v2 & Ms1 & M & Ms2 & Hv & HMs & Hl1 & Hk1 & Ha1 & Hs & Ha2).
    cbn [fst snd] in Hs.
    assert (Hnext : M ph key = None ->
                    forall j M0, (j < S i)%nat -> nth_error Ms j = Some M0 -> M0 ph key = None).
    { intros HM j M0 Hj Hnj. rewrite HMs in Hnj.
      destruct (nth_error_in_prefix Ms1 M Ms2 j M0 ltac:(lia) Hnj) as [[Hlt Hn]|[_ ->]];
        [|exact HM].
      apply (Hnone j M0); [lia|]. rewrite HMs, nth_error_app1 by lia. exact Hn. }
    destruct (primary_contains ci (Disk.coord e)) eqn:Hin; cbn [negb].
    2:{ apply (IH d (S i) Ms Hd Hph); [lia|]. apply Hnext.
        exact (sound_outside HK HSH ci (Disk.target si) M (Disk.coord e) key Hs Hin). }
    destruct (shard_del_returns HK (Disk.target si) ph key
                                (sound_empty_slot HK HSH ci _ M Hs)) as ([rc s'] & Hdel).
    fold ph key. rewrite Hdel.
    set (d1 := Disk.set_shards d (Disk.replace (Disk.m_shards d) i
                                               (Disk.mk_shard_ptr (Disk.file si) s'))).
    assert (Hsame : s' = Disk.target si -> holds d1 Ms /\ Disk.m_log d1 = Disk.m_log d
                                           /\ Disk.m_shards d1 = Disk.m_shards d).
    { intros ->. assert (Hsh : Disk.m_shards d1 = Disk.m_shards d).
      { unfold d1. cbn [Disk.set_shards Disk.m_shards]. rewrite Hv, <- Hl1.
        apply replace_same. }
      split; [|split; [reflexivity|exact Hsh]].
      apply (holds_same d d1 Ms Hsh); [reflexivity|reflexivity|exact Hd]. }
    destruct (sound_del HK HSH ci (Disk.target si) M ph key rc s' Hs Hph Hdel)
      as [(-> & Hs' & HM)|[(-> & Hs' & HM)|(-> & HM & Hsound')]].
    + destruct (Hsame Hs') as (Hd1 & Hlog1 & Hsh1).
      pose proof (IH d1 (S i) Ms Hd1 Hph ltac:(rewrite Hsh1; lia) (Hnext HM)) as Hrec.
      destruct (Disk.flush_del d1 e remaining (S i)) as [d2|o].
      * destruct Hrec as (Ms' & Hd2 & Hlog2 & Hj). exists Ms'.
        split; [exact Hd2|]. split; [congruence|exact Hj].
      * destruct Hrec as (d2 & i2 & Ho & Hd2 & Hlog2 & Hi2). exists d2, i2.
        split; [exact Ho|]. split; [exact Hd2|]. split; [congruence|exact Hi2].
    + destruct (Hsame Hs') as (Hd1 & Hlog1 & Hsh1).
      exists d1, i. split; [reflexivity|]. split; [exact Hd1|]. split; [exact Hlog1|].
      rewrite Hsh1. apply nth_error_Some. congruence.
    + rewrite HMs in Hd.
      assert (Hap : apart (Ms1 ++ update M ph key None :: Ms2)).
      { apply (apart_shrink Ms1 M _ Ms2 (holds_apart _ _ _ d _ Hd)).
        intros ph' key' Hb. unfold update in Hb.
        destruct ((ph' =? ph) && buffer_eqb key' key); [contradiction|exact Hb]. }
      exists (Ms1 ++ update M ph key None :: Ms2). split; [|split; [reflexivity|]].
      * apply (holds_replaced d d1 v1 ci si v2 Ms1 M Ms2
                              (Disk.mk_shard_ptr (Disk.file si) s') _ Hd Hv ltac:(lia)
                              Hsound' Hap); [|reflexivity|reflexivity].
        unfold d1. cbn [Disk.set_shards Disk.m_shards]. rewrite Hv, <- Hl1.
        apply replace_split.
      * intros ph' key'. rewrite HMs.
        apply (joint_deleted Ms1 M Ms2 ph key ph' key' (holds_apart _ _ _ d _ Hd) HM).
Qed.

(** A [put] entry of the WAL carries the hashes of a point. *)
Lemma put_entry arity e :
  entry_ok arity e -> secondary_mask (Disk.coord e) = UINT32_MAX ->
  Disk.coord e = point (primary_hash (Disk.coord e)) (secondary_hash (Disk.coord e))
  /\ is_u32 (primary_hash (Disk.coord e)) /\ is_u32 (secondary_hash (Disk.coord e))
  /\ Z.of_nat (length (Disk.value e)) + 1 = arity
  /\ 0 <= Disk.version e < 2 ^ 64.
Proof using Type.
  intros [(Hc & Hlen & Hver)|Hc] Hput.
  - rewrite Hc. cbn [Disk.get_coordinate_value primary_hash secondary_hash point].
    split; [reflexivity|]. split; [apply u32_range|]. split; [apply u32_range|].
    split; assumption.
  - rewrite Hc in Hput. cbn in Hput. discriminate.
Qed.

(** The second loop of [flush] for a [put] entry whose key is in no shard:
    either the shard of its region holds the record afterwards, or the loop
    has left for [deal_with_full_shard] with the shards as they were. *)
Lemma flush_put_spec e : forall n d Ms,
  holds d Ms -> entry_ok (Disk.m_arity d) e ->
  secondary_mask (Disk.coord e) = UINT32_MAX ->
  (n <= length (Disk.m_shards d))%nat ->
  (exists j cj sj, (j < n)%nat /\ nth_error (Disk.m_shards d) j = Some (cj, sj)
                   /\ contains cj (Disk.coord e) = true) ->
  joint Ms (primary_hash (Disk.coord e)) (Disk.key e) = None ->
  match Disk.flush_put d e n with
  | Disk.Falls_through d1 =>
      exists Ms1,
        holds d1 Ms1 /\ Disk.m_log d1 = Disk.m_log d
        /\ forall ph key,
            joint Ms1 ph key
            = update (joint Ms) (primary_hash (Disk.coord e)) (Disk.key e)
                     (Some (Disk.value e, Disk.version e)) ph key
  | Disk.Leaves o =>
      exists d1 i1,
        o = Disk.deal_with_full_shard d1 i1 /\ holds d1 Ms
        /\ Disk.m_log d1 = Disk.m_log d /\ (i1 < length (Disk.m_shards d1))%nat
  end.
Proof using HK HSH.
  intros n d Ms Hd He Hput.
  destruct (put_entry _ e He Hput) as (Hpoint & Hph & Hsh & Hlen & Hver).
  set (ph := primary_hash (Disk.coord e)) in *.
  set (sh := secondary_hash (Disk.coord e)) in *. set (key := Disk.key e).
  pose proof (holds_arity _ _ _ d Ms Hd) as Har.
  induction n as [|i IH]; intros Hn Hex Hnone; cbn [Disk.flush_put].
  - destruct Hex as (j & _ & _ & Hj & _). lia.
  - destruct (nth_error (Disk.m_shards d) i) as [[ci si]|] eqn:Hnth.
    2:{ apply nth_error_None in Hnth. lia. }
    destruct (contains ci (Disk.coord e)) eqn:Hin; cbn [negb].
    2:{ apply IH; [lia| |exact Hnone].
        destruct Hex as (j & cj & sj & Hj & Hnj & Hcj). exists j, cj, sj.
        split; [|split; assumption].
        destruct (Nat.eq_dec j i) as [->|]; [|lia]. congruence. }
    destruct (Forall2_nth_split _ _ _ i (ci, si) (holds_shards _ _ _ d Ms Hd) Hnth)
      as (v1 & v2 & Ms1 & M & Ms2 & Hv & HMs & Hl1 & Hk1 & Ha1 & Hs & Ha2).
    cbn [fst snd] in Hs.
    destruct (shard_put_returns HK (Disk.target si) ph sh key (Disk.value e) (Disk.version e)
                                (sound_empty_slot HK HSH ci _ M Hs)) as ([[rc s'] f] & Hp).
    fold ph sh key. rewrite Hp.
    set (d1 := Disk.set_shards d (Disk.replace (Disk.m_shards d) i
                                               (Disk.mk_shard_ptr (Disk.file si) s'))).
    assert (Hfull : rc <> SUCCESS ->
                    exists d2 i2,
                      Disk.deal_with_full_shard d1 i = Disk.deal_with_full_shard d2 i2
                      /\ holds d2 Ms /\ Disk.m_log d2 = Disk.m_log d
                      /\ (i2 < length (Disk.m_shards d2))%nat).
    { intros Hrc. destruct (put_failed _ _ _ _ _ _ _ _ _ Hp Hrc) as [-> _].
      assert (Hsh1 : Disk.m_shards d1 = Disk.m_shards d).
      { unfold d1. cbn [Disk.set_shards Disk.m_shards]. rewrite Hv, <- Hl1.
        apply replace_same. }
      exists d1, i. split; [reflexivity|]. split; [|split; [reflexivity|]].
      - apply (holds_same d d1 Ms Hsh1); [reflexivity|reflexivity|exact Hd].
      - rewrite Hsh1. apply nth_error_Some. congruence. }
    destruct rc;
      try (apply Hfull; discriminate);
      try (exfalso; destruct (put_failed _ _ _ _ _ _ _ _ _ Hp ltac:(discriminate))
             as [_ [Hx|Hx]]; discriminate).
    rewrite HMs in Hd, Hnone.
    assert (Hc : contains ci (point ph sh) = true) by (rewrite <- Hpoint; exact Hin).
    pose proof (sound_put HK HSH ci (Disk.target si) M ph sh key (Disk.value e)
                          (Disk.version e) s' f Hs Hph Hsh Hver ltac:(lia) Hc Hp) as Hsound'.
    exists (Ms1 ++ update M ph key (Some (Disk.value e, Disk.version e)) :: Ms2).
    split; [|split; [reflexivity|]].
    + apply (holds_replaced d d1 v1 ci si v2 Ms1 M Ms2
                            (Disk.mk_shard_ptr (Disk.file si) s') _ Hd Hv ltac:(lia)
                            Hsound'); [| |reflexivity|reflexivity].
      * apply apart_grow; [exact (holds_apart _ _ _ d _ Hd)|exact Hnone].
      * unfold d1. cbn [Disk.set_shards Disk.m_shards]. rewrite Hv, <- Hl1.
        apply replace_split.
    + intros ph' key'. rewrite HMs. apply joint_inserted. exact Hnone.
Qed.

End FlushEntry.

(** * The disk: a full shard is cleaned or split *)

Section DiskFull.
Context {K : shard_constants}.
Hypothesis HK : constants_ok K.
Hypothesis HSH : SEARCH_INDEX_ENTRIES < HASH_TABLE_ENTRIES.
Variable CityHash64 : buffer -> Z.
Variable CityHash64_each : list buffer -> list Z.
Variable lower_interlace : list Z -> Z.

Local Abbreviation entry_ok := (entry_ok CityHash64 CityHash64_each lower_interlace).
Local Abbreviation holds := (holds CityHash64 CityHash64_each lower_interlace).
Local Abbreviation mso := Shard.m_search_offset.

(** What [copy_to] leaves in the target is sound for the region copied,
    and holds the share of that region. *)
Lemma copied_share src M c dst N :
  refines src M -> log_inv src -> balanced c ->
  copied src M c SEARCH_INDEX_ENTRIES dst N ->
  sound c dst N /\ share src M c N.
Proof using HK.
  intros Hsrc Hlogs Hc [Href Hlogd Hslots Hlive Hwithin _ _ Hsub Hsup].
  pose proof (inv_search_offset src (ref_inv src M Hsrc)) as Hmso.
  split; [constructor; try assumption|split].
  - intros j ph sh key Hl. rewrite <- (intersects_point c ph sh Hc).
    exact (Hwithin j ph sh key Hl).
  - intros ph key r HN. destruct (Hsub ph key r HN) as (HM & j & sh & _ & Hl & Hi).
    split; [exact HM|]. exists sh. split; [exists j; exact Hl|].
    rewrite <- (intersects_point c ph sh Hc). exact Hi.
  - intros ph sh key (j & Hl) Hin. apply (Hsup j ph sh key); [|exact Hl|].
    + destruct Hl as (Hj & _). lia.
    + rewrite (intersects_point c ph sh Hc). exact Hin.
Qed.

(** The share of the region of the shard itself is all the shard holds. *)
Lemma share_own c src M N :
  sound c src M -> share src M c N -> forall ph key, N ph key = M ph key.
Proof using HK.
  intros [Href Hlog _ Hwithin] [Hsub Hsup] ph key.
  destruct (M ph key) as [r|] eqn:HM.
  - destruct (bound_logged HK src M ph key r Href Hlog HM) as (sh & j & Hl).
    rewrite (Hsup ph sh key (ex_intro _ j Hl) (Hwithin j ph sh key Hl)). exact HM.
  - destruct (N ph key) as [r|] eqn:HN; [|reflexivity].
    destruct (Hsub ph key r HN) as [HMr _]. congruence.
Qed.

(** The shares of a key that the shard holds, for a list of regions. *)
Lemma shares_bound src M ph sh key r :
  refines src M -> log_inv src -> logged src ph sh key -> M ph key = Some r ->
  forall (new : list (coordinate * Disk.shard_ptr)) Ns,
    Forall2 (fun cs N => share src M (fst cs) N) new Ns ->
    length (binders ph key Ns) = length (holders (point ph sh) (map fst new))
    /\ joint Ns ph key = match holders (point ph sh) (map fst new) with
                        | [] => None
                        | _ :: _ => Some r
                        end.
Proof using HK.
  intros Hsrc Hlogs (j & Hl) HM new Ns Hall.
  pose proof (ref_inv src M Hsrc) as Hinv.
  induction Hall as [|[c sp] N new Ns [Hsub Hsup] Hall [IHb IHj]];
    [split; reflexivity|].
  cbn [map fst]. rewrite binders_cons. unfold holders in *. cbn [filter joint].
  destruct (contains c (point ph sh)) eqn:Hin.
  - cbn [fst] in Hsup. rewrite (Hsup ph sh key (ex_intro _ j Hl) Hin), HM. cbn [is_some length].
    split; [rewrite IHb; reflexivity|reflexivity].
  - assert (HN : N ph key = None).
    { destruct (N ph key) as [r'|] eqn:HN; [|reflexivity]. exfalso.
      destruct (Hsub ph key r' HN) as (_ & sh' & (j' & Hl') & Hin'). cbn [fst] in Hin'.
      pose proof (logged_at_unique HK src j' j ph sh' sh key Hinv Hlogs Hl' Hl) as Hjj.
      subst j'. destruct Hl as (_ & _ & _ & Hs & _). destruct Hl' as (_ & _ & _ & Hs' & _).
      congruence. }
    rewrite HN. cbn [is_some]. split; assumption.
Qed.

Lemma shares_unbound src M ph key :
  M ph key = None ->
  forall (new : list (coordinate * Disk.shard_ptr)) Ns,
    Forall2 (fun cs N => share src M (fst cs) N) new Ns -> joint Ns ph key = None.
Proof using Type.
  intros HM new Ns Hall.
  induction Hall as [|[c sp] N new Ns [Hsub _] Hall IH]; [reflexivity|].
  cbn [joint]. destruct (N ph key) as [r|] eqn:HN; [|exact IH].
  destruct (Hsub ph key r HN) as [HMr _]. congruence.
Qed.

Lemma children_balanced c sb lb ub :
  balanced c ->
  0 <= sb <= 31 -> Z.testbit (secondary_mask c) sb = false ->
  0 <= lb <= 31 -> Z.testbit (primary_mask c) lb = false ->
  0 <= ub <= 31 -> Z.testbit (primary_mask c) ub = false ->
  Forall balanced (children c sb lb ub).
Proof using Type.
  intros Hc Hsb Hsm Hlb Hlm Hub Hum. unfold children.
  repeat (apply Forall_cons; [apply balanced_child; assumption|]). apply Forall_nil.
Qed.

(** The disk after the shard of region [c] has made room for shards that
    hold its shares of the regions of the children of [c]. *)
Lemma holds_children d d' v1 c sp v2 Ms1 M Ms2 new Ns sb lb ub :
  holds d (Ms1 ++ M :: Ms2) ->
  Disk.m_shards d = v1 ++ (c, sp) :: v2 -> length Ms1 = length v1 ->
  0 <= sb <= 31 -> Z.testbit (secondary_mask c) sb = false ->
  0 <= lb <= 31 -> Z.testbit (primary_mask c) lb = false ->
  0 <= ub <= 31 -> Z.testbit (primary_mask c) ub = false ->
  map fst new = children c sb lb ub ->
  Forall2 (fun cs N => copied (Disk.target sp) M (fst cs) SEARCH_INDEX_ENTRIES
                              (Disk.target (snd cs)) N) new Ns ->
  Disk.m_shards d' = v1 ++ v2 ++ new -> Disk.m_log d' = Disk.m_log d ->
  Disk.m_arity d' = Disk.m_arity d ->
  holds d' (Ms1 ++ Ms2 ++ Ns)
  /\ forall ph key, joint (Ms1 ++ Ms2 ++ Ns) ph key = joint (Ms1 ++ M :: Ms2) ph key.
Proof using HK.
  intros [H1 H2 H3 H4 H5 H6] Hv Hlen Hsb Hsm Hlb Hlm Hub Hum Hnew Hcopies Hv' Hl Ha.
  rewrite Hv in H1. destruct (Forall2_middle _ _ _ _ _ _ _ Hlen H1) as (Ha1 & Hs & Ha2).
  cbn [fst snd] in Hs. destruct Hs as [Hsrc Hlogs Hslots Hwithin].
  assert (Hco : coordinates d = map fst v1 ++ c :: map fst v2).
  { unfold coordinates. rewrite Hv, map_app. reflexivity. }
  assert (Hco' : coordinates d' = map fst v1 ++ map fst v2 ++ children c sb lb ub).
  { unfold coordinates. rewrite Hv', !map_app, Hnew. reflexivity. }
  rewrite Hco in H4. apply Forall_app in H4 as [Hb1 Hb2].
  pose proof (Forall_inv Hb2) as Hc. pose proof (Forall_inv_tail Hb2) as Hb3.
  destruct H3 as [Hnormal Hone]. rewrite Hco in Hnormal, Hone.
  apply Forall_app in Hnormal as [Hn1 Hn2].
  pose proof (Forall_inv Hn2) as Hcn. pose proof (Forall_inv_tail Hn2) as Hn3.
  pose proof (children_balanced c sb lb ub Hc Hsb Hsm Hlb Hlm Hub Hum) as Hcb.
  rewrite <- Hnew in Hcb.
  assert (Hparts : Forall2 (fun cs N => sound (fst cs) (Disk.target (snd cs)) N) new Ns
                   /\ Forall2 (fun cs N => share (Disk.target sp) M (fst cs) N) new Ns).
  { clear - HK Hcopies Hcb Hsrc Hlogs.
    induction Hcopies as [|[c0 s0] N new Ns Hcp Hall IH]; [split; constructor|].
    cbn [map] in Hcb. destruct (IH (Forall_inv_tail Hcb)) as [IH1 IH2].
    destruct (copied_share _ M c0 _ N Hsrc Hlogs (Forall_inv Hcb) Hcp) as [Hs Hsh].
    split; constructor; assumption. }
  destruct Hparts as [Hsounds Hshares].
  assert (Hkids : forall p,
             length (holders p (children c sb lb ub))
             = if contains c p then 1%nat else 0%nat).
  { intros p. apply children_holders; try assumption; lia. }
  assert (Hkey : forall ph key,
             (length (binders ph key (Ms1 ++ Ms2 ++ Ns)) <= 1)%nat
             /\ joint (Ms1 ++ Ms2 ++ Ns) ph key = joint (Ms1 ++ M :: Ms2) ph key).
  { intros ph key. rewrite !binders_app, !length_app, !joint_app. cbn [joint].
    destruct (M ph key) as [r|] eqn:HM.
    - destruct (apart_others Ms1 M Ms2 ph key H2 ltac:(congruence)) as [HA HB].
      rewrite HA, HB.
      apply joint_none_binders in HA. apply joint_none_binders in HB. rewrite HA, HB.
      destruct (bound_logged HK _ M ph key r Hsrc Hlogs HM) as (sh & j & Hlg).
      destruct (shares_bound _ M ph sh key r Hsrc Hlogs (ex_intro _ j Hlg) HM new Ns Hshares)
        as [Hb Hj].
      rewrite Hnew in Hb, Hj. pose proof (Hkids (point ph sh)) as Hk.
      rewrite (Hwithin j ph sh key Hlg) in Hk. rewrite Hb, Hj, Hk. cbn [length].
      split; [lia|].
      destruct (holders (point ph sh) (children c sb lb ub)); [discriminate|reflexivity].
    - pose proof (shares_unbound _ M ph key HM new Ns Hshares) as HN. rewrite HN.
      apply joint_none_binders in HN. rewrite HN. cbn [length].
      specialize (H2 ph key). rewrite binders_app, binders_cons, length_app, HM in H2.
      cbn [is_some] in H2. split; [lia|].
      destruct (joint Ms1 ph key); [reflexivity|]. destruct (joint Ms2 ph key); reflexivity. }
  split; [|intros ph key; apply Hkey].
  constructor.
  - rewrite Hv'. apply Forall2_app; [exact Ha1|]. apply Forall2_app; assumption.
  - intros ph key. apply Hkey.
  - split; rewrite Hco'.
    + apply Forall_app. split; [exact Hn1|]. apply Forall_app. split; [exact Hn3|].
      apply children_normal; try assumption; lia.
    + intros p. specialize (Hone p). rewrite !holders_app, !length_app in *.
      change (holders p (c :: map fst v2))
        with (if contains c p then c :: holders p (map fst v2) else holders p (map fst v2))
        in Hone.
      rewrite (Hkids p). destruct (contains c p); cbn [length] in Hone; lia.
  - rewrite Hco'. apply Forall_app. split; [exact Hb1|]. apply Forall_app.
    split; [exact Hb3|]. rewrite <- Hnew. exact Hcb.
  - rewrite Hl, Ha. exact H5.
  - rewrite Ha. exact H6.
Qed.

(** [create_shard] and [copy_to] for a child of a sound shard. *)
Lemma create_and_copy_sound d s c :
  forall M, refines s M -> log_inv s ->
  match Disk.create_and_copy d s c with
  | Disk.Returns child d' =>
      (Disk.m_shards d' = Disk.m_shards d /\ Disk.m_log d' = Disk.m_log d
       /\ Disk.m_arity d' = Disk.m_arity d)
      /\ exists N, copied s M c SEARCH_INDEX_ENTRIES (Disk.target child) N
  | Disk.Throws d' =>
      Disk.m_shards d' = Disk.m_shards d /\ Disk.m_log d' = Disk.m_log d
      /\ Disk.m_arity d' = Disk.m_arity d
  | Disk.Undefined => False
  end.
Proof using HK HSH.
  intros M Href Hlog. unfold Disk.create_and_copy.
  pose proof (create_shard_shards d c) as Hshards.
  pose proof (create_shard_log d c) as Hsame.
  assert (Hnever : Disk.create_shard d c <> Disk.Undefined).
  { unfold Disk.create_shard. destruct (Disk.m_spare_shards d) as [|[name sp] rest];
      [discriminate|]. destruct (Disk.renameat _ _ _); discriminate. }
  destruct (Disk.create_shard d c) as [child d1|d1|]; [| |contradiction].
  - destruct (copy_to_spec HK (Z.lt_le_incl _ _ HSH) s M c (Disk.target child) Href Hlog)
      as (dst & N & Hcopy & Hcp).
    rewrite Hcopy. destruct Hsame as [Hl Ha].
    split; [split; [exact Hshards|split; assumption]|]. exists N. exact Hcp.
  - destruct Hsame as [Hl Ha]. split; [exact Hshards|split; assumption].
Qed.

End DiskFull.

(** * The disk: [deal_with_full_shard] keeps what the shards hold *)

Section DiskFullShard.
Context {K : shard_constants}.
Hypothesis HK : constants_ok K.
Hypothesis HSH : SEARCH_INDEX_ENTRIES < HASH_TABLE_ENTRIES.
Variable CityHash64 : buffer -> Z.
Variable CityHash64_each : list buffer -> list Z.
Variable lower_interlace : list Z -> Z.

Local Abbreviation entry_ok := (entry_ok CityHash64 CityHash64_each lower_interlace).
Local Abbreviation holds := (holds CityHash64 CityHash64_each lower_interlace).

Local Abbreviation kept := (kept CityHash64 CityHash64_each lower_interlace).

Lemma kept_same d Ms d' :
  holds d Ms -> Disk.m_shards d' = Disk.m_shards d -> Disk.m_log d' = Disk.m_log d ->
  Disk.m_arity d' = Disk.m_arity d -> kept d Ms d'.
Proof using Type.
  intros Hd Hs Hl Ha. exists Ms. split; [|split; [exact Hl|reflexivity]].
  exact (holds_same CityHash64 CityHash64_each lower_interlace d d' Ms Hs Hl Ha Hd).
Qed.

Lemma holds_nth d Ms i c sp :
  holds d Ms -> nth_error (Disk.m_shards d) i = Some (c, sp) ->
  balanced c /\ short_log (Disk.target sp).
Proof using Type.
  intros Hd Hnth.
  destruct (Forall2_nth_split _ _ _ i (c, sp) (holds_shards _ _ _ d Ms Hd) Hnth)
    as (v1 & v2 & Ms1 & M & Ms2 & Hv & HMs & Hl1 & Hk1 & Ha1 & Hs & Ha2).
  split.
  - pose proof (holds_masks _ _ _ d Ms Hd) as Hb. rewrite Forall_forall in Hb.
    apply Hb. unfold coordinates. apply (in_map fst _ (c, sp)).
    exact (nth_error_In _ _ Hnth).
  - cbn [fst snd] in Hs. destruct Hs as [Href _ _ _].
    pose proof (inv_search_offset _ (ref_inv _ M Href)). unfold short_log. lia.
Qed.

(** [clean_shard] puts a copy of the shard in its place. *)
Lemma clean_shard_holds d i Ms :
  holds d Ms -> (i < length (Disk.m_shards d))%nat ->
  match Disk.clean_shard d i with
  | Disk.Returns _ d' | Disk.Throws d' => kept d Ms d'
  | Disk.Undefined => False
  end.
Proof using HK HSH.
  intros Hd Hi. unfold Disk.clean_shard.
  destruct (nth_error (Disk.m_shards d) i) as [[c sp]|] eqn:Hnth.
  2:{ apply nth_error_None in Hnth. lia. }
  destruct (holds_nth d Ms i c sp Hd Hnth) as [Hc _].
  destruct (Forall2_nth_split _ _ _ i (c, sp) (holds_shards _ _ _ d Ms Hd) Hnth)
    as (v1 & v2 & Ms1 & M & Ms2 & Hv & HMs & Hl1 & Hk1 & Ha1 & Hs & Ha2).
  cbn [fst snd] in Hs.
  pose proof (create_tmp_shard_shards d c) as Hshards.
  pose proof (create_tmp_shard_log d c) as Hsame.
  assert (Hnever : Disk.create_tmp_shard d c <> Disk.Undefined).
  { unfold Disk.create_tmp_shard. destruct (Disk.m_spare_shards d) as [|[name s0] rest];
      [discriminate|]. destruct (Disk.renameat _ _ _); discriminate. }
  destruct (Disk.create_tmp_shard d c) as [newshard d1|d1|]; [| |contradiction].
  2:{ destruct Hsame as [Hl Ha]. exact (kept_same d Ms d1 Hd Hshards Hl Ha). }
  destruct Hsame as [Hl Ha].
  destruct (copy_to_spec HK (Z.lt_le_incl _ _ HSH) (Disk.target sp) M c (Disk.target newshard)
                         (sound_refines _ _ _ Hs) (sound_log _ _ _ Hs))
    as (dst & N & Hcopy & Hcp).
  rewrite Hcopy.
  destruct (copied_share HK _ M c dst N (sound_refines _ _ _ Hs) (sound_log _ _ _ Hs) Hc Hcp)
    as [Hdst Hshare].
  pose proof (share_own HK c _ M N Hs Hshare) as Hall.
  destruct (Disk.renameat _ _ _) as [dir|].
  - exists Ms. split; [|split; [exact Hl|reflexivity]]. rewrite HMs. rewrite HMs in Hd.
    apply (holds_replaced CityHash64 CityHash64_each lower_interlace d _ v1 c sp v2 Ms1 M Ms2
                          (Disk.mk_shard_ptr (Disk.file newshard) dst) M Hd Hv ltac:(lia)).
    + cbn [Disk.target]. apply (sound_ext HK HSH c dst N M Hdst). intros ph key.
      symmetry. apply Hall.
    + exact (holds_apart _ _ _ d _ Hd).
    + cbn [Disk.set_shards Disk.set_base Disk.m_shards]. rewrite Hshards, Hv, <- Hl1.
      apply replace_split.
    + exact Hl.
    + exact Ha.
  - pose proof (drop_tmp_shard_shards d1 c) as Hdrop.
    destruct (drop_tmp_shard_log d1 c) as [Hl2 Ha2'].
    destruct (Disk.drop_tmp_shard d1 c) as [rc d2]. cbn [snd] in *.
    apply (kept_same d Ms d2 Hd); congruence.
Qed.

(** [split_shard] puts four shards with the shares of the children in the
    place of the shard. *)
Lemma split_shard_holds d i c sp Ms :
  holds d Ms -> nth_error (Disk.m_shards d) i = Some (c, sp) ->
  primary_mask c <> UINT32_MAX -> secondary_mask c <> UINT32_MAX ->
  match Disk.split_shard d i with
  | Disk.Returns _ d' => kept d Ms d'
  | Disk.Throws _ => False
  | Disk.Undefined => False
  end.
Proof using HK HSH.
  intros Hd Hnth Hpm Hsm.
  destruct (holds_nth d Ms i c sp Hd Hnth) as [Hc Hshort].
  destruct (Forall2_nth_split _ _ _ i (c, sp) (holds_shards _ _ _ d Ms Hd) Hnth)
    as (v1 & v2 & Ms1 & M & Ms2 & Hv & HMs & Hl1 & Hk1 & Ha1 & Hs & Ha2).
  cbn [fst snd] in Hs.
  pose proof (sound_refines _ _ _ Hs) as Href. pose proof (sound_log _ _ _ Hs) as Hlog.
  destruct (split_positions_clear HK c (Disk.target sp) Hc Hshort Hpm Hsm)
    as [[Hsr Hsc] Hprimary].
  unfold Disk.split_shard. rewrite Hnth. cbv zeta.
  remember (fold_left (Disk.count_secondary c) (Shard.make_snapshot (Disk.target sp))
                      (repeat 0 32, repeat 0 32)) as cnt eqn:Hcnt.
  destruct cnt as [zeros ones]. cbn [fst snd] in Hsr, Hsc.
  remember (which_to_split (secondary_mask c) zeros ones) as secondary_split eqn:Hss.
  rewrite (one_shifted secondary_split Hsr).
  specialize (Hprimary (2 ^ secondary_split)).
  remember (fold_left (Disk.count_primary c (2 ^ secondary_split))
                      (Shard.make_snapshot (Disk.target sp))
                      (repeat 0 32, repeat 0 32, repeat 0 32, repeat 0 32)) as cnt4 eqn:Hcnt4.
  destruct cnt4 as [[[zeros_lower ones_lower] zeros_upper] ones_upper].
  cbv zeta in Hprimary. destruct Hprimary as [[Hlr Hlc] [Hur Huc]].
  remember (which_to_split (primary_mask c) zeros_lower ones_lower) as lower eqn:Hlower.
  remember (which_to_split (primary_mask c) zeros_upper ones_upper) as upper eqn:Hupper.
  rewrite (one_shifted lower Hlr), (one_shifted upper Hur).
  clear Hcnt Hcnt4 Hss Hlower Hupper.
  next_child (create_and_copy_sound HK HSH) H1 zero_zero d1;
    specialize (H1 M Href Hlog); [|destruct H1 as (E1 & L1 & A1)|contradiction].
  2:{ exact (kept_same d Ms d1 Hd E1 L1 A1). }
  destruct H1 as [(E1 & L1 & A1) (N1 & C1)].
  next_child (create_and_copy_sound HK HSH) H2 zero_one d2;
    specialize (H2 M Href Hlog); [|destruct H2 as (E2 & L2 & A2)|contradiction].
  2:{ match goal with
      | |- context [Disk.run_guards d2 ?g] =>
          destruct (run_guards_log g d2) as [Hl Ha];
          pose proof (run_guards_shards g d2) as Hg
      end.
      apply (kept_same d Ms _ Hd); congruence. }
  destruct H2 as [(E2 & L2 & A2) (N2 & C2)].
  next_child (create_and_copy_sound HK HSH) H3 one_zero d3;
    specialize (H3 M Href Hlog); [|destruct H3 as (E3 & L3 & A3)|contradiction].
  2:{ match goal with
      | |- context [Disk.run_guards d3 ?g] =>
          destruct (run_guards_log g d3) as [Hl Ha];
          pose proof (run_guards_shards g d3) as Hg
      end.
      apply (kept_same d Ms _ Hd); congruence. }
  destruct H3 as [(E3 & L3 & A3) (N3 & C3)].
  next_child (create_and_copy_sound HK HSH) H4 one_one d4;
    specialize (H4 M Href Hlog); [|destruct H4 as (E4 & L4 & A4)|contradiction].
  2:{ match goal with
      | |- context [Disk.run_guards d4 ?g] =>
          destruct (run_guards_log g d4) as [Hl Ha];
          pose proof (run_guards_shards g d4) as Hg
      end.
      apply (kept_same d Ms _ Hd); congruence. }
  destruct H4 as [(E4 & L4 & A4) (N4 & C4)].
  match goal with
  | |- context [Disk.drop_shard ?d0 ?c0] =>
      pose proof (drop_shard_shards d0 c0) as Hdrop;
      destruct (drop_shard_log d0 c0) as [Hdl Hda];
      destruct (Disk.drop_shard d0 c0) as [rc d5]
  end.
  cbn [snd Disk.set_shards Disk.m_shards Disk.m_log Disk.m_arity] in Hdrop, Hdl, Hda.
  assert (Hshards : Disk.m_shards d4 = v1 ++ (c, sp) :: v2) by congruence.
  rewrite Hshards, <- Hl1, replace4_split in Hdrop.
  rewrite HMs in Hd.
  match type of Hdrop with
  | _ = v1 ++ v2 ++ ?new =>
      destruct (holds_children HK CityHash64 CityHash64_each lower_interlace
                               d d5 v1 c sp v2 Ms1 M Ms2 new [N1; N2; N3; N4]
                               secondary_split lower upper Hd Hv ltac:(lia)
                               Hsr Hsc Hlr Hlc Hur Huc eq_refl)
        as [Hd5 Hjoint]
  end.
  - repeat (apply Forall2_cons; [cbn [fst snd]; assumption|]). apply Forall2_nil.
  - exact Hdrop.
  - congruence.
  - congruence.
  - exists (Ms1 ++ Ms2 ++ [N1; N2; N3; N4]). split; [exact Hd5|]. split; [congruence|].
    rewrite HMs. exact Hjoint.
Qed.

(** [deal_with_full_shard] on a disk whose shards hold [Ms]: it returns
    or throws, and the shards hold together what they held. *)
Lemma deal_with_full_shard_holds d i Ms :
  holds d Ms -> (i < length (Disk.m_shards d))%nat ->
  match Disk.deal_with_full_shard d i with
  | Disk.Returns _ d' | Disk.Throws d' => kept d Ms d'
  | Disk.Undefined => False
  end.
Proof using HK HSH.
  intros Hd Hi. pose proof (clean_shard_holds d i Ms Hd Hi) as Hclean.
  unfold Disk.deal_with_full_shard.
  destruct (nth_error (Disk.m_shards d) i) as [[c sp]|] eqn:Hnth.
  2:{ apply nth_error_None in Hnth. lia. }
  destruct (Shard.stale_space _ >=? 30); [exact Hclean|].
  destruct (Z.eqb_spec (primary_mask c) UINT32_MAX) as [|Hpm];
    [cbn [orb]; apply (kept_same d Ms d Hd); reflexivity|].
  destruct (Z.eqb_spec (secondary_mask c) UINT32_MAX) as [|Hsm];
    [cbn [orb]; apply (kept_same d Ms d Hd); reflexivity|].
  cbn [orb].
  pose proof (split_shard_holds d i c sp Ms Hd Hnth Hpm Hsm) as Hsplit.
  destruct (Disk.split_shard d i); [exact Hsplit|contradiction|contradiction].
Qed.

End DiskFullShard.

(** * The disk: [flush] keeps the answers of [get] *)

Section DiskFlush.
Context {K : shard_constants}.
Hypothesis HK : constants_ok K.
Hypothesis HSH : SEARCH_INDEX_ENTRIES < HASH_TABLE_ENTRIES.
Variable CityHash64 : buffer -> Z.
Variable CityHash64_each : list buffer -> list Z.
Variable lower_interlace : list Z -> Z.

Local Abbreviation get := (Disk.get CityHash64).
Local Abbreviation put := (Disk.put CityHash64 CityHash64_each lower_interlace).
Local Abbreviation del := (Disk.del CityHash64).
Local Abbreviation get_coordinate := (Disk.get_coordinate CityHash64).
Local Abbreviation entry_ok := (entry_ok CityHash64 CityHash64_each lower_interlace).
Local Abbreviation holds := (holds CityHash64 CityHash64_each lower_interlace).
Local Abbreviation kept := (kept CityHash64 CityHash64_each lower_interlace).
Local Abbreviation answers_as := (answers_as CityHash64 CityHash64_each lower_interlace).
Local Abbreviation served := (served CityHash64 CityHash64_each lower_interlace).
Local Abbreviation call_on := (call_on CityHash64 CityHash64_each lower_interlace).
Local Abbreviation after_calls := (after_calls CityHash64 CityHash64_each lower_interlace).
Local Abbreviation disk_lookup := (disk_lookup CityHash64).

Lemma holds_set_log d Ms e rest :
  holds d Ms -> Disk.m_log d = e :: rest -> holds (Disk.set_log d rest) Ms.
Proof using Type.
  intros [H1 H2 H3 H4 H5 H6] Hlog. rewrite Hlog in H5.
  constructor; try assumption. exact (Forall_inv_tail H5).
Qed.

Lemma holds_append d Ms e :
  holds d Ms -> entry_ok (Disk.m_arity d) e ->
  holds (Disk.set_log d (Disk.m_log d ++ [e])) Ms.
Proof using Type.
  intros [H1 H2 H3 H4 H5 H6] He. constructor; try assumption.
  cbn [Disk.set_log Disk.m_log Disk.m_arity]. apply Forall_app. split; [exact H5|].
  constructor; [exact He|constructor].
Qed.

(** Every coordinate lies in the region of a shard. *)
Lemma partitioned_holder d p :
  partitioned d ->
  exists j cj sj, (j < length (Disk.m_shards d))%nat
                  /\ nth_error (Disk.m_shards d) j = Some (cj, sj)
                  /\ contains cj p = true.
Proof using Type.
  intros [_ Hone]. specialize (Hone p).
  destruct (holders p (coordinates d)) as [|c rest] eqn:Hh; [discriminate|].
  assert (Hin : In c (holders p (coordinates d))) by (rewrite Hh; left; reflexivity).
  unfold holders in Hin. apply filter_In in Hin as [Hin Hc].
  unfold coordinates in Hin. apply in_map_iff in Hin as ([c0 s0] & Hfst & Hin).
  cbn [fst] in Hfst. subst c0.
  destruct (In_nth_error _ _ Hin) as (j & Hj). exists j, c, s0.
  split; [apply nth_error_Some; congruence|]. split; assumption.
Qed.

Lemma kept_answers d Ms d' : kept d Ms d' -> answers_as d Ms d'.
Proof using Type.
  intros (Ms' & Hd' & Hlog & Hj). exists Ms'. split; [exact Hd'|].
  intros k. rewrite Hlog. apply disk_lookup_ext. exact Hj.
Qed.

(** The loop of [flush] on a disk whose shards hold [Ms]: it returns or
    throws, and the disk it leaves answers as before. *)
Lemma flush_loop_holds : forall n d Ms,
  holds d Ms ->
  match Disk.flush_loop d n with
  | Disk.Returns _ d' | Disk.Throws d' => answers_as d Ms d'
  | Disk.Undefined => False
  end.
Proof using HK HSH.
  assert (Hfull : forall d Ms d1 i1 M1,
             holds d1 M1 -> (i1 < length (Disk.m_shards d1))%nat ->
             (forall k, disk_lookup (joint M1) (Disk.m_log d1) k
                        = disk_lookup (joint Ms) (Disk.m_log d) k) ->
             match Disk.deal_with_full_shard d1 i1 with
             | Disk.Returns _ d' | Disk.Throws d' => answers_as d Ms d'
             | Disk.Undefined => False
             end).
  { intros d Ms d1 i1 M1 Hd1 Hi1 Hsame.
    pose proof (deal_with_full_shard_holds HK HSH CityHash64 CityHash64_each lower_interlace
                                           d1 i1 M1 Hd1 Hi1) as Hdeal.
    destruct (Disk.deal_with_full_shard d1 i1) as [rc d'|d'|]; [| |exact Hdeal].
    - destruct (kept_answers d1 M1 d' Hdeal) as (Ms' & Hd' & Hl).
      exists Ms'. split; [exact Hd'|]. intros k. rewrite Hl. apply Hsame.
    - destruct (kept_answers d1 M1 d' Hdeal) as (Ms' & Hd' & Hl).
      exists Ms'. split; [exact Hd'|]. intros k. rewrite Hl. apply Hsame. }
  induction n as [|n IH]; intros d Ms Hd; cbn [Disk.flush_loop].
  - exists Ms. split; [exact Hd|reflexivity].
  - destruct (Disk.m_log d) as [|e rest] eqn:Hlog.
    + exists Ms. split; [exact Hd|reflexivity].
    + pose proof (holds_log _ _ _ d Ms Hd) as Hall. rewrite Hlog in Hall.
      pose proof (Forall_inv Hall) as He.
      set (ph := primary_hash (Disk.coord e)). set (key := Disk.key e).
      assert (Hph : is_u32 ph).
      { unfold ph. rewrite (entry_hash CityHash64 CityHash64_each lower_interlace _ e He).
        apply u32_range. }
      pose proof (flush_del_spec HK HSH CityHash64 CityHash64_each lower_interlace e
                                 (length (Disk.m_shards d)) d 0%nat Ms Hd Hph
                                 ltac:(lia)) as Hdel.
      assert (Hvac : forall j M, (j < 0)%nat -> nth_error Ms j = Some M -> M ph key = None)
        by (intros j M Hj; lia).
      specialize (Hdel Hvac).
      destruct (Disk.flush_del d e (length (Disk.m_shards d)) 0) as [d1|o].
      2:{ destruct Hdel as (d1 & i1 & -> & Hd1 & Hlog1 & Hi1).
          apply (Hfull d Ms d1 i1 Ms Hd1 Hi1). intros k. rewrite Hlog1, Hlog. reflexivity. }
      destruct Hdel as (Ms1 & Hd1 & Hlog1 & Hj1). fold ph key in Hj1.
      assert (Hafter : forall d2 Ms2,
                 holds d2 Ms2 -> Disk.m_log d2 = e :: rest ->
                 (forall ph' key', joint Ms2 ph' key' = apply_entry (joint Ms) e ph' key') ->
                 match Disk.flush_loop (Disk.set_log d2 rest) n with
                 | Disk.Returns _ d' | Disk.Throws d' => answers_as d Ms d'
                 | Disk.Undefined => False
                 end).
      { intros d2 Ms2 Hd2 Hlog2 Hj2.
        pose proof (IH (Disk.set_log d2 rest) Ms2 (holds_set_log d2 Ms2 e rest Hd2 Hlog2))
          as Hrec.
        assert (Hsame : forall k, disk_lookup (joint Ms2) rest k
                                  = disk_lookup (joint Ms) (e :: rest) k).
        { intros k.
          rewrite <- (disk_lookup_flushed CityHash64 CityHash64_each lower_interlace
                                          _ (joint Ms) e rest k He).
          apply disk_lookup_ext. exact Hj2. }
        destruct (Disk.flush_loop (Disk.set_log d2 rest) n) as [rc d'|d'|]; [| |exact Hrec].
        - destruct Hrec as (Ms' & Hd' & Hl). exists Ms'. split; [exact Hd'|].
          intros k. rewrite Hl, Hlog. cbn [Disk.set_log Disk.m_log]. apply Hsame.
        - destruct Hrec as (Ms' & Hd' & Hl). exists Ms'. split; [exact Hd'|].
          intros k. rewrite Hl, Hlog. cbn [Disk.set_log Disk.m_log]. apply Hsame. }
      destruct (Z.eqb_spec (secondary_mask (Disk.coord e)) UINT32_MAX) as [Hput|Hnoput].
      * assert (He1 : entry_ok (Disk.m_arity d1) e).
        { pose proof (holds_log _ _ _ d1 Ms1 Hd1) as Hall1. rewrite Hlog1, Hlog in Hall1.
          exact (Forall_inv Hall1). }
        assert (Hnone : joint Ms1 ph key = None) by (rewrite Hj1; apply update_same).
        pose proof (flush_put_spec HK HSH CityHash64 CityHash64_each lower_interlace e
                                   (length (Disk.m_shards d1)) d1 Ms1 Hd1 He1 Hput
                                   (Nat.le_refl _)
                                   (partitioned_holder d1 (Disk.coord e)
                                                       (holds_regions _ _ _ d1 Ms1 Hd1))
                                   Hnone) as Hp.
        destruct (Disk.flush_put d1 e (length (Disk.m_shards d1))) as [d2|o].
        -- destruct Hp as (Ms2 & Hd2 & Hlog2 & Hj2).
           apply (Hafter d2 Ms2 Hd2); [congruence|].
           intros ph' key'. rewrite Hj2. fold ph key. unfold apply_entry. fold ph key.
           destruct (Z.eqb_spec (secondary_mask (Disk.coord e)) UINT32_MAX) as [_|];
             [|contradiction].
           unfold update. destruct ((ph' =? ph) && buffer_eqb key' key) eqn:Hsame;
             [reflexivity|].
           rewrite Hj1. unfold update. rewrite Hsame. reflexivity.
        -- destruct Hp as (d2 & i2 & -> & Hd2 & Hlog2 & Hi2).
           apply (Hfull d Ms d2 i2 Ms1 Hd2 Hi2). intros k. rewrite Hlog2, Hlog1, Hlog.
           rewrite <- (disk_lookup_masked CityHash64 CityHash64_each lower_interlace
                                          _ (joint Ms) e rest k He).
           apply disk_lookup_ext. exact Hj1.
      * apply (Hafter d1 Ms1 Hd1); [congruence|].
        intros ph' key'. rewrite Hj1. unfold apply_entry. fold ph key.
        destruct (Z.eqb_spec (secondary_mask (Disk.coord e)) UINT32_MAX) as [|_];
          [contradiction|reflexivity].
Qed.

(** The constructor leaves a disk whose one shard holds nothing. *)
Lemma holds_new dir files arity d :
  0 <= arity < 2 ^ 16 ->
  Disk.new dir files arity = Disk.Returns tt d -> holds d [empty_contents].
Proof using HK HSH.
  intros Har Hnew.
  pose proof (new_partitioned dir files arity d Hnew)
    as Hpart.
  unfold Disk.new, Disk.create_shard, Disk.create_file in Hnew.
  cbn [Disk.m_spare_shards Disk.set_shards Disk.m_arity Disk.m_shards Disk.m_log Disk.m_base
       Disk.files_created Disk.m_spare_shard_counter] in Hnew.
  injection Hnew as <-.
  constructor; cbn [Disk.set_shards Disk.m_arity Disk.m_shards Disk.m_log].
  - constructor; [|constructor]. cbn [fst snd Disk.target]. apply (sound_create HK HSH).
  - intros ph key. cbn. lia.
  - exact Hpart.
  - unfold coordinates. cbn [Disk.set_shards Disk.m_shards map fst].
    constructor; [|constructor]. unfold balanced, is_u32. cbn [primary_mask secondary_mask].
    split; [lia|]. split; [lia|reflexivity].
  - constructor.
  - exact Har.
Qed.

Lemma new_fields dir files arity d :
  Disk.new dir files arity = Disk.Returns tt d ->
  Disk.m_arity d = arity /\ Disk.m_log d = [].
Proof using Type.
  intros Hnew. unfold Disk.new, Disk.create_shard, Disk.create_file in Hnew.
  cbn [Disk.m_spare_shards Disk.set_shards Disk.m_arity Disk.m_shards Disk.m_log Disk.m_base
       Disk.files_created Disk.m_spare_shard_counter] in Hnew.
  injection Hnew as <-. split; reflexivity.
Qed.

Lemma new_answers dir files arity d k :
  Disk.new dir files arity = Disk.Returns tt d ->
  disk_lookup (joint [empty_contents]) (Disk.m_log d) k = NotFound.
Proof using Type.
  intros Hnew. destruct (new_fields dir files arity d Hnew) as [_ ->]. reflexivity.
Qed.

(** What [get] answers with one more entry in the WAL. *)
Lemma disk_lookup_appended arity M log e k :
  entry_ok arity e ->
  disk_lookup M (log ++ [e]) k
  = if buffer_eqb (Disk.key e) k
    then (if secondary_mask (Disk.coord e) =? UINT32_MAX
          then Found (Disk.value e) (Disk.version e) else NotFound)
    else disk_lookup M log k.
Proof using Type.
  intros He. unfold disk_lookup, last_match. rewrite rev_app_distr. cbn [rev app find].
  rewrite (entry_matches CityHash64 CityHash64_each lower_interlace arity e k He).
  destruct (buffer_eqb (Disk.key e) k); reflexivity.
Qed.

(** One call on a disk whose shards hold [Ms]: it comes back, and the
    disk answers as the call says. *)
Lemma call_holds d Ms c :
  holds d Ms -> disk_call_ok c ->
  exists d' Ms',
    call_on d c = Some d' /\ Disk.m_arity d' = Disk.m_arity d /\ holds d' Ms'
    /\ forall k, disk_lookup (joint Ms') (Disk.m_log d') k
                 = record_call (Disk.m_arity d) (disk_lookup (joint Ms) (Disk.m_log d)) c k.
Proof using HK HSH.
  intros Hd Hc. destruct c as [k v ver|k| |]; cbn [call_on record_call disk_call_ok] in *.
  - unfold Disk.put.
    destruct (Z.eqb_spec (Z.of_nat (length v) + 1) (Disk.m_arity d)) as [Hlen|_];
      cbn [negb snd].
    2:{ exists d, Ms. split; [reflexivity|]. split; [reflexivity|]. split; [exact Hd|reflexivity]. }
    set (e := Disk.mk_log_entry (Disk.get_coordinate_value CityHash64 CityHash64_each
                                                           lower_interlace k v) k v ver).
    assert (He : entry_ok (Disk.m_arity d) e).
    { left. cbn [e Disk.coord Disk.key Disk.value Disk.version]. split; [reflexivity|].
      split; assumption. }
    exists (Disk.set_log d (Disk.m_log d ++ [e])), Ms.
    split; [reflexivity|]. split; [reflexivity|]. split; [exact (holds_append d Ms e Hd He)|].
    intros k'. cbn [Disk.set_log Disk.m_log].
    rewrite (disk_lookup_appended _ _ _ e k' He). reflexivity.
  - unfold Disk.del. cbn [snd].
    set (e := Disk.delete_entry (Disk.get_coordinate CityHash64 k) k).
    assert (He : entry_ok (Disk.m_arity d) e) by (right; reflexivity).
    exists (Disk.set_log d (Disk.m_log d ++ [e])), Ms.
    split; [reflexivity|]. split; [reflexivity|]. split; [exact (holds_append d Ms e Hd He)|].
    intros k'. cbn [Disk.set_log Disk.m_log].
    rewrite (disk_lookup_appended _ _ _ e k' He). reflexivity.
  - pose proof (flush_loop_holds 100 d Ms Hd) as Hloop.
    pose proof (flush_loop_log 100 d) as Hlog. unfold Disk.flush.
    destruct (Disk.flush_loop d 100) as [rc d'|d'|]; [| |contradiction];
      destruct Hloop as (Ms' & Hd' & Hl); destruct Hlog as [_ Ha];
      exists d', Ms'; (split; [reflexivity|]); (split; [exact Ha|]);
      (split; [exact Hd'|exact Hl]).
  - exists (Disk.preallocate_one d), Ms. split; [reflexivity|]. split; [reflexivity|].
    split; [|reflexivity].
    apply (holds_same CityHash64 CityHash64_each lower_interlace d _ Ms); try reflexivity.
    exact Hd.
Qed.

(** The calls [h] on a disk whose shards hold [Ms] and that answers as
    [f] says: they come back, and the disk answers as [f] and [h] say. *)
Lemma calls_hold : forall h d Ms f,
  holds d Ms -> (forall k, disk_lookup (joint Ms) (Disk.m_log d) k = f k) ->
  Forall disk_call_ok h ->
  exists d' Ms',
    after_calls d h = Some d' /\ holds d' Ms'
    /\ forall k, disk_lookup (joint Ms') (Disk.m_log d') k
                 = fold_left (record_call (Disk.m_arity d)) h f k.
Proof using HK HSH.
  induction h as [|c h IH]; intros d Ms f Hd Hf Hok; cbn [after_calls fold_left].
  - exists d, Ms. split; [reflexivity|]. split; [exact Hd|exact Hf].
  - destruct (call_holds d Ms c Hd (Forall_inv Hok)) as (d1 & Ms1 & Hcall & Ha & Hd1 & Hl1).
    rewrite Hcall.
    destruct (IH d1 Ms1 (record_call (Disk.m_arity d) f c) Hd1) as (d' & Ms' & Hafter & Hd' & Hl').
    + intros k. rewrite Hl1. destruct c as [k0 v ver|k0| |]; cbn [record_call].
      * destruct (_ =? _); [|apply Hf]. destruct (buffer_eqb k0 k); [reflexivity|apply Hf].
      * destruct (buffer_eqb k0 k); [reflexivity|apply Hf].
      * apply Hf.
      * apply Hf.
    + exact (Forall_inv_tail Hok).
    + exists d', Ms'. split; [exact Hafter|]. split; [exact Hd'|].
      intros k. rewrite Hl', Ha. reflexivity.
Qed.

(** The shards of a disk in service hold maps. *)
Lemma served_holds d : served d -> exists Ms, holds d Ms.
Proof using HK HSH.
  intros (dir & files & arity & d0 & h & Har & Hnew & Hok & Hafter).
  destruct (calls_hold h d0 [empty_contents] (fun _ => NotFound)
                       (holds_new dir files arity d0 Har Hnew)
                       (fun k => new_answers dir files arity d0 k Hnew) Hok)
    as (d' & Ms' & Hafter' & Hd' & _).
  exists Ms'. congruence.
Qed.

(** The shards that have a record for a key are those whose map binds
    it. *)
Lemma has_key_binders ph key : forall shards Ms,
  is_u32 ph ->
  Forall2 (fun cs M => sound (fst cs) (Disk.target (snd cs)) M) shards Ms ->
  length (filter (has_key ph key) shards) = length (binders ph key Ms)
  /\ forall cs, In cs shards -> has_key ph key cs = true ->
                primary_contains (fst cs) (mk_coordinate UINT32_MAX ph 0 0) = true.
Proof using HK HSH.
  intros shards Ms Hph Hall.
  induction Hall as [|[c sp] M shards Ms Hs Hall [IHl IHc]]; [split; [reflexivity|]|].
  { intros cs []. }
  cbn [fst snd] in Hs. cbn [filter]. rewrite binders_cons.
  assert (Hk : has_key ph key (c, sp) = is_some (M ph key)).
  { unfold has_key. cbn [snd].
    rewrite (sound_get HK HSH c (Disk.target sp) M ph key [] 0 Hs Hph). unfold answer.
    destruct (M ph key) as [[v ver]|]; reflexivity. }
  rewrite Hk. split.
  - destruct (is_some (M ph key)); cbn [length]; rewrite IHl; reflexivity.
  - intros cs [<-|Hin] Hcs; [|exact (IHc cs Hin Hcs)]. cbn [fst].
    destruct (primary_contains c (mk_coordinate UINT32_MAX ph 0 0)) eqn:Hin; [reflexivity|].
    pose proof (sound_outside HK HSH c (Disk.target sp) M _ key Hs Hin) as Hnone.
    cbn [primary_hash] in Hnone. rewrite Hk, Hnone in Hcs. discriminate.
Qed.

(** Two disks that answer alike by their WAL and shards answer alike. *)
Lemma answers_as_get d Ms d' k val ver :
  holds d Ms -> answers_as d Ms d' ->
  exists r r', get d k val ver = Some r /\ get d' k val ver = Some r'
               /\ as_lookup r' = as_lookup r.
Proof using HK HSH.
  intros Hd (Ms' & Hd' & Hl).
  destruct (holds_get HK HSH CityHash64 CityHash64_each lower_interlace d Ms k val ver Hd)
    as (r & Hget & Hr).
  destruct (holds_get HK HSH CityHash64 CityHash64_each lower_interlace d' Ms' k val ver Hd')
    as (r' & Hget' & Hr').
  exists r, r'. split; [exact Hget|]. split; [exact Hget'|]. rewrite Hr', Hr. apply Hl.
Qed.

(** X18: [flush] never changes what [get] answers. On every disk in
    service, with a search log shorter than the hash table, [flush] returns
    or throws, whether it moves entries of the WAL into the shards, cleans a
    full shard, splits it in four or gives up half way; and for every key,
    [get] returns before and after with the same outcome, a value and a
    version or [NOTFOUND]. *)
Theorem flush_keeps_get (d : Disk.disk) :
  served d ->
  match Disk.flush d with
  | Disk.Returns _ d' | Disk.Throws d' =>
      forall k val ver,
      exists r r', get d k val ver = Some r /\ get d' k val ver = Some r'
                   /\ as_lookup r' = as_lookup r
  | Disk.Undefined => False
  end.
Proof using HK HSH.
  intros Hserved. destruct (served_holds d Hserved) as (Ms & Hd).
  pose proof (flush_loop_holds 100 d Ms Hd) as Hloop. unfold Disk.flush.
  destruct (Disk.flush_loop d 100) as [rc d'|d'|]; [| |exact Hloop];
    intros k val ver; exact (answers_as_get d Ms d' k val ver Hd Hloop).
Qed.

(** X19: [get] answers what the calls on the disk say. On a disk
    constructed with an arity that is a [uint16_t], with a search log
    shorter than the hash table, every sequence of calls of [put] (with a
    version that is a [uint64_t]), [del], [flush] and turns of
    [preallocate] comes back, [flush] by returning or throwing; and on the
    disk they leave, [get] returns for every key, with the value and the
    version of the last [put] of the key that was not refused for its
    arity, or with [NOTFOUND] when there is none or a [del] of the key came
    after it, wherever [flush] has moved, cleaned or split the records in
    between. *)
Theorem get_follows_calls (dir : Disk.directory) (files : nat) (arity : Z)
        (d0 : Disk.disk) (h : list disk_call) :
  0 <= arity < 2 ^ 16 ->
  Disk.new dir files arity = Disk.Returns tt d0 ->
  Forall disk_call_ok h ->
  exists d,
    after_calls d0 h = Some d
    /\ forall k val ver,
        exists r, get d k val ver = Some r /\ as_lookup r = expected arity h k.
Proof using HK HSH.
  intros Har Hnew Hok.
  destruct (calls_hold h d0 [empty_contents] (fun _ => NotFound)
                       (holds_new dir files arity d0 Har Hnew)
                       (fun k => new_answers dir files arity d0 k Hnew) Hok)
    as (d & Ms & Hafter & Hd & Hl).
  destruct (new_fields dir files arity d0 Hnew) as [Ha _].
  exists d. split; [exact Hafter|]. intros k val ver.
  destruct (holds_get HK HSH CityHash64 CityHash64_each lower_interlace d Ms k val ver Hd)
    as (r & Hget & Hr).
  exists r. split; [exact Hget|]. rewrite Hr, Hl, Ha. reflexivity.
Qed.

(** X20: [flush] never leaves a key in two shards. On every disk in
    service, with a search log shorter than the hash table, at most one
    shard has a record for a key under a primary hash, that is answers a
    [get] of it with [SUCCESS]; and the region of that shard
    primary-contains the hash, so that the walks of [get] and of the [del]
    of [flush] over the shards do not pass it by. *)
Theorem key_in_one_shard (d : Disk.disk) (ph : Z) (key : buffer) :
  served d -> is_u32 ph ->
  (length (filter (has_key ph key) (Disk.m_shards d)) <= 1)%nat
  /\ forall cs, In cs (Disk.m_shards d) -> has_key ph key cs = true ->
                primary_contains (fst cs) (mk_coordinate UINT32_MAX ph 0 0) = true.
Proof using HK HSH.
  intros Hserved Hph. destruct (served_holds d Hserved) as (Ms & Hd).
  destruct (has_key_binders ph key (Disk.m_shards d) Ms Hph (holds_shards _ _ _ d Ms Hd))
    as [Hlen Hin].
  split; [|exact Hin]. rewrite Hlen. apply (holds_apart _ _ _ d Ms Hd).
Qed.

End DiskFlush.

(** * The disk in service: examples *)

Section RoomyExample.
#[local] Existing Instance roomy_constants.

Lemma roomy_constants_ok : constants_ok roomy_constants.
Proof. constructor; cbn; lia. Qed.

Lemma roomy_search_log_short : SEARCH_INDEX_ENTRIES < HASH_TABLE_ENTRIES.
Proof. reflexivity. Qed.

Lemma sample_disk_calls_ok : Forall disk_call_ok sample_disk_calls.
Proof. unfold sample_disk_calls. repeat constructor; cbn; lia. Qed.

Lemma sample_disk_served :
  served sample_hash sample_hash_each sample_interlace sample_served_disk.
Proof.
  exists Disk.empty_directory, 0%nat, 2, fresh_disk, sample_disk_calls.
  split; [lia|]. split; [reflexivity|]. split; [exact sample_disk_calls_ok|].
  destruct (calls_hold roomy_constants_ok roomy_search_log_short
                       sample_hash sample_hash_each sample_interlace
                       sample_disk_calls fresh_disk [empty_contents] (fun _ => NotFound))
    as (d & Ms & Hafter & _).
  - apply (holds_new roomy_constants_ok roomy_search_log_short
                     sample_hash sample_hash_each sample_interlace
                     Disk.empty_directory 0%nat 2); [lia|reflexivity].
  - reflexivity.
  - exact sample_disk_calls_ok.
  - unfold sample_served_disk. rewrite Hafter. reflexivity.
Qed.

Lemma flush_keeps_get_witness :
  let d := sample_served_disk in
  match Disk.flush d with
  | Disk.Returns _ d' | Disk.Throws d' =>
      forall k val ver,
      exists r r', Disk.get sample_hash d k val ver = Some r
                   /\ Disk.get sample_hash d' k val ver = Some r'
                   /\ as_lookup r' = as_lookup r
  | Disk.Undefined => False
  end.
Proof.
  intros d.
  apply (flush_keeps_get roomy_constants_ok roomy_search_log_short
                         sample_hash sample_hash_each sample_interlace d).
  exact sample_disk_served.
Defined.

Lemma get_follows_calls_witness :
  exists d,
    after_calls sample_hash sample_hash_each sample_interlace fresh_disk sample_disk_calls
    = Some d
    /\ forall k val ver,
        exists r, Disk.get sample_hash d k val ver = Some r
                  /\ as_lookup r = expected 2 sample_disk_calls k.
Proof.
  apply (get_follows_calls roomy_constants_ok roomy_search_log_short
                           sample_hash sample_hash_each sample_interlace
                           Disk.empty_directory 0%nat 2 fresh_disk sample_disk_calls).
  - lia.
  - reflexivity.
  - exact sample_disk_calls_ok.
Defined.

End RoomyExample.

Section SmallExample.
#[local] Existing Instance small_constants.

Lemma small_search_log_short : SEARCH_INDEX_ENTRIES < HASH_TABLE_ENTRIES.
Proof. reflexivity. Qed.

Lemma nine_puts_ok : Forall disk_call_ok nine_puts_flushed.
Proof. unfold nine_puts_flushed, nine_keys. repeat constructor; cbn; lia. Qed.

(** The disk nine puts and two calls of [flush] leave is in service. *)
Lemma nine_puts_served :
  served sample_hash sample_hash_each sample_interlace (disk_after nine_puts_flushed).
Proof.
  exists Disk.empty_directory, 0%nat, 2, fresh_disk, nine_puts_flushed.
  split; [lia|]. split; [reflexivity|]. split; [exact nine_puts_ok|].
  destruct (calls_hold small_constants_ok small_search_log_short
                       sample_hash sample_hash_each sample_interlace
                       nine_puts_flushed fresh_disk [empty_contents] (fun _ => NotFound))
    as (d & Ms & Hafter & _).
  - apply (holds_new small_constants_ok small_search_log_short
                     sample_hash sample_hash_each sample_interlace
                     Disk.empty_directory 0%nat 2); [lia|reflexivity].
  - reflexivity.
  - exact nine_puts_ok.
  - unfold disk_after. rewrite Hafter. reflexivity.
Qed.

(** The first [flush] has split the shard in four; the key [c] went to the
    second child and to no other. *)
Lemma key_in_one_shard_witness :
  let d := disk_after nine_puts_flushed in
  map (has_key 99 key_c) (Disk.m_shards d) = [false; true; false; false]
  /\ (length (filter (has_key 99 key_c) (Disk.m_shards d)) <= 1)%nat
  /\ forall cs, In cs (Disk.m_shards d) -> has_key 99 key_c cs = true ->
                primary_contains (fst cs) (mk_coordinate UINT32_MAX 99 0 0) = true.
Proof.
  intros d. split; [vm_compute; reflexivity|].
  apply (key_in_one_shard small_constants_ok small_search_log_short
                          sample_hash sample_hash_each sample_interlace d 99 key_c).
  - exact nine_puts_served.
  - unfold is_u32. lia.
Defined.

End SmallExample.

(** * The files of the shards: names and coordinates *)

(** Coordinates with 32-bit components that have the same canonical name
    are the same. *)
Lemma shard_filename_inj c c' :
  coordinate_ok c -> coordinate_ok c' ->
  Disk.shard_filename c = Disk.shard_filename c' -> c = c'.
Proof.
  intros (H1 & H2 & H3 & H4) (H1' & H2' & H3' & H4') Hsame.
  assert (Heq : (Disk.shard_filename c ++ EmptyString
                 = Disk.shard_filename c' ++ EmptyString)%string) by congruence.
  unfold Disk.shard_filename in Heq. rewrite !string_append_assoc in Heq.
  apply hex16_field in Heq as [Hpm Heq]; try assumption.
  cbn [append] in Heq. injection Heq as Heq.
  apply hex16_field in Heq as [Hph Heq]; try assumption.
  cbn [append] in Heq. injection Heq as Heq.
  apply hex16_field in Heq as [Hsm Heq]; try assumption.
  cbn [append] in Heq. injection Heq as Heq.
  apply hex16_field in Heq as [Hsh Heq]; try assumption.
  destruct c, c'. cbn in *. congruence.
Qed.

(** No canonical name is the name of a temporary file. *)
Lemma shard_filename_not_tmp c c' : Disk.shard_filename c <> Disk.shard_tmp_filename c'.
Proof.
  rewrite shard_tmp_filename_suffix. intros Heq.
  apply (f_equal String.length) in Heq.
  rewrite string_length_append, !shard_filename_length in Heq. cbn in Heq. lia.
Qed.

(** The components of a coordinate whose hashes lie under masks of 32
    bits are 32-bit numbers. *)
Lemma land_under_mask h m : is_u32 m -> Z.land h m = h -> is_u32 h.
Proof.
  unfold is_u32. intros Hm Hh.
  assert (Hmm : Z.land m (Z.ones 32) = m) by (rewrite Z.land_ones by lia; apply Z.mod_small; lia).
  rewrite <- Hh, <- Hmm, Z.land_assoc, Z.land_ones by lia.
  apply Z.mod_pos_bound. lia.
Qed.

Lemma normal_balanced_ok c : normal c -> balanced c -> coordinate_ok c.
Proof.
  intros [Hp Hs] (Hpm & Hsm & _). unfold coordinate_ok.
  split; [exact Hpm|]. split; [exact (land_under_mask _ _ Hpm Hp)|].
  split; [exact Hsm|exact (land_under_mask _ _ Hsm Hs)].
Qed.

Lemma contains_self c : contains c c = true.
Proof.
  unfold contains, primary_contains, secondary_contains.
  rewrite !Z.lxor_nilpotent, !Z.land_0_r. reflexivity.
Qed.

(** Regions that divide the hash space are pairwise different. *)
Lemma holders_NoDup (l : list coordinate) :
  (forall p, (length (holders p l) <= 1)%nat) -> NoDup l.
Proof.
  induction l as [|c l IH]; intros Hone; [constructor|].
  constructor.
  - intros Hin. specialize (Hone c). unfold holders in Hone. cbn [filter] in Hone.
    rewrite contains_self in Hone. cbn [length] in Hone.
    assert (Hc : In c (filter (fun c0 => contains c0 c) l))
      by (apply filter_In; split; [exact Hin|apply contains_self]).
    destruct (filter (fun c0 => contains c0 c) l); [destruct Hc|cbn [length] in Hone; lia].
  - apply IH. intros p. specialize (Hone p). unfold holders in *. cbn [filter] in Hone.
    destruct (contains c p); cbn [length] in Hone; lia.
Qed.

Section ShardFiles.
Context {K : shard_constants}.

Lemma partitioned_NoDup d : partitioned d -> NoDup (coordinates d).
Proof.
  intros [_ Hone]. apply holders_NoDup. intros p. rewrite (Hone p). lia.
Qed.

Lemma tidy_coordinate_ok d c :
  disk_inv d -> partitioned d -> In c (coordinates d) -> coordinate_ok c.
Proof.
  intros Hinv [Hnormal _] Hin. rewrite Forall_forall in Hnormal.
  apply normal_balanced_ok; [exact (Hnormal c Hin)|].
  unfold coordinates in Hin. apply in_map_iff in Hin as ([c0 sp] & Hc & Hin).
  cbn [fst] in Hc. subst c0. unfold disk_inv in Hinv. rewrite Forall_forall in Hinv.
  exact (proj1 (Hinv (c, sp) Hin)).
Qed.

Lemma placement_coordinates d : map fst (placement d) = coordinates d.
Proof.
  unfold placement, coordinates. rewrite map_map. reflexivity.
Qed.

Lemma placement_files d :
  map snd (placement d) = map (fun cs => Disk.file (snd cs)) (Disk.m_shards d).
Proof. unfold placement. rewrite map_map. reflexivity. Qed.

(** The placement with the state of one shard changed in place. *)
Lemma replace_placement (v : Disk.shard_vector) : forall i c sp s',
  nth_error v i = Some (c, sp) ->
  map (fun cs => (fst cs, Disk.file (snd cs)))
      (Disk.replace v i (Disk.mk_shard_ptr (Disk.file sp) s'))
  = map (fun cs => (fst cs, Disk.file (snd cs))) v.
Proof.
  induction v as [|[c0 s0] v IH]; intros [|i] c sp s' Hnth;
    cbn [nth_error Disk.replace map] in *; try discriminate.
  - injection Hnth as -> ->. reflexivity.
  - rewrite (IH i c sp s' Hnth). reflexivity.
Qed.

(** A disk whose shards have changed in place is as tidy as before. *)
Lemma tidy_in_place d i c sp s' :
  tidy d -> nth_error (Disk.m_shards d) i = Some (c, sp) -> short_log s' ->
  tidy (Disk.set_shards d (Disk.replace (Disk.m_shards d) i
                                        (Disk.mk_shard_ptr (Disk.file sp) s'))).
Proof.
  intros [H1 H2 H3 H4 H5 H6 H7] Hnth Hs'.
  set (d1 := Disk.set_shards d _).
  assert (Hl : placement d1 = placement d).
  { unfold placement, d1. cbn [Disk.set_shards Disk.m_shards].
    exact (replace_placement _ i c sp s' Hnth). }
  assert (Hc : coordinates d1 = coordinates d).
  { unfold coordinates, d1. cbn [Disk.set_shards Disk.m_shards]. apply replace_coordinates. }
  constructor; rewrite ?Hl; try assumption.
  - unfold disk_inv, d1. cbn [Disk.set_shards Disk.m_shards].
    exact (disk_inv_replace d i c sp (Disk.file sp) s' H1 Hnth Hs').
  - unfold partitioned in *. rewrite Hc. exact H2.
Qed.

Lemma tidy_same_files d d' :
  Disk.m_shards d' = Disk.m_shards d -> Disk.m_base d' = Disk.m_base d ->
  Disk.m_spare_shards d' = Disk.m_spare_shards d ->
  Disk.files_created d' = Disk.files_created d -> tidy d -> tidy d'.
Proof.
  intros Hs Hb Hsp Hf [H1 H2 H3 H4 H5 H6 H7].
  constructor; unfold disk_inv, partitioned, coordinates, placement in *;
    rewrite ?Hs, ?Hb, ?Hsp, ?Hf; assumption.
Qed.

End ShardFiles.

(** * The files of the shards: a full shard is cleaned or split *)

Section FullShardFiles.
Context {K : shard_constants}.
Hypothesis HK : constants_ok K.

(** The canonical names of [P] refer to the files of [P] in [dir]. *)
Local Abbreviation named dir P :=
  (forall c f, In (c, f) P -> dir (Disk.shard_filename c) = Some f).

Lemma named_bind (dir : Disk.directory) (P P' : list (coordinate * nat)) c0 f0 :
  named dir P ->
  (forall c f, In (c, f) P' ->
     (c, f) = (c0, f0)
     \/ (In (c, f) P /\ Disk.shard_filename c <> Disk.shard_filename c0)) ->
  named (Disk.bind_name dir (Disk.shard_filename c0) (Some f0)) P'.
Proof using Type.
  intros Hnamed Hin c f Hcf. destruct (Hin c f Hcf) as [Heq|[HP Hne]].
  - injection Heq as -> ->. apply bind_name_same.
  - rewrite bind_name_other by exact Hne. exact (Hnamed c f HP).
Qed.

Lemma drop_shard_files d c :
  (forall name, name <> Disk.shard_filename c ->
                Disk.m_base (snd (Disk.drop_shard d c)) name = Disk.m_base d name)
  /\ Disk.files_created (snd (Disk.drop_shard d c)) = Disk.files_created d
  /\ Disk.m_spare_shards (snd (Disk.drop_shard d c)) = Disk.m_spare_shards d.
Proof using Type.
  unfold Disk.drop_shard, Disk.unlink.
  destruct (Disk.m_base d (Disk.shard_filename c)); cbn [snd Disk.set_base Disk.m_base
    Disk.files_created Disk.m_spare_shards].
  - split; [|split; reflexivity]. intros name Hne. apply bind_name_other. exact Hne.
  - split; [|split; reflexivity]. reflexivity.
Qed.

(** [clean_shard] on a disk without spare shards: it returns [SUCCESS]
    when [copy_to] returns. *)
Lemma clean_shard_files d i c sp :
  nth_error (Disk.m_shards d) i = Some (c, sp) -> Disk.m_spare_shards d = [] ->
  match Disk.clean_shard d i with
  | Disk.Returns rc d' =>
      exists copied,
        rc = SUCCESS
        /\ Disk.m_shards d'
           = Disk.replace (Disk.m_shards d) i
                          (Disk.mk_shard_ptr (Disk.files_created d) copied)
        /\ Disk.m_base d'
           = Disk.bind_name
               (Disk.bind_name
                  (Disk.bind_name (Disk.m_base d) (Disk.shard_tmp_filename c)
                                  (Some (Disk.files_created d)))
                  (Disk.shard_tmp_filename c) None)
               (Disk.shard_filename c) (Some (Disk.files_created d))
        /\ Disk.files_created d' = S (Disk.files_created d)
        /\ Disk.m_spare_shards d' = []
  | Disk.Throws _ => False
  | Disk.Undefined => True
  end.
Proof using Type.
  intros Hnth Hspare. unfold Disk.clean_shard. rewrite Hnth.
  unfold Disk.create_tmp_shard. rewrite Hspare. unfold Disk.create_file.
  cbn [Disk.target Disk.file].
  destruct (Shard.copy_to (Disk.target sp) c Shard.create) as [copied|]; [|exact I].
  unfold Disk.renameat. cbn [Disk.m_base]. rewrite bind_name_same.
  exists copied. cbn [Disk.set_shards Disk.set_base Disk.m_shards Disk.m_base
                      Disk.files_created Disk.m_spare_shards].
  split; [reflexivity|]. split; [reflexivity|]. split; [reflexivity|].
  split; [reflexivity|exact Hspare].
Qed.

(** [create_shard] and [copy_to] on a disk without spare shards. *)
Lemma create_and_copy_files d s c :
  Disk.m_spare_shards d = [] ->
  match Disk.create_and_copy d s c with
  | Disk.Returns child d' =>
      Disk.file child = Disk.files_created d
      /\ Disk.m_shards d' = Disk.m_shards d
      /\ Disk.m_base d'
         = Disk.bind_name (Disk.m_base d) (Disk.shard_filename c)
                          (Some (Disk.files_created d))
      /\ Disk.files_created d' = S (Disk.files_created d)
      /\ Disk.m_spare_shards d' = []
  | Disk.Throws _ => False
  | Disk.Undefined => True
  end.
Proof using Type.
  intros Hspare. unfold Disk.create_and_copy, Disk.create_shard. rewrite Hspare.
  unfold Disk.create_file. cbn [Disk.target Disk.file].
  destruct (Shard.copy_to s c Shard.create) as [copied|]; [|exact I].
  cbn [Disk.file Disk.m_shards Disk.m_base Disk.files_created Disk.m_spare_shards].
  split; [reflexivity|]. split; [reflexivity|]. split; [reflexivity|].
  split; [reflexivity|exact Hspare].
Qed.

(** [split_shard] on a disk without spare shards: when it returns, four
    new files carry the canonical names of the children. *)
Lemma split_shard_files d i c sp :
  nth_error (Disk.m_shards d) i = Some (c, sp) -> Disk.m_spare_shards d = [] ->
  match Disk.split_shard d i with
  | Disk.Returns rc d' =>
      exists c1 c2 c3 c4 s1 s2 s3 s4,
        let f := Disk.files_created d in
        rc = SUCCESS
        /\ Disk.m_shards d'
        = Disk.replace4 (Disk.m_shards d) i
                        (c1, Disk.mk_shard_ptr f s1) (c2, Disk.mk_shard_ptr (S f) s2)
                        (c3, Disk.mk_shard_ptr (S (S f)) s3)
                        (c4, Disk.mk_shard_ptr (S (S (S f))) s4)
        /\ (forall name, name <> Disk.shard_filename c ->
              Disk.m_base d' name
              = Disk.bind_name
                  (Disk.bind_name
                     (Disk.bind_name
                        (Disk.bind_name (Disk.m_base d) (Disk.shard_filename c1) (Some f))
                        (Disk.shard_filename c2) (Some (S f)))
                     (Disk.shard_filename c3) (Some (S (S f))))
                  (Disk.shard_filename c4) (Some (S (S (S f)))) name)
        /\ Disk.files_created d' = S (S (S (S f)))
        /\ Disk.m_spare_shards d' = []
  | Disk.Throws _ => False
  | Disk.Undefined => True
  end.
Proof using Type.
  intros Hnth Hspare. unfold Disk.split_shard. rewrite Hnth. cbv zeta.
  destruct (fold_left (Disk.count_secondary c) _ _) as [zeros ones].
  destruct (fold_left (Disk.count_primary c _) _ _)
    as [[[zeros_lower ones_lower] zeros_upper] ones_upper].
  next_child create_and_copy_files H1 zero_zero d1; specialize (H1 Hspare);
    [|contradiction|exact I].
  destruct H1 as (F1 & V1 & B1 & N1 & S1).
  next_child create_and_copy_files H2 zero_one d2; specialize (H2 S1);
    [|contradiction|exact I].
  destruct H2 as (F2 & V2 & B2 & N2 & S2).
  next_child create_and_copy_files H3 one_zero d3; specialize (H3 S2);
    [|contradiction|exact I].
  destruct H3 as (F3 & V3 & B3 & N3 & S3).
  next_child create_and_copy_files H4 one_one d4; specialize (H4 S3);
    [|contradiction|exact I].
  destruct H4 as (F4 & V4 & B4 & N4 & S4).
  match goal with
  | |- context [Disk.drop_shard ?d0 ?c0] =>
      pose proof (drop_shard_shards d0 c0) as Hdrop;
      destruct (drop_shard_files d0 c0) as (Hbase & Hcount & Hsp);
      destruct (Disk.drop_shard d0 c0) as [rc d5]
  end.
  cbn [snd Disk.set_shards Disk.m_shards Disk.m_base Disk.files_created
       Disk.m_spare_shards] in Hdrop, Hbase, Hcount, Hsp.
  destruct zero_zero as [f1 t1], zero_one as [f2 t2], one_zero as [f3 t3],
           one_one as [f4 t4].
  cbn [Disk.file] in F1, F2, F3, F4.
  rewrite N1 in F2, N2, B2. rewrite N2 in F3, N3, B3. rewrite N3 in F4, N4, B4.
  subst f1 f2 f3 f4.
  do 4 eexists. exists t1, t2, t3, t4. cbv zeta.
  split; [reflexivity|]. split; [|split; [|split]].
  - rewrite Hdrop, V4, V3, V2, V1. reflexivity.
  - intros name Hne. rewrite (Hbase name Hne), B4, B3, B2, B1. reflexivity.
  - rewrite Hcount, N4. reflexivity.
  - rewrite Hsp. exact S4.
Qed.

Lemma NoDup_insert {A} (a b : list A) x :
  NoDup (a ++ b) -> ~ In x (a ++ b) -> NoDup (a ++ x :: b).
Proof using Type.
  induction a as [|y a IH]; cbn [app]; intros Hnd Hx.
  - constructor; assumption.
  - inversion Hnd as [|? ? Hy Hrest]; subst. constructor.
    + intros Hin. apply in_app_or in Hin as [Hin|[->|Hin]].
      * apply Hy. apply in_or_app. left. exact Hin.
      * apply Hx. left. reflexivity.
      * apply Hy. apply in_or_app. right. exact Hin.
    + apply IH; [exact Hrest|]. intros Hin. apply Hx. right. exact Hin.
Qed.

(** New files under the canonical names of coordinates that are not in
    use. *)
Lemma named_binds : forall (new : list (coordinate * nat)) dir P,
  named dir P -> NoDup (map fst (P ++ new)) ->
  Forall coordinate_ok (map fst (P ++ new)) ->
  named (fold_left (fun dir0 x => Disk.bind_name dir0 (Disk.shard_filename (fst x))
                                                 (Some (snd x))) new dir)
        (P ++ new).
Proof using Type.
  induction new as [|[c0 f0] new IH]; intros dir P Hnamed Hnd Hok; cbn [fold_left fst snd].
  - rewrite app_nil_r. exact Hnamed.
  - replace (P ++ (c0, f0) :: new) with ((P ++ [(c0, f0)]) ++ new) in *
      by (rewrite <- app_assoc; reflexivity).
    apply IH; [|exact Hnd|exact Hok].
    rewrite map_app in Hnd, Hok. apply NoDup_app_remove_r in Hnd.
    apply Forall_app in Hok as [Hok _]. rewrite map_app in Hnd, Hok. cbn [map fst] in Hnd, Hok.
    apply (named_bind dir P); [exact Hnamed|].
    intros c f Hin. apply in_app_or in Hin as [Hin|[Heq|[]]]; [right|left; congruence].
    split; [exact Hin|]. intros Hfn.
    assert (Hc : c = c0).
    { rewrite Forall_app in Hok. destruct Hok as [HokP Hok0].
      rewrite Forall_forall in HokP.
      apply shard_filename_inj; [|exact (Forall_inv Hok0)|exact Hfn].
      apply HokP. exact (in_map fst _ _ Hin). }
    subst c0. apply NoDup_remove_2 in Hnd. apply Hnd. rewrite app_nil_r.
    exact (in_map fst _ _ Hin).
Qed.

Lemma child_differs c sb lb ub ck :
  0 <= sb -> Z.testbit (secondary_mask c) sb = false ->
  In ck (children c sb lb ub) -> ck <> c.
Proof using Type.
  intros Hsb Hbit Hin ->. unfold children in Hin.
  assert (Hm : Z.lor (secondary_mask c) (2 ^ sb) = secondary_mask c).
  { destruct Hin as [H|[H|[H|[H|[]]]]]; rewrite <- H at 2; reflexivity. }
  apply (f_equal (fun x => Z.testbit x sb)) in Hm.
  rewrite Z.lor_spec, Hbit, Z.pow2_bits_true in Hm by lia. discriminate.
Qed.

(** [clean_shard] on a tidy disk leaves a tidy disk. *)
Lemma clean_shard_tidy d i :
  tidy d ->
  match Disk.clean_shard d i with
  | Disk.Returns _ d' | Disk.Throws d' => tidy d'
  | Disk.Undefined => True
  end.
Proof using HK.
  intros Ht.
  destruct (nth_error (Disk.m_shards d) i) as [[c sp]|] eqn:Hnth.
  2:{ unfold Disk.clean_shard. rewrite Hnth. exact I. }
  pose proof (clean_shard_files d i c sp Hnth (tidy_spares d Ht)) as Hf.
  pose proof (clean_shard_inv HK d i (tidy_masks d Ht)) as Hinv'.
  pose proof (clean_shard_coordinates d i) as Hco.
  destruct (Disk.clean_shard d i) as [rc d'|d'|]; [|contradiction|exact I].
  destruct Hf as (copied & _ & Hv' & Hb' & Hn' & Hs').
  destruct Ht as [Hinv Hpart Hnames Htmp Hspare Hcount Hfiles].
  destruct (nth_error_split _ _ Hnth) as (v1 & v2 & Hv & Hlen).
  rewrite Hv, <- Hlen, replace_split in Hv'.
  set (g := fun cs : coordinate * Disk.shard_ptr => (fst cs, Disk.file (snd cs))).
  assert (HP : placement d = map g v1 ++ (c, Disk.file sp) :: map g v2).
  { unfold placement. rewrite Hv, map_app. reflexivity. }
  assert (HP' : placement d' = map g v1 ++ (c, Disk.files_created d) :: map g v2).
  { unfold placement. rewrite Hv', map_app. reflexivity. }
  pose proof (partitioned_NoDup d Hpart) as Hnd.
  rewrite <- placement_coordinates, HP, map_app in Hnd. cbn [map fst] in Hnd.
  assert (Hothers : forall c0 f0, In (c0, f0) (map g v1 ++ map g v2) ->
                      In (c0, f0) (placement d)
                      /\ Disk.shard_filename c0 <> Disk.shard_filename c).
  { intros c0 f0 Hin. split.
    - rewrite HP. apply in_app_or in Hin as [Hin|Hin]; apply in_or_app;
        [left; exact Hin|right; right; exact Hin].
    - intros Hfn. apply NoDup_remove_2 in Hnd. apply Hnd.
      assert (Hc0 : In c0 (coordinates d)).
      { rewrite <- placement_coordinates, HP, map_app. cbn [map fst].
        apply in_app_or in Hin as [Hin|Hin]; apply in_or_app;
          [left|right; right]; exact (in_map fst _ _ Hin). }
      assert (Hc : In c (coordinates d)).
      { rewrite <- placement_coordinates, HP, map_app. apply in_or_app. right. left.
        reflexivity. }
      rewrite <- (shard_filename_inj c0 c (tidy_coordinate_ok d c0 Hinv Hpart Hc0)
                                     (tidy_coordinate_ok d c Hinv Hpart Hc) Hfn).
      rewrite <- map_app. exact (in_map fst _ _ Hin). }
  constructor.
  - exact Hinv'.
  - unfold partitioned in *. rewrite Hco. exact Hpart.
  - intros c0 f0 Hin. rewrite HP' in Hin. rewrite Hb'.
    apply in_app_or in Hin as [Hin|[Heq|Hin]].
    + destruct (Hothers c0 f0 (in_or_app _ _ _ (or_introl Hin))) as [Hold Hne].
      rewrite !bind_name_other; [exact (Hnames c0 f0 Hold)|apply shard_filename_not_tmp
                                 |apply shard_filename_not_tmp|exact Hne].
    + injection Heq as <- <-. apply bind_name_same.
    + destruct (Hothers c0 f0 (in_or_app _ _ _ (or_intror Hin))) as [Hold Hne].
      rewrite !bind_name_other; [exact (Hnames c0 f0 Hold)|apply shard_filename_not_tmp
                                 |apply shard_filename_not_tmp|exact Hne].
  - intros c0. rewrite Hb'.
    rewrite bind_name_other by (intros Heq; exact (shard_filename_not_tmp c c0 (eq_sym Heq))).
    unfold Disk.bind_name at 1.
    destruct (String.eqb_spec (Disk.shard_tmp_filename c0) (Disk.shard_tmp_filename c));
      [reflexivity|].
    rewrite bind_name_other by assumption. apply Htmp.
  - exact Hs'.
  - intros c0 f0 Hin. rewrite HP' in Hin. rewrite Hn'.
    apply in_app_or in Hin as [Hin|[Heq|Hin]].
    + pose proof (Hcount c0 f0 (proj1 (Hothers c0 f0 (in_or_app _ _ _ (or_introl Hin))))). lia.
    + injection Heq as _ <-. lia.
    + pose proof (Hcount c0 f0 (proj1 (Hothers c0 f0 (in_or_app _ _ _ (or_intror Hin))))). lia.
  - rewrite HP', map_app. cbn [map snd]. rewrite HP, map_app in Hfiles. cbn [map snd] in Hfiles.
    apply NoDup_insert; [exact (NoDup_remove_1 _ _ _ Hfiles)|].
    rewrite <- map_app. intros Hin. apply in_map_iff in Hin as ([c0 f0] & Hf0 & Hin).
    cbn [snd] in Hf0. subst f0.
    pose proof (Hcount c0 _ (proj1 (Hothers c0 _ Hin))). lia.
Qed.

(** [split_shard] on a tidy disk leaves a tidy disk. *)
Lemma split_shard_tidy d i c sp :
  tidy d -> nth_error (Disk.m_shards d) i = Some (c, sp) ->
  primary_mask c <> UINT32_MAX -> secondary_mask c <> UINT32_MAX ->
  match Disk.split_shard d i with
  | Disk.Returns _ d' | Disk.Throws d' => tidy d'
  | Disk.Undefined => True
  end.
Proof using HK.
  intros Ht Hnth Hpm Hsm.
  destruct Ht as [Hinv Hpart Hnames Htmp Hspare Hcount Hfiles].
  destruct (disk_inv_nth d i c sp Hinv Hnth) as [Hc Hshort].
  pose proof (split_shard_files d i c sp Hnth Hspare) as Hf.
  pose proof (split_shard_spec HK d i c sp Hnth Hc Hshort Hpm Hsm) as Hspec.
  pose proof (split_shard_children HK d i c sp Hnth Hc Hshort Hpm Hsm) as Hkids.
  destruct (Disk.split_shard d i) as [rc d'|d'|]; [|contradiction|exact I].
  destruct Hf as (c1 & c2 & c3 & c4 & s1 & s2 & s3 & s4 & Hf). cbv zeta in Hf.
  destruct Hf as (-> & Hv' & Hb' & Hn' & Hs').
  destruct Hspec as [[Hrc _]|[_ Hres]]; [discriminate|].
  destruct Hkids as [[Hrc _]|(_ & sb & lb & ub & [Hsb Hsc] & [Hlb Hlc] & [Hub Huc] & Hco)];
    [discriminate|].
  pose proof (split_result_inv d d' i Hinv Hres) as Hinv'.
  assert (Hpart' : partitioned d').
  { apply (split_partitioned d i c sp sb lb ub d' Hnth); try assumption; lia. }
  destruct (nth_error_split _ _ Hnth) as (v1 & v2 & Hv & Hlen).
  rewrite Hv, <- Hlen, replace4_split in Hv'.
  set (f := Disk.files_created d) in *.
  set (g := fun cs : coordinate * Disk.shard_ptr => (fst cs, Disk.file (snd cs))).
  set (new := [(c1, f); (c2, S f); (c3, S (S f)); (c4, S (S (S f)))]).
  assert (HP : placement d = map g v1 ++ (c, Disk.file sp) :: map g v2).
  { unfold placement. rewrite Hv, map_app. reflexivity. }
  assert (HP' : placement d' = (map g v1 ++ map g v2) ++ new).
  { unfold placement. rewrite Hv', !map_app, <- app_assoc. reflexivity. }
  (* the coordinates of the children *)
  assert (Hchildren : [c1; c2; c3; c4] = children c sb lb ub).
  { unfold coordinates in Hco. rewrite Hv', Hv in Hco. rewrite !map_app in Hco.
    rewrite <- Hlen in Hco. cbn [map fst] in Hco.
    replace (length v1) with (length (map fst v1)) in Hco by apply length_map.
    rewrite firstn_app, Nat.sub_diag, firstn_all in Hco. cbn [firstn] in Hco.
    rewrite app_nil_r in Hco.
    replace (S (length (map fst v1))) with (length (map fst v1) + 1)%nat in Hco by lia.
    rewrite skipn_app, skipn_all2 in Hco by lia.
    replace (length (map fst v1) + 1 - length (map fst v1))%nat with 1%nat in Hco by lia.
    cbn [skipn app] in Hco.
    apply app_inv_head in Hco. apply app_inv_head in Hco. exact Hco. }
  pose proof (partitioned_NoDup d Hpart) as Hnd.
  rewrite <- placement_coordinates, HP, map_app in Hnd. cbn [map fst] in Hnd.
  pose proof (partitioned_NoDup d' Hpart') as Hnd'.
  rewrite <- placement_coordinates, HP' in Hnd'.
  assert (Hok' : Forall coordinate_ok (map fst ((map g v1 ++ map g v2) ++ new))).
  { rewrite <- HP', placement_coordinates. apply Forall_forall. intros c0 Hc0.
    exact (tidy_coordinate_ok d' c0 Hinv' Hpart' Hc0). }
  assert (Hcin : In c (coordinates d)).
  { rewrite <- placement_coordinates, HP, map_app. apply in_or_app. right. left. reflexivity. }
  pose proof (tidy_coordinate_ok d c Hinv Hpart Hcin) as Hcok.
  assert (Hold : forall c0 f0, In (c0, f0) (map g v1 ++ map g v2) ->
                               In (c0, f0) (placement d)).
  { intros c0 f0 Hin. rewrite HP. apply in_app_or in Hin as [Hin|Hin]; apply in_or_app;
      [left; exact Hin|right; right; exact Hin]. }
  (* no canonical name of the new vector is the name of the parent *)
  assert (Hnot : forall c0 f0, In (c0, f0) (placement d') ->
                               Disk.shard_filename c0 <> Disk.shard_filename c).
  { intros c0 f0 Hin Hfn. rewrite HP' in Hin.
    assert (Hc0ok : coordinate_ok c0).
    { rewrite Forall_forall in Hok'. apply Hok'. exact (in_map fst _ _ Hin). }
    pose proof (shard_filename_inj c0 c Hc0ok Hcok Hfn) as ->.
    apply in_app_or in Hin as [Hin|Hin].
    - apply NoDup_remove_2 in Hnd. apply Hnd. rewrite <- map_app.
      exact (in_map fst _ _ Hin).
    - apply (child_differs c sb lb ub c ltac:(lia) Hsc); [|reflexivity].
      rewrite <- Hchildren. change [c1; c2; c3; c4] with (map fst new).
      exact (in_map fst _ _ Hin). }
  pose proof (named_binds new (Disk.m_base d) (map g v1 ++ map g v2)
                          (fun c0 f0 Hin => Hnames c0 f0 (Hold c0 f0 Hin)) Hnd' Hok') as Hnamed.
  cbn [fold_left new fst snd] in Hnamed. fold new in Hnamed.
  constructor.
  - exact Hinv'.
  - exact Hpart'.
  - intros c0 f0 Hin. rewrite (Hb' _ (Hnot c0 f0 Hin)). apply Hnamed.
    rewrite <- HP'. exact Hin.
  - intros c0.
    rewrite Hb' by (intros Heq; exact (shard_filename_not_tmp c c0 (eq_sym Heq))).
    rewrite !bind_name_other
      by (intros Heq; exact (shard_filename_not_tmp _ c0 (eq_sym Heq))).
    apply Htmp.
  - exact Hs'.
  - intros c0 f0 Hin. rewrite HP' in Hin. rewrite Hn'.
    apply in_app_or in Hin as [Hin|Hin].
    + pose proof (Hcount c0 f0 (Hold c0 f0 Hin)). fold f in H. lia.
    + cbn [new In] in Hin.
      destruct Hin as [H|[H|[H|[H|[]]]]]; injection H as _ <-; lia.
  - rewrite HP', map_app. rewrite HP, map_app in Hfiles. cbn [map snd] in Hfiles.
    apply NoDup_remove_1 in Hfiles. rewrite <- map_app in Hfiles.
    apply NoDup_app; [exact Hfiles| |].
    + cbn [new map snd].
      repeat (constructor; [cbn [In]; intros Hin;
                            repeat (destruct Hin as [Hin|Hin]; [lia|]); exact Hin|]).
      constructor.
    + intros f0 Hin Hin'. apply in_map_iff in Hin as ([c0 f0'] & Hf0 & Hin).
      cbn [snd] in Hf0. subst f0'.
      pose proof (Hcount c0 f0 (Hold c0 f0 Hin)) as Hlt. fold f in Hlt.
      cbn [new map snd In] in Hin'.
      repeat (destruct Hin' as [Hin'|Hin']; [lia|]). exact Hin'.
Qed.

(** [deal_with_full_shard] on a tidy disk leaves a tidy disk. *)
Lemma deal_with_full_shard_tidy d i :
  tidy d ->
  match Disk.deal_with_full_shard d i with
  | Disk.Returns _ d' | Disk.Throws d' => tidy d'
  | Disk.Undefined => True
  end.
Proof using HK.
  intros Ht. pose proof (clean_shard_tidy d i Ht) as Hclean.
  unfold Disk.deal_with_full_shard.
  destruct (nth_error (Disk.m_shards d) i) as [[c sp]|] eqn:Hnth; [|exact I].
  destruct (Shard.stale_space _ >=? 30); [exact Hclean|].
  destruct (Z.eqb_spec (primary_mask c) UINT32_MAX) as [|Hpm]; [exact Ht|].
  destruct (Z.eqb_spec (secondary_mask c) UINT32_MAX) as [|Hsm]; [exact Ht|].
  cbn [orb]. exact (split_shard_tidy d i c sp Ht Hnth Hpm Hsm).
Qed.

End FullShardFiles.

(** * The files of the shards along the calls on the disk *)

Section DiskFilesCalls.
Context {K : shard_constants}.
Hypothesis HK : constants_ok K.
Variable CityHash64 : buffer -> Z.
Variable CityHash64_each : list buffer -> list Z.
Variable lower_interlace : list Z -> Z.

Local Abbreviation call_on := (call_on CityHash64 CityHash64_each lower_interlace).
Local Abbreviation after_calls := (after_calls CityHash64 CityHash64_each lower_interlace).

Lemma flush_del_tidy e : forall remaining d i,
  tidy d ->
  match Disk.flush_del d e remaining i with
  | Disk.Falls_through d' => tidy d'
  | Disk.Leaves (Disk.Returns _ d') | Disk.Leaves (Disk.Throws d') => tidy d'
  | Disk.Leaves Disk.Undefined => True
  end.
Proof using HK.
  induction remaining as [|remaining IH]; intros d i Ht; cbn [Disk.flush_del]; [exact Ht|].
  destruct (nth_error (Disk.m_shards d) i) as [[ci si]|] eqn:Hnth; [|exact Ht].
  destruct (negb (primary_contains ci (Disk.coord e))); [apply IH; exact Ht|].
  destruct (Shard.del _ _ _) as [[rc s']|] eqn:Hdel; [|exact I].
  pose proof (del_short_log _ _ _ _ _
                (proj2 (disk_inv_nth d i ci si (tidy_masks d Ht) Hnth)) Hdel) as Hshort.
  pose proof (tidy_in_place d i ci si s' Ht Hnth Hshort) as Hd1.
  set (d1 := Disk.set_shards d _) in *.
  pose proof (IH d1 (S i) Hd1) as Hnext.
  destruct rc; try exact Hnext; [exact Hd1|].
  exact (deal_with_full_shard_tidy HK d1 i Hd1).
Qed.

Lemma flush_put_tidy e : forall n d,
  tidy d ->
  match Disk.flush_put d e n with
  | Disk.Falls_through d' => tidy d'
  | Disk.Leaves (Disk.Returns _ d') | Disk.Leaves (Disk.Throws d') => tidy d'
  | Disk.Leaves Disk.Undefined => True
  end.
Proof using HK.
  induction n as [|i IH]; intros d Ht; cbn [Disk.flush_put]; [exact Ht|].
  destruct (nth_error (Disk.m_shards d) i) as [[ci si]|] eqn:Hnth; [|exact I].
  destruct (negb (contains ci (Disk.coord e))); [apply IH; exact Ht|].
  destruct (Shard.put _ _ _ _ _ _) as [[[rc s'] flushed]|] eqn:Hput; [|exact I].
  pose proof (put_short_log HK _ _ _ _ _ _ _ _ _
                (proj2 (disk_inv_nth d i ci si (tidy_masks d Ht) Hnth)) Hput) as Hshort.
  pose proof (tidy_in_place d i ci si s' Ht Hnth Hshort) as Hd1.
  set (d1 := Disk.set_shards d _) in *.
  pose proof (IH d1 Hd1) as Hnext.
  destruct rc; try exact Hnext; try exact (deal_with_full_shard_tidy HK d1 i Hd1).
  exact Hd1.
Qed.

Lemma flush_loop_tidy : forall n d,
  tidy d ->
  match Disk.flush_loop d n with
  | Disk.Returns _ d' | Disk.Throws d' => tidy d'
  | Disk.Undefined => True
  end.
Proof using HK.
  induction n as [|n IH]; intros d Ht; cbn [Disk.flush_loop]; [exact Ht|].
  destruct (Disk.m_log d) as [|e rest]; [exact Ht|].
  pose proof (flush_del_tidy e (length (Disk.m_shards d)) d 0%nat Ht) as Hdel.
  destruct (Disk.flush_del d e (length (Disk.m_shards d)) 0) as [d1|o]; [|exact Hdel].
  assert (Hafter : match (if secondary_mask (Disk.coord e) =? UINT32_MAX
                          then Disk.flush_put d1 e (length (Disk.m_shards d1))
                          else Disk.Falls_through d1) with
                   | Disk.Falls_through d' => tidy d'
                   | Disk.Leaves (Disk.Returns _ d') | Disk.Leaves (Disk.Throws d') => tidy d'
                   | Disk.Leaves Disk.Undefined => True
                   end).
  { destruct (secondary_mask (Disk.coord e) =? UINT32_MAX); [|exact Hdel].
    exact (flush_put_tidy e (length (Disk.m_shards d1)) d1 Hdel). }
  destruct (if secondary_mask (Disk.coord e) =? UINT32_MAX
            then Disk.flush_put d1 e (length (Disk.m_shards d1))
            else Disk.Falls_through d1) as [d2|o]; [|exact Hafter].
  apply IH. apply (tidy_same_files d2); try reflexivity. exact Hafter.
Qed.

(** The constructor on an empty directory leaves a tidy disk. *)
Lemma new_tidy files arity d :
  Disk.new Disk.empty_directory files arity = Disk.Returns tt d -> tidy d.
Proof using HK.
  intros Hnew.
  pose proof (new_inv HK _ _ _ _ Hnew) as Hinv.
  pose proof (new_partitioned _ _ _ _ Hnew) as Hpart.
  unfold Disk.new, Disk.create_shard, Disk.create_file in Hnew.
  cbn [Disk.m_spare_shards Disk.set_shards Disk.m_arity Disk.m_shards Disk.m_log Disk.m_base
       Disk.files_created Disk.m_spare_shard_counter] in Hnew.
  injection Hnew as <-.
  constructor; try assumption;
    unfold placement;
    cbn [Disk.set_shards Disk.m_shards Disk.m_base Disk.files_created Disk.m_spare_shards
         map fst snd Disk.file].
  - intros c f [Heq|[]]. injection Heq as <- <-. apply bind_name_same.
  - intros c.
    rewrite bind_name_other by (intros Heq; exact (shard_filename_not_tmp _ c (eq_sym Heq))).
    reflexivity.
  - reflexivity.
  - intros c f [Heq|[]]. injection Heq as _ <-. lia.
  - constructor; [intros []|constructor].
Qed.

(** Calls other than [preallocate] keep the disk tidy. *)
Lemma calls_tidy : forall h d d',
  tidy d -> ~ In Call_preallocate h -> after_calls d h = Some d' -> tidy d'.
Proof using HK.
  induction h as [|c h IH]; intros d d' Ht Hno Hafter; cbn [after_calls] in Hafter.
  - injection Hafter as <-. exact Ht.
  - destruct (call_on d c) as [d1|] eqn:Hcall; [|discriminate].
    apply (IH d1 d'); [|intros Hin; apply Hno; right; exact Hin|exact Hafter].
    destruct c as [k v ver|k| |]; cbn [call_on] in Hcall.
    + injection Hcall as <-. apply (tidy_same_files d); try exact Ht;
        unfold Disk.put; destruct (negb _); reflexivity.
    + injection Hcall as <-. apply (tidy_same_files d); try exact Ht; reflexivity.
    + pose proof (flush_loop_tidy 100 d Ht) as Hloop. unfold Disk.flush in Hcall.
      destruct (Disk.flush_loop d 100) as [rc d2|d2|]; [| |discriminate];
        injection Hcall as <-; exact Hloop.
    + exfalso. apply Hno. left. reflexivity.
Qed.

(** X21: the directory names the files of the shards. On a disk
    constructed on an empty directory, after any calls of [put], [del] and
    [flush] that have come back, with no spare shard ever added by
    [preallocate]: the canonical name of the coordinate of every shard of
    the vector refers in the directory to the file that shard maps, also
    after [flush] has replaced a shard by a clean copy or by its four
    children; no two shards map the same file; and no name of a temporary
    file is left in the directory. *)
Theorem directory_names_shards (files : nat) (arity : Z) (d0 d : Disk.disk)
        (h : list disk_call) :
  Disk.new Disk.empty_directory files arity = Disk.Returns tt d0 ->
  ~ In Call_preallocate h ->
  after_calls d0 h = Some d ->
  (forall c sp, In (c, sp) (Disk.m_shards d) ->
                Disk.m_base d (Disk.shard_filename c) = Some (Disk.file sp))
  /\ NoDup (map (fun cs => Disk.file (snd cs)) (Disk.m_shards d))
  /\ forall c, Disk.m_base d (Disk.shard_tmp_filename c) = None.
Proof using HK.
  intros Hnew Hno Hafter.
  destruct (calls_tidy h d0 d (new_tidy files arity d0 Hnew) Hno Hafter)
    as [_ _ Hnames Htmp _ _ Hfiles].
  split; [|split; [|exact Htmp]].
  - intros c sp Hin. apply Hnames. unfold placement.
    exact (in_map (fun cs => (fst cs, Disk.file (snd cs))) _ (c, sp) Hin).
  - rewrite <- placement_files. exact Hfiles.
Qed.

End DiskFilesCalls.

(** * The files of the shards: an example *)

Section FilesExample.
#[local] Existing Instance roomy_constants.

Lemma sample_plain_calls_return :
  after_calls sample_hash sample_hash_each sample_interlace fresh_disk sample_plain_calls
  = Some sample_plain_disk.
Proof.
  destruct (calls_hold roomy_constants_ok roomy_search_log_short
                       sample_hash sample_hash_each sample_interlace
                       sample_plain_calls fresh_disk [empty_contents] (fun _ => NotFound))
    as (d & Ms & Hafter & _).
  - apply (holds_new roomy_constants_ok roomy_search_log_short
                     sample_hash sample_hash_each sample_interlace
                     Disk.empty_directory 0%nat 2); [lia|reflexivity].
  - reflexivity.
  - unfold sample_plain_calls. repeat constructor; cbn; lia.
  - unfold sample_plain_disk. rewrite Hafter. reflexivity.
Qed.

Lemma directory_names_shards_witness :
  let d := sample_plain_disk in
  (forall c sp, In (c, sp) (Disk.m_shards d) ->
                Disk.m_base d (Disk.shard_filename c) = Some (Disk.file sp))
  /\ NoDup (map (fun cs => Disk.file (snd cs)) (Disk.m_shards d))
  /\ forall c, Disk.m_base d (Disk.shard_tmp_filename c) = None.
Proof.
  intros d.
  apply (directory_names_shards roomy_constants_ok sample_hash sample_hash_each
                                sample_interlace 0%nat 2 fresh_disk d sample_plain_calls).
  - reflexivity.
  - unfold sample_plain_calls. cbn [In].
    intros [H|[H|[H|[H|[H|[]]]]]]; discriminate.
  - exact sample_plain_calls_return.
Defined.

End FilesExample.

(** * [get] after [put] on a disk with a full hash table *)

Section FullTable.
Context {K : shard_constants}.
Hypothesis HK : constants_ok K.
Variable CityHash64 : buffer -> Z.
Variable CityHash64_each : list buffer -> list Z.
Variable lower_interlace : list Z -> Z.

(** With every slot assigned and none to the key, [hash_lookup] leaves its
    loop without a result, and so does [get]: the source runs into
    [assert(false)] and, past it, [get] reads a [table_value] that was never
    written. *)
Lemma get_on_full_table s ph key val ver :
  full_without s ph key = true -> Shard.get s ph key val ver = None.
Proof.
  intros Hfull. unfold Shard.get.
  destruct (Shard.hash_lookup (Shard.m_data s) ph key) as [[e w]|] eqn:Hl; [|reflexivity].
  exfalso.
  destruct (hash_lookup_spec HK _ _ _ _ _ Hl) as (off & _ & _ & He & Hw & _ & Hstop).
  unfold full_without in Hfull. rewrite forallb_forall in Hfull.
  specialize (Hfull e). cbv zeta in Hfull. rewrite <- Hw in Hfull.
  assert (Hin : In e (map Z.of_nat (seq 0 (Z.to_nat HASH_TABLE_ENTRIES)))).
  { apply in_map_iff. exists (Z.to_nat e). split; [lia|]. apply in_seq. lia. }
  specialize (Hfull Hin). apply andb_prop in Hfull as [Hnz Hother].
  destruct Hstop as [[Hph Hkey]|Hz].
  - rewrite Hph, Z.eqb_refl, Hkey in Hother. discriminate.
  - rewrite Hz in Hnz. discriminate.
Qed.

(** The walk of [disk::get] over the shards has no result when it comes
    to a shard in this state. *)
Lemma get_shards_full_table c k : forall shards rc val ver,
  existsb (fun cs => primary_contains (fst cs) c) shards = true ->
  forallb (fun cs => negb (primary_contains (fst cs) c)
                     || full_without (Disk.target (snd cs)) (primary_hash c) k) shards
  = true ->
  Disk.get_shards shards c k rc val ver = None.
Proof.
  induction shards as [|[ci si] rest IH]; intros rc val ver Hsome Hall; [discriminate|].
  cbn [existsb forallb fst snd] in Hsome, Hall. cbn [Disk.get_shards].
  apply andb_prop in Hall as [Hhere Hrest].
  destruct (primary_contains ci c); cbn [negb orb] in *.
  - rewrite (get_on_full_table _ _ _ val ver Hhere). reflexivity.
  - exact (IH rc val ver Hsome Hrest).
Qed.

(** On a disk where the shards that may hold the key have full hash tables
    without it, [put] returns [SUCCESS] and the [get] that follows has no
    result. *)
Lemma put_then_get_full_table d k v ver val0 ver0 :
  Z.of_nat (length v) + 1 = Disk.m_arity d ->
  existsb (fun cs => primary_contains (fst cs) (Disk.get_coordinate CityHash64 k))
          (Disk.m_shards d) = true ->
  forallb (fun cs => negb (primary_contains (fst cs) (Disk.get_coordinate CityHash64 k))
                     || full_without (Disk.target (snd cs)) (u32 (CityHash64 k)) k)
          (Disk.m_shards d) = true ->
  fst (Disk.put CityHash64 CityHash64_each lower_interlace d k v ver) = SUCCESS
  /\ Disk.get CityHash64 (snd (Disk.put CityHash64 CityHash64_each lower_interlace d k v ver))
              k val0 ver0 = None.
Proof.
  intros Harity Hsome Hall.
  rewrite (put_appends CityHash64 CityHash64_each lower_interlace d k v ver Harity).
  cbn [fst snd]. split; [reflexivity|].
  unfold Disk.get. cbn [Disk.set_log Disk.m_shards].
  rewrite (get_shards_full_table (Disk.get_coordinate CityHash64 k) k (Disk.m_shards d)
                                 NOTFOUND val0 ver0 Hsome Hall).
  reflexivity.
Qed.

End FullTable.

Section FullTableExample.
#[local] Existing Instance tight_constants.

Lemma tight_constants_ok : constants_ok tight_constants.
Proof. constructor; cbn; lia. Qed.

(** C1 fails on the code: on a disk in service whose shard has a full hash
    table, a [put] of a new key returns [SUCCESS] and the [get] of that key
    that follows has no result, where the claim has it return the value and
    the version put. Shown on a shard of two slots and two log entries: two
    keys are put and flushed, which assigns both slots; then the key [c] is
    put. *)
Theorem get_after_put_no_result :
  let d := disk_after two_puts_flushed in
  is_some (after_calls sample_hash sample_hash_each sample_interlace fresh_disk
                       two_puts_flushed) = true
  /\ map (fun cs => Shard.m_search_offset (Disk.target (snd cs))) (Disk.m_shards d)
     = [HASH_TABLE_ENTRIES]
  /\ Disk.get sample_hash d key_a [] 0 = Some (SUCCESS, value_1, 1)
  /\ fst (Disk.put sample_hash sample_hash_each sample_interlace d key_c value_2 3) = SUCCESS
  /\ Disk.get sample_hash
              (snd (Disk.put sample_hash sample_hash_each sample_interlace d key_c value_2 3))
              key_c [] 0 = None.
Proof.
  intros d.
  split; [vm_compute; reflexivity|]. split; [vm_compute; reflexivity|].
  split; [vm_compute; reflexivity|].
  apply (put_then_get_full_table tight_constants_ok sample_hash sample_hash_each
                                 sample_interlace d key_c value_2 3 [] 0).
  - vm_compute. reflexivity.
  - vm_compute. reflexivity.
  - vm_compute. reflexivity.
Qed.

End FullTableExample.

(** * A full shard with a spare shard at hand *)

Section FullShardSpare.
#[local] Existing Instance small_constants.

(** C3 fails on the code when a spare shard is queued: [flush] comes to a
    shard that is full and whose stale space is 30 percent or more, and
    [deal_with_full_shard] does not clean it. [create_tmp_shard] gives the
    spare file the name of the shard, not the temporary name, so that the
    [renameat] of [clean_shard] fails: the call returns [DROPFAILED], the
    shard of the vector is the old one, stale record and all, and the name
    of the shard now refers to the file of the spare. Shown on a small
    shard: a key is put twice and flushed, and the third put does not fit
    the file. Without the spare the same calls end in a shard that has been
    cleaned. *)
Theorem full_shard_not_cleaned :
  let zero := mk_coordinate 0 0 0 0 in
  let d := disk_after (Call_preallocate :: three_long_puts) in
  let d' := disk_of (Disk.flush d) in
  let e := disk_after three_long_puts in
  let e' := disk_of (Disk.flush e) in
  (is_some (after_calls sample_hash sample_hash_each sample_interlace fresh_disk
                        (Call_preallocate :: three_long_puts)) = true
   /\ map fst (Disk.m_spare_shards d) = ["spare-0"%string]
   /\ map shard_view (Disk.m_shards d) = [(0%nat, 2, 1512, true)]
   /\ returned (Disk.deal_with_full_shard d 0) = Some DROPFAILED
   /\ returned (Disk.flush d) = Some DROPFAILED
   /\ map shard_view (Disk.m_shards d') = [(0%nat, 2, 1520, true)]
   /\ Disk.m_base d' (Disk.shard_filename zero) = Some 1%nat)
  /\ (map fst (Disk.m_spare_shards e) = []
      /\ map shard_view (Disk.m_shards e) = [(0%nat, 2, 1512, true)]
      /\ returned (Disk.flush e) = Some SUCCESS
      /\ map shard_view (Disk.m_shards e') = [(1%nat, 0, INDEX_SEGMENT_SIZE, false)]
      /\ Disk.m_base e' (Disk.shard_filename zero) = Some 1%nat).
Proof.
  cbv zeta. split.
  - repeat split; vm_compute; reflexivity.
  - repeat split; vm_compute; reflexivity.
Qed.

End FullShardSpare.

(** * A full shard on a disk without spare shards *)

Section FullShardRoom.
Context {K : shard_constants}.
Hypothesis HK : constants_ok K.
Hypothesis HSH : SEARCH_INDEX_ENTRIES < HASH_TABLE_ENTRIES.
Variable CityHash64 : buffer -> Z.
Variable CityHash64_each : list buffer -> list Z.
Variable lower_interlace : list Z -> Z.

Local Abbreviation get := (Disk.get CityHash64).
Local Abbreviation holds := (holds CityHash64 CityHash64_each lower_interlace).
Local Abbreviation after_calls := (after_calls CityHash64 CityHash64_each lower_interlace).
Local Abbreviation mdo := Shard.m_data_offset.
Local Abbreviation mso := Shard.m_search_offset.

(** [clean_shard] without a spare shard at hand: a new file takes the
    place of the shard, under its name, and holds what the shard held,
    compacted. *)
Lemma clean_shard_compacts d i c sp M :
  sound c (Disk.target sp) M -> balanced c ->
  nth_error (Disk.m_shards d) i = Some (c, sp) -> Disk.m_spare_shards d = [] ->
  exists copied d',
    Disk.clean_shard d i = Disk.Returns SUCCESS d'
    /\ Disk.m_shards d'
       = Disk.replace (Disk.m_shards d) i (Disk.mk_shard_ptr (Disk.files_created d) copied)
    /\ Disk.m_base d' (Disk.shard_filename c) = Some (Disk.files_created d)
    /\ sound c copied M
    /\ no_tombstone copied
    /\ mso copied <= mso (Disk.target sp) /\ mdo copied <= mdo (Disk.target sp).
Proof using HK HSH.
  intros Hs Hc Hnth Hspare.
  pose proof (sound_refines _ _ _ Hs) as Href. pose proof (sound_log _ _ _ Hs) as Hlog.
  destruct (copy_to_spec HK (Z.lt_le_incl _ _ HSH) (Disk.target sp) M c Shard.create Href Hlog)
    as (copied & N & Hcopy & Hcp).
  destruct (copied_share HK _ M c copied N Href Hlog Hc Hcp) as [Hdst Hshare].
  pose proof (share_own HK c _ M N Hs Hshare) as Hsame.
  destruct Hcp as [_ _ _ Hlive _ [_ Hsearch] [_ Hdata] _ _].
  pose proof (inv_search_offset _ (ref_inv _ M Href)) as Hmso.
  destruct (Z.ltb_spec SEARCH_INDEX_ENTRIES (mso (Disk.target sp))) as [|_]; [lia|].
  unfold Disk.clean_shard. rewrite Hnth.
  unfold Disk.create_tmp_shard. rewrite Hspare. unfold Disk.create_file.
  cbn [Disk.target Disk.file]. rewrite Hcopy.
  unfold Disk.renameat. cbn [Disk.m_base]. rewrite bind_name_same.
  eexists copied, _. split; [reflexivity|].
  cbn [Disk.set_shards Disk.set_base Disk.m_shards Disk.m_base Disk.files_created].
  split; [reflexivity|]. split; [apply bind_name_same|].
  split; [|split; [exact Hlive|split; [exact Hsearch|exact Hdata]]].
  apply (sound_ext HK HSH c copied N M Hdst). intros ph key. symmetry. apply Hsame.
Qed.

(** The disks that calls without a turn of [preallocate] leave of a disk
    constructed on an empty directory. *)
Lemma plain_calls_hold files arity d0 h d :
  0 <= arity < 2 ^ 16 ->
  Disk.new Disk.empty_directory files arity = Disk.Returns tt d0 ->
  Forall disk_call_ok h -> ~ In Call_preallocate h ->
  after_calls d0 h = Some d ->
  (exists Ms, holds d Ms) /\ tidy d.
Proof using HK HSH.
  intros Har Hnew Hok Hno Hafter. split.
  - apply (served_holds HK HSH CityHash64 CityHash64_each lower_interlace).
    exists Disk.empty_directory, files, arity, d0, h.
    split; [exact Har|]. split; [exact Hnew|]. split; [exact Hok|exact Hafter].
  - exact (calls_tidy HK CityHash64 CityHash64_each lower_interlace h d0 d
                      (new_tidy HK files arity d0 Hnew) Hno Hafter).
Qed.

(** X22: what [deal_with_full_shard] makes of a shard when no spare shard
    is queued. On a disk constructed on an empty directory, after any calls
    of [put], [del] and [flush], with a search log shorter than the hash
    table, the call returns and [get] answers afterwards as before. When the
    stale space of the shard is 30 or more the call returns [SUCCESS] and a
    new file has taken the place of the shard in the vector and under its
    name: it answers every [get] as the shard did, carries no tombstone and
    its offsets are not larger. Otherwise, when both masks of the coordinate
    are full, the call returns [SPLITFAILED] and the disk is as it was; and
    in every remaining case it returns [SUCCESS] and four children have
    taken the place of the shard, with one more bit fixed in either mask. *)
Theorem full_shard_makes_room (files : nat) (arity : Z) (d0 d : Disk.disk)
        (h : list disk_call) (i : nat) (c : coordinate) (sp : Disk.shard_ptr) :
  0 <= arity < 2 ^ 16 ->
  Disk.new Disk.empty_directory files arity = Disk.Returns tt d0 ->
  Forall disk_call_ok h -> ~ In Call_preallocate h ->
  after_calls d0 h = Some d ->
  nth_error (Disk.m_shards d) i = Some (c, sp) ->
  exists rc d',
    Disk.deal_with_full_shard d i = Disk.Returns rc d'
    /\ (forall k val ver,
          exists r r', get d k val ver = Some r /\ get d' k val ver = Some r'
                       /\ as_lookup r' = as_lookup r)
    /\ if Shard.stale_space (Disk.target sp) >=? 30 then
         rc = SUCCESS
         /\ exists copied,
             Disk.m_shards d'
             = Disk.replace (Disk.m_shards d) i
                            (Disk.mk_shard_ptr (Disk.files_created d) copied)
             /\ Disk.m_base d' (Disk.shard_filename c) = Some (Disk.files_created d)
             /\ no_tombstone copied
             /\ mso copied <= mso (Disk.target sp) /\ mdo copied <= mdo (Disk.target sp)
             /\ forall ph key val ver,
                 is_u32 ph ->
                 Shard.get copied ph key val ver = Shard.get (Disk.target sp) ph key val ver
       else if (primary_mask c =? UINT32_MAX) && (secondary_mask c =? UINT32_MAX) then
         rc = SPLITFAILED /\ d' = d
       else
         rc = SUCCESS
         /\ exists sb lb ub,
             (0 <= sb <= 31 /\ Z.testbit (secondary_mask c) sb = false)
             /\ (0 <= lb <= 31 /\ Z.testbit (primary_mask c) lb = false)
             /\ (0 <= ub <= 31 /\ Z.testbit (primary_mask c) ub = false)
             /\ coordinates d'
                = firstn i (coordinates d) ++ skipn (S i) (coordinates d)
                  ++ children c sb lb ub.
Proof using HK HSH.
  intros Har Hnew Hok Hno Hafter Hnth.
  destruct (plain_calls_hold files arity d0 h d Har Hnew Hok Hno Hafter) as [[Ms Hd] Ht].
  assert (Hi : (i < length (Disk.m_shards d))%nat).
  { apply nth_error_Some. rewrite Hnth. discriminate. }
  pose proof (deal_with_full_shard_holds HK HSH CityHash64 CityHash64_each lower_interlace
                                         d i Ms Hd Hi) as Hkept.
  destruct (holds_nth CityHash64 CityHash64_each lower_interlace d Ms i c sp Hd Hnth)
    as [Hc Hshort].
  pose proof (balanced_full c Hc) as Hfull.
  assert (Hanswers : forall d', kept CityHash64 CityHash64_each lower_interlace d Ms d' ->
            forall k val ver,
            exists r r', get d k val ver = Some r /\ get d' k val ver = Some r'
                         /\ as_lookup r' = as_lookup r).
  { intros d' Hk k val ver.
    apply (answers_as_get HK HSH CityHash64 CityHash64_each lower_interlace d Ms d' k val ver Hd).
    apply kept_answers. exact Hk. }
  unfold Disk.deal_with_full_shard in *. rewrite Hnth in *.
  destruct (Shard.stale_space (Disk.target sp) >=? 30).
  - destruct (Forall2_nth_split _ _ _ i (c, sp) (holds_shards _ _ _ d Ms Hd) Hnth)
      as (v1 & v2 & Ms1 & M & Ms2 & _ & _ & _ & _ & _ & Hs & _).
    cbn [fst snd] in Hs.
    destruct (clean_shard_compacts d i c sp M Hs Hc Hnth (tidy_spares d Ht))
      as (copied & d' & Hclean & Hv' & Hb' & Hcopied & Hlive & Hsearch & Hdata).
    rewrite Hclean in *. exists SUCCESS, d'. split; [reflexivity|].
    split; [exact (Hanswers d' Hkept)|]. split; [reflexivity|].
    exists copied. split; [exact Hv'|]. split; [exact Hb'|]. split; [exact Hlive|].
    split; [exact Hsearch|]. split; [exact Hdata|].
    intros ph key val ver Hph.
    rewrite (sound_get HK HSH c copied M ph key val ver Hcopied Hph).
    rewrite (sound_get HK HSH c (Disk.target sp) M ph key val ver Hs Hph). reflexivity.
  - destruct (Z.eqb_spec (primary_mask c) UINT32_MAX) as [Hpm|Hpm];
      destruct (Z.eqb_spec (secondary_mask c) UINT32_MAX) as [Hsm|Hsm]; cbn [orb andb] in *.
    + exists SPLITFAILED, d. split; [reflexivity|]. split; [exact (Hanswers d Hkept)|].
      split; reflexivity.
    + exfalso. apply Hsm, Hfull, Hpm.
    + exfalso. apply Hpm, Hfull, Hsm.
    + pose proof (split_shard_files d i c sp Hnth (tidy_spares d Ht)) as Hfiles.
      pose proof (split_shard_children HK d i c sp Hnth Hc Hshort Hpm Hsm) as Hchildren.
      destruct (Disk.split_shard d i) as [rc d'|d'|]; [|contradiction|contradiction].
      destruct Hfiles as (c1 & c2 & c3 & c4 & s1 & s2 & s3 & s4 & Hf). cbv zeta in Hf.
      destruct Hf as (-> & _).
      exists SUCCESS, d'. split; [reflexivity|]. split; [exact (Hanswers d' Hkept)|].
      split; [reflexivity|].
      destruct Hchildren as [[Hrc _]|(_ & sb & lb & ub & Hsb & Hlb & Hub & Hcs)];
        [discriminate|].
      exists sb, lb, ub. split; [exact Hsb|]. split; [exact Hlb|]. split; [exact Hub|exact Hcs].
Qed.

End FullShardRoom.

Section FullShardRoomExample.
#[local] Existing Instance small_constants.

Lemma disk_after_some (h : list disk_call) :
  is_some (after_calls sample_hash sample_hash_each sample_interlace fresh_disk h) = true ->
  after_calls sample_hash sample_hash_each sample_interlace fresh_disk h
  = Some (disk_after h).
Proof.
  unfold disk_after.
  destruct (after_calls sample_hash sample_hash_each sample_interlace fresh_disk h);
    [reflexivity|discriminate].
Qed.

Lemma three_long_puts_plain :
  Forall disk_call_ok three_long_puts /\ ~ In Call_preallocate three_long_puts.
Proof.
  split.
  - unfold three_long_puts. repeat constructor; cbn; lia.
  - unfold three_long_puts. cbn [In]. intros [H|[H|[H|[H|[]]]]]; discriminate.
Qed.

(** The shard of the disk the three long puts leave is a third stale: the
    call cleans it. *)
Lemma full_shard_makes_room_witness :
  let zero := mk_coordinate 0 0 0 0 in
  let sp := snd (hd (zero, Disk.mk_shard_ptr 0 Shard.create) (Disk.m_shards stale_small_disk)) in
  (Shard.stale_space (Disk.target sp) >=? 30) = true
  /\ exists rc d',
      Disk.deal_with_full_shard stale_small_disk 0 = Disk.Returns rc d'
      /\ (forall k val ver,
            exists r r', Disk.get sample_hash stale_small_disk k val ver = Some r
                         /\ Disk.get sample_hash d' k val ver = Some r'
                         /\ as_lookup r' = as_lookup r)
      /\ if Shard.stale_space (Disk.target sp) >=? 30 then
           rc = SUCCESS
           /\ exists copied,
               Disk.m_shards d'
               = Disk.replace (Disk.m_shards stale_small_disk) 0
                              (Disk.mk_shard_ptr (Disk.files_created stale_small_disk) copied)
               /\ Disk.m_base d' (Disk.shard_filename zero)
                  = Some (Disk.files_created stale_small_disk)
               /\ no_tombstone copied
               /\ Shard.m_search_offset copied <= Shard.m_search_offset (Disk.target sp)
               /\ Shard.m_data_offset copied <= Shard.m_data_offset (Disk.target sp)
               /\ forall ph key val ver,
                   is_u32 ph ->
                   Shard.get copied ph key val ver
                   = Shard.get (Disk.target sp) ph key val ver
         else if (primary_mask zero =? UINT32_MAX) && (secondary_mask zero =? UINT32_MAX) then
           rc = SPLITFAILED /\ d' = stale_small_disk
         else
           rc = SUCCESS
           /\ exists sb lb ub,
               (0 <= sb <= 31 /\ Z.testbit (secondary_mask zero) sb = false)
               /\ (0 <= lb <= 31 /\ Z.testbit (primary_mask zero) lb = false)
               /\ (0 <= ub <= 31 /\ Z.testbit (primary_mask zero) ub = false)
               /\ coordinates d'
                  = firstn 0 (coordinates stale_small_disk)
                    ++ skipn 1 (coordinates stale_small_disk) ++ children zero sb lb ub.
Proof.
  cbv zeta. split; [vm_compute; reflexivity|].
  assert (Hsome : is_some (after_calls sample_hash sample_hash_each sample_interlace
                                       fresh_disk three_long_puts) = true)
    by (vm_compute; reflexivity).
  assert (Hfst : map fst (Disk.m_shards stale_small_disk) = [mk_coordinate 0 0 0 0])
    by (vm_compute; reflexivity).
  exact (full_shard_makes_room
           small_constants_ok small_search_log_short
           sample_hash sample_hash_each sample_interlace
           0%nat 2 fresh_disk stale_small_disk three_long_puts 0%nat (mk_coordinate 0 0 0 0)
           (snd (hd (mk_coordinate 0 0 0 0, Disk.mk_shard_ptr 0 Shard.create)
                    (Disk.m_shards stale_small_disk)))
           ltac:(lia) eq_refl (proj1 three_long_puts_plain) (proj2 three_long_puts_plain)
           (disk_after_some three_long_puts Hsome)
           (first_shard (Disk.m_shards stale_small_disk) (mk_coordinate 0 0 0 0) Hfst)).
Defined.

End FullShardRoomExample.

